(* ===== verification/_CoqProject ===== *)
-Q . S2P
Prelude.v
Geometry.v
SolverGeometry.v
PathString.v
Memo.v
Counting.v
DPSolver.v
DPSpec.v
MemoInv.v
DPRefine.v
Depth.v
Bounds.v
Drivers.v
Screen.v
Batch.v
Findings.v
SharedMemo.v
Hull.v
HullJump.v
Generator.v
Run.v
Trials.v
Convex.v
ScreenSaver.v
Script.v
Crashes.v
Output.v
