(* ===== verification/Prelude.v ===== *)
(** * PathStrings: a verification development

    The repository (src/CleanSolution.py, src/Solver.py,
    src/PartialOrderings.py) enumerates crossing-free directed polygonal
    paths through a planar point set whose up/down profile matches a
    pattern over {U, D}.  Its parts and how they interact:

    - geometric primitives ([LineSegment.signedArea], [contains],
      [orientation], [intersect], the same in both Python files): pure
      functions used by the solvers;
    - the path-string DP solvers, [pathString] in Solver.py and
      [pathStringDP] in CleanSolution.py: recursive enumerators that
      thread a memo dictionary [solved] through their recursive calls
      and call [intersect] to reject crossing extensions.  They share
      the base case and Cases I, II, III; [pathStringDP] returns from
      its Case III loop after the first "UD" position;
    - the counting oracle [partialOrderings] (PartialOrderings.py): the
      solvers' case structure without geometry, memoised the same way;
    - the entry points the drivers call, [pathStringBulkNoWrite] and
      [pathStringWrapper] (Solver.py, which sorts the points highest
      first) and [pathStringDPWrapper] (CleanSolution.py, which sorts
      the caller's list in place, lowest first);
    - the batch drivers [generateAllPathStrings] and
      [nonIntersectingPaths]: a loop over all [2^(n-1)] patterns of a
      point set, calling [pathStringDPWrapper] with one shared memo;
    - Solver.py's trial driver [bunchOfTrials]: the same loop over
      several point sets, each with its own memo, calling
      [pathStringBulkNoWrite];
    - the Graham scan [convexHull] and the Jarvis step
      [jarvisMarchSinglePass], which hull jumping
      ([hullJumpingRecursive]) calls to walk the hull of the remaining
      points;
    - the point generators, which draw random points and keep those
      that pass a non-degeneracy test, and [generateConvexPoints],
      which draws points on a circle;
    - hull jumping ([hullJumping], [hullJumpingRecursive]), a
      recursive enumerator that jumps between hull points, the
      specification's cross-check of the DP solver, which
      CleanSolution.py runs at its last two lines;
    - the display code: Solver.py's [screenSaver], a loop that draws
      points and a pattern, solves it with [pathStringBulkNoWrite] and
      shows the paths, the drawing functions and the [__repr__]
      methods that print points and segments.

    Files, in dependency order:

    - [Prelude] (this file): Python exceptions as the result type [res];
      the state-and-exception monad [St] with its notation in
      [py_scope]; loops [st_for], [st_fold]; Python list operations
      [py_get], [py_pop], [py_insert] with their lemmas; hint databases
      [pylist], [pylist_rw]; tactics [res_simpl], [st_step], [st_run];
      Hoare triples [hoare P c Q] on [St] with their rules, for
      invariants every operation keeps.
    - [Geometry]: [Pt], [LineSegment], [signedArea], and, in a Section
      over the tolerance [epsilon], [contains], [orientation],
      [intersect]; the interface [SegmentTest] (a symmetric crossing
      test) through which the solvers use [intersect], and its instance
      [python_segments].  Theorems: [intersect] is symmetric and
      independent of the segments' directions; segments sharing an
      endpoint intersect.
    - [SolverGeometry]: Solver.py's own [LineSegment] methods
      ([SolverPy.signedArea], [contains], [orientation], [intersect]),
      translated from that file, and [solver_segments], the crossing test
      of Solver.py's solver, which [Run], [Trials], [ScreenSaver] and
      [Crashes] use; the two files' methods compute the same functions.
    - [PathString]: patterns as lists of [dir], and the slicing the code
      does on them ([string[1:]], [string[:-1]], the collapse of a "UD"
      pair, the tests on characters).
    - [Memo]: the idiom [if key not in solved: solve(key); solved[key]]
      ([get_or_solve]) and the memo contract both memoised recursions
      satisfy: every entry shorter than the current key is final
      ([memo_below]), a call fills its key and changes no other entry of
      its length or longer ([memo_post]).
    - [Counting]: [partialOrderings] in the monad, with the placeholder
      [[]] and the integer counts of [solved] kept apart, and the pure
      recursion [orderings]; [partialOrderings_refines]: from an empty
      dictionary the code returns [orderings] and stores only final
      counts; [partialOrderings_total]: its counts over the [2^n]
      patterns of length [n] add up to [(n+1)!], the orders of [n+1]
      heights.
    - [DPSolver]: the solvers.  Each block of the source is a
      definition: [base_block], [case1_block], [case2_block], [case3_at]
      (one "UD" position) and the per-solution extensions
      [case1_extend], [case2_extend], [case3_extend] with every
      intersection check of the source; [pathString] and [pathStringDP]
      compose them as the code does.
    - [DPSpec]: the reference recursion [solutions sel points s],
      without memo, structural on the reversed point list, with [sel]
      the positions Case III tries; the predicate [valid_path] (a chain
      through every point once, following the pattern, no two
      non-adjacent edges intersecting), decidable; [solutions_valid]:
      on points of increasing height every reference solution is valid.
    - [MemoInv]: the memo invariant as Hoare triples: every path
      stored under a key [k] has [len(k)] edges; every block, and both
      solvers for any points and depth, keep it.
    - [DPRefine]: the memoised code computes the reference recursion,
      block by block: [pathString_refines] (every "UD" position) and
      [pathStringDP_refines] (the first "UD" position only).
    - [Depth]: the recursion depth: on a fresh memo both solvers and
      [partialOrderings] raise [RecursionError] exactly when the depth
      allowed is below [len(string)], since each call's first recursive
      call is on a shorter pattern the memo does not hold yet.
    - [Bounds]: the reference recursion has at most [orderings s]
      solutions.
    - [Drivers]: the entry points, the sort by height, and the
      end-to-end theorems on a fresh memo: soundness of both solvers,
      [pathStringDP]'s paths are among [pathString]'s, and both counts
      are bounded by [partialOrderings].
    - [Screen]: Solver.py's [pathStringWrapper], which sorts the points
      highest first.  The reference recursion commutes with any
      renaming of the points that keeps the crossing test, and the
      mirror [(x, y) -> (x, -y)] keeps [intersect]; so the wrapper
      returns a path valid in screen coordinates ("U" goes to a smaller
      [y]) when there is one, and raises [IndexError] if and only if
      there is none.
    - [Batch]: the patterns of [generateAllPathStrings] and
      [nonIntersectingPaths] from the binary digits of [i]
      ([pattern_of]), the loop over them with the shared memo and the
      subscript of the wrapper's result.  Theorems: [pattern_of] and
      the binary reading [decode] are inverse, so the loop builds every
      pattern of length [n - 1] once; both drivers raise [TypeError] on
      their first pattern.
    - [Findings]: the solvers evaluated on concrete points, the
      evidence of three findings: the early return loses paths; the
      specification's three-point example has two solutions, not one;
      the solvers miss valid paths.
    - [SharedMemo]: two calls sharing the default [solved={}]: every
      write of the solvers is an insertion, the first call leaves every
      key the second looks up, and the second then reads its points only
      through the top one, so it stores the reference solutions on the
      first call's lowest points and its own top point.
    - [Hull]: [convexHull] (pivot search, removal of the pivot from the
      caller's list, sort by the slope key in [Q], the stack scan with
      the stack kept top first so that its [while] loop is structural
      recursion) and [jarvisMarchSinglePass].  Theorems: under general
      position the scan returns, without error, a strictly convex
      counterclockwise polygon of distinct input points starting at the
      lowest one; two lowest points raise [ZeroDivisionError] (the
      specification's square example); from a hull vertex, the Jarvis
      step returns its two tangent neighbours.
    - [HullJump]: [hullJumping] and [hullJumpingRecursive], structural
      on the pattern, with the Jarvis walk of the new hull bounded by
      [fuel] ([OutOfFuel] when spent).  Theorems: every path returned,
      in visiting order, follows the pattern with its last character
      flipped (the base case tests the opposite direction from the
      recursive case), so hull jumping never returns a path that
      follows its pattern; the walk [while p4.x != p2.x and p4.y !=
      p2.y], whenever it returns, has stopped at the first point sharing
      one coordinate with [p2], which need not be [p2].
    - [Generator]: [generatePoints] of both files, with the random
      draws as an input list.  Theorems: CleanSolution.py's generator
      keeps points of distinct heights, none on a segment between two
      earlier ones; yet neither generator gives general position: a
      collinear draw outside the x-range of a segment is kept, and
      Solver.py keeps two points of the same height; on draws of
      distinct heights the two generators agree; on draws in general
      position CleanSolution.py's generator keeps the first [n].  Also
      [randomPathString] of both files, from the draws of
      [random.uniform(0,1)].
    - [Run]: Solver.py's [randomRun]: the pattern it draws is one
      character short, so its path visits [n - 1] of its [n] points.
    - [Trials]: Solver.py's [bunchOfTrials], with one memo per point
      set shared by all the patterns and filled in place (a list of
      memos updated at the set's index).  It computes the lines of the
      reference recursion, and raises [NameError] at the first pattern
      a set has no path for (it names [pointSet], which is unbound);
      collinear draws that [generatePoints] keeps lead there.
    - [Convex]: [generateConvexPoints] over the reals of the Standard
      Library, an idealisation of its floats: there the points lie on
      the circle and [theta] and [PI - theta] both pass its test and give
      two points of the same height; these lemmas hold of exact reals
      only and are not claims about the float code.
    - [ScreenSaver]: Solver.py's [screenSaver] as a loop of frames and
      as a transition system of the window's scenes: every reachable
      scene shows the solver's paths, valid in screen coordinates; with
      a depth of 9 the loop runs through its draws.  The [try] block
      keeps only [x[string]] and the scene (the graphics calls are not
      modelled), so the model never takes the [except IndexError]
      branch by construction.
    - [Script]: the two lines CleanSolution.py runs when loaded, hull
      jumping and the DP solver on "UDUU": their answers never share a
      path.
    - [Crashes]: the two drivers that raise [NameError] before their
      work, each translated whole: Solver.py's [generateAllPathStrings]
      (line 251 reads [points] before assigning it; the loop it cuts off
      would write, through [pathStringBulk], the number of reference
      solutions of every pattern, [bulk_lines_run]) and
      CleanSolution.py's [bunchOfTrials] (line 365 uses unbound names;
      the loop it cuts off would raise [TypeError] at its first
      pattern, [clean_trials_TypeError]).
    - [Output]: the text the code prints: [Pt.__repr__] (a point's text
      reads back to the point, [parse_pt_repr]), both files'
      [LineSegment.__repr__] (Solver.py's raises [NameError]) and the
      line printed at line 547; CleanSolution.py's [display], which
      raises [TypeError] at its first point ([Circle] without radius).

    Modelling conventions.
    - Coordinates are integers [Z], except in [Convex], whose points
      come from [cos] and [sin] and are reals.  The source converts them to
      floats; for integer coordinates of moderate size every test of the
      code (a sign test of degree two) is exact in floating point, and
      the tolerance [1e-2] decides exactly as [0], so [python_segments 0]
      is the code's test.  Other float inputs, and rounding, are not
      modelled.
    - Exceptions are values of [res].  A recursion is a [Fixpoint] on a
      fuel argument, the recursion depth Python allows, raising
      [RecursionError] when it runs out; the theorems show that a depth
      of [len(string)] is enough and needed, so beyond it the fuel never
      changes the result.
    - Dictionaries are stdpp [gmap]s updated in place through the state
      of [St]; Python lists are Rocq lists with out-of-range indexing
      raising [IndexError]; [list.remove] raises [ValueError].
    - The hull is exact: the sort key [(p.x - bottom.x)/(p.y -
      bottom.y)] is a rational, so ties that float rounding could
      create between different slopes are not modelled.
    - The only unbounded loop, the hull walk of [hullJumpingRecursive],
      takes a bound and yields [OutOfFuel] when it is spent (Python
      would go on looping); its theorems hold for every bound.
    - Random draws are inputs: the generators take the list of points
      [random.uniform] would draw, [randomPathString] the list of
      rationals [random.uniform(0,1)] would draw (every float is a
      dyadic rational, so [Q] holds each exactly).

    Not modelled: the graphics library calls themselves (what a window
    shows is modelled as a [scene]: its circles, arrows and caption;
    colours, widths, sleeps and window creation are not); the file
    output beyond the lines written (opening and closing files); the
    progress [print(i)] lines; the text line 548 prints, a dictionary
    whose keys Python prints in the insertion order of [pathStringDP],
    an order the model's [gmap] does not keep (its value is modelled);
    the random sampling itself ([random.uniform]), whose draws are
    inputs; float rounding of [generateConvexPoints]'s [cos] and [sin],
    and [str] of floats of more than 16 digits. *)

From stdpp Require Import base list.
From Stdlib Require Import ZArith Lia.

Declare Scope py_scope.
Delimit Scope py_scope with py.

(** ** Python exceptions and results *)

(** The exceptions the modelled code can raise. *)
Inductive exc :=
| IndexError
| KeyError
| ZeroDivisionError
| TypeError
| RecursionError
| ValueError
| NameError
(** Not a Python exception: a [while] loop of the model reached the
    bound it is given; Python would go on looping. *)
| OutOfFuel.

#[export] Instance exc_eq_dec : EqDecision exc.
Proof. solve_decision. Defined.

(** A Python computation that returns a value or raises. *)
Inductive res (A : Type) :=
| Ok (a : A)
| Raise (e : exc).
Arguments Ok {A} a.
Arguments Raise {A} e.

Definition res_bind {A B} (r : res A) (k : A -> res B) : res B :=
  match r with
  | Ok a => k a
  | Raise e => Raise e
  end.

(** ** A state-and-exception monad

    Mutable state threaded through a computation (the memo dictionary of
    the DP, the stack of the Graham scan).  An exception aborts the whole
    computation: the code never catches the exceptions modelled here. *)
Definition St (S A : Type) : Type := S -> res (A * S).

Definition st_ret {S A} (a : A) : St S A := fun s => Ok (a, s).
Definition st_bind {S A B} (c : St S A) (k : A -> St S B) : St S B :=
  fun s => match c s with
           | Ok (a, s') => k a s'
           | Raise e => Raise e
           end.
Definition st_raise {S A} (e : exc) : St S A := fun _ => Raise e.
Definition st_lift {S A} (r : res A) : St S A :=
  fun s => match r with Ok a => Ok (a, s) | Raise e => Raise e end.
Definition st_get {S} : St S S := fun s => Ok (s, s).
Definition st_put {S} (s : S) : St S unit := fun _ => Ok (tt, s).
Definition st_modify {S} (f : S -> S) : St S unit := fun s => Ok (tt, f s).

Notation "x <- c ;; k" := (st_bind c (fun x => k))
  (at level 60, c at next level, right associativity) : py_scope.

Notation "x <-? r ;; k" := (res_bind r (fun x => k))
  (at level 60, r at next level, right associativity) : py_scope.

Open Scope py_scope.

(** [for x in l: body(x)] *)
Fixpoint st_for {S A} (l : list A) (body : A -> St S unit) : St S unit :=
  match l with
  | [] => st_ret tt
  | a :: l' => u <- body a ;; st_for l' body
  end.

(** [for x in l: acc = body(acc, x)], the loops that update a local
    accumulator. *)
Fixpoint st_fold {S A B} (l : list A) (acc : B) (body : B -> A -> St S B) : St S B :=
  match l with
  | [] => st_ret acc
  | a :: l' => acc' <- body acc a ;; st_fold l' acc' body
  end.

(** ** Python list operations *)

(** [l[i]] for [0 <= i]. *)
Definition py_get {A} (l : list A) (i : nat) : res A :=
  match l !! i with Some a => Ok a | None => Raise IndexError end.

(** [l[-1]]. *)
Definition py_last {A} (l : list A) : res A :=
  match last l with Some a => Ok a | None => Raise IndexError end.

(** [l.pop(i)]: the removed element and the remaining list. *)
Definition py_pop {A} (i : nat) (l : list A) : res (A * list A) :=
  match l !! i with
  | Some a => Ok (a, take i l ++ drop (S i) l)
  | None => Raise IndexError
  end.

(** [l.remove(x)]: the first element equal to [x] is removed;
    [ValueError] when there is none. *)
Fixpoint py_remove `{EqDecision A} (x : A) (l : list A) : res (list A) :=
  match l with
  | [] => Raise ValueError
  | a :: l' => if decide (a = x) then Ok l' else res_bind (py_remove x l') (fun r => Ok (a :: r))
  end.

(** [l.insert(i, x)] for [0 <= i]: Python inserts at the end when [i]
    is past the end of the list, as [take]/[drop] do. *)
Definition py_insert {A} (i : nat) (x : A) (l : list A) : list A :=
  take i l ++ x :: drop i l.

(** ** Automation *)

Create HintDb pylist.
Create Rewrite HintDb pylist_rw.

(** Destructs the matches on [res] results and on options in
    hypotheses of the form [match .. with .. end = Ok _]. *)
Ltac res_simpl :=
  repeat match goal with
  | H : Ok _ = Ok _ |- _ => injection H as H; subst
  | H : Raise _ = Ok _ |- _ => discriminate H
  | H : Ok _ = Raise _ |- _ => discriminate H
  | H : (_, _) = (_, _) |- _ => injection H as H; subst
  | H : context [match ?r with Ok _ => _ | Raise _ => _ end] |- _ =>
      let E := fresh "E" in destruct r eqn:E
  | H : context [match ?o with Some _ => _ | None => _ end] |- _ =>
      let E := fresh "E" in destruct o eqn:E
  end.

(** ** Lemmas on the list operations *)

Section ListOps.
Context {A : Type}.
Implicit Types (l : list A) (x : A).

Lemma py_get_Ok l i x : py_get l i = Ok x <-> l !! i = Some x.
Proof. unfold py_get. destruct (l !! i); split; congruence. Qed.

Lemma py_get_lt l i : i < length l -> exists x, py_get l i = Ok x.
Proof.
  intros Hi. destruct (lookup_lt_is_Some_2 l i Hi) as [x Hx].
  exists x. by apply py_get_Ok.
Qed.

Lemma py_last_app_one l x : py_last (l ++ [x]) = Ok x.
Proof. unfold py_last. by rewrite last_snoc. Qed.

Lemma py_pop_Ok l i x r :
  py_pop i l = Ok (x, r) <-> l !! i = Some x /\ r = take i l ++ drop (S i) l.
Proof.
  unfold py_pop. destruct (l !! i); split.
  - intros H. injection H as -> ->. done.
  - intros [[= ->] ->]. done.
  - discriminate.
  - intros [? _]. discriminate.
Qed.

(** Popping index [length l1] of [l1 ++ x :: l2] gives [x] and [l1 ++ l2]. *)
Lemma py_pop_middle l1 x l2 :
  py_pop (length l1) (l1 ++ x :: l2) = Ok (x, l1 ++ l2).
Proof.
  unfold py_pop. rewrite lookup_app_r, Nat.sub_diag by lia. simpl.
  rewrite take_app_length, drop_app_ge by lia.
  by replace (S (length l1) - length l1) with 1 by lia.
Qed.

(** Every list with an element at [i] is split there. *)
Lemma list_split_at l i x :
  l !! i = Some x -> l = take i l ++ x :: drop (S i) l /\ length (take i l) = i.
Proof.
  intros Hx. split.
  - symmetry. by apply take_drop_middle.
  - apply length_take_le. apply lookup_lt_Some in Hx. lia.
Qed.

Lemma py_insert_middle l1 x l2 : py_insert (length l1) x (l1 ++ l2) = l1 ++ x :: l2.
Proof. unfold py_insert. by rewrite take_app_length, drop_app_length. Qed.

Lemma length_py_insert i x l : length (py_insert i x l) = S (length l).
Proof.
  unfold py_insert. rewrite length_app. simpl.
  rewrite length_take, length_drop. lia.
Qed.
End ListOps.

#[export] Hint Rewrite @py_pop_middle @py_insert_middle @py_last_app_one : pylist_rw.
#[export] Hint Resolve py_get_lt : pylist.

(** ** Renaming the elements of a list

    The list operations commute with [map]: an exception is raised at
    the same place, a value is the image of the value. *)

Definition res_map {A B} (g : A -> B) (r : res A) : res B :=
  match r with Ok a => Ok (g a) | Raise e => Raise e end.

Section MapOps.
Context {A B : Type} (g : A -> B).

Lemma py_get_map l i : py_get (map g l) i = res_map g (py_get l i).
Proof. unfold py_get. rewrite list_lookup_fmap. by destruct (l !! i). Qed.

Lemma py_pop_map i l :
  py_pop i (map g l) = res_map (fun r => (g r.1, map g r.2)) (py_pop i l).
Proof.
  unfold py_pop. rewrite list_lookup_fmap. destruct (l !! i); simpl; [|done].
  by rewrite map_app, firstn_map, skipn_map.
Qed.

Lemma py_insert_map i a l : py_insert i (g a) (map g l) = map g (py_insert i a l).
Proof. unfold py_insert. by rewrite map_app, firstn_map, skipn_map. Qed.
End MapOps.

(** ** Sums *)

Lemma NoDup_map_1 {A B} (f : A -> B) (l : list A) : NoDup (map f l) -> NoDup l.
Proof.
  induction l as [|a l IH]; simpl; intros Hnd; [constructor|].
  apply NoDup_cons in Hnd as [Ha Hnd]. constructor; [|by apply IH].
  intros Hin. apply Ha, list_elem_of_In, in_map, list_elem_of_In, Hin.
Qed.

(** [rev] read by index from the end. *)
Lemma lookup_rev {A} (l : list A) i : i < length l -> rev l !! i = l !! (length l - S i).
Proof. intros Hi. rewrite rev_alt. by apply reverse_lookup. Qed.

Lemma sum_list_with_ext {A} (f g : A -> nat) (l : list A) :
  (forall a, a ∈ l -> f a = g a) -> sum_list_with f l = sum_list_with g l.
Proof.
  induction l as [|a l IH]; intros Hfg; simpl; [done|].
  f_equal; [apply Hfg; by left|apply IH; intros b Hb; apply Hfg; by right].
Qed.

(** ** Lemmas on the monad *)

Lemma st_bind_ext {S A B} (c : St S A) (k1 k2 : A -> St S B) (s : S) :
  (forall a s', k1 a s' = k2 a s') -> st_bind c k1 s = st_bind c k2 s.
Proof. intros Hk. unfold st_bind. destruct (c s) as [[a s']|e]; auto. Qed.

Lemma st_bind_Ok {S A B} (c : St S A) (k : A -> St S B) (s s' : S) (a : A) :
  c s = Ok (a, s') -> st_bind c k s = k a s'.
Proof. intros H. unfold st_bind. by rewrite H. Qed.

Lemma st_lift_Ok {S A} (a : A) (s : S) : st_lift (Ok a) s = Ok (a, s).
Proof. reflexivity. Qed.

Lemma st_ret_Ok {S A} (a : A) (s : S) : st_ret a s = Ok (a, s).
Proof. reflexivity. Qed.

Lemma st_get_Ok {S} (s : S) : st_get s = Ok (s, s).
Proof. reflexivity. Qed.

Lemma st_put_Ok {S} (s s' : S) : st_put s' s = Ok (tt, s').
Proof. reflexivity. Qed.

Lemma st_modify_Ok {S} (f : S -> S) (s : S) : st_modify f s = Ok (tt, f s).
Proof. reflexivity. Qed.

(** Runs the first step of a [st_bind] whose result is given by [H]. *)
Ltac st_step H := rewrite (st_bind_Ok _ _ _ _ _ H); cbv beta.

(** Runs the first step of a [st_bind], whose result the lemma [lem]
    gives once unified with it. *)
Ltac st_run lem := erewrite st_bind_Ok by (apply lem); cbv beta.

Lemma st_bind_Raise {S A B} (c : St S A) (k : A -> St S B) (s : S) e :
  c s = Raise e -> st_bind c k s = Raise e.
Proof. intros H. unfold st_bind. by rewrite H. Qed.

Lemma st_bind_assoc {S A B C} (c : St S A) (k1 : A -> St S B) (k2 : B -> St S C) (s : S) :
  st_bind (st_bind c k1) k2 s = st_bind c (fun a => st_bind (k1 a) k2) s.
Proof. unfold st_bind. destruct (c s) as [[a s']|e]; reflexivity. Qed.

Lemma st_for_app {S A} (l1 l2 : list A) (body : A -> St S unit) (s : S) :
  st_for (l1 ++ l2) body s = st_bind (st_for l1 body) (fun _ => st_for l2 body) s.
Proof.
  revert s. induction l1 as [|a l1 IH]; intros s; [reflexivity|].
  simpl. rewrite st_bind_assoc. apply st_bind_ext. intros _ s'. apply IH.
Qed.

(** ** Hoare triples for [St]

    [hoare P c Q]: from a state satisfying [P], if [c] returns [a] in
    state [s'] then [Q a s'].  Raising satisfies every triple, so the
    triples state what holds of the states the code reaches when it
    returns; an invariant of the memo is a triple [hoare I c (fun _ =>
    I)]. *)
Definition hoare {S A} (P : S -> Prop) (c : St S A) (Q : A -> S -> Prop) : Prop :=
  forall s a s', P s -> c s = Ok (a, s') -> Q a s'.

Section Hoare.
Context {S : Type}.
Implicit Types (P : S -> Prop).

Lemma hoare_ret {A} P (a : A) : hoare P (st_ret a) (fun a' s => a' = a /\ P s).
Proof. intros s a' s' HP [= <- <-]. done. Qed.

Lemma hoare_bind {A B} P (c : St S A) (k : A -> St S B) R Q :
  hoare P c R -> (forall a, hoare (R a) (k a) Q) -> hoare P (st_bind c k) Q.
Proof.
  intros Hc Hk s b s'' HP. unfold st_bind.
  destruct (c s) as [[a s']|e] eqn:E; [|done]. intros Hr. apply (Hk a s' b s''); [|done].
  by apply (Hc s a s').
Qed.

Lemma hoare_conseq {A} P P' (c : St S A) Q Q' :
  hoare P' c Q' -> (forall s, P s -> P' s) -> (forall a s, Q' a s -> Q a s) -> hoare P c Q.
Proof. intros Hc HP HQ s a s' Hs Hr. apply HQ, (Hc s a s'); [by apply HP|done]. Qed.

Lemma hoare_get P : hoare P st_get (fun s' s => s' = s /\ P s).
Proof. intros s a s' HP [= <- <-]. done. Qed.

Lemma hoare_put P (s0 : S) : hoare P (st_put s0) (fun _ s => s = s0).
Proof. intros s a s' _ [= _ <-]. done. Qed.

Lemma hoare_modify P (f : S -> S) : hoare P (st_modify f) (fun _ s => exists s0, P s0 /\ s = f s0).
Proof. intros s a s' HP [= _ <-]. by exists s. Qed.

Lemma hoare_lift {A} P (r : res A) : hoare P (st_lift r) (fun a s => r = Ok a /\ P s).
Proof. intros s a s' HP. unfold st_lift. destruct r; [intros [= <- <-]|]; done. Qed.

Lemma hoare_raise {A} P e Q : hoare P (st_raise (A:=A) e) Q.
Proof. by intros s a s' _. Qed.

(** An invariant of the body is one of the loop. *)
Lemma hoare_for {A} (I : S -> Prop) (l : list A) (body : A -> St S unit) :
  (forall a, a ∈ l -> hoare I (body a) (fun _ => I)) -> hoare I (st_for l body) (fun _ => I).
Proof.
  induction l as [|a l IH]; intros Hb; simpl.
  - eapply hoare_conseq; [apply hoare_ret|done|]. by intros ? ? [_ ?].
  - apply (hoare_bind _ _ _ (fun _ => I)); [apply Hb; by left|].
    intros _. apply IH. intros a' Ha'. apply Hb. by right.
Qed.
End Hoare.
