(* ===== verification/Geometry.v ===== *)
(** * Geometric primitives

    [Pt] and [LineSegment] of src/CleanSolution.py (lines 8-110; the copy
    in src/Solver.py, lines 10-85, has the same [signedArea], [contains],
    [orientation] and [intersect]).  The tolerance [LineSegment.epsilon]
    is the section variable [epsilon].  The file ends with the class
    [SegmentTest], the interface through which the DP solver uses the
    crossing test, and its instance for [intersect]. *)

From S2P Require Import Prelude.
From stdpp Require Import base list.
From Stdlib Require Import ZArith Lia Btauto.

Local Open Scope Z_scope.

(** ** Data *)

(** [class Pt]: a point with coordinates [x], [y]. *)
Record Pt := mkPt { x : Z; y : Z }.

#[export] Instance Pt_eq_dec : EqDecision Pt.
Proof. solve_decision. Defined.

(** [class LineSegment]: the directed segment from [pt1] to [pt2]. *)
Record LineSegment := mkSeg { pt1 : Pt; pt2 : Pt }.

#[export] Instance LineSegment_eq_dec : EqDecision LineSegment.
Proof. solve_decision. Defined.

(** ** Operations *)

(** [LineSegment.signedArea]: twice the signed area of the triangle
    [pt1, pt2, pt]; positive when [pt] lies to the left of [pt1 -> pt2]. *)
Definition signedArea (s : LineSegment) (pt : Pt) : Z :=
  (x (pt2 s) - x (pt1 s)) * (y pt - y (pt1 s))
  - (y (pt2 s) - y (pt1 s)) * (x pt - x (pt1 s)).

Section Tolerance.
(** [LineSegment.epsilon] ([1e-2] in the source). *)
Context (epsilon : Z).

(** [LineSegment.contains]. *)
Definition contains (s : LineSegment) (pt : Pt) : bool :=
  let minx := Z.min (x (pt1 s)) (x (pt2 s)) in
  let maxx := Z.max (x (pt1 s)) (x (pt2 s)) in
  if (minx <=? x pt) && (x pt <=? maxx)
  then Z.abs (signedArea s pt) <=? epsilon
  else false.

(** [LineSegment.orientation]: -1, 0 or 1. *)
Definition orientation (s : LineSegment) (pt : Pt) : Z :=
  let value := signedArea s pt in
  if Z.abs value <=? epsilon then 0
  else if value <? 0 then -1
  else 1.

(** [LineSegment.intersect]: a proper crossing, or an endpoint of one
    segment collinear with the other and inside its x-range. *)
Definition intersect (self otherLine : LineSegment) : bool :=
  let selfminx := Z.min (x (pt1 self)) (x (pt2 self)) in
  let selfmaxx := Z.max (x (pt1 self)) (x (pt2 self)) in
  let otherminx := Z.min (x (pt1 otherLine)) (x (pt2 otherLine)) in
  let othermaxx := Z.max (x (pt1 otherLine)) (x (pt2 otherLine)) in
  let selfOrient1 := orientation self (pt1 otherLine) in
  let selfOrient2 := orientation self (pt2 otherLine) in
  let otherOrient1 := orientation otherLine (pt1 self) in
  let otherOrient2 := orientation otherLine (pt2 self) in
  if negb (selfOrient1 =? selfOrient2) && negb (otherOrient1 =? otherOrient2)
  then true
  else if (selfOrient1 =? 0) && (selfminx <=? x (pt1 otherLine))
          && (x (pt1 otherLine) <=? selfmaxx) then true
  else if (selfOrient2 =? 0) && (selfminx <=? x (pt2 otherLine))
          && (x (pt2 otherLine) <=? selfmaxx) then true
  else if (otherOrient1 =? 0) && (otherminx <=? x (pt1 self))
          && (x (pt1 self) <=? othermaxx) then true
  else if (otherOrient2 =? 0) && (otherminx <=? x (pt2 self))
          && (x (pt2 self) <=? othermaxx) then true
  else false.
End Tolerance.

(** The segment traversed in the other direction. *)
Definition reverse (s : LineSegment) : LineSegment := mkSeg (pt2 s) (pt1 s).

(** ** Lemmas on the primitives *)

Lemma signedArea_reverse s p : signedArea (reverse s) p = - signedArea s p.
Proof. unfold signedArea, reverse; simpl. ring. Qed.

Lemma signedArea_pt1 s : signedArea s (pt1 s) = 0.
Proof. unfold signedArea. ring. Qed.

Lemma signedArea_pt2 s : signedArea s (pt2 s) = 0.
Proof. unfold signedArea. ring. Qed.

(** The signed area of a triangle does not depend on which vertex
    starts it, as long as the cyclic order is kept. *)
Lemma signedArea_cycle a b c : signedArea (mkSeg a b) c = signedArea (mkSeg b c) a.
Proof. unfold signedArea; simpl. ring. Qed.

Lemma orientation_reverse eps s p :
  0 <= eps -> orientation eps (reverse s) p = - orientation eps s p.
Proof.
  intros Heps. unfold orientation. rewrite signedArea_reverse, Z.abs_opp.
  destruct (Z.abs (signedArea s p) <=? eps) eqn:E; [done|].
  apply Z.leb_gt in E.
  destruct (Z.ltb_spec (signedArea s p) 0), (Z.ltb_spec (- signedArea s p) 0); lia.
Qed.

Lemma orientation_zero_iff eps s p :
  orientation eps s p = 0 <-> Z.abs (signedArea s p) <= eps.
Proof.
  unfold orientation.
  destruct (Z.leb_spec (Z.abs (signedArea s p)) eps); [done|].
  destruct (_ <? 0); split; lia.
Qed.

Lemma orientation_endpoints eps s :
  0 <= eps -> orientation eps s (pt1 s) = 0 /\ orientation eps s (pt2 s) = 0.
Proof.
  intros Heps. rewrite !orientation_zero_iff, signedArea_pt1, signedArea_pt2. lia.
Qed.

Create HintDb geometry.
Create Rewrite HintDb geometry_rw.
#[export] Hint Rewrite signedArea_reverse signedArea_pt1 signedArea_pt2 : geometry_rw.

(** ** The crossing test *)

(** [intersect] written as the disjunction of its five tests. *)
Lemma intersect_orb eps a b :
  intersect eps a b =
  (negb (orientation eps a (pt1 b) =? orientation eps a (pt2 b))
     && negb (orientation eps b (pt1 a) =? orientation eps b (pt2 a)))
  || ((orientation eps a (pt1 b) =? 0) && (Z.min (x (pt1 a)) (x (pt2 a)) <=? x (pt1 b))
        && (x (pt1 b) <=? Z.max (x (pt1 a)) (x (pt2 a))))
  || ((orientation eps a (pt2 b) =? 0) && (Z.min (x (pt1 a)) (x (pt2 a)) <=? x (pt2 b))
        && (x (pt2 b) <=? Z.max (x (pt1 a)) (x (pt2 a))))
  || ((orientation eps b (pt1 a) =? 0) && (Z.min (x (pt1 b)) (x (pt2 b)) <=? x (pt1 a))
        && (x (pt1 a) <=? Z.max (x (pt1 b)) (x (pt2 b))))
  || ((orientation eps b (pt2 a) =? 0) && (Z.min (x (pt1 b)) (x (pt2 b)) <=? x (pt2 a))
        && (x (pt2 a) <=? Z.max (x (pt1 b)) (x (pt2 b)))).
Proof.
  unfold intersect; cbv zeta.
  repeat match goal with |- context [if ?c then _ else _] => destruct c end; done.
Qed.

(** [intersect] is symmetric: [a.intersect(b) == b.intersect(a)]
    for all segments and every tolerance, including segments that share
    an endpoint or overlap collinearly. *)
Lemma intersect_comm eps a b : intersect eps a b = intersect eps b a.
Proof. rewrite !intersect_orb. btauto. Qed.

Lemma Z_eqb_opp a b : (- a =? - b) = (a =? b).
Proof. destruct (Z.eqb_spec a b), (Z.eqb_spec (- a) (- b)); lia. Qed.

Lemma Z_eqb_opp_0 a : (- a =? 0) = (a =? 0).
Proof. destruct (Z.eqb_spec a 0), (Z.eqb_spec (- a) 0); lia. Qed.

(** Reversing the first segment does not change the test. *)
Lemma intersect_reverse_l eps a b :
  0 <= eps -> intersect eps (reverse a) b = intersect eps a b.
Proof.
  intros Heps. rewrite !intersect_orb, !orientation_reverse by done.
  rewrite Z_eqb_opp, !Z_eqb_opp_0. simpl.
  rewrite (Z.min_comm (x (pt2 a))), (Z.max_comm (x (pt2 a))).
  rewrite (Z.eqb_sym (orientation eps b (pt2 a))). btauto.
Qed.

(** C6. [LineSegment.intersect] tests undirected segments and does not
    depend on their order: [a.intersect(b) == b.intersect(a)], and
    reversing either segment does not change the result, for every
    non-negative tolerance. *)
Theorem intersect_sym eps a b :
  0 <= eps ->
  intersect eps a b = intersect eps b a
  /\ intersect eps (reverse a) b = intersect eps a b
  /\ intersect eps a (reverse b) = intersect eps a b.
Proof.
  intros Heps. split_and!; [apply intersect_comm|by apply intersect_reverse_l|].
  by rewrite intersect_comm, intersect_reverse_l, intersect_comm.
Qed.

Lemma intersect_sym_witness :
  intersect 0 (mkSeg (mkPt 0 0) (mkPt 2 2)) (mkSeg (mkPt 0 2) (mkPt 2 0))
  = intersect 0 (mkSeg (mkPt 0 2) (mkPt 2 0)) (mkSeg (mkPt 0 0) (mkPt 2 2))
  /\ intersect 0 (reverse (mkSeg (mkPt 0 0) (mkPt 2 2))) (mkSeg (mkPt 0 2) (mkPt 2 0))
     = intersect 0 (mkSeg (mkPt 0 0) (mkPt 2 2)) (mkSeg (mkPt 0 2) (mkPt 2 0))
  /\ intersect 0 (mkSeg (mkPt 0 0) (mkPt 2 2)) (reverse (mkSeg (mkPt 0 2) (mkPt 2 0)))
     = intersect 0 (mkSeg (mkPt 0 0) (mkPt 2 2)) (mkSeg (mkPt 0 2) (mkPt 2 0)).
Proof. apply intersect_sym. lia. Defined.

Definition is_endpoint (p : Pt) (s : LineSegment) : Prop := p = pt1 s \/ p = pt2 s.

Lemma endpoint_in_range p s :
  is_endpoint p s ->
  (Z.min (x (pt1 s)) (x (pt2 s)) <=? x p) && (x p <=? Z.max (x (pt1 s)) (x (pt2 s))) = true.
Proof. intros [-> | ->]; apply andb_true_intro; split; apply Z.leb_le; lia. Qed.

Lemma orientation_endpoint eps p s :
  0 <= eps -> is_endpoint p s -> orientation eps s p = 0.
Proof. intros Heps [-> | ->]; apply (orientation_endpoints eps s Heps). Qed.

(** C7. Two segments that share an endpoint always intersect (for a
    non-negative tolerance): consecutive edges of a path always
    intersect, which is why the DP solver never tests a new edge against
    the edges adjacent to it. *)
Theorem intersect_shared_endpoint eps a b p :
  0 <= eps -> is_endpoint p a -> is_endpoint p b -> intersect eps a b = true.
Proof.
  intros Heps Ha Hb. rewrite intersect_orb.
  pose proof (orientation_endpoint eps p a Heps Ha) as Ho.
  pose proof (endpoint_in_range p a Ha) as Hr.
  destruct Hb as [<- | <-]; rewrite Ho; simpl; rewrite ?andb_assoc, Hr; btauto.
Qed.

Lemma intersect_shared_endpoint_witness :
  intersect 0 (mkSeg (mkPt 0 0) (mkPt 2 2)) (mkSeg (mkPt 2 2) (mkPt 4 0)) = true.
Proof.
  apply (intersect_shared_endpoint 0 _ _ (mkPt 2 2)); [lia|right; reflexivity|left; reflexivity].
Defined.

(** ** The interface the DP solver uses

    The solvers call [partialsolution[i].intersect(newLine)] as a method
    of [LineSegment]; what their correctness needs of it is that the
    test is symmetric, so that the order in which the code passes the
    two segments does not matter. *)
Class SegmentTest := {
  seg_intersect : LineSegment -> LineSegment -> bool;
  seg_intersect_sym : forall a b, seg_intersect a b = seg_intersect b a
}.

(** [LineSegment.intersect] with tolerance [eps]. *)
Definition python_segments (eps : Z) : SegmentTest :=
  {| seg_intersect := intersect eps; seg_intersect_sym := intersect_comm eps |}.
