(* ===== verification/SolverGeometry.v ===== *)
(** * Solver.py's geometry classes

    src/Solver.py has its own [Pt] and [LineSegment] classes (lines
    10-86), which [pathString], [generatePoints] and the drivers of
    Solver.py use.  Their arithmetic methods are the same code as
    CleanSolution.py's; the two files differ in [display] and in
    [LineSegment.__repr__] (see [Output]).  [SolverPy] translates
    [signedArea], [contains], [orientation] and [intersect] from
    Solver.py; [solver_segments] is the crossing test Solver.py's solver
    uses.  The two files' methods compute the same functions
    ([solver_signedArea_same] and the like), so every theorem about
    CleanSolution.py's primitives holds of Solver.py's. *)

From S2P Require Import Prelude Geometry.
From stdpp Require Import base.
From Stdlib Require Import ZArith Lia.

Open Scope Z_scope.

Module SolverPy.

(** [LineSegment.signedArea], lines 36-39. *)
Definition signedArea (s : LineSegment) (pt : Pt) : Z :=
  (x (pt2 s) - x (pt1 s)) * (y pt - y (pt1 s))
  - (y (pt2 s) - y (pt1 s)) * (x pt - x (pt1 s)).

Section Tolerance.
(** [LineSegment.epsilon = 1e-2], line 30. *)
Context (epsilon : Z).

(** [LineSegment.contains], lines 41-46. *)
Definition contains (s : LineSegment) (pt : Pt) : bool :=
  let minx := Z.min (x (pt1 s)) (x (pt2 s)) in
  let maxx := Z.max (x (pt1 s)) (x (pt2 s)) in
  if (minx <=? x pt) && (x pt <=? maxx)
  then Z.abs (signedArea s pt) <=? epsilon
  else false.

(** [LineSegment.orientation], lines 48-55. *)
Definition orientation (s : LineSegment) (pt : Pt) : Z :=
  let value := signedArea s pt in
  if Z.abs value <=? epsilon then 0
  else if value <? 0 then -1
  else 1.

(** [LineSegment.intersect], lines 63-82. *)
Definition intersect (self otherLine : LineSegment) : bool :=
  let selfminx := Z.min (x (pt1 self)) (x (pt2 self)) in
  let selfmaxx := Z.max (x (pt1 self)) (x (pt2 self)) in
  let otherminx := Z.min (x (pt1 otherLine)) (x (pt2 otherLine)) in
  let othermaxx := Z.max (x (pt1 otherLine)) (x (pt2 otherLine)) in
  let selfOrient1 := orientation self (pt1 otherLine) in
  let selfOrient2 := orientation self (pt2 otherLine) in
  let otherOrient1 := orientation otherLine (pt1 self) in
  let otherOrient2 := orientation otherLine (pt2 self) in
  if negb (selfOrient1 =? selfOrient2) && negb (otherOrient1 =? otherOrient2)
  then true
  else if (selfOrient1 =? 0) && (selfminx <=? x (pt1 otherLine))
          && (x (pt1 otherLine) <=? selfmaxx) then true
  else if (selfOrient2 =? 0) && (selfminx <=? x (pt2 otherLine))
          && (x (pt2 otherLine) <=? selfmaxx) then true
  else if (otherOrient1 =? 0) && (otherminx <=? x (pt1 self))
          && (x (pt1 self) <=? othermaxx) then true
  else if (otherOrient2 =? 0) && (otherminx <=? x (pt2 self))
          && (x (pt2 self) <=? othermaxx) then true
  else false.
End Tolerance.
End SolverPy.

(** ** The two files compute the same primitives *)

Lemma solver_signedArea_same : SolverPy.signedArea = signedArea.
Proof. reflexivity. Qed.

Lemma solver_contains_same : SolverPy.contains = contains.
Proof. reflexivity. Qed.

Lemma solver_orientation_same : SolverPy.orientation = orientation.
Proof. reflexivity. Qed.

Lemma solver_intersect_same : SolverPy.intersect = intersect.
Proof. reflexivity. Qed.

(** Solver.py's crossing test, symmetric as CleanSolution.py's is. *)
Definition solver_segments (eps : Z) : SegmentTest :=
  {| seg_intersect := SolverPy.intersect eps; seg_intersect_sym := intersect_comm eps |}.
