(* ===== verification/PathString.v ===== *)
(** * Path strings

    Patterns over {U, D} (Python strings of "U" and "D" in the source),
    the slices the recursive solvers take of them
    ([string[1:]], [string[:len(string)-1]],
    [string[:i] + c + string[i+2:]]), the test for an adjacent "UD" at
    position [i], and the enumeration of all patterns of a length. *)

From S2P Require Import Prelude.
From stdpp Require Import base list countable.
From Stdlib Require Import Lia.

(** A character of a path string. *)
Inductive dir := U | D.

#[export] Instance dir_eq_dec : EqDecision dir.
Proof. solve_decision. Defined.

#[export] Instance dir_countable : Countable dir.
Proof.
  refine (inj_countable' (fun c => match c with U => true | D => false end)
                         (fun b => if b then U else D) _).
  by intros [].
Defined.

(** A path string, the key of the memo tables. *)
Abbreviation pstring := (list dir).

(** [string[1:]]. *)
Definition drop_first (s : pstring) : pstring := drop 1 s.

(** [string[:len(string) - 1]]. *)
Definition drop_last (s : pstring) : pstring := take (length s - 1) s.

(** [string[:i] + c + string[i + 2:]]: the two characters at [i] and
    [i + 1] replaced by [c]. *)
Definition collapse (s : pstring) (i : nat) (c : dir) : pstring :=
  take i s ++ c :: drop (i + 2) s.

(** [string[i] == "U" and string[i + 1] == "D"] (for [i < len(string) - 1]). *)
Definition isUD (s : pstring) (i : nat) : bool :=
  match s !! i, s !! S i with
  | Some U, Some D => true
  | _, _ => false
  end.

(** [string[0] == c] on a non-empty string. *)
Definition head_is (c : dir) (s : pstring) : bool :=
  match s !! 0 with Some c' => bool_decide (c' = c) | None => false end.

(** [string[len(string) - 1] == c] on a non-empty string. *)
Definition last_is (c : dir) (s : pstring) : bool :=
  match list.last s with Some c' => bool_decide (c' = c) | None => false end.

(** All path strings of length [n], in any order. *)
Fixpoint all_strings (n : nat) : list pstring :=
  match n with
  | 0 => [[]]
  | S n' => (cons U <$> all_strings n') ++ (cons D <$> all_strings n')
  end.

(** ** Lemmas *)

Lemma length_drop_first s : length (drop_first s) = length s - 1.
Proof. unfold drop_first. by rewrite length_drop. Qed.

Lemma length_drop_last s : length (drop_last s) = length s - 1.
Proof. unfold drop_last. rewrite length_take. lia. Qed.

Lemma length_collapse s i c :
  S i < length s -> length (collapse s i c) = length s - 1.
Proof.
  intros Hi. unfold collapse. rewrite length_app, length_take. simpl. rewrite length_drop. lia.
Qed.

Lemma drop_last_snoc s c : drop_last (s ++ [c]) = s.
Proof.
  unfold drop_last. rewrite length_app. simpl.
  rewrite Nat.add_sub, take_app_length. done.
Qed.

Lemma isUD_spec s i :
  isUD s i = true <-> s !! i = Some U /\ s !! S i = Some D.
Proof.
  unfold isUD. destruct (s !! i) as [[]|], (s !! S i) as [[]|]; split;
    intros H; (done || (destruct H; congruence)).
Qed.

(** A string with "UD" at [i] is [a ++ U :: D :: b] with [length a = i]. *)
Lemma isUD_split s i :
  isUD s i = true ->
  exists a b, s = a ++ U :: D :: b /\ length a = i.
Proof.
  intros [Hi Hi1]%isUD_spec.
  exists (take i s), (drop (S (S i)) s). split.
  - rewrite <- (take_drop i s) at 1. f_equal.
    by rewrite (drop_S s U i Hi), (drop_S s D (S i) Hi1).
  - apply length_take_le. apply lookup_lt_Some in Hi. lia.
Qed.

Lemma isUD_lt s i : isUD s i = true -> S i < length s.
Proof. intros [_ Hi]%isUD_spec. by apply lookup_lt_Some in Hi. Qed.

Lemma collapse_split a b c1 c2 c :
  collapse (a ++ c1 :: c2 :: b) (length a) c = a ++ c :: b.
Proof.
  unfold collapse. rewrite take_app_length.
  rewrite drop_app_ge by lia. by replace (length a + 2 - length a) with 2 by lia.
Qed.

Lemma isUD_app_middle a b : isUD (a ++ U :: D :: b) (length a) = true.
Proof.
  apply isUD_spec. rewrite !lookup_app_r by lia.
  by rewrite Nat.sub_diag, Nat.sub_succ_l, Nat.sub_diag by lia.
Qed.

Lemma elem_of_all_strings n s : s ∈ all_strings n <-> length s = n.
Proof.
  revert s. induction n as [|n IH]; intros s; simpl.
  - rewrite list_elem_of_singleton. destruct s; simpl; split; done || lia.
  - rewrite elem_of_app, !list_elem_of_fmap. split.
    + intros [[s' [-> Hs']] | [s' [-> Hs']]]; apply IH in Hs'; simpl; lia.
    + intros Hlen. destruct s as [|[] s']; simpl in Hlen; [lia| |].
      * left. exists s'. split; [done|]. apply IH. lia.
      * right. exists s'. split; [done|]. apply IH. lia.
Qed.

Lemma NoDup_all_strings n : NoDup (all_strings n).
Proof.
  induction n as [|n IH]; simpl.
  - apply NoDup_singleton.
  - apply list.NoDup_app. split_and!.
    + apply NoDup_fmap; [intros ?? [=]; done|done].
    + intros s Hs1 Hs2. apply list_elem_of_fmap in Hs1 as [? [-> _]].
      apply list_elem_of_fmap in Hs2 as [? [? _]]. discriminate.
    + apply NoDup_fmap; [intros ?? [=]; done|done].
Qed.

Lemma length_all_strings n : length (all_strings n) = 2 ^ n.
Proof.
  induction n as [|n IH]; simpl; [done|].
  rewrite length_app, !length_fmap, IH. lia.
Qed.

Lemma head_is_lookup c c0 s : s !! 0 = Some c0 -> head_is c s = bool_decide (c0 = c).
Proof. intros H. unfold head_is. by rewrite H. Qed.

Lemma last_is_lookup c cl s n :
  length s = S n -> s !! n = Some cl -> last_is c s = bool_decide (cl = c).
Proof.
  intros Hn H. unfold last_is. rewrite last_lookup, Hn. simpl. by rewrite H.
Qed.

Lemma head_is_true c s : head_is c s = true -> s = c :: drop_first s.
Proof.
  unfold head_is, drop_first. destruct s as [|c' s]; simpl; [done|].
  case_bool_decide; [by intros _; subst|done].
Qed.

Lemma last_is_true c s : last_is c s = true -> s = drop_last s ++ [c].
Proof.
  unfold last_is. destruct (list.last s) as [c'|] eqn:Hl; [|done].
  case_bool_decide; [subst|done]. intros _.
  destruct (last_Some s c) as [[l ->] _]; [done|]. by rewrite drop_last_snoc.
Qed.
