(* ===== verification/Memo.v ===== *)
(** * Memo tables

    The dictionaries [solved] of [pathStringDP]/[pathString] and of
    [partialOrderings]: maps from path strings to the value computed for
    them.  Both solvers look a sub-pattern up with
    [if partial not in solved: solve(partial)] followed by
    [solved[partial]]; [get_or_solve] is that idiom.

    The contract of a memoised call on a key [k] of length [n], used by
    both solvers' refinement proofs: before the call every key shorter
    than [n] holds its final value ([memo_below]); after it, that is
    still so, [k] holds its final value, and no key of length at least
    [n] other than [k] has changed ([memo_frame]).  Calls on sub-patterns
    are on strictly shorter keys, so a caller's own entry, which it is
    still filling, is never read or changed by them. *)

From S2P Require Import Prelude PathString.
From stdpp Require Import base list gmap.
From Stdlib Require Import Lia.

Open Scope py_scope.

(** [if key not in solved: solve(key)], then [solved[key]]. *)
Definition get_or_solve {V} (solve : pstring -> St (gmap pstring V) unit)
    (key : pstring) : St (gmap pstring V) V :=
  m <- st_get ;;
  u <- match m !! key with Some _ => st_ret tt | None => solve key end ;;
  m' <- st_get ;;
  match m' !! key with
  | Some v => st_ret v
  | None => st_raise KeyError
  end.

Section MemoContract.
Context {V : Type} (spec : pstring -> V).
Implicit Types (m : gmap pstring V).

(** Every key shorter than [n] holds its final value. *)
Definition memo_below (n : nat) m : Prop :=
  forall k v, m !! k = Some v -> length k < n -> v = spec k.

(** No key of length at least [n], other than [k0], has changed. *)
Definition memo_frame (n : nat) (k0 : pstring) m m' : Prop :=
  forall k, n <= length k -> k <> k0 -> m' !! k = m !! k.

(** No key of length at least [n] has changed. *)
Definition memo_keep (n : nat) m m' : Prop :=
  forall k, n <= length k -> m' !! k = m !! k.

(** What a memoised call on [k] guarantees. *)
Definition memo_post (k : pstring) m m' : Prop :=
  memo_below (length k) m' /\ m' !! k = Some (spec k) /\ memo_frame (length k) k m m'.

Lemma memo_below_empty n : memo_below n ∅.
Proof. intros k v Hk. by rewrite lookup_empty in Hk. Qed.

Lemma memo_below_mono n1 n2 m : n1 <= n2 -> memo_below n2 m -> memo_below n1 m.
Proof. intros Hn H k v Hk Hlt. apply (H k v Hk). lia. Qed.

Lemma memo_below_insert_long n k v m :
  n <= length k -> memo_below n m -> memo_below n (<[k:=v]> m).
Proof.
  intros Hk H k' v' Hk' Hlt. rewrite lookup_insert_ne in Hk' by (intros ->; lia).
  by apply (H k' v').
Qed.

Lemma memo_keep_refl n m : memo_keep n m m.
Proof. done. Qed.

Lemma memo_keep_trans n m1 m2 m3 :
  memo_keep n m1 m2 -> memo_keep n m2 m3 -> memo_keep n m1 m3.
Proof. intros H12 H23 k Hk. by rewrite H23, H12. Qed.

Lemma memo_frame_refl n k m : memo_frame n k m m.
Proof. done. Qed.

Lemma memo_frame_trans n k m1 m2 m3 :
  memo_frame n k m1 m2 -> memo_frame n k m2 m3 -> memo_frame n k m1 m3.
Proof. intros H12 H23 k' Hk' Hne. by rewrite H23, H12. Qed.

Lemma memo_keep_frame n k m m' : memo_keep n m m' -> memo_frame n k m m'.
Proof. intros Hk k' Hk' _. by apply Hk. Qed.

Lemma memo_frame_insert n k v m : memo_frame n k m (<[k:=v]> m).
Proof. intros k' _ Hne. by rewrite lookup_insert_ne. Qed.

(** A finished call on a key of length [n] keeps the keys of length
    above [n], and the caller's invariant grows to cover its key. *)
Lemma memo_post_keep k m m' : memo_post k m m' -> memo_keep (S (length k)) m m'.
Proof. intros (_ & _ & Hf) k' Hk'. apply Hf; [lia|]. intros ->. lia. Qed.

Lemma memo_post_below k m m' :
  memo_below (S (length k)) m -> memo_post k m m' -> memo_below (S (length k)) m'.
Proof.
  intros Hm (Hb & Hk & Hf) k' v Hk' Hlt.
  destruct (decide (k' = k)) as [->|Hne]; [congruence|].
  destruct (decide (length k' < length k)); [by apply (Hb k' v)|].
  apply (Hm k' v); [|lia]. rewrite <- Hf; [done|lia|done].
Qed.

(** Every key holds its final value: the state of a memo shared by
    several top-level calls. *)
Definition memo_all m : Prop := forall k v, m !! k = Some v -> v = spec k.

Lemma memo_all_below n m : memo_all m -> memo_below n m.
Proof. intros Hm k v Hk _. by apply Hm. Qed.

(** A finished call keeps every entry final. *)
Lemma memo_post_all k m m' : memo_all m -> memo_post k m m' -> memo_all m'.
Proof.
  intros Hm (Hb & Hk & Hf) k' v Hk'.
  destruct (decide (k' = k)) as [->|Hne]; [congruence|].
  destruct (decide (length k' < length k)); [by apply (Hb k' v)|].
  apply (Hm k' v). rewrite <- Hf; [done|lia|done].
Qed.

(** [get_or_solve] on a key of length [n] returns the key's final value
    and keeps every key of length above [n], provided [solve] fulfils
    the contract on a key that is absent. *)
Lemma get_or_solve_spec (solve : pstring -> St (gmap pstring V) unit) key m :
  memo_below (S (length key)) m ->
  (forall m0, memo_below (length key) m0 -> m0 !! key = None ->
     exists m1, solve key m0 = Ok (tt, m1) /\ memo_post key m0 m1) ->
  exists m', get_or_solve solve key m = Ok (spec key, m')
             /\ memo_below (S (length key)) m' /\ memo_keep (S (length key)) m m'.
Proof.
  intros Hm Hsolve. unfold get_or_solve, st_bind, st_get, st_ret.
  destruct (m !! key) as [v|] eqn:Hkey.
  - exists m. rewrite Hkey. rewrite (Hm key v Hkey) by lia. done.
  - destruct (Hsolve m) as (m1 & -> & Hpost); [eapply memo_below_mono; [|exact Hm]; lia|done|].
    exists m1. pose proof Hpost as (_ & Hk & _). rewrite Hk.
    split_and!; [done|by eapply memo_post_below|by eapply memo_post_keep].
Qed.
End MemoContract.
