(* ===== verification/Counting.v ===== *)
(** * The counting oracle

    [partialOrderings] of src/PartialOrderings.py (lines 1-33): the
    three-case recursion of the DP solver without the geometry, memoised
    in a dictionary [solved].  The dictionary holds the placeholder [[]]
    while a key is being computed and the count afterwards; the model
    keeps that distinction ([Pending] / [Count]), so that adding a
    placeholder to the count would raise [TypeError] as in Python.

    [orderings] is the pure recursion the memoised code computes:
    [partialOrderings_contract] for any memo satisfying the memo
    contract, [partialOrderings_refines] from an empty dictionary.
    [orderings s] counts the orders of [n + 1] heights whose up/down
    pattern is [s]: summed over all patterns of length [n] it is
    [(n + 1)!] ([orderings_sum], from the three cases of the recursion
    each summed over all patterns), and so are the counts the code
    returns ([partialOrderings_total]). *)

From S2P Require Import Prelude PathString Memo.
From stdpp Require Import base list gmap.
From Stdlib Require Import Lia.

Open Scope py_scope.

(** ** The memoised code *)

(** A value of [solved]: the placeholder [[]] or an int. *)
Inductive ovalue := Pending | Count (n : nat).

(** [count += solved[partial]]. *)
Definition add_count (count : nat) (v : ovalue) : res nat :=
  match v with
  | Count n => Ok (count + n)
  | Pending => Raise TypeError
  end.

(** The body of [for i in range(0, len(string) - 1)]. *)
Definition orderings_ud_step (recur : pstring -> St (gmap pstring ovalue) unit)
    (string : pstring) (count : nat) (i : nat) : St (gmap pstring ovalue) nat :=
  if isUD string i then
    let partial1 := collapse string i U in
    let partial2 := collapse string i D in
    v1 <- get_or_solve recur partial1 ;;
    count <- st_lift (add_count count v1) ;;
    v2 <- get_or_solve recur partial2 ;;
    st_lift (add_count count v2)
  else st_ret count.

(** [partialOrderings(string, solved)]: returns [None] (Python [None])
    for a string of length one and the count otherwise.  [fuel] bounds
    the recursion depth. *)
Fixpoint partialOrderings (fuel : nat) (string : pstring)
    : St (gmap pstring ovalue) (option nat) :=
  match fuel with
  | 0 => st_raise RecursionError
  | S fuel' =>
    let recur := fun p => r <- partialOrderings fuel' p ;; st_ret tt in
    u <- st_modify (insert string Pending) ;;
    if length string =? 1 then
      u <- st_modify (insert string (Count 1)) ;; st_ret None
    else
      c0 <- st_lift (py_get string 0) ;;
      count <- (match c0 with
                | D => v <- get_or_solve recur (drop_first string) ;;
                       st_lift (add_count 0 v)
                | U => st_ret 0
                end) ;;
      cl <- st_lift (py_get string (length string - 1)) ;;
      count <- (match cl with
                | U => v <- get_or_solve recur (drop_last string) ;;
                       st_lift (add_count count v)
                | D => st_ret count
                end) ;;
      count <- st_fold (seq 0 (length string - 1)) count
                 (orderings_ud_step recur string) ;;
      u <- st_modify (insert string (Count count)) ;;
      st_ret (Some count)
  end.

(** ** The pure recursion *)

(** The three cases of a string of length at least two, with [f] the
    count of the sub-patterns. *)
Definition ord_cases (f : pstring -> nat) (s : pstring) : nat :=
  (if head_is D s then f (drop_first s) else 0)
  + (if last_is U s then f (drop_last s) else 0)
  + sum_list_with
      (fun i => if isUD s i then f (collapse s i U) + f (collapse s i D) else 0)
      (seq 0 (length s - 1)).

(** The count of a string, with [n] the recursion depth. *)
Fixpoint ord (n : nat) (s : pstring) : nat :=
  match n with
  | 0 => 0
  | S n' => if length s =? 1 then 1 else ord_cases (ord n') s
  end.

Definition orderings (s : pstring) : nat := ord (length s) s.

(** ** The depth bound *)

Lemma ord_cases_ext f g s :
  2 <= length s -> (forall t, length t = length s - 1 -> f t = g t) ->
  ord_cases f s = ord_cases g s.
Proof.
  intros Hs Hfg. unfold ord_cases.
  rewrite (Hfg (drop_first s)), (Hfg (drop_last s))
    by (rewrite ?length_drop_first, ?length_drop_last; lia).
  f_equal. apply sum_list_with_ext. intros i Hi%elem_of_seq.
  destruct (isUD s i); [|done].
  by rewrite !Hfg by (rewrite length_collapse; lia).
Qed.

Lemma ord_S n s : length s <> 1 -> ord (S n) s = ord_cases (ord n) s.
Proof. intros H. simpl. by rewrite (proj2 (Nat.eqb_neq _ _) H). Qed.

Lemma orderings_one s : length s = 1 -> orderings s = 1.
Proof. intros H. unfold orderings. rewrite H. simpl. by rewrite H. Qed.

(** The recursion equation of [orderings]. *)
Lemma orderings_S s : 2 <= length s -> orderings s = ord_cases (ord (length s - 1)) s.
Proof.
  intros Hs. unfold orderings. replace (length s) with (S (length s - 1)) at 1 by lia.
  apply ord_S. lia.
Qed.

(** Any depth bound at least the length of the string gives the same
    count. *)
Lemma ord_fuel n s : 1 <= length s <= n -> ord n s = orderings s.
Proof.
  revert s. induction n as [|n IH]; intros s Hs; [lia|].
  destruct (decide (length s = 1)) as [H1|H1].
  - rewrite orderings_one by done. simpl. by rewrite H1.
  - rewrite ord_S, orderings_S by lia. apply ord_cases_ext; [lia|].
    intros t Ht. rewrite IH by lia. unfold orderings. by rewrite Ht.
Qed.

Lemma orderings_cases s : 2 <= length s -> orderings s = ord_cases orderings s.
Proof.
  intros Hs. rewrite orderings_S by done. apply ord_cases_ext; [lia|].
  intros t Ht. apply ord_fuel. lia.
Qed.

Example orderings_UD : orderings [U; D] = 2.
Proof. reflexivity. Qed.
Example orderings_UDUD : orderings [U; D; U; D] = 16.
Proof. reflexivity. Qed.

(** ** The memoised code computes [orderings] *)

(** The final value of a key. *)
Definition ospec (k : pstring) : ovalue := Count (orderings k).

(** A recursive call on keys of length [n] fulfils the memo contract. *)
Definition recur_ok (recur : pstring -> St (gmap pstring ovalue) unit) (n : nat) : Prop :=
  forall p m0, length p = n -> memo_below ospec n m0 -> m0 !! p = None ->
    exists m1, recur p m0 = Ok (tt, m1) /\ memo_post ospec p m0 m1.

Lemma st_lift_add {S} count o (m : S) :
  st_lift (add_count count (Count o)) m = Ok (count + o, m).
Proof. reflexivity. Qed.

(** [if partial not in solved: partialOrderings(partial, solved)], then
    [solved[partial]]. *)
Lemma orderings_get recur n key m :
  recur_ok recur n -> length key = n -> memo_below ospec (S n) m ->
  exists m', get_or_solve recur key m = Ok (Count (orderings key), m')
          /\ memo_below ospec (S n) m' /\ memo_keep (S n) m m'.
Proof.
  intros Hr <- Hm. apply (get_or_solve_spec ospec recur key m Hm).
  intros m0 Hb0 Hn. by apply Hr.
Qed.

(** The loop over the "UD" positions adds the counts of both collapsed
    strings at each of them. *)
Lemma orderings_loop recur s n l count m :
  recur_ok recur n -> length s = S n -> (forall i, i ∈ l -> S i < length s) ->
  memo_below ospec (S n) m ->
  exists m', st_fold l count (orderings_ud_step recur s) m
    = Ok (count + sum_list_with (fun i => if isUD s i then orderings (collapse s i U)
                                           + orderings (collapse s i D) else 0) l, m')
    /\ memo_below ospec (S n) m' /\ memo_keep (S n) m m'.
Proof.
  intros Hr Hs. revert count m. induction l as [|i l IH]; intros count m Hl Hm.
  - exists m. simpl. rewrite Nat.add_0_r. done.
  - assert (S i < length s) by (apply Hl; by left).
    assert (Hl' : forall j, j ∈ l -> S j < length s) by (intros j Hj; apply Hl; by right).
    simpl st_fold. unfold orderings_ud_step at 1. destruct (isUD s i) eqn:Hud.
    + destruct (orderings_get recur n (collapse s i U) m) as (m1 & H1 & Hb1 & Hk1);
        [done|rewrite length_collapse; lia|done|].
      destruct (orderings_get recur n (collapse s i D) m1) as (m2 & H2 & Hb2 & Hk2);
        [done|rewrite length_collapse; lia|done|].
      rewrite st_bind_assoc. st_step H1. rewrite st_bind_assoc. st_step (st_lift_add count (orderings (collapse s i U)) m1).
      rewrite st_bind_assoc. st_step H2. st_step (st_lift_add (count + orderings (collapse s i U)) (orderings (collapse s i D)) m2).
      destruct (IH (count + orderings (collapse s i U) + orderings (collapse s i D)) m2 Hl' Hb2)
        as (m3 & H3 & Hb3 & Hk3).
      exists m3. rewrite H3. split_and!; [simpl; rewrite Hud; do 2 f_equal; lia|done|].
      eapply memo_keep_trans; [exact Hk1|]. by eapply memo_keep_trans.
    + st_step (st_lift_Ok count m).
      destruct (IH count m Hl' Hm) as (m3 & H3 & Hb3 & Hk3).
      exists m3. rewrite H3. simpl. by rewrite Hud.
Qed.

Lemma orderings_add recur n key count m :
  recur_ok recur n -> length key = n -> memo_below ospec (S n) m ->
  exists m', (v <- get_or_solve recur key ;; st_lift (add_count count v)) m
             = Ok (count + orderings key, m')
          /\ memo_below ospec (S n) m' /\ memo_keep (S n) m m'.
Proof.
  intros Hr Hk Hm. destruct (orderings_get recur n key m) as (m' & H & Hb & Hkp); [done..|].
  exists m'. st_step H. done.
Qed.

(** The memoised [partialOrderings] computes the pure recursion
    [orderings]: on a non-empty string, with a recursion depth at least
    its length and a memo whose shorter entries are final, it raises
    nothing, returns [None] on a string of length one and the count
    otherwise, stores the count under the string, and changes no other
    entry of its length or longer. *)
Theorem partialOrderings_contract fuel s m :
  1 <= length s <= fuel -> memo_below ospec (length s) m ->
  exists m', partialOrderings fuel s m
             = Ok (if length s =? 1 then None else Some (orderings s), m')
          /\ memo_post ospec s m m'.
Proof.
  revert s m. induction fuel as [|fuel IH]; intros s m Hs Hm; [lia|].
  cbn [partialOrderings]. st_step (st_modify_Ok (insert s Pending) m).
  assert (Hm1 : memo_below ospec (length s) (<[s:=Pending]> m))
    by (apply memo_below_insert_long; [lia|done]).
  destruct (Nat.eqb_spec (length s) 1) as [H1|H1].
  { st_step (st_modify_Ok (insert s (Count 1)) (<[s:=Pending]> m)).
    eexists. split; [reflexivity|]. split_and!.
    - apply memo_below_insert_long; [lia|done].
    - rewrite lookup_insert_eq. unfold ospec. by rewrite orderings_one.
    - intros k Hk Hne. by rewrite !lookup_insert_ne. }
  remember (length s - 1) as n eqn:Hn'.
  assert (Hn : length s = S n) by lia. rewrite Hn in Hm1.
  assert (Hr : recur_ok (fun p => r <- partialOrderings fuel p ;; st_ret tt) n).
  { intros p m0 Hp Hb0 _. destruct (IH p m0) as (m1 & Hrun & Hpost); [lia|by rewrite Hp|].
    exists m1. split; [|done]. by st_step Hrun. }
  destruct (py_get_lt s 0) as [c0 Hc0]; [lia|]. rewrite Hc0. st_step (st_lift_Ok c0 (<[s:=Pending]> m)).
  apply py_get_Ok in Hc0.
  lazymatch goal with |- exists _, st_bind ?c _ ?mm = _ /\ _ =>
    assert (exists m2, c mm = Ok (if head_is D s then orderings (drop_first s) else 0, m2)
              /\ memo_below ospec (S n) m2 /\ memo_keep (S n) mm m2) as (m2 & H2 & Hb2 & Hk2)
  end.
  { rewrite (head_is_lookup D c0 s Hc0). destruct c0; simpl.
    - exists (<[s:=Pending]> m). done.
    - apply orderings_add; [done|rewrite length_drop_first; lia|done]. }
  st_step H2.
  destruct (py_get_lt s n) as [cl Hcl]; [lia|]. rewrite Hcl. st_step (st_lift_Ok cl m2).
  apply py_get_Ok in Hcl.
  lazymatch goal with |- exists _, st_bind ?c _ ?mm = _ /\ _ =>
    assert (exists m3, c mm = Ok ((if head_is D s then orderings (drop_first s) else 0)
                                 + (if last_is U s then orderings (drop_last s) else 0), m3)
              /\ memo_below ospec (S n) m3 /\ memo_keep (S n) mm m3) as (m3 & H3 & Hb3 & Hk3)
  end.
  { rewrite (last_is_lookup U cl s n Hn Hcl). destruct cl; simpl.
    - apply orderings_add; [done|rewrite length_drop_last; lia|done].
    - exists m2. rewrite Nat.add_0_r. done. }
  st_step H3.
  destruct (orderings_loop _ s n (seq 0 n)
    ((if head_is D s then orderings (drop_first s) else 0)
     + (if last_is U s then orderings (drop_last s) else 0)) m3 Hr Hn) as (m4 & H4 & Hb4 & Hk4); [|done|].
  { intros i Hi%elem_of_seq. lia. }
  st_step H4. st_run @st_modify_Ok. rewrite st_ret_Ok.
  eexists. split.
  { do 3 f_equal. rewrite (orderings_cases s) by lia. unfold ord_cases. rewrite <- Hn'. reflexivity. }
  split_and!.
  - rewrite Hn. apply memo_below_insert_long; [lia|done].
  - rewrite lookup_insert_eq. unfold ospec. do 2 f_equal.
    rewrite (orderings_cases s) by lia. unfold ord_cases. by rewrite <- Hn'.
  - intros k Hk Hne. rewrite lookup_insert_ne by done.
    rewrite Hk4, Hk3, Hk2 by lia. by rewrite lookup_insert_ne.
Qed.

(** C8. [partialOrderings(string, {})] on a non-empty string, with a
    recursion depth of [len(string)], raises nothing, returns [None] on
    a string of length one and [orderings string] otherwise, and leaves
    in the dictionary only final counts: [solved[k] == orderings(k)] for
    every key [k] it holds, [string] included. *)
Theorem partialOrderings_refines s :
  1 <= length s ->
  exists m', partialOrderings (length s) s ∅
             = Ok (if length s =? 1 then None else Some (orderings s), m')
          /\ m' !! s = Some (Count (orderings s))
          /\ (forall k v, m' !! k = Some v -> v = Count (orderings k)).
Proof.
  intros Hs. destruct (partialOrderings_contract (length s) s ∅) as (m' & Hr & Hb & Hk & Hf);
    [lia|apply memo_below_empty|].
  exists m'. split_and!; [done|done|]. intros k v Hkv.
  destruct (decide (k = s)) as [->|Hne]; [by rewrite Hk in Hkv; injection Hkv as <-|].
  destruct (decide (length k < length s)); [by apply (Hb k v)|].
  rewrite Hf, lookup_empty in Hkv by (done || lia). discriminate.
Qed.

Lemma partialOrderings_refines_witness :
  exists m', partialOrderings 4 [U; D; U; D] ∅ = Ok (Some (orderings [U; D; U; D]), m')
          /\ m' !! [U; D; U; D] = Some (Count (orderings [U; D; U; D]))
          /\ (forall k v, m' !! k = Some v -> v = Count (orderings k)).
Proof. apply (partialOrderings_refines [U; D; U; D]). simpl. lia. Defined.

(** ** The counts of all patterns add up to the number of orders *)

Lemma sum_list_with_plus {A} (f g : A -> nat) l :
  sum_list_with (fun a => f a + g a) l = sum_list_with f l + sum_list_with g l.
Proof. induction l as [|a l IH]; simpl; lia. Qed.

Lemma sum_list_with_swap {A B} (h : A -> B -> nat) (l1 : list A) (l2 : list B) :
  sum_list_with (fun a => sum_list_with (h a) l2) l1
  = sum_list_with (fun b => sum_list_with (fun a => h a b) l1) l2.
Proof.
  induction l1 as [|a l1 IH]; simpl.
  - induction l2; simpl; lia.
  - rewrite IH, <- sum_list_with_plus. done.
Qed.

Lemma sum_list_with_fmap {A B} (f : B -> nat) (g : A -> B) l :
  sum_list_with f (g <$> l) = sum_list_with (fun a => f (g a)) l.
Proof. induction l as [|a l IH]; [done|]. rewrite fmap_cons. cbn [sum_list_with]. by rewrite IH. Qed.

Lemma sum_list_with_bind {A B} (f : B -> nat) (g : A -> list B) l :
  sum_list_with f (l ≫= g) = sum_list_with (fun a => sum_list_with f (g a)) l.
Proof. induction l as [|a l IH]; [done|]. rewrite bind_cons, sum_list_with_app, IH. done. Qed.

Lemma fmap_bind_comm {A B C} (f : B -> C) (g : A -> list B) (l : list A) :
  f <$> (l ≫= g) = l ≫= (fun a => f <$> g a).
Proof. induction l as [|a l IH]; [done|]. by rewrite !bind_cons, fmap_app, IH. Qed.

(** The patterns of length [a + b] are a pattern of length [a]
    followed by one of length [b]. *)
Lemma all_strings_app a b :
  all_strings (a + b) = all_strings a ≫= (fun p => (fun q => p ++ q) <$> all_strings b).
Proof.
  induction a as [|a IH]; simpl.
  - by rewrite list_fmap_id, app_nil_r.
  - rewrite IH, bind_app, !list_fmap_bind, !fmap_bind_comm. unfold compose.
    f_equal; apply list_bind_ext; try done; intros p; by rewrite <- list_fmap_compose.
Qed.

(** A sum over the patterns of length [a + b], split. *)
Lemma sum_all_strings_app (f : pstring -> nat) a b :
  sum_list_with f (all_strings (a + b))
  = sum_list_with (fun p => sum_list_with (fun q => f (p ++ q)) (all_strings b)) (all_strings a).
Proof.
  rewrite all_strings_app, sum_list_with_bind. apply sum_list_with_ext. intros p _.
  by rewrite sum_list_with_fmap.
Qed.

Lemma sum_list_with_const {A} (c : nat) (l : list A) : sum_list_with (fun _ => c) l = length l * c.
Proof. induction l as [|a l IH]; simpl; lia. Qed.

Lemma isUD_middle a b c1 c2 :
  isUD (a ++ c1 :: c2 :: b) (length a) = bool_decide (c1 = U) && bool_decide (c2 = D).
Proof.
  unfold isUD. rewrite !lookup_app_r by lia.
  rewrite Nat.sub_diag, Nat.sub_succ_l, Nat.sub_diag by lia. by destruct c1, c2.
Qed.

Lemma head_is_cons c c' t : head_is c (c' :: t) = bool_decide (c' = c).
Proof. done. Qed.

Lemma last_is_snoc c c' p : last_is c (p ++ [c']) = bool_decide (c' = c).
Proof. unfold last_is. by rewrite last_snoc. Qed.

(** Case I: the patterns of length [n + 1] that start with "D", the
    first character dropped, are the patterns of length [n]. *)
Lemma sum_head_D (f : pstring -> nat) n :
  sum_list_with (fun s => if head_is D s then f (drop_first s) else 0) (all_strings (S n))
  = sum_list_with f (all_strings n).
Proof.
  cbn [all_strings]. rewrite sum_list_with_app, !sum_list_with_fmap.
  rewrite (sum_list_with_ext _ (fun _ => 0)) by done.
  rewrite sum_list_with_const, Nat.mul_0_r. simpl. by apply sum_list_with_ext.
Qed.

(** Case II: those that end with "U", the last character dropped. *)
Lemma sum_last_U (f : pstring -> nat) n :
  sum_list_with (fun s => if last_is U s then f (drop_last s) else 0) (all_strings (S n))
  = sum_list_with f (all_strings n).
Proof.
  rewrite <- Nat.add_1_r, sum_all_strings_app. apply sum_list_with_ext. intros p _. simpl.
  rewrite !last_is_snoc, drop_last_snoc. simpl. lia.
Qed.

(** Case III at position [i]: the patterns with "UD" at [i], collapsed
    to "U" and to "D", are each pattern of one character fewer once. *)
Lemma sum_UD_at (f : pstring -> nat) i r :
  sum_list_with (fun s => if isUD s i then f (collapse s i U) + f (collapse s i D) else 0)
    (all_strings (i + (2 + r)))
  = sum_list_with f (all_strings (i + (1 + r))).
Proof.
  rewrite !sum_all_strings_app. apply sum_list_with_ext. intros p Hp%elem_of_all_strings.
  rewrite !sum_all_strings_app. simpl. rewrite !Nat.add_0_r, <- !sum_list_with_plus.
  apply sum_list_with_ext. intros q _. simpl.
  rewrite <- Hp, !isUD_middle, !collapse_split. simpl. lia.
Qed.

(** The three cases of [partialOrderings] over all patterns of length
    [n + 1]: the top point first, last, or at one of [n] positions. *)
Lemma orderings_sum_S n :
  1 <= n ->
  sum_list_with orderings (all_strings (S n)) = (2 + n) * sum_list_with orderings (all_strings n).
Proof.
  intros Hn.
  rewrite (sum_list_with_ext orderings (ord_cases orderings))
    by (intros s Hs%elem_of_all_strings; apply orderings_cases; lia).
  unfold ord_cases. rewrite !sum_list_with_plus, sum_head_D, sum_last_U.
  set (g := fun s i => if isUD s i then orderings (collapse s i U) + orderings (collapse s i D) else 0).
  rewrite (sum_list_with_ext (fun s => sum_list_with (g s) (seq 0 (length s - 1)))
             (fun s => sum_list_with (g s) (seq 0 n))).
  2: { intros s Hs%elem_of_all_strings. by rewrite Hs, Nat.sub_1_r. }
  rewrite (sum_list_with_swap g).
  rewrite (sum_list_with_ext (fun i => sum_list_with (fun s => g s i) (all_strings (S n)))
             (fun _ => sum_list_with orderings (all_strings n))).
  { rewrite sum_list_with_const, length_seq. lia. }
  intros i Hi%elem_of_seq. subst g. cbv beta.
  replace (all_strings (S n)) with (all_strings (i + (2 + (n - 1 - i)))) by (f_equal; lia).
  rewrite sum_UD_at. f_equal. f_equal. lia.
Qed.

Lemma orderings_sum n : 1 <= n -> sum_list_with orderings (all_strings n) = fact (S n).
Proof.
  induction n as [|n IH]; intros Hn; [lia|].
  destruct (decide (n = 0)) as [->|Hn0]; [reflexivity|].
  rewrite orderings_sum_S, IH by lia. simpl. lia.
Qed.

(** C21. The counts [partialOrderings(string, {})] returns for the
    [2^n] patterns of length [n >= 2] add up to [(n+1)!], the number
    of orders of [n + 1] points by height: every order has exactly one
    up/down pattern, and [partialOrderings] counts the orders of each. *)
Theorem partialOrderings_total n :
  2 <= n ->
  sum_list_with (fun s => match partialOrderings (length s) s ∅ with
                          | Ok (Some k, _) => k
                          | _ => 0
                          end) (all_strings n) = fact (S n).
Proof.
  intros Hn. rewrite <- orderings_sum by lia. apply sum_list_with_ext.
  intros s Hs%elem_of_all_strings.
  destruct (partialOrderings_contract (length s) s ∅) as (m' & -> & _);
    [lia|apply memo_below_empty|].
  by rewrite (proj2 (Nat.eqb_neq _ _)) by lia.
Qed.

Lemma partialOrderings_total_witness :
  2 <= 4 /\
  sum_list_with (fun s => match partialOrderings (length s) s ∅ with
                          | Ok (Some k, _) => k
                          | _ => 0
                          end) (all_strings 4) = 120.
Proof. split; [lia|]. apply (partialOrderings_total 4). lia. Defined.
