(* ===== verification/DPSolver.v ===== *)
(** * The path-string DP solver

    [pathStringDP] of src/CleanSolution.py (lines 147-316) and
    [pathString] of src/Solver.py (lines 111-214).  The two functions
    have the same base case and the same Cases I, II and III, and the
    helpers below model them once (with the line numbers of
    CleanSolution.py; Solver.py repeats the same lines).  They differ in
    the loop of Case III: [pathString] visits every "UD" position, while
    in [pathStringDP] the statement [return solved] sits inside the body
    of the first "UD" found, so the loop stops there and the function
    returns the memo ([RetSolved]), or falls off its end and returns
    [None] ([RetNone]) when the string has no "UD".

    State: the memo dictionary [solved], a [gmap] from path strings to
    the list of solutions found for them.  Every operation that changes
    it is a definition here: the reset [solved[string] = []]
    ([st_modify]), the appends [solved[string].append(...)]
    ([append_solution]), and the recursive calls.  The points are the
    list [points] of the code; a recursive call receives
    [points[:len(points) - 1]]. *)

From S2P Require Import Prelude Geometry PathString Memo.
From stdpp Require Import base list gmap.
From Stdlib Require Import ZArith Lia.

Open Scope py_scope.

(** [range(0, len(string) - 1)], the positions of the Case III loop. *)
Definition loop_range (string : pstring) : list nat := seq 0 (length string - 1).

(** A solution: the list of directed segments of a path. *)
Abbreviation path := (list LineSegment).

Section DP.
Context `{SegmentTest}.

(** [solved[string].append(sol)]. *)
Definition append_solution (string : pstring) (sol : path)
    : St (gmap pstring (list path)) unit :=
  m <- st_get ;;
  match m !! string with
  | Some sols => st_put (<[string := sols ++ [sol]]> m)
  | None => st_raise KeyError
  end.

(** The base case: the single edge between [points[0]] and
    [points[1]], upward for "U". *)
Definition base_solution (points : list Pt) (c : dir) : res path :=
  match c with
  | U => p0 <-? py_get points 0 ;; p1 <-? py_get points 1 ;; Ok [mkSeg p0 p1]
  | D => p1 <-? py_get points 1 ;; p0 <-? py_get points 0 ;; Ok [mkSeg p1 p0]
  end.

(** Case I for one partial solution: a new first edge from the top
    point [points[-1]] to the old start, kept when it meets none of
    the old edges but the first. *)
Definition case1_extend (points : list Pt) (partialsolution : path) : res (option path) :=
  e0 <-? py_get partialsolution 0 ;;
  let startingpoint := pt1 e0 in
  top <-? py_get points (length points - 1) ;;
  let newLine := mkSeg top startingpoint in
  let valid := forallb (fun e => negb (seg_intersect e newLine)) (drop 1 partialsolution) in
  Ok (if valid then Some (newLine :: partialsolution) else None).

(** Case II for one partial solution: a new last edge from the old end
    to the top point, kept when it meets none of the old edges but the
    last. *)
Definition case2_extend (points : list Pt) (partialsolution : path) : res (option path) :=
  el <-? py_get partialsolution (length partialsolution - 1) ;;
  let endpoint := pt2 el in
  top <-? py_get points (length points - 1) ;;
  let newLine := mkSeg endpoint top in
  let valid := forallb (fun e => negb (seg_intersect e newLine))
                 (take (length partialsolution - 1) partialsolution) in
  Ok (if valid then Some (partialsolution ++ [newLine]) else None).

(** Case III at position [i] for one partial solution: edge [i] is
    popped and replaced by two edges through the top point, kept when
    neither meets an edge it is not adjacent to. *)
Definition case3_extend (points : list Pt) (i : nat) (partialsol : path)
    : res (option path) :=
  popped <-? py_pop i partialsol ;;
  let '(oldLine, partialSolution) := popped in
  top <-? py_get points (length points - 1) ;;
  let newLine1 := mkSeg (pt1 oldLine) top in
  let newLine2 := mkSeg top (pt2 oldLine) in
  let crosses e := seg_intersect newLine1 e || seg_intersect newLine2 e in
  let valid := forallb (fun e => negb (crosses e)) (take (i - 1) partialSolution) in
  valid <-? (if valid && (0 <? i)%nat
             then e <-? py_get partialSolution (i - 1) ;;
                  Ok (negb (seg_intersect e newLine2))
             else Ok valid) ;;
  valid <-? (if valid && (i <? length partialSolution)%nat
             then e <-? py_get partialSolution i ;;
                  Ok (negb (seg_intersect e newLine1))
             else Ok valid) ;;
  let valid := valid && forallb (fun e => negb (crosses e)) (drop (i + 1) partialSolution) in
  Ok (if valid
      then Some (py_insert (i + 1) newLine2 (py_insert i newLine1 partialSolution))
      else None).

(** [for partialsol in partialsolutions:] extend it and append the
    extension to [solved[string]] when it is valid. *)
Definition extend_all (string : pstring) (ext : path -> res (option path))
    (partialsolutions : list path) : St (gmap pstring (list path)) unit :=
  st_for partialsolutions (fun partialsol =>
    o <- st_lift (ext partialsol) ;;
    match o with
    | Some sol => append_solution string sol
    | None => st_ret tt
    end).

Context (recur : list Pt -> pstring -> St (gmap pstring (list path)) unit).

(** Case I: [if string[0] == "D"]. *)
Definition case1_block (points : list Pt) (string : pstring)
    : St (gmap pstring (list path)) unit :=
  c0 <- st_lift (py_get string 0) ;;
  match c0 with
  | D => partialsolutions <- get_or_solve (recur (take (length points - 1) points))
                                          (drop_first string) ;;
         extend_all string (case1_extend points) partialsolutions
  | U => st_ret tt
  end.

(** Case II: [if string[len(string) - 1] == "U"]. *)
Definition case2_block (points : list Pt) (string : pstring)
    : St (gmap pstring (list path)) unit :=
  cl <- st_lift (py_get string (length string - 1)) ;;
  match cl with
  | U => partialsolutions <- get_or_solve (recur (take (length points - 1) points))
                                          (drop_last string) ;;
         extend_all string (case2_extend points) partialsolutions
  | D => st_ret tt
  end.

(** Case III at a "UD" position [i]: the solutions of [partial1]
    (the pair collapsed to "U"), then those of [partial2] (to "D"). *)
Definition case3_at (points : list Pt) (string : pstring) (i : nat)
    : St (gmap pstring (list path)) unit :=
  let partial1 := collapse string i U in
  let partial2 := collapse string i D in
  partialSolutions <- get_or_solve (recur (take (length points - 1) points)) partial1 ;;
  u <- extend_all string (case3_extend points i) partialSolutions ;;
  partialSolutions <- get_or_solve (recur (take (length points - 1) points)) partial2 ;;
  extend_all string (case3_extend points i) partialSolutions.

(** The base case: [solved[string].append(...)] of the one edge. *)
Definition base_block (points : list Pt) (string : pstring)
    : St (gmap pstring (list path)) unit :=
  c <- st_lift (py_get string 0) ;;
  sol <- st_lift (base_solution points c) ;;
  append_solution string sol.

(** The Case III loop of Solver.py: every "UD" position. *)
Definition case3_all (points : list Pt) (string : pstring)
    : St (gmap pstring (list path)) unit :=
  st_for (loop_range string) (fun i =>
    if isUD string i then case3_at points string i else st_ret tt).
End DP.

(** What [pathStringDP] returns: [None], or the memo [solved] itself. *)
Inductive dp_ret := RetNone | RetSolved.

Section Solvers.
Context `{SegmentTest}.

(** [pathString(points, string, solved)] of Solver.py. *)
Fixpoint pathString (fuel : nat) (points : list Pt) (string : pstring)
    : St (gmap pstring (list path)) unit :=
  match fuel with
  | 0 => st_raise RecursionError
  | S fuel' =>
    let recur := pathString fuel' in
    u <- st_modify (insert string []) ;;
    if length string =? 1 then base_block points string
    else
      u <- case1_block recur points string ;;
      u <- case2_block recur points string ;;
      case3_all recur points string
  end.

(** The Case III loop of CleanSolution.py, which returns after the
    first "UD" position it handles. *)
Fixpoint case3_first (recur : list Pt -> pstring -> St (gmap pstring (list path)) unit)
    (points : list Pt) (string : pstring) (indices : list nat)
    : St (gmap pstring (list path)) dp_ret :=
  match indices with
  | [] => st_ret RetNone
  | i :: indices' =>
    if isUD string i
    then u <- case3_at recur points string i ;; st_ret RetSolved
    else case3_first recur points string indices'
  end.

(** [pathStringDP(points, string, solved)] of CleanSolution.py. *)
Fixpoint pathStringDP (fuel : nat) (points : list Pt) (string : pstring)
    : St (gmap pstring (list path)) dp_ret :=
  match fuel with
  | 0 => st_raise RecursionError
  | S fuel' =>
    let recur := fun pts p => r <- pathStringDP fuel' pts p ;; st_ret tt in
    u <- st_modify (insert string []) ;;
    if length string =? 1 then u <- base_block points string ;; st_ret RetNone
    else
      u <- case1_block recur points string ;;
      u <- case2_block recur points string ;;
      case3_first recur points string (loop_range string)
  end.
End Solvers.
