(* ===== verification/DPSpec.v ===== *)
(** * What the DP solver computes

    [dp_ref]: the recursion of [pathString] without the memo, on the
    point list reversed (the top point first), so that it is structural.
    [solutions points s] is what [pathString] stores under [s]
    (proved in [DPRefine]).

    [valid_path points s p]: [p] is a chain of directed segments that
    visits every point of [points] once, goes up on "U" and down on "D",
    and whose non-adjacent edges do not intersect.  [solutions_valid]:
    on points with strictly increasing heights, every solution is a valid
    path.  Soundness holds for any symmetric crossing test (the
    [SegmentTest] interface). *)

From S2P Require Import Prelude Geometry PathString Memo DPSolver.
From stdpp Require Import base list gmap.
From Stdlib Require Import ZArith Lia.

Open Scope py_scope.

Section Spec.
Context `{SegmentTest}.
(** The positions Case III tries, in order: every position for
    [pathString], the first "UD" only for [pathStringDP]. *)
Context (sel : pstring -> list nat).

(** The extension a case keeps: [Ok (Some p)]. *)
Definition res_opt {A} (r : res (option A)) : option A :=
  match r with Ok o => o | Raise _ => None end.

(** The solutions of [s] on the points [rev Q]. *)
Fixpoint dp_ref (Q : list Pt) (s : pstring) : list path :=
  match Q with
  | [] => []
  | top :: Q' =>
    let points := rev Q in
    if length s =? 1 then
      match s with
      | [c] => match base_solution points c with Ok sol => [sol] | Raise _ => [] end
      | _ => []
      end
    else
      (if head_is D s
       then omap (fun ps => res_opt (case1_extend points ps)) (dp_ref Q' (drop_first s))
       else [])
      ++ (if last_is U s
          then omap (fun ps => res_opt (case2_extend points ps)) (dp_ref Q' (drop_last s))
          else [])
      ++ concat (map (fun i =>
           if isUD s i
           then omap (fun ps => res_opt (case3_extend points i ps)) (dp_ref Q' (collapse s i U))
                ++ omap (fun ps => res_opt (case3_extend points i ps)) (dp_ref Q' (collapse s i D))
           else []) (sel s))
  end.

Definition solutions (points : list Pt) (s : pstring) : list path := dp_ref (rev points) s.

(** ** Valid paths *)

(** The vertices of a path in order: its start, then every edge's end. *)
Definition vertices (p : path) : list Pt :=
  match p with [] => [] | e :: _ => pt1 e :: map pt2 p end.

Definition chained (p : path) : Prop :=
  forall k e1 e2, p !! k = Some e1 -> p !! S k = Some e2 -> pt2 e1 = pt1 e2.

(** The direction of one edge matches its character. *)
Definition step_ok (c : dir) (e : LineSegment) : Prop :=
  match c with
  | U => (y (pt1 e) < y (pt2 e))%Z
  | D => (y (pt2 e) < y (pt1 e))%Z
  end.

(** No two non-adjacent edges intersect. *)
Definition simple (p : path) : Prop :=
  forall j k ej ek, S j < k -> p !! j = Some ej -> p !! k = Some ek ->
    seg_intersect ej ek = false.

Record valid_path (points : list Pt) (s : pstring) (p : path) : Prop := {
  vp_chained : chained p;
  vp_vertices : vertices p ≡ₚ points;
  vp_profile : Forall2 step_ok s p;
  vp_simple : simple p
}.

(** Strictly increasing heights, as [pathStringDPWrapper] sorts them. *)
Definition y_increasing (points : list Pt) : Prop :=
  forall i j p q, i < j -> points !! i = Some p -> points !! j = Some q -> (y p < y q)%Z.

(** ** Helper lemmas *)

Lemma forallb_lookup {A} (f : A -> bool) l i a :
  forallb f l = true -> l !! i = Some a -> f a = true.
Proof.
  intros Hf Hi. apply forallb_forall with (x := a) in Hf; [done|].
  apply list_elem_of_In. by eapply list_elem_of_lookup_2.
Qed.

Lemma py_get_top (P : list Pt) top : py_get (P ++ [top]) (length (P ++ [top]) - 1) = Ok top.
Proof.
  apply py_get_Ok. rewrite length_app. simpl.
  rewrite lookup_app_r by lia. by replace (length P + 1 - 1 - length P) with 0 by lia.
Qed.

Lemma py_get_head {A} (a : A) l : py_get (a :: l) 0 = Ok a.
Proof. reflexivity. Qed.

Lemma y_increasing_top P top :
  y_increasing (P ++ [top]) -> forall q, q ∈ P -> (y q < y top)%Z.
Proof.
  intros Hy q [i Hi]%list_elem_of_lookup.
  apply (Hy i (length P)); [by apply lookup_lt_Some in Hi| |].
  - by apply lookup_app_l_Some.
  - rewrite lookup_app_r, Nat.sub_diag by lia. done.
Qed.

Lemma y_increasing_prefix P top : y_increasing (P ++ [top]) -> y_increasing P.
Proof.
  intros Hy i j p q Hij Hi Hj. apply (Hy i j); [done| |]; by apply lookup_app_l_Some.
Qed.

Lemma pt2_in_map e (l : path) : e ∈ l -> pt2 e ∈ map pt2 l.
Proof. intros He. apply list_elem_of_In, in_map, list_elem_of_In, He. Qed.

(** Both ends of an edge of a chained path are vertices of it. *)
Lemma edge_in_vertices p k e :
  chained p -> p !! k = Some e -> pt1 e ∈ vertices p /\ pt2 e ∈ vertices p.
Proof.
  intros Hch Hk. destruct p as [|e0 p]; [done|].
  change (vertices (e0 :: p)) with (pt1 e0 :: map pt2 (e0 :: p)). split.
  - destruct k as [|k].
    + injection Hk as ->. by left.
    + destruct ((e0 :: p) !! k) as [e'|] eqn:He'.
      * rewrite <- (Hch k e' e He' Hk). right. apply pt2_in_map.
        by eapply list_elem_of_lookup_2.
      * apply lookup_ge_None in He'. apply lookup_lt_Some in Hk. simpl in *. lia.
  - right. apply pt2_in_map. by eapply list_elem_of_lookup_2.
Qed.

Lemma edge_below_top P s ps top k e :
  (forall q, q ∈ P -> (y q < y top)%Z) -> valid_path P s ps -> ps !! k = Some e ->
  (y (pt1 e) < y top)%Z /\ (y (pt2 e) < y top)%Z.
Proof.
  intros Hlow [Hch Hv _ _] Hk. destruct (edge_in_vertices ps k e Hch Hk) as [H1 H2].
  split; apply Hlow; by rewrite <- Hv.
Qed.

Lemma lookup_snoc_Some {A} (l : list A) a k b :
  (l ++ [a]) !! k = Some b -> (k < length l /\ l !! k = Some b) \/ (k = length l /\ b = a).
Proof.
  intros Hk. destruct (decide (k < length l)).
  - left. split; [done|]. by rewrite lookup_app_l in Hk.
  - right. rewrite lookup_app_r in Hk by lia.
    destruct (k - length l) as [|k'] eqn:E; simpl in Hk; [|by rewrite lookup_nil in Hk].
    injection Hk as <-. split; [lia|done].
Qed.

Lemma vertices_snoc ps e : ps <> [] -> vertices (ps ++ [e]) = vertices ps ++ [pt2 e].
Proof. destruct ps as [|e0 ps]; [done|]. intros _. simpl. by rewrite map_app. Qed.

(** ** Soundness of each case *)

Lemma base_sound points c sol :
  length points = 2 -> y_increasing points ->
  base_solution points c = Ok sol -> valid_path points [c] sol.
Proof.
  intros Hlen Hy Hb. destruct points as [|p0 [|p1 [|]]]; simpl in Hlen; try lia.
  assert (Hlt : (y p0 < y p1)%Z) by (apply (Hy 0 1); [lia|done|done]).
  destruct c; simpl in Hb; injection Hb as <-; split.
  - intros [|k] ? ? ? H2; by rewrite ?lookup_nil in H2.
  - done.
  - by constructor.
  - intros j [|[|k]] ? ? ? ? H2; try lia; by rewrite ?lookup_nil in H2.
  - intros [|k] ? ? ? H2; by rewrite ?lookup_nil in H2.
  - simpl. apply perm_swap.
  - by constructor.
  - intros j [|[|k]] ? ? ? ? H2; try lia; by rewrite ?lookup_nil in H2.
Qed.

(** Case I keeps valid paths valid: the new first edge goes down from
    the top point, and the test against [partialsolution[1:]] covers
    every edge it is not adjacent to. *)
Lemma case1_sound P top s ps p' :
  (forall q, q ∈ P -> (y q < y top)%Z) -> valid_path P s ps ->
  case1_extend (P ++ [top]) ps = Ok (Some p') -> valid_path (P ++ [top]) (D :: s) p'.
Proof.
  intros Hlow Hps Hext. pose proof Hps as [Hch Hv Hpr Hs].
  destruct ps as [|e0 ps]; [discriminate|].
  unfold case1_extend in Hext. rewrite py_get_head, py_get_top in Hext. cbn [res_bind] in Hext.
  destruct (forallb _ _) eqn:Hf; [|discriminate]. injection Hext as <-. split.
  - intros [|k] e1 e2 H1 H2; simpl in H1, H2.
    + injection H1 as <-. by injection H2 as <-.
    + by apply (Hch k).
  - change (vertices (mkSeg top (pt1 e0) :: e0 :: ps)) with (top :: vertices (e0 :: ps)).
    etrans; [apply perm_skip, Hv|apply Permutation_cons_append].
  - constructor; [|done]. simpl.
    by destruct (edge_below_top P s (e0 :: ps) top 0 e0 Hlow Hps eq_refl).
  - intros [|j] [|k] ej ek Hjk Hj Hk; try lia; simpl in Hj, Hk.
    + injection Hj as <-. destruct k as [|k]; [lia|]. simpl in Hk, Hf.
      rewrite seg_intersect_sym. apply negb_true_iff. by apply (forallb_lookup _ _ _ _ Hf Hk).
    + apply (Hs j k); [lia|done|done].
Qed.

(** Case II keeps valid paths valid: the new last edge goes up to the
    top point, and the test against [partialsolution[:-1]] covers every
    edge it is not adjacent to. *)
Lemma case2_sound P top s ps p' :
  (forall q, q ∈ P -> (y q < y top)%Z) -> valid_path P s ps ->
  case2_extend (P ++ [top]) ps = Ok (Some p') -> valid_path (P ++ [top]) (s ++ [U]) p'.
Proof.
  intros Hlow Hps Hext. pose proof Hps as [Hch Hv Hpr Hs].
  unfold case2_extend in Hext. destruct (py_get ps (length ps - 1)) as [el|] eqn:Hel; [|discriminate].
  apply py_get_Ok in Hel. assert (Hne : ps <> []) by (intros ->; discriminate).
  assert (Hlt : length ps - 1 < length ps) by (apply lookup_lt_Some in Hel; lia).
  rewrite py_get_top in Hext. cbn [res_bind] in Hext.
  destruct (forallb _ _) eqn:Hf; [|discriminate]. injection Hext as <-. split.
  - intros k e1 e2 H1 H2.
    destruct (lookup_snoc_Some _ _ _ _ H1) as [[Hk1 H1']|[-> ->]],
             (lookup_snoc_Some _ _ _ _ H2) as [[Hk2 H2']|[Hk2 ->]]; try lia.
    + by apply (Hch k).
    + simpl. replace k with (length ps - 1) in H1' by lia. congruence.
  - rewrite vertices_snoc by done. simpl. by apply Permutation_app_tail.
  - apply Forall2_app; [done|]. constructor; [|done]. simpl.
    by destruct (edge_below_top P s ps top _ el Hlow Hps Hel).
  - intros j k ej ek Hjk Hj Hk.
    destruct (lookup_snoc_Some _ _ _ _ Hj) as [[Hj1 Hj']|[-> ->]],
             (lookup_snoc_Some _ _ _ _ Hk) as [[Hk1 Hk']|[-> ->]]; try lia.
    + by apply (Hs j k).
    + apply negb_true_iff. apply (forallb_lookup _ _ j _ Hf).
      rewrite lookup_take_lt by lia. done.
Qed.

(** What a successful Case III extension is: edge [i] of the partial
    solution replaced by two edges through the top point, with the
    code's four tests passed. *)
Lemma case3_extend_Some points i ps p' :
  case3_extend points i ps = Ok (Some p') ->
  exists L e R top,
    ps = L ++ e :: R /\ length L = i /\ points !! (length points - 1) = Some top /\
    let nl1 := mkSeg (pt1 e) top in let nl2 := mkSeg top (pt2 e) in
    p' = L ++ nl1 :: nl2 :: R /\
    (forall j e', S j < i -> L !! j = Some e' ->
       seg_intersect nl1 e' = false /\ seg_intersect nl2 e' = false) /\
    (forall eL, last L = Some eL -> seg_intersect eL nl2 = false) /\
    (forall eR, R !! 0 = Some eR -> seg_intersect eR nl1 = false) /\
    (forall j e', R !! S j = Some e' ->
       seg_intersect nl1 e' = false /\ seg_intersect nl2 e' = false).
Proof.
  unfold case3_extend. destruct (py_pop i ps) as [[e rest]|] eqn:Hpop; [|discriminate].
  apply py_pop_Ok in Hpop as [He ->]. cbn [res_bind].
  destruct (py_get points (length points - 1)) as [top|] eqn:Htop; [|discriminate].
  apply py_get_Ok in Htop. cbn [res_bind].
  set (L := take i ps). set (R := drop (S i) ps).
  assert (HL : length L = i) by (apply length_take_le; apply lookup_lt_Some in He; lia).
  assert (Hps : ps = L ++ e :: R) by (symmetry; by apply take_drop_middle).
  set (nl1 := mkSeg (pt1 e) top). set (nl2 := mkSeg top (pt2 e)).
  assert (Hins : py_insert (i + 1) nl2 (py_insert i nl1 (L ++ R)) = L ++ nl1 :: nl2 :: R).
  { rewrite <- HL, py_insert_middle.
    replace (L ++ nl1 :: R) with ((L ++ [nl1]) ++ R) by (by rewrite <- app_assoc).
    replace (length L + 1) with (length (L ++ [nl1])) by (rewrite length_app; simpl; lia).
    rewrite py_insert_middle. by rewrite <- app_assoc. }
  rewrite Hins, take_app_le, drop_app_ge by lia. rewrite HL, length_app, HL.
  replace (i + 1 - i) with 1 by lia.
  destruct (forallb (fun e0 => negb (seg_intersect nl1 e0 || seg_intersect nl2 e0))
              (take (i - 1) L)) eqn:H0;
    [|destruct (0 <? i), (i <? i + length R); simpl; intros [=]].
  destruct i as [|i'].
  - (* no left neighbour *)
    simpl. destruct R as [|eR R'].
    + simpl. intros [= <-].
      exists L, e, [], top. split_and!; try done.
    + simpl. destruct (negb (seg_intersect eR nl1)) eqn:H2; simpl; [|intros [=]].
      rewrite drop_0.
      destruct (forallb (fun e0 => negb (seg_intersect nl1 e0 || seg_intersect nl2 e0)) R') eqn:H3;
        simpl; [intros [= <-]|intros [=]].
      exists L, e, (eR :: R'), top. split_and!; try done.
      * intros eR0 [= <-]. by apply negb_true_iff.
      * intros j e' Hj. apply orb_false_iff, negb_true_iff. exact (forallb_lookup _ _ _ _ H3 Hj).
  - (* a left neighbour *)
    assert (HeL : exists eL, L !! i' = Some eL) by (apply lookup_lt_is_Some_2; lia).
    destruct HeL as [eL HeL].
    replace (S i' - 1) with i' in * by lia. simpl.
    rewrite (proj2 (py_get_Ok _ _ _) (lookup_app_l_Some _ R _ _ HeL)). cbn [res_bind].
    destruct (negb (seg_intersect eL nl2)) eqn:H1; simpl;
      [|destruct (S i' <? S (i' + length R)); simpl; intros [=]].
    simpl in H0.
    assert (HLj : forall j e', S j < S i' -> L !! j = Some e' ->
              seg_intersect nl1 e' = false /\ seg_intersect nl2 e' = false).
    { intros j e' Hj He'. apply orb_false_iff, negb_true_iff.
      apply (forallb_lookup _ _ j _ H0). rewrite lookup_take_lt by lia. done. }
    assert (HLl : forall eL', list.last L = Some eL' -> seg_intersect eL' nl2 = false).
    { intros eL'. rewrite last_lookup, HL. simpl. rewrite HeL. intros [= <-].
      by apply negb_true_iff. }
    destruct R as [|eR R'].
    + simpl. replace (S i' <? S (i' + 0)) with false by (symmetry; apply Nat.ltb_ge; lia).
      simpl. intros [= <-]. exists L, e, [], top. split_and!; try done.
    + replace (S i' <? S (i' + length (eR :: R'))) with true by (symmetry; apply Nat.ltb_lt; simpl; lia).
      simpl. rewrite (proj2 (py_get_Ok (L ++ eR :: R') (S i') eR)) by
        (rewrite lookup_app_r, HL, Nat.sub_diag by lia; done).
      cbn [res_bind]. destruct (negb (seg_intersect eR nl1)) eqn:H2; simpl; [|intros [=]].
      rewrite drop_0.
      destruct (forallb (fun e0 => negb (seg_intersect nl1 e0 || seg_intersect nl2 e0)) R') eqn:H3;
        simpl; [intros [= <-]|intros [=]].
      exists L, e, (eR :: R'), top. split_and!; try done.
      * intros eR0 [= <-]. by apply negb_true_iff.
      * intros j e' Hj. apply orb_false_iff, negb_true_iff. exact (forallb_lookup _ _ _ _ H3 Hj).
Qed.

Lemma lookup_mid2_Some {A} (L R : list A) x1 x2 k v :
  (L ++ x1 :: x2 :: R) !! k = Some v ->
  (k < length L /\ L !! k = Some v) \/ (k = length L /\ v = x1)
  \/ (k = S (length L) /\ v = x2) \/ (S (S (length L)) <= k /\ R !! (k - S (S (length L))) = Some v).
Proof.
  intros Hk. destruct (decide (k < length L)).
  - left. by rewrite lookup_app_l in Hk.
  - rewrite lookup_app_r in Hk by lia. right.
    destruct (k - length L) as [|[|j]] eqn:E; simpl in Hk.
    + left. injection Hk as <-. split; [lia|done].
    + right; left. injection Hk as <-. split; [lia|done].
    + right; right. split; [lia|]. by replace (k - S (S (length L))) with j by lia.
Qed.

Lemma lookup_mid1_L {A} (L R : list A) x k : k < length L -> (L ++ x :: R) !! k = L !! k.
Proof. intros. by rewrite lookup_app_l. Qed.

Lemma lookup_mid1_x {A} (L R : list A) x : (L ++ x :: R) !! length L = Some x.
Proof. by rewrite lookup_app_r, Nat.sub_diag by lia. Qed.

Lemma lookup_mid1_R {A} (L R : list A) x j : (L ++ x :: R) !! (S (length L) + j) = R !! j.
Proof. rewrite lookup_app_r by lia. by replace (S (length L) + j - length L) with (S j) by lia. Qed.

Lemma vertices_mid L e R top :
  vertices (L ++ mkSeg (pt1 e) top :: mkSeg top (pt2 e) :: R) ≡ₚ top :: vertices (L ++ e :: R).
Proof.
  destruct L as [|e0 L]; simpl.
  - apply perm_swap.
  - rewrite !map_app. simpl. symmetry.
    apply (Permutation_middle (pt1 e0 :: pt2 e0 :: map pt2 L)).
Qed.

Lemma lookup_mid1_R' {A} (L R : list A) x k :
  S (S (length L)) <= k -> (L ++ x :: R) !! (k - 1) = R !! (k - S (S (length L))).
Proof.
  intros Hk. replace (k - 1) with (S (length L) + (k - S (S (length L)))) by lia.
  apply lookup_mid1_R.
Qed.

Ltac mid2_cases H :=
  destruct (lookup_mid2_Some _ _ _ _ _ _ H)
    as [[? ?]|[[? ->]|[[? ->]|[? ?]]]].

Lemma chained_mid L e R top :
  chained (L ++ e :: R) -> chained (L ++ mkSeg (pt1 e) top :: mkSeg top (pt2 e) :: R).
Proof.
  intros Hch k e1 e2 H1 H2. mid2_cases H1; mid2_cases H2; try lia; simpl.
  - apply (Hch k); by rewrite lookup_mid1_L.
  - apply (Hch k); [by rewrite lookup_mid1_L|].
    replace (S k) with (length L) by lia. apply lookup_mid1_x.
  - done.
  - apply (Hch (length L)); [apply lookup_mid1_x|].
    rewrite <- (Nat.add_0_r (S (length L))), lookup_mid1_R.
    by replace 0 with (S k - S (S (length L))) by lia.
  - apply (Hch (k - 1)); [by rewrite lookup_mid1_R' by lia|].
    replace (S (k - 1)) with (S k - 1) by lia. by rewrite lookup_mid1_R' by lia.
Qed.

Lemma simple_mid L e R top :
  let nl1 := mkSeg (pt1 e) top in
  let nl2 := mkSeg top (pt2 e) in
  simple (L ++ e :: R) ->
  (forall j e', S j < length L -> L !! j = Some e' ->
     seg_intersect nl1 e' = false /\ seg_intersect nl2 e' = false) ->
  (forall eL, list.last L = Some eL -> seg_intersect eL nl2 = false) ->
  (forall eR, R !! 0 = Some eR -> seg_intersect eR nl1 = false) ->
  (forall j e', R !! S j = Some e' ->
     seg_intersect nl1 e' = false /\ seg_intersect nl2 e' = false) ->
  simple (L ++ nl1 :: nl2 :: R).
Proof.
  intros nl1 nl2 Hs HL HLl HR0 HR j k ej ek Hjk Hj Hk. mid2_cases Hj; mid2_cases Hk; try lia.
  - apply (Hs j k); [lia|by rewrite lookup_mid1_L by lia..].
  - rewrite seg_intersect_sym. apply (HL j ej); [lia|done].
  - destruct (decide (S j < length L)).
    + rewrite seg_intersect_sym. apply (HL j ej); [lia|done].
    + apply HLl. rewrite last_lookup. by replace (pred (length L)) with j by lia.
  - apply (Hs j (k - 1)); [lia|by rewrite lookup_mid1_L by lia|by rewrite lookup_mid1_R' by lia].
  - destruct (k - S (S (length L))) as [|m] eqn:Em.
    + rewrite seg_intersect_sym. by apply HR0.
    + by apply (HR m ek).
  - destruct (k - S (S (length L))) as [|m] eqn:Em; [lia|]. by apply (HR m ek).
  - apply (Hs (j - 1) (k - 1)); [lia|by rewrite lookup_mid1_R' by lia..].
Qed.

(** Case III keeps valid paths valid: edge [i] of a path for
    [a ++ c :: b] is replaced by an edge up to the top point and an
    edge down from it, which gives the profile [a ++ U :: D :: b], and
    the code's four tests cover every edge the two new edges are not
    adjacent to. *)
Lemma case3_sound P top a b c ps p' :
  (forall q, q ∈ P -> (y q < y top)%Z) -> valid_path P (a ++ c :: b) ps ->
  case3_extend (P ++ [top]) (length a) ps = Ok (Some p') ->
  valid_path (P ++ [top]) (a ++ U :: D :: b) p'.
Proof.
  intros Hlow Hps Hext. pose proof Hps as [Hch Hv Hpr Hs].
  apply case3_extend_Some in Hext as (L & e & R & top' & -> & HL & Htop & -> & HLj & HLl & HR0 & HR).
  assert (top' = top) as ->.
  { rewrite length_app in Htop. simpl in Htop.
    rewrite lookup_app_r, Nat.add_sub, Nat.sub_diag in Htop by lia. by injection Htop. }
  assert (He : (L ++ e :: R) !! length L = Some e) by apply lookup_mid1_x.
  destruct (edge_below_top P _ _ top _ e Hlow Hps He) as [He1 He2].
  split.
  - by apply chained_mid.
  - rewrite vertices_mid, Hv. apply Permutation_cons_append.
  - apply Forall2_app_inv in Hpr as [Ha Hcb]; [|lia]. inversion Hcb; subst.
    apply Forall2_app; [done|]. by repeat constructor.
  - apply simple_mid; [done|by rewrite HL|done..].
Qed.

Lemma elem_of_concat_map {A B} (f : A -> list B) l v :
  v ∈ concat (map f l) <-> exists a, a ∈ l /\ v ∈ f a.
Proof.
  rewrite list_elem_of_In, in_concat. split.
  - intros (vs & Hvs & Hv). apply in_map_iff in Hvs as (a & <- & Ha).
    exists a. by rewrite !list_elem_of_In.
  - intros (a & Ha & Hv). exists (f a). rewrite in_map_iff, <- !list_elem_of_In.
    split; [exists a; split; [done|by apply list_elem_of_In]|done].
Qed.

Lemma res_opt_Some {A} (r : res (option A)) a : res_opt r = Some a -> r = Ok (Some a).
Proof. destruct r as [[]|]; simpl; congruence. Qed.

(** One step of [dp_ref]: a solution of [s] on [rev (top :: Q')], when
    [s] has at least two characters, comes from one of the three cases. *)
Lemma dp_ref_cases top Q' s p :
  length s <> 1 -> p ∈ dp_ref (top :: Q') s ->
  (head_is D s = true /\ exists ps, ps ∈ dp_ref Q' (drop_first s)
      /\ case1_extend (rev (top :: Q')) ps = Ok (Some p))
  \/ (last_is U s = true /\ exists ps, ps ∈ dp_ref Q' (drop_last s)
      /\ case2_extend (rev (top :: Q')) ps = Ok (Some p))
  \/ (exists i c ps, i < length s - 1 /\ isUD s i = true /\ ps ∈ dp_ref Q' (collapse s i c)
      /\ case3_extend (rev (top :: Q')) i ps = Ok (Some p)).
Proof.
  intros H1 Hp. simpl dp_ref in Hp. rewrite (proj2 (Nat.eqb_neq _ _) H1) in Hp.
  rewrite !elem_of_app in Hp. destruct Hp as [Hp|[Hp|Hp]].
  - left. destruct (head_is D s); [|by apply not_elem_of_nil in Hp]. split; [done|].
    apply list_elem_of_omap in Hp as (ps & Hps & Hr). exists ps. split; [done|]. by apply res_opt_Some.
  - right; left. destruct (last_is U s); [|by apply not_elem_of_nil in Hp]. split; [done|].
    apply list_elem_of_omap in Hp as (ps & Hps & Hr). exists ps. split; [done|]. by apply res_opt_Some.
  - right; right. apply elem_of_concat_map in Hp as (i & _ & Hp).
    destruct (isUD s i) eqn:Hud; [|by apply not_elem_of_nil in Hp].
    pose proof (isUD_lt s i Hud) as Hi.
    apply elem_of_app in Hp as [Hp|Hp]; apply list_elem_of_omap in Hp as (ps & Hps & Hr).
    + exists i, U, ps. split_and!; [lia|done|done|by apply res_opt_Some].
    + exists i, D, ps. split_and!; [lia|done|done|by apply res_opt_Some].
Qed.

Lemma dp_ref_sound Q s p :
  y_increasing (rev Q) -> length Q = S (length s) -> p ∈ dp_ref Q s -> valid_path (rev Q) s p.
Proof.
  revert s p. induction Q as [|top Q' IH]; intros s p Hy Hlen Hp; [by apply not_elem_of_nil in Hp|].
  simpl in Hlen. assert (Hy' : y_increasing (rev Q')) by (eapply y_increasing_prefix, Hy).
  assert (Hlow := y_increasing_top _ _ Hy).
  destruct (decide (length s = 1)) as [H1|H1].
  - destruct s as [|c [|]]; simpl in H1; try lia.
    simpl dp_ref in Hp. destruct (base_solution _ c) as [sol|] eqn:Hb;
      [|by apply not_elem_of_nil in Hp].
    apply list_elem_of_singleton in Hp as ->. apply base_sound in Hb; [done| |done].
    simpl in Hlen |- *. rewrite length_app, length_rev. simpl. lia.
  - destruct (dp_ref_cases top Q' s p H1 Hp)
      as [(Hh & ps & Hps & Hext)|[(Hl & ps & Hps & Hext)|(i & c & ps & Hi & Hud & Hps & Hext)]].
    + rewrite (head_is_true _ _ Hh). apply (case1_sound (rev Q') top (drop_first s) ps); [done| |done].
      apply IH; [done| |done]. rewrite length_drop_first.
      destruct s; [discriminate|simpl in *; lia].
    + rewrite (last_is_true _ _ Hl). apply (case2_sound (rev Q') top (drop_last s) ps); [done| |done].
      apply IH; [done| |done]. rewrite length_drop_last.
      destruct s; [discriminate|simpl in *; lia].
    + destruct (isUD_split s i Hud) as (a & b & -> & <-).
      rewrite collapse_split in Hps.
      apply (case3_sound (rev Q') top a b c ps); [done| |done].
      apply IH; [done| |done]. rewrite !length_app in Hlen |- *. simpl in *. lia.
Qed.

(** Every path the DP solver produces for a pattern [s] on points
    with strictly increasing heights ([n + 1] points for a pattern of
    length [n]) is a solution: a chain of segments that visits every
    point exactly once, whose [k]-th edge goes up exactly when [s]
    has "U" at [k], and none of whose non-adjacent edges intersect. *)
Theorem solutions_valid points s p :
  y_increasing points -> length points = S (length s) -> p ∈ solutions points s ->
  valid_path points s p.
Proof.
  intros Hy Hlen Hp. rewrite <- (rev_involutive points).
  apply dp_ref_sound; [by rewrite rev_involutive|by rewrite length_rev|done].
Qed.

(** ** Lengths and absence of exceptions *)

Lemma case1_extend_length points ps p' :
  case1_extend points ps = Ok (Some p') -> length p' = S (length ps).
Proof.
  unfold case1_extend. destruct (py_get ps 0), (py_get points _); simpl; try discriminate.
  destruct (forallb _ _); intros [= <-]. done.
Qed.

Lemma case2_extend_length points ps p' :
  case2_extend points ps = Ok (Some p') -> length p' = S (length ps).
Proof.
  unfold case2_extend. destruct (py_get ps _), (py_get points _); simpl; try discriminate.
  destruct (forallb _ _); intros [= <-]. rewrite length_app. simpl. lia.
Qed.

Lemma case3_extend_length points i ps p' :
  case3_extend points i ps = Ok (Some p') -> length p' = S (length ps).
Proof.
  intros (L & e & R & top & -> & _ & _ & -> & _)%case3_extend_Some.
  rewrite !length_app. simpl. lia.
Qed.

(** A solution of [s] has one edge per character of [s]. *)
Lemma dp_ref_length Q s p :
  length Q = S (length s) -> p ∈ dp_ref Q s -> length p = length s.
Proof.
  revert s p. induction Q as [|top Q' IH]; intros s p Hlen Hp; [by apply not_elem_of_nil in Hp|].
  simpl in Hlen. destruct (decide (length s = 1)) as [H1|H1].
  - destruct s as [|c [|]]; simpl in H1; try lia.
    simpl dp_ref in Hp. destruct (base_solution _ c) as [sol|] eqn:Hb;
      [|by apply not_elem_of_nil in Hp].
    apply list_elem_of_singleton in Hp as ->. destruct c; simpl in Hb;
      destruct (py_get _ 0), (py_get _ 1); simpl in Hb; try discriminate; by injection Hb as <-.
  - destruct (dp_ref_cases top Q' s p H1 Hp)
      as [(Hh & ps & Hps & Hext)|[(Hl & ps & Hps & Hext)|(i & c & ps & Hi & Hud & Hps & Hext)]].
    + assert (1 <= length s) by (destruct s; [discriminate|simpl; lia]).
      apply case1_extend_length in Hext.
      rewrite Hext, (IH (drop_first s) ps); rewrite ?length_drop_first; [lia|lia|done].
    + assert (1 <= length s) by (destruct s; [discriminate|simpl; lia]).
      apply case2_extend_length in Hext.
      rewrite Hext, (IH (drop_last s) ps); rewrite ?length_drop_last; [lia|lia|done].
    + apply case3_extend_length in Hext.
      rewrite Hext, (IH (collapse s i c) ps); [| |done]; rewrite length_collapse; lia.
Qed.

Lemma solutions_length points s p :
  length points = S (length s) -> p ∈ solutions points s -> length p = length s.
Proof. intros Hlen. apply dp_ref_length. by rewrite length_rev. Qed.

Lemma case1_extend_total points ps :
  ps <> [] -> points <> [] -> exists o, case1_extend points ps = Ok o.
Proof.
  intros Hps Hpts. unfold case1_extend.
  destruct (py_get_lt ps 0) as [e0 ->]; [destruct ps; [done|simpl; lia]|].
  destruct (py_get_lt points (length points - 1)) as [top ->]; [destruct points; [done|simpl; lia]|].
  simpl. eauto.
Qed.

Lemma case2_extend_total points ps :
  ps <> [] -> points <> [] -> exists o, case2_extend points ps = Ok o.
Proof.
  intros Hps Hpts. unfold case2_extend.
  destruct (py_get_lt ps (length ps - 1)) as [el ->]; [destruct ps; [done|simpl; lia]|].
  destruct (py_get_lt points (length points - 1)) as [top ->]; [destruct points; [done|simpl; lia]|].
  simpl. eauto.
Qed.

Lemma case3_extend_total points i ps :
  i < length ps -> points <> [] -> exists o, case3_extend points i ps = Ok o.
Proof.
  intros Hi Hpts. unfold case3_extend.
  destruct (lookup_lt_is_Some_2 ps i Hi) as [e He].
  rewrite (proj2 (py_pop_Ok ps i e _) (conj He eq_refl)). cbn [res_bind].
  destruct (py_get_lt points (length points - 1)) as [top ->]; [destruct points; [done|simpl; lia]|].
  cbn [res_bind].
  assert (Hr : length (take i ps ++ drop (S i) ps) = length ps - 1).
  { rewrite length_app, length_take, length_drop. lia. }
  destruct (forallb _ _ && (0 <? i)) eqn:E1.
  - destruct (py_get_lt (take i ps ++ drop (S i) ps) (i - 1)) as [eL ->];
      [apply andb_true_iff in E1 as [_ ?%Nat.ltb_lt]; lia|].
    cbn [res_bind]. destruct (negb _ && _) eqn:E2.
    + destruct (py_get_lt (take i ps ++ drop (S i) ps) i) as [eR ->];
        [apply andb_true_iff in E2 as [_ ?%Nat.ltb_lt]; lia|]. simpl. eauto.
    + simpl. eauto.
  - cbn [res_bind]. destruct (forallb _ _ && (i <? _)) eqn:E2.
    + destruct (py_get_lt (take i ps ++ drop (S i) ps) i) as [eR ->];
        [apply andb_true_iff in E2 as [_ ?%Nat.ltb_lt]; lia|]. simpl. eauto.
    + simpl. eauto.
Qed.

(** ** The recursion on the point list *)

Lemma take_pred_snoc (P : list Pt) top : take (length (P ++ [top]) - 1) (P ++ [top]) = P.
Proof. rewrite length_app. simpl. rewrite Nat.add_sub. apply take_app_length. Qed.

Lemma solutions_base points c :
  points <> [] ->
  solutions points [c] = match base_solution points c with Ok sol => [sol] | Raise _ => [] end.
Proof.
  intros Hne. destruct (exists_last Hne) as (P & top & ->).
  unfold solutions. rewrite rev_unit. simpl. by rewrite rev_involutive.
Qed.

(** The three cases of [solutions], with the sub-problems on
    [points[:len(points) - 1]]. *)
Lemma solutions_cases points s :
  points <> [] -> length s <> 1 ->
  let sub := solutions (take (length points - 1) points) in
  solutions points s =
    (if head_is D s
     then omap (fun ps => res_opt (case1_extend points ps)) (sub (drop_first s)) else [])
    ++ (if last_is U s
        then omap (fun ps => res_opt (case2_extend points ps)) (sub (drop_last s)) else [])
    ++ concat (map (fun i =>
         if isUD s i
         then omap (fun ps => res_opt (case3_extend points i ps)) (sub (collapse s i U))
              ++ omap (fun ps => res_opt (case3_extend points i ps)) (sub (collapse s i D))
         else []) (sel s)).
Proof.
  intros Hne H1 sub. subst sub. destruct (exists_last Hne) as (P & top & ->).
  rewrite take_pred_snoc. unfold solutions at 1. rewrite rev_unit. simpl dp_ref.
  rewrite (proj2 (Nat.eqb_neq _ _) H1). simpl rev. by rewrite rev_involutive.
Qed.
End Spec.

(** ** Trying fewer "UD" positions finds fewer solutions *)

Lemma omap_elem_mono {A B} (f : A -> option B) (l1 l2 : list A) b :
  (forall a, a ∈ l1 -> a ∈ l2) -> b ∈ omap f l1 -> b ∈ omap f l2.
Proof.
  intros Hl (a & Ha & Hf)%list_elem_of_omap. apply list_elem_of_omap. eauto.
Qed.

Section Mono.
Context `{SegmentTest}.

(** If [sel1] tries only "UD" positions that [sel2] tries, every
    solution of the recursion over [sel1] is one over [sel2]. *)
Lemma dp_ref_mono (sel1 sel2 : pstring -> list nat) Q s p :
  (forall s i, i ∈ sel1 s -> isUD s i = true -> i ∈ sel2 s) ->
  p ∈ dp_ref sel1 Q s -> p ∈ dp_ref sel2 Q s.
Proof.
  intros Hsel. revert s p. induction Q as [|top Q' IH]; intros s p Hp; [done|].
  simpl dp_ref in Hp |- *. destruct (length s =? 1); [done|].
  rewrite !elem_of_app in Hp |- *. destruct Hp as [Hp|[Hp|Hp]].
  - left. destruct (head_is D s); [|done]. by eapply omap_elem_mono; [apply IH|].
  - right; left. destruct (last_is U s); [|done]. by eapply omap_elem_mono; [apply IH|].
  - right; right. apply elem_of_concat_map in Hp as (i & Hi & Hp).
    destruct (isUD s i) eqn:Hud; [|by apply not_elem_of_nil in Hp].
    apply elem_of_concat_map. exists i. split; [by apply Hsel|]. rewrite Hud.
    rewrite elem_of_app in Hp |- *.
    destruct Hp as [Hp|Hp]; [left|right]; by eapply omap_elem_mono; [apply IH|].
Qed.
End Mono.

(** ** Deciding validity

    [valid_path] is decidable, so that a concrete path can be checked
    by [decide]. *)

Section Decide.
Context `{SegmentTest}.

(** Edge [k] ends where edge [k + 1] starts. *)
Definition link_ok (p : path) (k : nat) : Prop :=
  match p !! k, p !! S k with
  | Some e1, Some e2 => pt2 e1 = pt1 e2
  | _, _ => True
  end.

(** Edges [j] and [k] do not intersect when they are not adjacent. *)
Definition pair_ok (p : path) (j k : nat) : Prop :=
  match p !! j, p !! k with
  | Some ej, Some ek => S j < k -> seg_intersect ej ek = false
  | _, _ => True
  end.

#[export] Instance link_ok_dec p k : Decision (link_ok p k).
Proof. unfold link_ok. destruct (p !! k), (p !! S k); apply _. Defined.

#[export] Instance pair_ok_dec p j k : Decision (pair_ok p j k).
Proof. unfold pair_ok. destruct (p !! j), (p !! k); apply _. Defined.

#[export] Instance step_ok_dec c e : Decision (step_ok c e).
Proof. destruct c; simpl; apply _. Defined.

Lemma chained_Forall p : chained p <-> Forall (link_ok p) (seq 0 (length p)).
Proof.
  rewrite Forall_forall. split.
  - intros Hc k _. unfold link_ok.
    destruct (p !! k) eqn:H1, (p !! S k) eqn:H2; [by eapply Hc|done..].
  - intros Hl k e1 e2 H1 H2. specialize (Hl k).
    unfold link_ok in Hl. rewrite H1, H2 in Hl. apply Hl, elem_of_seq.
    apply lookup_lt_Some in H1. lia.
Qed.

Lemma simple_Forall p :
  simple p <-> Forall (fun j => Forall (pair_ok p j) (seq 0 (length p))) (seq 0 (length p)).
Proof.
  rewrite Forall_forall. setoid_rewrite Forall_forall. split.
  - intros Hs j _ k _. unfold pair_ok.
    destruct (p !! j) eqn:H1, (p !! k) eqn:H2; [|done..]. intros Hjk. by eapply Hs.
  - intros Hp j k ej ek Hjk H1 H2.
    assert (j < length p) by (by apply lookup_lt_Some in H1).
    assert (k < length p) by (by apply lookup_lt_Some in H2).
    specialize (Hp j ltac:(apply elem_of_seq; lia) k ltac:(apply elem_of_seq; lia)).
    unfold pair_ok in Hp. rewrite H1, H2 in Hp. by apply Hp.
Qed.

#[export] Instance chained_dec p : Decision (chained p).
Proof.
  destruct (decide (Forall (link_ok p) (seq 0 (length p)))) as [Hc|Hc];
    [left|right]; by rewrite chained_Forall.
Defined.

#[export] Instance simple_dec p : Decision (simple p).
Proof.
  destruct (decide (Forall (fun j => Forall (pair_ok p j) (seq 0 (length p)))
                      (seq 0 (length p)))) as [Hs|Hs];
    [left|right]; by rewrite simple_Forall.
Defined.

#[export] Instance valid_path_dec points s p : Decision (valid_path points s p).
Proof.
  destruct (decide (chained p)) as [Hc|Hc]; [|right; by intros []].
  destruct (decide (vertices p ≡ₚ points)) as [Hv|Hv]; [|right; by intros []].
  destruct (decide (Forall2 step_ok s p)) as [Hf|Hf]; [|right; by intros []].
  destruct (decide (simple p)) as [Hs|Hs]; [|right; by intros []].
  left. by constructor.
Defined.
End Decide.
