(* ===== verification/MemoInv.v ===== *)
(** * A well-formedness invariant of the solvers' memo

    [memo_wf m]: every path [solved[k]] holds has one edge per character
    of [k].  Every write of both solvers keeps it ([insert string []],
    [solved[string].append(sol)] with [sol] one edge longer than the
    sub-solution it extends), whatever the points and whatever the
    state the caller passes, so it holds of every state either solver
    returns.  It needs no assumption on the points: it is what a caller
    of [pathStringWrapper] or [randomRun] can rely on when the number of
    points does not match the pattern.

    The proofs are Hoare triples ([hoare] of [Prelude]) composed along
    the code: the loops by [hoare_for], the look-ups by
    [get_or_solve_wf], the blocks of [DPSolver] one by one. *)

From S2P Require Import Prelude Geometry PathString Memo DPSolver DPSpec.
From stdpp Require Import base list gmap.
From Stdlib Require Import Lia.

Open Scope py_scope.

Definition memo_wf (m : gmap pstring (list path)) : Prop :=
  forall k ps p, m !! k = Some ps -> p ∈ ps -> length p = length k.

(** The paths a look-up returns have one edge per character of the key. *)
Definition sols_of (key : pstring) (v : list path) : Prop :=
  forall p, p ∈ v -> length p = length key.

Lemma memo_wf_empty : memo_wf ∅.
Proof. intros k ps p Hk. by rewrite lookup_empty in Hk. Qed.

Lemma memo_wf_insert m k ps : memo_wf m -> sols_of k ps -> memo_wf (<[k:=ps]> m).
Proof.
  intros Hm Hps k' ps' p Hk' Hp. destruct (decide (k' = k)) as [->|Hne].
  - rewrite lookup_insert_eq in Hk'. injection Hk' as <-. by apply Hps.
  - rewrite lookup_insert_ne in Hk' by done. by apply (Hm k' ps').
Qed.

Section Inv.
Context `{SegmentTest}.

(** The triple of an invariant. *)
Definition keeps_wf {A} (c : St (gmap pstring (list path)) A) : Prop :=
  hoare memo_wf c (fun _ => memo_wf).

Lemma append_solution_wf string sol :
  length sol = length string -> keeps_wf (append_solution string sol).
Proof.
  intros Hlen m a m' Hm. unfold append_solution, st_bind, st_get.
  destruct (m !! string) as [sols|] eqn:E; [|done]. intros [= _ <-].
  apply memo_wf_insert; [done|]. intros p [Hp| ->%list_elem_of_singleton]%elem_of_app; [|done].
  by apply (Hm string sols).
Qed.

Lemma extend_all_wf string ext sols :
  (forall ps p', ps ∈ sols -> ext ps = Ok (Some p') -> length p' = length string) ->
  keeps_wf (extend_all string ext sols).
Proof.
  intros Hext. apply hoare_for. intros ps Hps.
  apply (hoare_bind _ _ _ (fun o s => ext ps = Ok o /\ memo_wf s)); [apply hoare_lift|].
  intros [p'|]; intros m a m' [Ho Hm]; [|by intros [= _ <-]].
  apply (append_solution_wf string p'); [by apply (Hext ps)|done].
Qed.

Lemma get_or_solve_wf solve key :
  keeps_wf (solve key) ->
  hoare memo_wf (get_or_solve solve key) (fun v s => memo_wf s /\ sols_of key v).
Proof.
  intros Hs. unfold get_or_solve.
  apply (hoare_bind _ _ _ (fun _ => memo_wf)); [eapply hoare_conseq; [apply hoare_get|done|];
    by intros ? ? [_ ?]|intros m0].
  apply (hoare_bind _ _ _ (fun _ => memo_wf)).
  { destruct (m0 !! key); [|done]. eapply hoare_conseq; [apply hoare_ret|done|]. by intros ? ? [_ ?]. }
  intros _. apply (hoare_bind _ _ _ (fun m' s => m' = s /\ memo_wf s)); [apply hoare_get|].
  intros m'. intros s v s' [-> Hm]. destruct (s !! key) as [v'|] eqn:E; [|done].
  intros [= <- <-]. split; [done|]. intros p Hp. by apply (Hm key v').
Qed.

Section Blocks.
Context (recur : list Pt -> pstring -> St (gmap pstring (list path)) unit).
Hypothesis Hrecur : forall pts k, keeps_wf (recur pts k).

(** The extension of sub-solutions of [key] by one edge each. *)
Lemma extend_sols_wf string key ext v :
  length key = length string - 1 -> 1 <= length string ->
  (forall ps p', ext ps = Ok (Some p') -> length p' = S (length ps)) ->
  hoare (fun s => memo_wf s /\ sols_of key v) (extend_all string ext v) (fun _ => memo_wf).
Proof.
  intros Hkey Hs Hext m a m' [Hm Hv]. apply (extend_all_wf string ext v); [|done].
  intros ps p' Hps He. rewrite (Hext ps p' He), (Hv ps Hps). lia.
Qed.

(** A look-up followed by the extension of each sub-solution by one
    edge. *)
Lemma lookup_extend_wf pts string key ext :
  length key = length string - 1 -> 1 <= length string ->
  (forall ps p', ext ps = Ok (Some p') -> length p' = S (length ps)) ->
  keeps_wf (partialsolutions <- get_or_solve (recur pts) key ;;
            extend_all string ext partialsolutions).
Proof.
  intros Hkey Hs Hext. apply (hoare_bind _ _ _ (fun v s => memo_wf s /\ sols_of key v));
    [by apply get_or_solve_wf|]. intros v. by apply extend_sols_wf.
Qed.

Lemma py_get_length {A} (l : list A) i a : py_get l i = Ok a -> i < length l.
Proof. intros ?%py_get_Ok. by eapply lookup_lt_Some. Qed.

(** A step that reads [string[i]] first. *)
Lemma read_char_wf (string : pstring) (i : nat) (k : dir -> St (gmap pstring (list path)) unit) :
  (forall c, i < length string -> keeps_wf (k c)) ->
  keeps_wf (c <- st_lift (py_get string i) ;; k c).
Proof.
  intros Hk. apply (hoare_bind _ _ _ (fun c s => py_get string i = Ok c /\ memo_wf s));
    [apply hoare_lift|].
  intros c m a m' [Hc Hm]. apply (Hk c); [by eapply py_get_length|done].
Qed.

Lemma case1_block_wf points string : keeps_wf (case1_block recur points string).
Proof.
  apply read_char_wf. intros [] Hlen; [|apply lookup_extend_wf; [by rewrite length_drop_first|lia|]].
  - eapply hoare_conseq; [apply hoare_ret|done|]. by intros ? ? [_ ?].
  - apply case1_extend_length.
Qed.

Lemma case2_block_wf points string : keeps_wf (case2_block recur points string).
Proof.
  apply read_char_wf. intros [] Hlen; [apply lookup_extend_wf; [by rewrite length_drop_last|lia|]|].
  - apply case2_extend_length.
  - eapply hoare_conseq; [apply hoare_ret|done|]. by intros ? ? [_ ?].
Qed.

Lemma case3_at_wf points string i : S i < length string -> keeps_wf (case3_at recur points string i).
Proof.
  intros Hi. unfold case3_at.
  apply (hoare_bind _ _ _ (fun v s => memo_wf s /\ sols_of (collapse string i U) v));
    [by apply get_or_solve_wf|intros v].
  apply (hoare_bind _ _ _ (fun _ => memo_wf)); [|intros _; apply lookup_extend_wf];
    try apply extend_sols_wf; try (by rewrite length_collapse); try lia; apply case3_extend_length.
Qed.

Lemma case3_all_wf points string : keeps_wf (case3_all recur points string).
Proof.
  apply hoare_for. intros i _. destruct (isUD string i) eqn:Hud.
  - apply case3_at_wf. by apply isUD_lt.
  - eapply hoare_conseq; [apply hoare_ret|done|]. by intros ? ? [_ ?].
Qed.

Lemma case3_first_wf points string indices :
  hoare memo_wf (case3_first recur points string indices) (fun _ => memo_wf).
Proof.
  induction indices as [|i indices IH]; simpl.
  - eapply hoare_conseq; [apply hoare_ret|done|]. by intros ? ? [_ ?].
  - destruct (isUD string i) eqn:Hud; [|done].
    apply (hoare_bind _ _ _ (fun _ => memo_wf)); [apply case3_at_wf; by apply isUD_lt|].
    intros _. eapply hoare_conseq; [apply hoare_ret|done|]. by intros ? ? [_ ?].
Qed.
End Blocks.

Lemma base_block_wf points string : length string = 1 -> keeps_wf (base_block points string).
Proof.
  intros H1. apply read_char_wf. intros c _.
  apply (hoare_bind _ _ _ (fun sol s => base_solution points c = Ok sol /\ memo_wf s));
    [apply hoare_lift|].
  intros sol m a m' [Hsol Hm]. apply (append_solution_wf string sol); [|done].
  rewrite H1. destruct c; simpl in Hsol;
    destruct (py_get points 0), (py_get points 1); simpl in Hsol; inversion Hsol; done.
Qed.

Lemma reset_wf string : keeps_wf (st_modify (insert string [])).
Proof.
  eapply hoare_conseq; [apply hoare_modify|done|]. intros _ s (s0 & Hs0 & ->).
  apply memo_wf_insert; [done|]. intros p Hp. by apply not_elem_of_nil in Hp.
Qed.

Lemma pathString_wf fuel points string : keeps_wf (pathString fuel points string).
Proof.
  revert points string. induction fuel as [|fuel IH]; intros points string; simpl;
    [apply hoare_raise|].
  apply (hoare_bind _ _ _ (fun _ => memo_wf)); [apply reset_wf|intros _].
  destruct (length string =? 1) eqn:E; [apply base_block_wf; by apply Nat.eqb_eq|].
  apply (hoare_bind _ _ _ (fun _ => memo_wf)); [by apply case1_block_wf|intros _].
  apply (hoare_bind _ _ _ (fun _ => memo_wf)); [by apply case2_block_wf|intros _].
  by apply case3_all_wf.
Qed.

Lemma pathStringDP_wf fuel points string :
  hoare memo_wf (pathStringDP fuel points string) (fun _ => memo_wf).
Proof.
  revert points string. induction fuel as [|fuel IH]; intros points string; simpl;
    [apply hoare_raise|].
  set (recur := fun pts p => r <- pathStringDP fuel pts p ;; st_ret tt).
  assert (Hrec : forall pts k, keeps_wf (recur pts k)).
  { intros pts k. apply (hoare_bind _ _ _ (fun _ => memo_wf)); [apply IH|intros _].
    eapply hoare_conseq; [apply hoare_ret|done|]. by intros ? ? [_ ?]. }
  apply (hoare_bind _ _ _ (fun _ => memo_wf)); [apply reset_wf|intros _].
  destruct (length string =? 1) eqn:E.
  - apply (hoare_bind _ _ _ (fun _ => memo_wf)); [apply base_block_wf; by apply Nat.eqb_eq|].
    intros _. eapply hoare_conseq; [apply hoare_ret|done|]. by intros ? ? [_ ?].
  - apply (hoare_bind _ _ _ (fun _ => memo_wf)); [by apply case1_block_wf|intros _].
    apply (hoare_bind _ _ _ (fun _ => memo_wf)); [by apply case2_block_wf|intros _].
    by apply case3_first_wf.
Qed.
End Inv.


