(* ===== verification/DPRefine.v ===== *)
(** * The memoised solver computes the reference recursion

    For one session, a fixed point list [P0] (sorted by the driver) and
    one memo shared by all calls: a call of [pathString] on a pattern
    [s] receives the [length s + 1] lowest points [take (S (length s)) P0]
    and must leave [solutions] of them under [s] ([dspec]).  The memo
    contract of [Memo] ([memo_below], [memo_post]) carries the invariant
    through the recursion; each block of the code (Cases I, II, III and
    the base case) is proved against it separately. *)

From S2P Require Import Prelude Geometry PathString Memo DPSolver DPSpec.
From stdpp Require Import base list gmap.
From Stdlib Require Import ZArith Lia.

Open Scope py_scope.

(** [for partialsol in partialsolutions: ...] appends the kept
    extensions, in order, to [solved[string]]. *)
Lemma extend_all_spec (string : pstring) (ext : path -> res (option path)) (sols : list path)
    (m : gmap pstring (list path)) (acc : list path) :
  m !! string = Some acc -> (forall ps, ps ∈ sols -> exists o, ext ps = Ok o) ->
  extend_all string ext sols m
  = Ok (tt, <[string := acc ++ omap (fun ps => res_opt (ext ps)) sols]> m).
Proof.
  revert acc m. induction sols as [|ps sols IH]; intros acc m Hm Hext.
  - simpl. rewrite app_nil_r, insert_id by done. done.
  - unfold extend_all in IH |- *. simpl st_for.
    destruct (Hext ps) as [o Ho]; [by left|].
    assert (Hext' : forall ps', ps' ∈ sols -> exists o, ext ps' = Ok o)
      by (intros ps' Hps'; apply Hext; by right).
    rewrite st_bind_assoc. rewrite Ho. st_run @st_lift_Ok. simpl res_opt.
    destruct o as [sol|].
    + unfold append_solution at 1. rewrite st_bind_assoc. st_run @st_get_Ok.
      rewrite Hm. st_run @st_put_Ok.
      rewrite (IH (acc ++ [sol])); [|by rewrite lookup_insert_eq|done].
      rewrite insert_insert_eq. simpl. rewrite Ho. simpl. by rewrite <- app_assoc.
    + st_run @st_ret_Ok. rewrite (IH acc m Hm Hext'). simpl. by rewrite Ho.
Qed.

Section Refine.
Context `{SegmentTest} (P0 : list Pt) (sel : pstring -> list nat).

(** The final value of the key [k]: the solutions of [k] on the
    [length k + 1] lowest points. *)
Definition dspec (k : pstring) : list path := solutions sel (take (S (length k)) P0) k.

(** The recursive call fulfils the memo contract on keys of length [n]. *)
Definition dp_recur_ok (recur : list Pt -> pstring -> St (gmap pstring (list path)) unit)
    (n : nat) : Prop :=
  forall p m0, length p = n -> memo_below dspec n m0 -> m0 !! p = None ->
    exists m1, recur (take (S n) P0) p m0 = Ok (tt, m1) /\ memo_post dspec p m0 m1.

Lemma dp_get recur n key m :
  dp_recur_ok recur n -> length key = n -> memo_below dspec (S n) m ->
  exists m', get_or_solve (recur (take (S n) P0)) key m = Ok (dspec key, m')
          /\ memo_below dspec (S n) m' /\ memo_keep (S n) m m'.
Proof.
  intros Hr <- Hm. apply (get_or_solve_spec dspec _ key m Hm).
  intros m0 Hb0 Hn. by apply Hr.
Qed.

Lemma dspec_length key ps :
  S (length key) <= length P0 -> ps ∈ dspec key -> length ps = length key.
Proof. intros HP. apply solutions_length. rewrite length_take. lia. Qed.

Section Blocks.
Context (recur : list Pt -> pstring -> St (gmap pstring (list path)) unit).
Context (n : nat) (s : pstring) (points : list Pt).
Hypothesis Hrecur : dp_recur_ok recur n.
Hypothesis Hs : length s = S n.
Hypothesis Hn : 1 <= n.
Hypothesis HP0 : S (S n) <= length P0.
Hypothesis Hpoints : points = take (S (S n)) P0.

Lemma points_pred : take (length points - 1) points = take (S n) P0.
Proof.
  subst points. rewrite length_take, take_take. f_equal. lia.
Qed.

Lemma points_ne : points <> [].
Proof. intros Hp. apply (f_equal length) in Hp. subst points. rewrite length_take in Hp. cbn [length] in Hp. lia. Qed.

Lemma frame_after_keep (m m1 : gmap pstring (list path)) (v : list path) :
  memo_keep (S n) m m1 -> memo_frame (S n) s m (<[s:=v]> m1).
Proof.
  intros Hk. eapply memo_frame_trans; [by apply memo_keep_frame|apply memo_frame_insert].
Qed.

(** Case I appends the valid Case I extensions of the solutions of
    [string[1:]]. *)
Lemma case1_block_spec m acc :
  memo_below dspec (S n) m -> m !! s = Some acc ->
  exists m', case1_block recur points s m = Ok (tt, m')
    /\ m' !! s = Some (acc ++ (if head_is D s
          then omap (fun ps => res_opt (case1_extend points ps)) (dspec (drop_first s)) else []))
    /\ memo_below dspec (S n) m' /\ memo_frame (S n) s m m'.
Proof.
  intros Hm Hacc. unfold case1_block.
  destruct (py_get_lt s 0) as [c0 Hc0]; [lia|]. rewrite Hc0. st_run @st_lift_Ok.
  apply py_get_Ok in Hc0. rewrite (head_is_lookup D c0 s Hc0).
  destruct c0; simpl.
  - exists m. rewrite app_nil_r. split_and!; [done|done|done|apply memo_frame_refl].
  - rewrite points_pred.
    destruct (dp_get recur n (drop_first s) m) as (m1 & Hg & Hb1 & Hk1);
      [done|rewrite length_drop_first; lia|done|].
    st_step Hg. rewrite (extend_all_spec s _ _ m1 acc).
    + eexists. split_and!; [reflexivity|by rewrite lookup_insert_eq| |by apply frame_after_keep].
      apply memo_below_insert_long; [lia|done].
    + rewrite Hk1 by lia. done.
    + intros ps Hps. apply case1_extend_total; [|apply points_ne].
      apply dspec_length in Hps; [|rewrite length_drop_first; lia].
      rewrite length_drop_first in Hps. destruct ps; simpl in Hps; [lia|done].
Qed.

(** Case II appends the valid Case II extensions of the solutions of
    [string[:-1]]. *)
Lemma case2_block_spec m acc :
  memo_below dspec (S n) m -> m !! s = Some acc ->
  exists m', case2_block recur points s m = Ok (tt, m')
    /\ m' !! s = Some (acc ++ (if last_is U s
          then omap (fun ps => res_opt (case2_extend points ps)) (dspec (drop_last s)) else []))
    /\ memo_below dspec (S n) m' /\ memo_frame (S n) s m m'.
Proof.
  intros Hm Hacc. unfold case2_block.
  destruct (py_get_lt s (length s - 1)) as [cl Hcl]; [lia|]. rewrite Hcl. st_run @st_lift_Ok.
  apply py_get_Ok in Hcl. rewrite Hs, Nat.sub_1_r in Hcl. simpl in Hcl.
  rewrite (last_is_lookup U cl s n Hs Hcl).
  destruct cl; simpl.
  - rewrite points_pred.
    destruct (dp_get recur n (drop_last s) m) as (m1 & Hg & Hb1 & Hk1);
      [done|rewrite length_drop_last; lia|done|].
    st_step Hg. rewrite (extend_all_spec s _ _ m1 acc).
    + eexists. split_and!; [reflexivity|by rewrite lookup_insert_eq| |by apply frame_after_keep].
      apply memo_below_insert_long; [lia|done].
    + rewrite Hk1 by lia. done.
    + intros ps Hps. apply case2_extend_total; [|apply points_ne].
      apply dspec_length in Hps; [|rewrite length_drop_last; lia].
      rewrite length_drop_last in Hps. destruct ps; simpl in Hps; [lia|done].
  - exists m. rewrite app_nil_r. split_and!; [done|done|done|apply memo_frame_refl].
Qed.

Lemma case3_round m acc c i :
  S i < length s -> memo_below dspec (S n) m -> m !! s = Some acc ->
  exists m', (partialSolutions <- get_or_solve (recur (take (length points - 1) points))
                                               (collapse s i c) ;;
              extend_all s (case3_extend points i) partialSolutions) m = Ok (tt, m')
    /\ m' !! s = Some (acc ++ omap (fun ps => res_opt (case3_extend points i ps))
                                   (dspec (collapse s i c)))
    /\ memo_below dspec (S n) m' /\ memo_frame (S n) s m m'.
Proof.
  intros Hi Hm Hacc. rewrite points_pred.
  destruct (dp_get recur n (collapse s i c) m) as (m1 & Hg & Hb1 & Hk1);
    [done|rewrite length_collapse; lia|done|].
  st_step Hg. rewrite (extend_all_spec s _ _ m1 acc).
  - eexists. split_and!; [reflexivity|by rewrite lookup_insert_eq| |by apply frame_after_keep].
    apply memo_below_insert_long; [lia|done].
  - rewrite Hk1 by lia. done.
  - intros ps Hps. apply case3_extend_total; [|apply points_ne].
    apply dspec_length in Hps; [|rewrite length_collapse; lia].
    rewrite length_collapse in Hps; lia.
Qed.

(** Case III at a "UD" position [i] appends the valid extensions of
    the solutions of both collapsed strings. *)
Lemma case3_at_spec m acc i :
  S i < length s -> memo_below dspec (S n) m -> m !! s = Some acc ->
  exists m', case3_at recur points s i m = Ok (tt, m')
    /\ m' !! s = Some (acc ++ (omap (fun ps => res_opt (case3_extend points i ps))
                                    (dspec (collapse s i U))
                               ++ omap (fun ps => res_opt (case3_extend points i ps))
                                    (dspec (collapse s i D))))
    /\ memo_below dspec (S n) m' /\ memo_frame (S n) s m m'.
Proof.
  intros Hi Hm Hacc. unfold case3_at. cbv zeta.
  destruct (case3_round m acc U i Hi Hm Hacc) as (m1 & H1 & Hs1 & Hb1 & Hf1).
  rewrite <- st_bind_assoc. st_step H1.
  destruct (case3_round m1 _ D i Hi Hb1 Hs1) as (m2 & H2 & Hs2 & Hb2 & Hf2).
  exists m2. split_and!; [done|by rewrite Hs2, app_assoc|done|by eapply memo_frame_trans].
Qed.

(** The Case III loop over the positions [l]. *)
Lemma case3_loop_spec l m acc :
  memo_below dspec (S n) m -> m !! s = Some acc ->
  exists m', st_for l (fun i => if isUD s i then case3_at recur points s i else st_ret tt) m
             = Ok (tt, m')
    /\ m' !! s = Some (acc ++ concat (map (fun i =>
          if isUD s i
          then omap (fun ps => res_opt (case3_extend points i ps)) (dspec (collapse s i U))
               ++ omap (fun ps => res_opt (case3_extend points i ps)) (dspec (collapse s i D))
          else []) l))
    /\ memo_below dspec (S n) m' /\ memo_frame (S n) s m m'.
Proof.
  revert m acc. induction l as [|i l IH]; intros m acc Hm Hacc.
  - exists m. rewrite app_nil_r. split_and!; [done|done|done|apply memo_frame_refl].
  - simpl st_for. destruct (isUD s i) eqn:HUD.
    + destruct (case3_at_spec m acc i (isUD_lt s i HUD) Hm Hacc) as (m1 & H1 & Hs1 & Hb1 & Hf1).
      st_step H1. destruct (IH m1 _ Hb1 Hs1) as (m2 & H2 & Hs2 & Hb2 & Hf2).
      exists m2. split_and!; [done| |done|by eapply memo_frame_trans].
      rewrite Hs2, <- app_assoc. simpl. by rewrite HUD.
    + st_run @st_ret_Ok. destruct (IH m acc Hm Hacc) as (m2 & H2 & Hs2 & Hb2 & Hf2).
      exists m2. simpl. by rewrite HUD.
Qed.

Lemma dspec_sub k : length k = n -> dspec k = solutions sel (take (length points - 1) points) k.
Proof. intros Hk. by rewrite points_pred, <- Hk. Qed.

(** The body of both solvers after the reset [solved[string] = []]:
    Case I, Case II and the Case III loop over [sel s] leave exactly
    [dspec s] under [s]. *)
Lemma cases_spec m :
  memo_below dspec (S n) m -> m !! s = Some [] ->
  exists m1 m2 m3, case1_block recur points s m = Ok (tt, m1)
    /\ case2_block recur points s m1 = Ok (tt, m2)
    /\ st_for (sel s) (fun i => if isUD s i then case3_at recur points s i else st_ret tt) m2
       = Ok (tt, m3)
    /\ m3 !! s = Some (dspec s) /\ memo_below dspec (S n) m3 /\ memo_frame (S n) s m m3.
Proof.
  intros Hm Hacc.
  destruct (case1_block_spec m [] Hm Hacc) as (m1 & H1 & Hs1 & Hb1 & Hf1).
  destruct (case2_block_spec m1 _ Hb1 Hs1) as (m2 & H2 & Hs2 & Hb2 & Hf2).
  destruct (case3_loop_spec (sel s) m2 _ Hb2 Hs2) as (m3 & H3 & Hs3 & Hb3 & Hf3).
  exists m1, m2, m3. split_and!; [done|done|done| |done|].
  - rewrite Hs3, <- app_assoc. f_equal.
    assert (Hpts : dspec s = solutions sel points s) by (unfold dspec; by rewrite Hs, <- Hpoints).
    rewrite Hpts, (solutions_cases sel points s points_ne) by lia. cbv zeta.
    rewrite <- !dspec_sub by (rewrite ?length_drop_first, ?length_drop_last; lia).
    rewrite app_nil_l. do 3 f_equal. apply map_ext. intros i.
    destruct (isUD s i) eqn:Hud; [|done]. apply isUD_lt in Hud.
    rewrite <- !dspec_sub by (rewrite length_collapse; lia). done.
  - by do 2 (eapply memo_frame_trans; [eassumption|]).
Qed.
End Blocks.

(** The base case appends the single edge between the two lowest
    points, which is [dspec [c]]. *)
Lemma base_block_spec c m :
  2 <= length P0 -> m !! [c] = Some [] ->
  base_block (take 2 P0) [c] m = Ok (tt, <[[c] := dspec [c]]> m).
Proof.
  intros HP Hm. unfold base_block, dspec.
  destruct P0 as [|a [|b rest]]; simpl in HP; [lia|lia|].
  simpl take. rewrite solutions_base by done.
  cbn [py_get]. st_run @st_lift_Ok. destruct c; simpl base_solution; st_run @st_lift_Ok;
    unfold append_solution; st_run @st_get_Ok; rewrite Hm; apply st_put_Ok.
Qed.

(** A call that resets [s], stays below [length s] and ends with
    [dspec s] under [s] fulfils the memo contract. *)
Lemma memo_post_reset s m m' :
  memo_below dspec (length s) m' -> m' !! s = Some (dspec s) ->
  memo_frame (length s) s (<[s:=[]]> m) m' -> memo_post dspec s m m'.
Proof.
  intros Hb Hk Hf. split_and!; [done|done|].
  eapply memo_frame_trans; [apply memo_frame_insert|done].
Qed.

(** The base case of both solvers, after the reset. *)
Lemma base_case_post c m :
  2 <= length P0 -> memo_below dspec 1 m ->
  exists m', base_block (take 2 P0) [c] (<[[c]:=[]]> m) = Ok (tt, m')
             /\ memo_post dspec [c] m m'.
Proof.
  intros HP Hm. eexists. split; [apply base_block_spec; [done|by rewrite lookup_insert_eq]|].
  apply memo_post_reset.
  - rewrite insert_insert_eq. by apply memo_below_insert_long.
  - by rewrite lookup_insert_eq.
  - apply memo_frame_insert.
Qed.

(** The recursive calls of a solver that meets the contract on every
    shorter key meet [dp_recur_ok]. *)
Lemma cases_post recur s m :
  2 <= length s -> S (length s) <= length P0 -> memo_below dspec (length s) m ->
  dp_recur_ok recur (length s - 1) ->
  exists m1 m2 m3, case1_block recur (take (S (length s)) P0) s (<[s:=[]]> m) = Ok (tt, m1)
    /\ case2_block recur (take (S (length s)) P0) s m1 = Ok (tt, m2)
    /\ st_for (sel s) (fun i => if isUD s i then case3_at recur (take (S (length s)) P0) s i
                               else st_ret tt) m2 = Ok (tt, m3)
    /\ memo_post dspec s m m3.
Proof.
  intros H2 HP Hm Hr.
  destruct (cases_spec recur (length s - 1) s (take (S (length s)) P0) Hr)
    with (m := <[s:=[]]> m) as (m1 & m2 & m3 & H1 & H2' & H3 & Hk & Hb & Hf);
    [lia|lia|lia|f_equal; lia| |by rewrite lookup_insert_eq|].
  - apply memo_below_insert_long; [lia|]. eapply memo_below_mono; [|done]. lia.
  - exists m1, m2, m3. split_and!; [done|done|done|].
    apply memo_post_reset; [eapply memo_below_mono; [|done]; lia|done|].
    by replace (length s) with (S (length s - 1)) by lia.
Qed.
End Refine.

Section Solver.
Context `{SegmentTest} (P0 : list Pt).

(** [pathString] of Solver.py on [string] and the
    [len(string) + 1] lowest points, with at least [len(string)] of
    fuel (recursion depth), returns normally and leaves [solutions] of
    every key it fills in the memo [solved], [string] included: the
    memoised solver computes the reference recursion over every "UD"
    position. *)
Theorem pathString_contract fuel s m :
  1 <= length s <= fuel -> S (length s) <= length P0 ->
  memo_below (dspec P0 loop_range) (length s) m ->
  exists m', pathString fuel (take (S (length s)) P0) s m = Ok (tt, m')
             /\ memo_post (dspec P0 loop_range) s m m'.
Proof.
  revert s m. induction fuel as [|fuel IH]; intros s m Hf HP Hm; [lia|].
  cbn [pathString]. st_run @st_modify_Ok.
  destruct (length s =? 1) eqn:E.
  - apply Nat.eqb_eq in E. destruct s as [|c [|]]; simpl in E; try lia.
    apply base_case_post; [simpl in HP; lia|done].
  - apply Nat.eqb_neq in E.
    destruct (cases_post P0 loop_range (pathString fuel) s m)
      as (m1 & m2 & m3 & H1 & H2 & H3 & Hpost); [lia|done|done| |].
    + intros p m0 Hp Hb0 _. rewrite <- Hp. apply IH; [lia|lia|by rewrite Hp].
    + exists m3. split; [|done]. st_step H1. st_step H2. exact H3.
Qed.
End Solver.

(** C2. Refinement of Solver.py: [pathString(points, string, solved)]
    on the [len(string) + 1] lowest points of [P0], with a recursion
    depth of at least [len(string)] and a memo whose shorter entries are
    final, returns normally, stores under [string] the reference
    [solutions] over every "UD" position, keeps every entry shorter than
    [string] final and changes no other entry of its length or longer. *)
Theorem pathString_refines `{SegmentTest} P0 fuel s m :
  1 <= length s <= fuel -> S (length s) <= length P0 ->
  memo_below (dspec P0 loop_range) (length s) m ->
  exists m', pathString fuel (take (S (length s)) P0) s m = Ok (tt, m')
             /\ memo_below (dspec P0 loop_range) (length s) m'
             /\ m' !! s = Some (solutions loop_range (take (S (length s)) P0) s)
             /\ memo_frame (length s) s m m'.
Proof.
  intros Hf HP Hm. destruct (pathString_contract P0 fuel s m Hf HP Hm) as (m' & Hr & Hb & Hk & Hfr).
  exists m'. split_and!; [exact Hr|exact Hb|exact Hk|exact Hfr].
Qed.

Lemma pathString_refines_witness :
  exists m', @pathString (python_segments 0) 3 (take 3 [mkPt 0 0; mkPt 2 1; mkPt 1 2; mkPt 5 7]) [U; D] ∅
               = Ok (tt, m')
    /\ memo_below (@dspec (python_segments 0) [mkPt 0 0; mkPt 2 1; mkPt 1 2; mkPt 5 7] loop_range) 2 m'
    /\ m' !! [U; D] = Some (@solutions (python_segments 0) loop_range
                                      (take 3 [mkPt 0 0; mkPt 2 1; mkPt 1 2; mkPt 5 7]) [U; D])
    /\ memo_frame 2 [U; D] ∅ m'.
Proof.
  apply (@pathString_refines (python_segments 0) _ 3 [U; D] ∅); [simpl; lia|simpl; lia|].
  intros k v Hk. by rewrite lookup_empty in Hk.
Defined.

(** [pathStringDP] returns from its Case III loop after the first "UD"
    position: the positions it handles. *)
Definition first_UD (s : pstring) : list nat := take 1 (List.filter (isUD s) (loop_range s)).

(** What [pathStringDP] returns: [None] for a string of length one or
    without "UD", the memo [solved] otherwise. *)
Definition dp_result (s : pstring) : dp_ret :=
  if length s =? 1 then RetNone
  else if existsb (isUD s) (loop_range s) then RetSolved else RetNone.

Section CleanDP.
Context `{SegmentTest} (P0 : list Pt).

Lemma case3_first_eq recur points s l m :
  case3_first recur points s l m
  = (u <- st_for (take 1 (List.filter (isUD s) l))
                 (fun i => if isUD s i then case3_at recur points s i else st_ret tt) ;;
     st_ret (if existsb (isUD s) l then RetSolved else RetNone)) m.
Proof.
  induction l as [|i l IH]; [reflexivity|]. simpl. destruct (isUD s i) eqn:E; simpl.
  - rewrite E. unfold st_bind. by destruct (case3_at recur points s i m) as [[[] m']|e].
  - exact IH.
Qed.

(** [pathStringDP] of CleanSolution.py on [string] and the
    [len(string) + 1] lowest points, with at least [len(string)] of
    fuel, returns [dp_result string] ([None] or the memo) and leaves
    under every key it fills the solutions of the reference recursion
    that tries the first "UD" position only. *)
Theorem pathStringDP_contract fuel s m :
  1 <= length s <= fuel -> S (length s) <= length P0 ->
  memo_below (dspec P0 first_UD) (length s) m ->
  exists m', pathStringDP fuel (take (S (length s)) P0) s m = Ok (dp_result s, m')
             /\ memo_post (dspec P0 first_UD) s m m'.
Proof.
  revert s m. induction fuel as [|fuel IH]; intros s m Hf HP Hm; [lia|].
  cbn [pathStringDP]. st_run @st_modify_Ok.
  destruct (length s =? 1) eqn:E.
  - apply Nat.eqb_eq in E. destruct s as [|c [|]]; simpl in E; try lia.
    destruct (base_case_post P0 first_UD c m) as (m' & Hb & Hpost); [simpl in HP; lia|done|].
    exists m'. split; [|done]. st_step Hb. reflexivity.
  - apply Nat.eqb_neq in E.
    destruct (cases_post P0 first_UD
                (fun pts p => r <- pathStringDP fuel pts p ;; st_ret tt) s m)
      as (m1 & m2 & m3 & H1 & H2 & H3 & Hpost); [lia|done|done| |].
    + intros p m0 Hp Hb0 _. rewrite <- Hp.
      destruct (IH p m0) as (m1 & Hr & Hpost); [lia|lia|by rewrite Hp|].
      exists m1. split; [|done]. cbv beta. st_step Hr. reflexivity.
    + exists m3. split; [|done]. st_step H1. st_step H2. rewrite case3_first_eq.
      st_step H3. unfold dp_result. by rewrite (proj2 (Nat.eqb_neq _ _) E).
Qed.
End CleanDP.

(** C3. Refinement of CleanSolution.py: [pathStringDP(points, string,
    solved)] on the [len(string) + 1] lowest points of [P0], with a
    recursion depth of at least [len(string)] and a memo whose shorter
    entries are final, returns [dp_result string] ([None] when [string]
    has length one or no "UD", the memo otherwise), stores under
    [string] the reference [solutions] that try the first "UD" position
    only, keeps every shorter entry final and changes no other entry of
    its length or longer. *)
Theorem pathStringDP_refines `{SegmentTest} P0 fuel s m :
  1 <= length s <= fuel -> S (length s) <= length P0 ->
  memo_below (dspec P0 first_UD) (length s) m ->
  exists m', pathStringDP fuel (take (S (length s)) P0) s m = Ok (dp_result s, m')
             /\ memo_below (dspec P0 first_UD) (length s) m'
             /\ m' !! s = Some (solutions first_UD (take (S (length s)) P0) s)
             /\ memo_frame (length s) s m m'.
Proof.
  intros Hf HP Hm. destruct (pathStringDP_contract P0 fuel s m Hf HP Hm) as (m' & Hr & Hb & Hk & Hfr).
  exists m'. split_and!; [exact Hr|exact Hb|exact Hk|exact Hfr].
Qed.

Lemma pathStringDP_refines_witness :
  exists m', @pathStringDP (python_segments 0) 3 (take 3 [mkPt 0 0; mkPt 2 1; mkPt 1 2; mkPt 5 7]) [U; D] ∅
               = Ok (dp_result [U; D], m')
    /\ memo_below (@dspec (python_segments 0) [mkPt 0 0; mkPt 2 1; mkPt 1 2; mkPt 5 7] first_UD) 2 m'
    /\ m' !! [U; D] = Some (@solutions (python_segments 0) first_UD
                                      (take 3 [mkPt 0 0; mkPt 2 1; mkPt 1 2; mkPt 5 7]) [U; D])
    /\ memo_frame 2 [U; D] ∅ m'.
Proof.
  apply (@pathStringDP_refines (python_segments 0) _ 3 [U; D] ∅); [simpl; lia|simpl; lia|].
  intros k v Hk. by rewrite lookup_empty in Hk.
Defined.
