(* ===== verification/Depth.v ===== *)
(** * The recursion depth of [pathString]

    Python stops a recursion deeper than its limit with
    [RecursionError]; the model's [fuel] is that limit.  From a fresh
    memo, [pathString(points, string, {})] needs exactly [len(string)]
    nested calls: with [fuel >= len(string)] it returns
    ([pathString_contract]), and with less it raises [RecursionError]
    ([pathString_deep]), because every call on a pattern of two or
    more characters recurses on a shorter pattern that the memo does
    not hold yet: Case I when the pattern starts with "D", Case II when
    it ends with "U", and Case III at its first "UD" otherwise.
    [partialOrderings] of PartialOrderings.py recurses the same way, and
    has the same depth ([partialOrderings_recursion_depth]). *)

From S2P Require Import Prelude Geometry PathString Memo Counting DPSolver DPSpec DPRefine.
From stdpp Require Import base list gmap.
From Stdlib Require Import Lia.

Open Scope py_scope.

(** No key shorter than [n] is in the memo. *)
Definition no_short {V} (n : nat) (m : gmap pstring V) : Prop :=
  forall k, length k < n -> m !! k = None.

Lemma no_short_insert {V} (n : nat) (k : pstring) (v : V) (m : gmap pstring V) : n <= length k -> no_short n m -> no_short n (<[k:=v]> m).
Proof. intros Hk Hm k' Hk'. rewrite lookup_insert_ne by (intros ->; lia). by apply Hm. Qed.

Lemma no_short_mono {V} (n1 n2 : nat) (m : gmap pstring V) : n1 <= n2 -> no_short n2 m -> no_short n1 m.
Proof. intros Hn Hm k Hk. apply Hm. lia. Qed.

(** A look-up of a missing key runs the solver, and raises with it. *)
Lemma get_or_solve_raise {V} (solve : pstring -> St (gmap pstring V) unit) key m e :
  m !! key = None -> solve key m = Raise e -> get_or_solve solve key m = Raise e.
Proof. intros Hk Hs. unfold get_or_solve, st_bind, st_get. by rewrite Hk, Hs. Qed.

(** A pattern that starts with "U" and ends with "D" has a "UD". *)
Lemma UD_exists s :
  s !! 0 = Some U -> s !! (length s - 1) = Some D ->
  exists i, i ∈ loop_range s /\ isUD s i = true.
Proof.
  induction s as [|c s IH]; [done|]. intros Hh Hl. injection Hh as ->.
  destruct s as [|c' s]; [done|]. unfold loop_range.
  destruct c'.
  - destruct IH as (i & Hi & Hud); [done|by rewrite <- Hl; simpl; rewrite Nat.sub_0_r|].
    exists (S i). unfold loop_range in Hi. apply elem_of_seq in Hi. split; [|done].
    apply elem_of_seq. simpl in *. lia.
  - exists 0. split; [apply elem_of_seq; simpl; lia|done].
Qed.

(** A loop whose every iteration leaves the state alone or raises [e],
    and one of which raises, raises [e]. *)
Lemma st_for_raise {S A} (l : list A) (body : A -> St S unit) (m : S) e :
  (forall a, a ∈ l -> body a m = Ok (tt, m) \/ body a m = Raise e) ->
  (exists a, a ∈ l /\ body a m = Raise e) -> st_for l body m = Raise e.
Proof.
  induction l as [|a l IH]; intros Hall (a0 & Ha0 & Hr); [by apply not_elem_of_nil in Ha0|].
  simpl. unfold st_bind. destruct (Hall a (list_elem_of_here _ _)) as [Hok|Hr']; rewrite ?Hok, ?Hr'; [|done].
  apply IH; [intros a' Ha'; apply Hall; by right|].
  apply elem_of_cons in Ha0 as [->|Ha0]; [congruence|by exists a0].
Qed.

(** A fold whose every iteration leaves the state alone or raises [e],
    and one of which raises whatever the accumulator, raises [e]. *)
Lemma st_fold_raise {S A B} (l : list A) (body : B -> A -> St S B) (m : S) e :
  (forall a acc, a ∈ l -> (exists acc', body acc a m = Ok (acc', m)) \/ body acc a m = Raise e) ->
  (exists a, a ∈ l /\ forall acc, body acc a m = Raise e) ->
  forall acc, st_fold l acc body m = Raise e.
Proof.
  induction l as [|a l IH]; intros Hall (a0 & Ha0 & Hr) acc; [by apply not_elem_of_nil in Ha0|].
  simpl. unfold st_bind.
  destruct (Hall a acc (list_elem_of_here _ _)) as [[acc' Hok]|Hr']; rewrite ?Hok, ?Hr'; [|done].
  apply IH; [intros a' acc'' Ha'; apply Hall; by right|].
  apply elem_of_cons in Ha0 as [->|Ha0]; [by rewrite Hr in Hok|by exists a0].
Qed.

(** ** The Case blocks raise when their first recursive call does

    For a pattern of two or more characters, at the memo [m] the solver
    sees after [solved[string] = []], when every look-up of a pattern one
    character shorter raises [e]. *)
Section Blocks.
Context `{SegmentTest}.
Context (recur : list Pt -> pstring -> St (gmap pstring (list path)) unit)
        (points : list Pt) (s : pstring) (m : gmap pstring (list path)) (e : exc).
Hypothesis Hlen : 2 <= length s.
Hypothesis Hrec : forall k, length k = length s - 1 ->
  get_or_solve (recur (take (length points - 1) points)) k m = Raise e.

Lemma case1_block_run c :
  s !! 0 = Some c ->
  case1_block recur points s m = if c is U then Ok (tt, m) else Raise e.
Proof.
  intros H0. unfold case1_block. rewrite (proj2 (py_get_Ok _ _ _) H0). st_run @st_lift_Ok.
  destruct c; [done|]. apply st_bind_Raise, Hrec, length_drop_first.
Qed.

Lemma case2_block_run c :
  s !! (length s - 1) = Some c ->
  case2_block recur points s m = if c is D then Ok (tt, m) else Raise e.
Proof.
  intros Hl. unfold case2_block. rewrite (proj2 (py_get_Ok _ _ _) Hl). st_run @st_lift_Ok.
  destruct c; [apply st_bind_Raise, Hrec, length_drop_last|done].
Qed.

Lemma case3_at_raise i : isUD s i = true -> case3_at recur points s i m = Raise e.
Proof.
  intros Hud. apply isUD_spec in Hud as [_ Hi]. apply lookup_lt_Some in Hi.
  unfold case3_at. apply st_bind_Raise, Hrec, length_collapse; lia.
Qed.

Lemma case3_body_run i :
  (if isUD s i then case3_at recur points s i else st_ret tt) m = Ok (tt, m)
  \/ (if isUD s i then case3_at recur points s i else st_ret tt) m = Raise e.
Proof. destruct (isUD s i) eqn:Hud; [right; by apply case3_at_raise|by left]. Qed.

Lemma case3_all_raise :
  (exists i, i ∈ loop_range s /\ isUD s i = true) -> case3_all recur points s m = Raise e.
Proof.
  intros (i & Hi & Hud). apply st_for_raise; [intros; apply case3_body_run|].
  exists i. split; [done|]. rewrite Hud. by apply case3_at_raise.
Qed.

Lemma case3_first_raise l :
  (exists i, i ∈ l /\ isUD s i = true) -> case3_first recur points s l m = Raise e.
Proof.
  induction l as [|j l IH]; intros (i & Hi & Hud); [by apply not_elem_of_nil in Hi|].
  simpl. destruct (isUD s j) eqn:Hj; [by apply st_bind_Raise, case3_at_raise|].
  apply IH. apply elem_of_cons in Hi as [->|Hi]; [congruence|by exists i].
Qed.

(** Cases I, II and then the Case III loop [tail] raise [e]: Case I if
    the pattern starts with "D", Case II if it ends with "U", and
    [tail] otherwise. *)
Lemma cases_raise {A} (tail : St (gmap pstring (list path)) A) :
  (s !! 0 = Some U -> s !! (length s - 1) = Some D -> tail m = Raise e) ->
  st_bind (case1_block recur points s) (fun _ => st_bind (case2_block recur points s) (fun _ => tail)) m
  = Raise e.
Proof.
  intros Htail.
  destruct (lookup_lt_is_Some_2 s 0 ltac:(lia)) as [c0 H0].
  destruct (lookup_lt_is_Some_2 s (length s - 1) ltac:(lia)) as [cl Hl].
  pose proof (case1_block_run c0 H0) as H1. destruct c0; [|by apply st_bind_Raise].
  st_step H1. pose proof (case2_block_run cl Hl) as H2. destruct cl; [by apply st_bind_Raise|].
  st_step H2. by apply Htail.
Qed.
End Blocks.

(** ** Too little fuel raises [RecursionError] *)
Section Deep.
Context `{SegmentTest}.

(** The solved-entry reset keeps shorter keys out of the memo; a
    shorter pattern's look-up then runs a call with one less fuel. *)
Lemma deep_step {A} (run : nat -> list Pt -> pstring -> St (gmap pstring (list path)) A)
    (recur : list Pt -> pstring -> St (gmap pstring (list path)) unit) fuel points s m :
  (forall pts k m', run fuel pts k m' = Raise RecursionError -> recur pts k m' = Raise RecursionError) ->
  (forall pts k m', 1 <= length k -> fuel < length k -> no_short (length k) m' ->
     run fuel pts k m' = Raise RecursionError) ->
  S fuel < length s -> no_short (length s) m ->
  forall k, length k = length s - 1 ->
  get_or_solve (recur (take (length points - 1) points)) k (<[s:=[]]> m) = Raise RecursionError.
Proof.
  intros Hr IH Hf Hm k Hk.
  pose proof (no_short_insert (length s) s [] m ltac:(lia) Hm) as Hm1.
  apply get_or_solve_raise; [apply Hm1; lia|].
  apply Hr, IH; [lia|lia|]. apply (no_short_mono _ (length s)); [lia|done].
Qed.

Lemma pathString_deep fuel points s m :
  1 <= length s -> fuel < length s -> no_short (length s) m ->
  pathString fuel points s m = Raise RecursionError.
Proof.
  revert points s m. induction fuel as [|fuel IH]; intros points s m H1 Hf Hm; [done|].
  cbn [pathString]. st_step (st_modify_Ok (insert s []) m).
  rewrite (proj2 (Nat.eqb_neq _ _)) by lia.
  apply cases_raise; [lia|apply (deep_step pathString _ fuel); auto|].
  intros H0 Hl. apply case3_all_raise; [lia|apply (deep_step pathString _ fuel); auto|].
  by apply UD_exists.
Qed.

Lemma pathStringDP_deep fuel points s m :
  1 <= length s -> fuel < length s -> no_short (length s) m ->
  pathStringDP fuel points s m = Raise RecursionError.
Proof.
  revert points s m. induction fuel as [|fuel IH]; intros points s m H1 Hf Hm; [done|].
  cbn [pathStringDP]. st_step (st_modify_Ok (insert s []) m).
  rewrite (proj2 (Nat.eqb_neq _ _)) by lia.
  assert (Hrec := deep_step pathStringDP (fun pts p => r <- pathStringDP fuel pts p ;; st_ret tt)
                    fuel points s m ltac:(intros; by apply st_bind_Raise) IH Hf Hm).
  apply cases_raise; [lia|exact Hrec|].
  intros H0 Hl. apply case3_first_raise; [lia|exact Hrec|]. by apply UD_exists.
Qed.

(** [partialOrderings] has the same recursion: Case I on [string[1:]],
    Case II on [string[:-1]], then the "UD" positions. *)
Lemma partialOrderings_deep fuel s m :
  1 <= length s -> fuel < length s -> no_short (length s) m ->
  partialOrderings fuel s m = Raise RecursionError.
Proof.
  revert s m. induction fuel as [|fuel IH]; intros s m H1 Hf Hm; [done|].
  cbn [partialOrderings]. st_step (st_modify_Ok (insert s Pending) m).
  rewrite (proj2 (Nat.eqb_neq _ _)) by lia.
  assert (Hrec : forall k, length k = length s - 1 ->
            get_or_solve (fun p => r <- partialOrderings fuel p ;; st_ret tt) k (<[s:=Pending]> m)
            = Raise RecursionError).
  { intros k Hk. pose proof (no_short_insert (length s) s Pending m ltac:(lia) Hm) as Hm1.
    apply get_or_solve_raise; [apply Hm1; lia|]. apply st_bind_Raise, IH; [lia|lia|].
    apply (no_short_mono _ (length s)); [lia|done]. }
  destruct (lookup_lt_is_Some_2 s 0 ltac:(lia)) as [c0 H0].
  destruct (lookup_lt_is_Some_2 s (length s - 1) ltac:(lia)) as [cl Hl].
  rewrite (proj2 (py_get_Ok _ _ _) H0). st_run @st_lift_Ok.
  destruct c0; [|apply st_bind_Raise, st_bind_Raise, Hrec, length_drop_first].
  st_run @st_ret_Ok. rewrite (proj2 (py_get_Ok _ _ _) Hl). st_run @st_lift_Ok.
  destruct cl; [apply st_bind_Raise, st_bind_Raise, Hrec, length_drop_last|].
  st_run @st_ret_Ok. apply st_bind_Raise, st_fold_raise.
  - intros i count _. unfold orderings_ud_step. destruct (isUD s i) eqn:Hud; [right|left; by eexists].
    apply isUD_spec in Hud as [_ Hi]. apply lookup_lt_Some in Hi.
    apply st_bind_Raise, Hrec, length_collapse; lia.
  - destruct (UD_exists s H0 Hl) as (i & Hi & Hud). exists i. split; [done|]. intros count.
    unfold orderings_ud_step. rewrite Hud. apply isUD_spec in Hud as [_ Hi'].
    apply lookup_lt_Some in Hi'. apply st_bind_Raise, Hrec, length_collapse; lia.
Qed.

Lemma no_short_empty {V} n : no_short n (∅ : gmap pstring V).
Proof. intros k _. apply lookup_empty. Qed.

(** With at least [len(string)] of fuel, the solvers return on the
    [len(string) + 1] points of a fresh memo: the contracts of [DPRefine]. *)
Lemma solvers_return fuel P s :
  1 <= length s <= fuel -> length P = S (length s) ->
  (exists m', pathString fuel P s ∅ = Ok (tt, m'))
  /\ (exists m', pathStringDP fuel P s ∅ = Ok (dp_result s, m')).
Proof.
  intros Hf HP. split.
  - destruct (pathString_contract P fuel s ∅) as (m' & Hr & _); [done|lia|apply memo_below_empty|].
    rewrite take_ge in Hr by lia. by exists m'.
  - destruct (pathStringDP_contract P fuel s ∅) as (m' & Hr & _); [done|lia|apply memo_below_empty|].
    rewrite take_ge in Hr by lia. by exists m'.
Qed.

(** C27. The recursion depth of both solvers is the length of the
    pattern: [pathString(points, string, {})] of Solver.py and
    [pathStringDP(points, string, {})] of CleanSolution.py on
    [len(string) + 1] points raise [RecursionError] exactly when the
    recursion limit [fuel] is below [len(string)]. *)
Theorem solvers_recursion_depth fuel P s :
  1 <= length s -> length P = S (length s) ->
  (pathString fuel P s ∅ = Raise RecursionError <-> fuel < length s)
  /\ (pathStringDP fuel P s ∅ = Raise RecursionError <-> fuel < length s).
Proof.
  intros H1 HP. destruct (decide (fuel < length s)) as [Hf|Hf].
  - split; split; [lia| intros _; apply pathString_deep, no_short_empty; lia
                 |lia| intros _; apply pathStringDP_deep, no_short_empty; lia].
  - destruct (solvers_return fuel P s) as [[m1 Hr1] [m2 Hr2]]; [lia|done|].
    rewrite Hr1, Hr2. split; split; done || lia.
Qed.
End Deep.

Lemma solvers_recursion_depth_witness :
  @pathString (python_segments 0) 2 [mkPt 0 0; mkPt 2 1; mkPt 1 2; mkPt 5 7] [U; D; U] ∅
    = Raise RecursionError
  /\ @pathStringDP (python_segments 0) 2 [mkPt 0 0; mkPt 2 1; mkPt 1 2; mkPt 5 7] [U; D; U] ∅
    = Raise RecursionError.
Proof.
  destruct (@solvers_recursion_depth (python_segments 0) 2
              [mkPt 0 0; mkPt 2 1; mkPt 1 2; mkPt 5 7] [U; D; U]
              ltac:(simpl; lia) ltac:(reflexivity)) as [[_ H1] [_ H2]].
  split; [apply H1|apply H2]; simpl; lia.
Defined.

(** C29. The recursion depth of [partialOrderings(string, {})] of
    PartialOrderings.py is the length of the pattern: it raises
    [RecursionError] exactly when the recursion limit [fuel] is below
    [len(string)]. *)
Theorem partialOrderings_recursion_depth fuel s :
  1 <= length s -> partialOrderings fuel s ∅ = Raise RecursionError <-> fuel < length s.
Proof.
  intros H1. split; [|intros Hf; apply partialOrderings_deep, no_short_empty; lia].
  intros Hr. apply Nat.nle_gt. intros Hf.
  destruct (partialOrderings_contract fuel s ∅) as (m' & Hok & _); [lia|apply memo_below_empty|].
  congruence.
Qed.

Lemma partialOrderings_recursion_depth_witness :
  partialOrderings 3 [U; D; U; D] ∅ = Raise RecursionError.
Proof. apply (partialOrderings_recursion_depth 3 [U; D; U; D] ltac:(simpl; lia)). simpl; lia. Defined.
