(* ===== verification/Bounds.v ===== *)
(** * The count of [partialOrderings] bounds the number of solutions

    The docstring of src/PartialOrderings.py says that [partialOrderings]
    is "an upperbound on number of pathstring solutions", and
    [bunchOfTrials] of CleanSolution.py writes the two numbers side by
    side.  Both recursions have the same three cases; a case of the
    solver keeps at most one extension of each sub-solution, so the
    number of solutions of [s] is at most [orderings s], for the solver
    that tries every "UD" position and for any that tries fewer. *)

From S2P Require Import Prelude Geometry PathString Counting DPSolver DPSpec.
From stdpp Require Import base list.
From Stdlib Require Import Lia.

Lemma length_omap_le {A B} (f : A -> option B) (l : list A) : length (omap f l) <= length l.
Proof. induction l as [|a l IH]; [simpl; lia|]. cbn [omap list_omap]. destruct (f a); simpl; fold (omap f l); lia. Qed.

Lemma length_concat_map {A B} (f : A -> list B) (l : list A) :
  length (concat (map f l)) = sum_list_with (fun a => length (f a)) l.
Proof. induction l as [|a l IH]; simpl; [done|]. by rewrite length_app, IH. Qed.

Lemma sum_list_with_sublist {A} (f : A -> nat) (l1 l2 : list A) :
  l1 `sublist_of` l2 -> sum_list_with f l1 <= sum_list_with f l2.
Proof. induction 1; simpl; lia. Qed.

Lemma sum_list_with_mono {A} (f g : A -> nat) (l : list A) :
  (forall a, a ∈ l -> f a <= g a) -> sum_list_with f l <= sum_list_with g l.
Proof.
  induction l as [|a l IH]; intros Hfg; simpl; [done|].
  pose proof (Hfg a (list_elem_of_here _ _)).
  enough (sum_list_with f l <= sum_list_with g l) by lia.
  apply IH. intros b Hb. apply Hfg. by right.
Qed.

Section Bound.
Context `{SegmentTest} (sel : pstring -> list nat).
Hypothesis Hsel : forall s, sel s `sublist_of` loop_range s.

Lemma dp_ref_count Q s :
  length Q = S (length s) -> length (dp_ref sel Q s) <= orderings s.
Proof.
  revert s. induction Q as [|top Q' IH]; intros s Hlen; [simpl; lia|].
  simpl in Hlen. injection Hlen as Hlen.
  destruct (decide (length s = 1)) as [H1|H1].
  - rewrite orderings_one by done. destruct s as [|c [|]]; simpl in H1; try lia.
    simpl. destruct (base_solution _ c); simpl; lia.
  - destruct s as [|c s'].
    { pose proof (Hsel []) as Hn. apply sublist_nil_r in Hn. simpl. by rewrite Hn. }
    rewrite orderings_cases by (simpl in *; lia). unfold ord_cases.
    set (s := c :: s') in *. assert (Hs2 : 2 <= length s) by (subst s; simpl in *; lia).
    cbn [dp_ref]. rewrite (proj2 (Nat.eqb_neq _ _) H1).
    rewrite !length_app, length_concat_map.
    assert (Hsub : forall t, length t = length s - 1 -> length (dp_ref sel Q' t) <= orderings t)
      by (intros t Ht; apply IH; lia).
    pose proof (length_omap_le (fun ps => res_opt (case1_extend (rev (top :: Q')) ps))
                  (dp_ref sel Q' (drop_first s))).
    pose proof (length_omap_le (fun ps => res_opt (case2_extend (rev (top :: Q')) ps))
                  (dp_ref sel Q' (drop_last s))).
    pose proof (Hsub (drop_first s) (length_drop_first s)).
    pose proof (Hsub (drop_last s) (length_drop_last s)).
    match goal with |- context [sum_list_with ?F (sel s)] =>
      enough (Hc : sum_list_with F (sel s) <= sum_list_with
                (fun i => if isUD s i then orderings (collapse s i U) + orderings (collapse s i D)
                          else 0) (loop_range s))
        by (unfold loop_range in Hc; destruct (head_is D s), (last_is U s); cbn [length]; lia) end.
    etransitivity; [apply sum_list_with_mono|apply sum_list_with_sublist, Hsel].
    intros i _. destruct (isUD s i) eqn:Hud; [|simpl; lia]. pose proof (isUD_lt s i Hud).
    rewrite length_app.
    pose proof (Hsub (collapse s i U) ltac:(rewrite length_collapse; lia)).
    pose proof (Hsub (collapse s i D) ltac:(rewrite length_collapse; lia)).
    pose proof (length_omap_le (fun ps => res_opt (case3_extend (rev (top :: Q')) i ps))
                  (dp_ref sel Q' (collapse s i U))).
    pose proof (length_omap_le (fun ps => res_opt (case3_extend (rev (top :: Q')) i ps))
                  (dp_ref sel Q' (collapse s i D))).
    rewrite Hud. lia.
Qed.

(** On [n + 1] points, a pattern of length [n] has at most
    [orderings s] solutions, the count [partialOrderings] returns. *)
Theorem solutions_count_bound points s :
  length points = S (length s) -> length (solutions sel points s) <= orderings s.
Proof. intros Hlen. apply dp_ref_count. by rewrite length_rev. Qed.
End Bound.

