(* ===== verification/Drivers.v ===== *)
(** * The solvers as the drivers call them

    The drivers of src/Solver.py and src/CleanSolution.py sort the
    points by height and call a solver on a pattern with one character
    fewer than there are points.  This file models the two entry points
    they use:
    - [pathStringBulkNoWrite] of Solver.py (lines 227-229), which calls
      [pathString] and returns the memo [solved];
    - [pathStringDPWrapper] of CleanSolution.py (lines 318-323), which
      sorts the caller's list in place unless [inOrder] and calls
      [pathStringDP];
    - [pathStringBulk] of Solver.py (lines 223-225), which calls
      [pathString] and gives the line [string, len(solved[string])] it
      writes;
    and states the end-to-end results on a fresh memo [{}]: both return
    normally and every stored path is valid; CleanSolution's solver
    stores a subset of what Solver's stores; the number of paths is at
    most the count of [partialOrderings].  [fuel] is the recursion depth
    Python allows; [len(string)] is enough. *)

From S2P Require Import Prelude Geometry PathString Memo Counting DPSolver DPSpec DPRefine Bounds.
From stdpp Require Import base list gmap sorting.
From Stdlib Require Import ZArith Lia.

Open Scope py_scope.

(** ** The entry points *)

(** The order of [key=lambda p: p.y]. *)
Definition y_le (p q : Pt) : Prop := (y p <= y q)%Z.

#[export] Instance y_le_dec : RelDecision y_le := fun p q => Z_le_dec (y p) (y q).

(** [points.sort(key=lambda p: p.y)]: a stable sort by height. *)
Definition sort_by_y (points : list Pt) : list Pt := merge_sort y_le points.

Section Entry.
Context `{SegmentTest}.

(** [pathStringBulkNoWrite(points, string, solved)]: [pathString], then
    [return solved]. *)
Definition pathStringBulkNoWrite (fuel : nat) (points : list Pt) (string : pstring)
    : St (gmap pstring (list path)) (gmap pstring (list path)) :=
  u <- pathString fuel points string ;; st_get.

(** [pathStringBulk(points, string, solved)]: [pathString], then the
    line [string + ", " + str(len(solved[string]))] written to [f]. *)
Definition pathStringBulk (fuel : nat) (points : list Pt) (string : pstring)
    : St (gmap pstring (list path)) (pstring * nat) :=
  u <- pathString fuel points string ;;
  solved <- st_get ;;
  sols <- st_lift (match solved !! string with Some v => Ok v | None => Raise KeyError end) ;;
  st_ret (string, length sols).

(** [pathStringDPWrapper(points, string, solved, inOrder)]: the result of
    [pathStringDP], with the caller's list [points] as the in-place sort
    leaves it. *)
Definition pathStringDPWrapper (fuel : nat) (points : list Pt) (string : pstring) (inOrder : bool)
    : St (gmap pstring (list path)) (dp_ret * list Pt) :=
  let points := if inOrder then points else sort_by_y points in
  sols <- pathStringDP fuel points string ;;
  st_ret (sols, points).
End Entry.

(** ** Sorting *)

Lemma StronglySorted_lookup {A} (R : A -> A -> Prop) l i j a b :
  StronglySorted R l -> i < j -> l !! i = Some a -> l !! j = Some b -> R a b.
Proof.
  intros Hs. revert i j. induction Hs as [|c l Hs IH Hall]; intros i j Hij Hi Hj; [done|].
  destruct i as [|i], j as [|j]; simpl in *; try lia.
  - injection Hi as <-. rewrite Forall_forall in Hall. apply Hall. by eapply list_elem_of_lookup_2.
  - apply (IH i j); [lia|done|done].
Qed.

(** On points of distinct heights, the sort gives strictly increasing
    heights and a permutation of the points. *)
Lemma sort_by_y_spec P :
  NoDup (map y P) -> y_increasing (sort_by_y P) /\ sort_by_y P ≡ₚ P.
Proof.
  intros Hnd. assert (Hp : sort_by_y P ≡ₚ P) by apply merge_sort_Permutation.
  split; [|done]. intros i j p q Hij Hi Hj.
  assert (Hle : (y p <= y q)%Z).
  { eapply (StronglySorted_lookup y_le); [|done..].
    apply StronglySorted_merge_sort; unfold y_le; [intros a b c; lia|intros a b; lia]. }
  assert (Hnd' : NoDup (map y (sort_by_y P))) by (by rewrite Hp).
  destruct (Z.eq_dec (y p) (y q)) as [Heq|]; [|lia].
  assert (i = j); [|lia].
  eapply NoDup_lookup; [exact Hnd'|by rewrite list_lookup_fmap, Hi|].
  by rewrite list_lookup_fmap, Hj, Heq.
Qed.

Lemma length_sort_by_y P : length (sort_by_y P) = length P.
Proof. unfold sort_by_y. by rewrite merge_sort_Permutation. Qed.

Lemma valid_path_perm `{SegmentTest} P P' s p :
  P ≡ₚ P' -> valid_path P s p -> valid_path P' s p.
Proof. intros HP [Hc Hv Hf Hs]. constructor; [done| |done|done]. by rewrite Hv. Qed.

(** ** Runs on a fresh memo *)

Lemma first_UD_sublist s : first_UD s `sublist_of` loop_range s.
Proof.
  unfold first_UD. etransitivity; [apply sublist_take|].
  induction (loop_range s) as [|i l IH]; simpl; [done|].
  destruct (isUD s i); [by apply sublist_skip|by apply sublist_cons].
Qed.

Lemma first_UD_in s i : i ∈ first_UD s -> i ∈ loop_range s.
Proof. intros Hi. eapply elem_of_sublist; [done|apply first_UD_sublist]. Qed.

Section Run.
Context `{SegmentTest}.

Lemma dspec_full P sel s : length P = S (length s) -> dspec P sel s = solutions sel P s.
Proof. intros Hlen. unfold dspec. by rewrite take_ge by lia. Qed.

(** [pathStringBulkNoWrite(points, string, {})] returns the memo, with
    [solutions] under [string]. *)
Lemma bulk_run fuel P s :
  1 <= length s <= fuel -> length P = S (length s) ->
  exists m', pathStringBulkNoWrite fuel P s ∅ = Ok (m', m')
             /\ m' !! s = Some (solutions loop_range P s).
Proof.
  intros H1 Hlen. destruct (pathString_contract P fuel s ∅) as (m' & Hr & _ & Hk & _);
    [lia|lia|apply memo_below_empty|].
  rewrite take_ge in Hr by lia. exists m'. split; [|by rewrite Hk, dspec_full].
  unfold pathStringBulkNoWrite. st_step Hr. apply st_get_Ok.
Qed.

(** [pathStringDP] on sorted points and a fresh memo stores the
    first-"UD" solutions. *)
Lemma dp_run fuel P s :
  1 <= length s <= fuel -> length P = S (length s) ->
  exists m', pathStringDP fuel P s ∅ = Ok (dp_result s, m')
             /\ m' !! s = Some (solutions first_UD P s).
Proof.
  intros H1 Hlen. destruct (pathStringDP_contract P fuel s ∅) as (m' & Hr & _ & Hk & _);
    [lia|lia|apply memo_below_empty|].
  rewrite take_ge in Hr by lia. exists m'. split; [done|]. by rewrite Hk, dspec_full.
Qed.

(** [pathStringDPWrapper(points, string, {}, inOrder)]. *)
Lemma wrapper_run fuel P s (inOrder : bool) :
  1 <= length s <= fuel -> length P = S (length s) ->
  let P' := if inOrder then P else sort_by_y P in
  exists m', pathStringDPWrapper fuel P s inOrder ∅ = Ok ((dp_result s, P'), m')
             /\ m' !! s = Some (solutions first_UD P' s).
Proof.
  intros H1 Hlen P'.
  assert (HP' : length P' = S (length s)).
  { subst P'. destruct inOrder; [done|]. by rewrite length_sort_by_y. }
  destruct (dp_run fuel P' s H1 HP') as (m' & Hr & Hk).
  exists m'. split; [|done]. unfold pathStringDPWrapper. fold P'. st_step Hr. apply st_ret_Ok.
Qed.
End Run.

(** ** Points sorted by height *)

(** A decision procedure for [y_increasing], for concrete point lists. *)
Fixpoint y_ascending (P : list Pt) : bool :=
  match P with
  | [] => true
  | p :: P' => forallb (fun q => (y p <? y q)%Z) P' && y_ascending P'
  end.

Lemma y_increasing_cons p P :
  (forall q, q ∈ P -> (y p < y q)%Z) -> y_increasing P -> y_increasing (p :: P).
Proof.
  intros Hp HP [|i] [|j] a b Hij Ha Hb; simpl in *; try lia.
  - injection Ha as <-. apply Hp. by eapply list_elem_of_lookup_2.
  - apply (HP i j); [lia|done|done].
Qed.

Lemma y_ascending_spec P : y_ascending P = true -> y_increasing P.
Proof.
  induction P as [|p P IH]; simpl.
  - intros _ i j a b _ Ha. by rewrite lookup_nil in Ha.
  - intros [Hp HP]%andb_prop. apply y_increasing_cons; [|by apply IH].
    intros q Hq. rewrite forallb_forall in Hp. apply list_elem_of_In in Hq.
    specialize (Hp q Hq). lia.
Qed.

(** ** End-to-end theorems *)

Section EndToEnd.
Context `{SegmentTest}.

(** C1. [pathStringBulkNoWrite(points, string, {})] of Solver.py, on
    [n + 1] points of strictly increasing heights and a pattern of
    length [n >= 1], with a recursion depth of at least [n], returns the
    memo normally, and every path it holds under [string] visits every
    point once, follows the pattern up and down, and has no two
    non-adjacent edges that intersect. *)
Theorem pathString_sound fuel P s :
  y_increasing P -> 1 <= length s <= fuel -> length P = S (length s) ->
  exists m' sols, pathStringBulkNoWrite fuel P s ∅ = Ok (m', m') /\ m' !! s = Some sols
                  /\ Forall (valid_path P s) sols.
Proof.
  intros Hy H1 Hlen. destruct (bulk_run fuel P s H1 Hlen) as (m' & Hr & Hk).
  exists m', (solutions loop_range P s). split_and!; [done|done|].
  apply Forall_forall. intros p Hp. by apply (solutions_valid loop_range).
Qed.

(** C5. [pathStringDPWrapper(points, string, {})] of CleanSolution.py,
    on [n + 1] points of distinct heights and a pattern of length
    [n >= 1], with a recursion depth of at least [n], sorts the
    caller's list by height, returns [None] or the memo as [dp_result]
    says, and every path it stores under [string] is a valid path
    through the points. *)
Theorem pathStringDP_sound fuel P s :
  NoDup (map y P) -> 1 <= length s <= fuel -> length P = S (length s) ->
  exists m' sols, pathStringDPWrapper fuel P s false ∅ = Ok ((dp_result s, sort_by_y P), m')
                  /\ m' !! s = Some sols /\ Forall (valid_path P s) sols.
Proof.
  intros Hnd H1 Hlen. destruct (sort_by_y_spec P Hnd) as [Hy Hp].
  destruct (wrapper_run fuel P s false H1 Hlen) as (m' & Hr & Hk).
  exists m', (solutions first_UD (sort_by_y P) s). split_and!; [done|done|].
  apply Forall_forall. intros p Hin. apply (valid_path_perm (sort_by_y P)); [done|].
  apply (solutions_valid first_UD); [done|by rewrite Hp|done].
Qed.

(** C9. Every path [pathStringDPWrapper] of CleanSolution.py stores for
    [string] is also in the memo [pathStringBulkNoWrite] of Solver.py
    returns on the same points: the early return of the Case III loop
    only loses paths. *)
Theorem pathStringDP_subset fuel P s :
  1 <= length s <= fuel -> length P = S (length s) ->
  exists m1 m2 a b, pathStringDPWrapper fuel P s true ∅ = Ok ((dp_result s, P), m1)
    /\ pathStringBulkNoWrite fuel P s ∅ = Ok (m2, m2)
    /\ m1 !! s = Some a /\ m2 !! s = Some b /\ (forall p, p ∈ a -> p ∈ b).
Proof.
  intros H1 Hlen.
  destruct (wrapper_run fuel P s true H1 Hlen) as (m1 & Hr1 & Hk1).
  destruct (bulk_run fuel P s H1 Hlen) as (m2 & Hr2 & Hk2).
  exists m1, m2. eexists _, _. split_and!; [done|done|done|done|].
  intros p. unfold solutions. apply dp_ref_mono. intros t i Hi _. by apply first_UD_in.
Qed.

(** C4. On [n + 1] points and a pattern of length [n >= 2], with a
    recursion depth of at least [n], both entry points store at most as
    many paths as [partialOrderings(string, {})] returns, the upper
    bound its docstring announces and [bunchOfTrials] prints beside the
    count. *)
Theorem solvers_count_bound fuel P s :
  2 <= length s <= fuel -> length P = S (length s) ->
  exists m0 m1 m2 a b k, partialOrderings fuel s ∅ = Ok (Some k, m0)
    /\ pathStringBulkNoWrite fuel P s ∅ = Ok (m1, m1) /\ m1 !! s = Some a
    /\ pathStringDPWrapper fuel P s true ∅ = Ok ((dp_result s, P), m2) /\ m2 !! s = Some b
    /\ length a <= k /\ length b <= k.
Proof.
  intros H2 Hlen.
  destruct (partialOrderings_contract fuel s ∅) as (m0 & Hr0 & _); [lia|apply memo_below_empty|].
  rewrite (proj2 (Nat.eqb_neq _ _)) in Hr0 by lia.
  destruct (bulk_run fuel P s) as (m1 & Hr1 & Hk1); [lia|done|].
  destruct (wrapper_run fuel P s true) as (m2 & Hr2 & Hk2); [lia|done|].
  exists m0, m1, m2. do 3 eexists. split_and!; try eassumption;
    apply solutions_count_bound; [done|done| |done].
  intros t. apply first_UD_sublist.
Qed.
End EndToEnd.

(** ** Instances of the end-to-end theorems *)

#[local] Instance int_segments : SegmentTest := python_segments 0.

Lemma pathString_sound_witness :
  exists m' sols,
    pathStringBulkNoWrite 2 [mkPt 0 0; mkPt 2 1; mkPt 1 2] [U; D] ∅ = Ok (m', m')
    /\ m' !! [U; D] = Some sols /\ Forall (valid_path [mkPt 0 0; mkPt 2 1; mkPt 1 2] [U; D]) sols.
Proof.
  apply (pathString_sound 2 [mkPt 0 0; mkPt 2 1; mkPt 1 2] [U; D]);
    [apply y_ascending_spec; reflexivity|simpl; lia|reflexivity].
Defined.

Lemma pathStringDP_sound_witness :
  exists m' sols,
    pathStringDPWrapper 2 [mkPt 1 2; mkPt 0 0; mkPt 2 1] [U; D] false ∅
      = Ok ((dp_result [U; D], sort_by_y [mkPt 1 2; mkPt 0 0; mkPt 2 1]), m')
    /\ m' !! [U; D] = Some sols /\ Forall (valid_path [mkPt 1 2; mkPt 0 0; mkPt 2 1] [U; D]) sols.
Proof.
  apply (pathStringDP_sound 2 [mkPt 1 2; mkPt 0 0; mkPt 2 1] [U; D]);
    [apply (bool_decide_unpack _); vm_compute; reflexivity|simpl; lia|reflexivity].
Defined.

Lemma pathStringDP_subset_witness :
  exists m1 m2 a b,
    pathStringDPWrapper 4 [mkPt 5 0; mkPt 3 1; mkPt 5 2; mkPt 1 4; mkPt 3 6] [U; D; U; D] true ∅
      = Ok ((dp_result [U; D; U; D], [mkPt 5 0; mkPt 3 1; mkPt 5 2; mkPt 1 4; mkPt 3 6]), m1)
    /\ pathStringBulkNoWrite 4 [mkPt 5 0; mkPt 3 1; mkPt 5 2; mkPt 1 4; mkPt 3 6] [U; D; U; D] ∅
       = Ok (m2, m2)
    /\ m1 !! [U; D; U; D] = Some a /\ m2 !! [U; D; U; D] = Some b /\ (forall p, p ∈ a -> p ∈ b).
Proof.
  apply (pathStringDP_subset 4 [mkPt 5 0; mkPt 3 1; mkPt 5 2; mkPt 1 4; mkPt 3 6] [U; D; U; D]);
    [simpl; lia|reflexivity].
Defined.

Lemma solvers_count_bound_witness :
  exists m0 m1 m2 a b k,
    partialOrderings 4 [U; D; U; D] ∅ = Ok (Some k, m0)
    /\ pathStringBulkNoWrite 4 [mkPt 5 0; mkPt 3 1; mkPt 5 2; mkPt 1 4; mkPt 3 6] [U; D; U; D] ∅
       = Ok (m1, m1)
    /\ m1 !! [U; D; U; D] = Some a
    /\ pathStringDPWrapper 4 [mkPt 5 0; mkPt 3 1; mkPt 5 2; mkPt 1 4; mkPt 3 6] [U; D; U; D] true ∅
         = Ok ((dp_result [U; D; U; D], [mkPt 5 0; mkPt 3 1; mkPt 5 2; mkPt 1 4; mkPt 3 6]), m2)
    /\ m2 !! [U; D; U; D] = Some b /\ length a <= k /\ length b <= k.
Proof.
  apply (solvers_count_bound 4 [mkPt 5 0; mkPt 3 1; mkPt 5 2; mkPt 1 4; mkPt 3 6] [U; D; U; D]);
    [simpl; lia|reflexivity].
Defined.
