(* ===== verification/Screen.v ===== *)
(** * Solver.py's [pathStringWrapper] and screen coordinates

    Solver.py sorts the points with [key=lambda p: -1*p.y], highest
    first, where CleanSolution.py sorts lowest first; [pathString] takes
    the last point of the list as the top.  The model of
    [pathStringWrapper] (Solver.py, lines 215-221) keeps that order.

    The recursion only compares points through [intersect] and reads
    them by index, so it commutes with any renaming of the points that
    keeps the crossing test ([dp_ref_map]); the mirror [(x, y) ->
    (x, -y)] keeps [LineSegment.intersect] ([intersect_mirror]).  On the
    points sorted highest first, the mirrored points are sorted lowest
    first, so [pathStringWrapper_screen]: the path Solver.py returns
    follows the pattern in screen coordinates, where "U" goes to a
    smaller [y] (up on a screen whose [y] axis points down, the
    convention of [graphics]); and it raises [IndexError] if and only
    if there is no solution. *)

From S2P Require Import Prelude Geometry SolverGeometry PathString Memo DPSolver DPSpec DPRefine Drivers.
From stdpp Require Import base list gmap sorting.
From Stdlib Require Import ZArith Lia.

Open Scope py_scope.

(** ** Definitions *)

(** The image of a segment under a renaming of the points. *)
Definition smap (f : Pt -> Pt) (e : LineSegment) : LineSegment :=
  mkSeg (f (pt1 e)) (f (pt2 e)).

(** The reflection in the x-axis. *)
Definition mirror (p : Pt) : Pt := mkPt (x p) (- y p).

(** The order of [key=lambda p: -1*p.y]. *)
Definition neg_y_le (p q : Pt) : Prop := (- y p <= - y q)%Z.

#[export] Instance neg_y_le_dec : RelDecision neg_y_le := fun p q => Z_le_dec (- y p) (- y q).

(** [points.sort(key=lambda p: -1*p.y)]: a stable sort, highest first. *)
Definition sort_by_neg_y (points : list Pt) : list Pt := merge_sort neg_y_le points.

Section Wrapper.
Context `{SegmentTest}.

(** [pathStringWrapper(points, string)]: sort the caller's list,
    [pathString] on a fresh memo, then [solved[string][0]], with the
    list as the sort leaves it.  [string.upper()] is the identity on
    patterns of "U" and "D"; the line written to the global file [f]
    is output only. *)
Definition pathStringWrapper (fuel : nat) (points : list Pt) (string : pstring)
    : res (path * list Pt) :=
  let points := sort_by_neg_y points in
  r <-? pathString fuel points string ∅ ;;
  sols <-? (match r.2 !! string with Some v => Ok v | None => Raise KeyError end) ;;
  p <-? py_get sols 0 ;;
  Ok (p, points).
End Wrapper.

(** ** Renaming the points *)

Lemma res_opt_map {A B} (g : A -> B) (r : res (option A)) :
  res_opt (res_map (option_map g) r) = option_map g (res_opt r).
Proof. by destruct r. Qed.

Lemma omap_map_commute {A B} (k1 : B -> option B) (k2 : A -> option A) (G : A -> B) L :
  (forall a, k1 (G a) = option_map G (k2 a)) -> omap k1 (map G L) = map G (omap k2 L).
Proof.
  intros Hk. induction L as [|a L IH]; [done|]. cbn [map omap list_omap].
  rewrite Hk. fold (omap k1 (map G L)) (omap k2 L). destruct (k2 a); simpl; by rewrite IH.
Qed.

Section Equivariance.
Context `{SegmentTest} (f : Pt -> Pt).
Hypothesis Hf : forall a b, seg_intersect (smap f a) (smap f b) = seg_intersect a b.

Lemma forallb_map_smap (t1 t2 : LineSegment -> bool) l :
  (forall e, t1 (smap f e) = t2 e) -> forallb t1 (map (smap f) l) = forallb t2 l.
Proof. intros Ht. induction l as [|e l IH]; simpl; [done|]. by rewrite Ht, IH. Qed.

Lemma crossing_free_map n l :
  forallb (fun e => negb (seg_intersect e (smap f n))) (map (smap f) l)
  = forallb (fun e => negb (seg_intersect e n)) l.
Proof. apply forallb_map_smap. intros e. by rewrite Hf. Qed.

Lemma base_solution_map P c :
  base_solution (map f P) c = res_map (map (smap f)) (base_solution P c).
Proof. destruct c; simpl; rewrite !py_get_map; by destruct (py_get P 0), (py_get P 1). Qed.

Lemma case1_extend_map P ps :
  case1_extend (map f P) (map (smap f) ps)
  = res_map (option_map (map (smap f))) (case1_extend P ps).
Proof.
  unfold case1_extend. rewrite py_get_map. destruct (py_get ps 0) as [e0|]; [simpl|done].
  rewrite length_map, py_get_map. destruct (py_get P _) as [top|]; [simpl|done].
  rewrite skipn_map. change (mkSeg (f top) (f (pt1 e0))) with (smap f (mkSeg top (pt1 e0))).
  rewrite crossing_free_map. by destruct (forallb _ _).
Qed.

Lemma case2_extend_map P ps :
  case2_extend (map f P) (map (smap f) ps)
  = res_map (option_map (map (smap f))) (case2_extend P ps).
Proof.
  unfold case2_extend. rewrite length_map, py_get_map.
  destruct (py_get ps _) as [el|]; [simpl|done].
  rewrite length_map, py_get_map. destruct (py_get P _) as [top|]; [simpl|done].
  rewrite firstn_map. change (mkSeg (f (pt2 el)) (f top)) with (smap f (mkSeg (pt2 el) top)).
  rewrite crossing_free_map. destruct (forallb _ _); [|done]. simpl. by rewrite map_app.
Qed.
Lemma case3_extend_map P i ps :
  case3_extend (map f P) i (map (smap f) ps)
  = res_map (option_map (map (smap f))) (case3_extend P i ps).
Proof.
  unfold case3_extend. rewrite py_pop_map. destruct (py_pop i ps) as [[oldLine rest]|]; [simpl|done].
  rewrite length_map, py_get_map. destruct (py_get P _) as [top|]; [simpl|done].
  change (mkSeg (f (pt1 oldLine)) (f top)) with (smap f (mkSeg (pt1 oldLine) top)).
  change (mkSeg (f top) (f (pt2 oldLine))) with (smap f (mkSeg top (pt2 oldLine))).
  set (n1 := mkSeg (pt1 oldLine) top). set (n2 := mkSeg top (pt2 oldLine)).
  assert (Hcross : forall l, forallb (fun e => negb (seg_intersect (smap f n1) e
                                             || seg_intersect (smap f n2) e)) (map (smap f) l)
                   = forallb (fun e => negb (seg_intersect n1 e || seg_intersect n2 e)) l).
  { intros l. apply forallb_map_smap. intros e. by rewrite !Hf. }
  repeat (rewrite ?py_get_map, ?length_map, ?firstn_map, ?skipn_map, ?Hcross, ?py_insert_map, ?Hf;
          match goal with
          | |- context [py_get rest ?k] => destruct (py_get rest k); simpl
          | |- context [if ?b then _ else _] => destruct b; simpl
          end).
  all: done.
Qed.

Lemma extend_omap_map (E : list Pt -> path -> res (option path)) P L :
  (forall ps, E (map f P) (map (smap f) ps) = res_map (option_map (map (smap f))) (E P ps)) ->
  omap (fun ps => res_opt (E (map f P) ps)) (map (map (smap f)) L)
  = map (map (smap f)) (omap (fun ps => res_opt (E P ps)) L).
Proof. intros HE. apply omap_map_commute. intros ps. by rewrite HE, res_opt_map. Qed.

(** The reference recursion commutes with the renaming. *)
Lemma dp_ref_map sel Q s : dp_ref sel (map f Q) s = map (map (smap f)) (dp_ref sel Q s).
Proof.
  revert s. induction Q as [|top Q' IH]; intros s; [done|].
  cbn [map dp_ref]. replace (rev (f top :: map f Q')) with (map f (rev (top :: Q')))
    by (by rewrite map_rev).
  destruct (length s =? 1).
  - destruct s as [|c [|]]; [done| |done]. rewrite base_solution_map.
    by destruct (base_solution _ c).
  - rewrite !map_app, concat_map, map_map, !IH.
    rewrite !(extend_omap_map case1_extend), !(extend_omap_map case2_extend)
      by apply case1_extend_map || apply case2_extend_map.
    f_equal; [by destruct (head_is D s)|f_equal; [by destruct (last_is U s)|]].
    f_equal. apply map_ext. intros i. destruct (isUD s i); [|done].
    rewrite map_app, !IH, !(extend_omap_map (fun P => case3_extend P i)); [done|..];
      intros ps; apply case3_extend_map.
Qed.

Lemma solutions_map sel P s : solutions sel (map f P) s = map (map (smap f)) (solutions sel P s).
Proof. unfold solutions. by rewrite <- map_rev, dp_ref_map. Qed.
End Equivariance.

(** ** The mirror keeps [LineSegment.intersect] *)

Lemma signedArea_mirror s p : signedArea (smap mirror s) (mirror p) = (- signedArea s p)%Z.
Proof. unfold signedArea; simpl. ring. Qed.

Lemma orientation_mirror eps s p :
  (0 <= eps)%Z -> orientation eps (smap mirror s) (mirror p) = (- orientation eps s p)%Z.
Proof.
  intros Heps. rewrite <- orientation_reverse by done. unfold orientation.
  by rewrite signedArea_mirror, signedArea_reverse.
Qed.


Lemma intersect_mirror eps a b :
  (0 <= eps)%Z -> intersect eps (smap mirror a) (smap mirror b) = intersect eps a b.
Proof.
  intros Heps. destruct a as [a1 a2], b as [b1 b2]. unfold intersect. cbn [smap pt1 pt2].
  rewrite !(orientation_mirror eps (mkSeg _ _)) by done. cbn [smap mirror x].
  by rewrite !Z_eqb_opp, !Z_eqb_opp_0.
Qed.

(** ** The wrapper *)

(** Sorted highest first, the mirrored points are sorted lowest first. *)
Lemma sort_by_neg_y_spec P :
  NoDup (map y P) -> y_increasing (map mirror (sort_by_neg_y P)) /\ sort_by_neg_y P ≡ₚ P.
Proof.
  intros Hnd. assert (Hp : sort_by_neg_y P ≡ₚ P) by apply merge_sort_Permutation.
  split; [|done]. intros i j p q Hij Hi Hj.
  apply list_lookup_fmap_Some in Hi as (a & -> & Ha).
  apply list_lookup_fmap_Some in Hj as (b & -> & Hb). simpl.
  assert (Hle : neg_y_le a b).
  { eapply (StronglySorted_lookup neg_y_le); [|done..].
    apply StronglySorted_merge_sort; unfold neg_y_le; [intros ???; lia|intros ??; lia]. }
  unfold neg_y_le in Hle. destruct (Z.eq_dec (y a) (y b)) as [Heq|]; [|lia].
  assert (i = j); [|lia].
  assert (Hnd' : NoDup (map y (sort_by_neg_y P))) by (by rewrite Hp).
  eapply NoDup_lookup; [exact Hnd'|by rewrite list_lookup_fmap, Ha|].
  by rewrite list_lookup_fmap, Hb, Heq.
Qed.

Section Run.
Context `{SegmentTest}.

(** [pathStringWrapper(points, string)] returns the first solution of
    the points sorted highest first, and raises [IndexError] when there
    is none. *)
Lemma wrapper_result fuel P s :
  1 <= length s <= fuel -> length P = S (length s) ->
  pathStringWrapper fuel P s
  = match solutions loop_range (sort_by_neg_y P) s with
    | [] => Raise IndexError
    | p :: _ => Ok (p, sort_by_neg_y P)
    end.
Proof.
  intros H1 Hlen. set (L := sort_by_neg_y P).
  assert (HL : length L = S (length s)) by (subst L; unfold sort_by_neg_y; by rewrite merge_sort_Permutation).
  destruct (pathString_contract L fuel s ∅) as (m' & Hr & _ & Hk & _);
    [lia|lia|apply memo_below_empty|].
  rewrite take_ge in Hr by lia. rewrite dspec_full in Hk by done.
  unfold pathStringWrapper. fold L. rewrite Hr. simpl. rewrite Hk. simpl.
  by destruct (solutions loop_range L s).
Qed.
End Run.

Section Screen.
Context (eps : Z).

(** [LineSegment.intersect] with tolerance [eps]. *)
#[local] Instance eps_segments : SegmentTest := solver_segments eps.

(** Every solution of the points sorted highest first is valid for the
    pattern once mirrored, that is in screen coordinates. *)
Lemma solutions_screen_valid P s p :
  (0 <= eps)%Z -> length P = S (length s) -> NoDup (map y P) ->
  p ∈ solutions loop_range (sort_by_neg_y P) s -> valid_path (map mirror P) s (map (smap mirror) p).
Proof.
  intros Heps Hlen Hnd Hp. destruct (sort_by_neg_y_spec P Hnd) as [Hinc Hperm].
  apply (valid_path_perm (map mirror (sort_by_neg_y P))); [by apply Permutation_map|].
  apply (solutions_valid loop_range); [done|by rewrite length_map, Hperm|].
  rewrite (solutions_map mirror); [by apply list_elem_of_fmap_2|]. intros a b. by apply intersect_mirror.
Qed.

(** C15. [pathStringWrapper(points, string)] of Solver.py, on [n + 1]
    points of distinct heights and a pattern of length [n >= 1], with a
    recursion depth of at least [n]: it raises [IndexError] if and only
    if the solver finds no path; and when the solver finds one, it
    returns normally a path that is valid for the pattern once the
    points are mirrored in the x-axis, that is in screen coordinates,
    where "U" goes to a smaller [y]. *)
Theorem pathStringWrapper_screen fuel P s :
  (0 <= eps)%Z -> 1 <= length s <= fuel -> length P = S (length s) -> NoDup (map y P) ->
  (pathStringWrapper fuel P s = Raise IndexError <-> solutions loop_range (sort_by_neg_y P) s = [])
  /\ (solutions loop_range (sort_by_neg_y P) s <> [] ->
      exists p, pathStringWrapper fuel P s = Ok (p, sort_by_neg_y P)
        /\ valid_path (map mirror P) s (map (smap mirror) p)).
Proof.
  intros Heps H1 Hlen Hnd. rewrite wrapper_result by done.
  destruct (solutions loop_range (sort_by_neg_y P) s) as [|p rest] eqn:E; [done|].
  split; [done|intros _]. exists p. split; [done|].
  apply solutions_screen_valid; [done..|]. rewrite E. by left.
Qed.
End Screen.

Lemma pathStringWrapper_screen_witness :
  @pathStringWrapper (solver_segments 0) 2 [mkPt 0 0; mkPt 1 2; mkPt 2 1] [U; D]
    = Ok ([mkSeg (mkPt 1 2) (mkPt 0 0); mkSeg (mkPt 0 0) (mkPt 2 1)],
          [mkPt 1 2; mkPt 2 1; mkPt 0 0])
  /\ ((@pathStringWrapper (solver_segments 0) 2 [mkPt 0 0; mkPt 1 2; mkPt 2 1] [U; D] = Raise IndexError
       <-> @solutions (solver_segments 0) loop_range (sort_by_neg_y [mkPt 0 0; mkPt 1 2; mkPt 2 1]) [U; D] = [])
      /\ (@solutions (solver_segments 0) loop_range (sort_by_neg_y [mkPt 0 0; mkPt 1 2; mkPt 2 1]) [U; D] <> [] ->
          exists p, @pathStringWrapper (solver_segments 0) 2 [mkPt 0 0; mkPt 1 2; mkPt 2 1] [U; D]
                     = Ok (p, sort_by_neg_y [mkPt 0 0; mkPt 1 2; mkPt 2 1])
         /\ @valid_path (solver_segments 0) (map mirror [mkPt 0 0; mkPt 1 2; mkPt 2 1]) [U; D]
              (map (smap mirror) p))).
Proof.
  split; [vm_compute; reflexivity|].
  apply (pathStringWrapper_screen 0); [lia|simpl; lia|reflexivity|].
  apply (bool_decide_unpack _). vm_compute. exact I.
Defined.
