(* ===== verification/Batch.v ===== *)
(** * The batch drivers

    [generateAllPathStrings] and [nonIntersectingPaths] of
    src/CleanSolution.py (lines 336-356 and 396-409) build, for [n]
    points, the [2^(n-1)] patterns of length [n - 1] from the binary
    digits of [i] ([pattern_of]) and call [pathStringDPWrapper] on each,
    sharing one memo, then index its result with the pattern.

    - [pattern_of_roundtrip]: [pattern_of n] and the binary reading
      [decode] are inverse between [range(2^(n-1))] and the patterns of
      length [n - 1], so the loop builds every pattern of length
      [n - 1], each once.
    - [generateAllPathStrings_TypeError]: the first pattern, all "U",
      has no "UD", so [pathStringDP] returns [None] and
      [None[string]] raises [TypeError]: the driver never writes a line.
      [nonIntersectingPaths] fails the same way.

    The random points of the source ([generatePoints]) are an argument
    here; the file output is the list of lines the driver would write. *)

From S2P Require Import Prelude Geometry PathString Memo DPSolver DPSpec DPRefine Drivers.
From stdpp Require Import base list gmap.
From Stdlib Require Import ZArith Lia.

Open Scope py_scope.

(** ** Patterns from binary digits *)

(** The binary digits of a positive number, most significant first. *)
Fixpoint pos_bits (p : positive) : list bool :=
  match p with
  | xH => [true]
  | xO p' => pos_bits p' ++ [false]
  | xI p' => pos_bits p' ++ [true]
  end.

(** ["{0:b}".format(i)], with ['1'] as [true]: ["0"] for [0]. *)
Definition bin_format (i : nat) : list bool :=
  match N.of_nat i with N0 => [false] | Npos p => pos_bits p end.

(** Lines 350-353: the digits padded with ['0'] to [n - 1] characters,
    ['0'] read as "U" and ['1'] as "D". *)
Definition pattern_of (n i : nat) : pstring :=
  map (fun b : bool => if b then D else U)
      (repeat false (n - 1 - length (bin_format i)) ++ bin_format i).

(** The number a pattern encodes, "D" as the digit [1]. *)
Definition bits_val (l : list bool) : nat :=
  fold_left (fun a (b : bool) => 2 * a + (if b then 1 else 0)) l 0.

Definition decode (s : pstring) : nat := bits_val (map (fun c => bool_decide (c = D)) s).

Lemma bits_val_snoc l b : bits_val (l ++ [b]) = 2 * bits_val l + (if b then 1 else 0).
Proof. unfold bits_val. by rewrite fold_left_app. Qed.

Lemma bits_val_zeros k l : bits_val (repeat false k ++ l) = bits_val l.
Proof.
  unfold bits_val. rewrite fold_left_app. f_equal.
  induction k as [|k IH]; simpl; [done|]. by rewrite <- IH at 2.
Qed.

Lemma bits_val_lt l : bits_val l < 2 ^ length l.
Proof.
  induction l as [|b l IH] using rev_ind; [cbv; lia|].
  rewrite bits_val_snoc, length_app, Nat.pow_add_r. simpl. destruct b; lia.
Qed.

Lemma pos_bits_val p : bits_val (pos_bits p) = Pos.to_nat p.
Proof.
  induction p as [p IH|p IH|]; simpl pos_bits.
  - rewrite bits_val_snoc, IH, Pos2Nat.inj_xI. lia.
  - rewrite bits_val_snoc, IH, Pos2Nat.inj_xO. lia.
  - reflexivity.
Qed.

Lemma length_pos_bits_pos p : 1 <= length (pos_bits p).
Proof. destruct p; simpl; rewrite ?length_app; simpl; lia. Qed.

Lemma length_pos_bits_le p : 2 ^ (length (pos_bits p) - 1) <= Pos.to_nat p.
Proof.
  induction p as [p IH|p IH|]; simpl pos_bits; rewrite ?length_app;
    [rewrite Pos2Nat.inj_xI|rewrite Pos2Nat.inj_xO|simpl; lia]; simpl length;
    pose proof (length_pos_bits_pos p);
    replace (length (pos_bits p) + 1 - 1) with (S (length (pos_bits p) - 1)) by lia;
    rewrite Nat.pow_succ_r'; lia.
Qed.

(** Two digit strings of the same length with the same value are equal. *)
Lemma bits_val_inj l1 l2 :
  length l1 = length l2 -> bits_val l1 = bits_val l2 -> l1 = l2.
Proof.
  revert l2. induction l1 as [|b1 l1 IH] using rev_ind; intros l2 Hlen Hv.
  - destruct l2; [done|simpl in Hlen; lia].
  - destruct (exists_last (l:=l2)) as (l2' & b2 & ->); [intros ->; rewrite length_app in Hlen; simpl in Hlen; lia|].
    rewrite !length_app in Hlen. simpl in Hlen. rewrite !bits_val_snoc in Hv.
    assert (b1 = b2) as <- by (destruct b1, b2; lia).
    f_equal. apply IH; [lia|destruct b1; lia].
Qed.

Lemma bin_format_val i : bits_val (bin_format i) = i.
Proof.
  unfold bin_format. destruct (N.of_nat i) as [|p] eqn:E;
    apply (f_equal N.to_nat) in E; rewrite Nat2N.id in E; subst i; [reflexivity|].
  apply pos_bits_val.
Qed.

Lemma length_bin_format n i : 1 <= n -> i < 2 ^ n -> length (bin_format i) <= n.
Proof.
  intros Hn Hi. unfold bin_format. destruct (N.of_nat i) as [|p] eqn:E; [simpl; lia|].
  pose proof (length_pos_bits_le p) as Hle.
  apply (f_equal N.to_nat) in E. rewrite Nat2N.id in E. simpl in E. subst i.
  destruct (decide (length (pos_bits p) <= n)) as [|Hgt]; [done|].
  assert (2 ^ n <= 2 ^ (length (pos_bits p) - 1)) by (apply Nat.pow_le_mono_r; lia). lia.
Qed.

Lemma decode_pattern_of n i :
  decode (pattern_of n i) = i.
Proof.
  unfold decode, pattern_of. rewrite map_map.
  rewrite (map_ext _ id) by (intros []; reflexivity). rewrite map_id.
  by rewrite bits_val_zeros, bin_format_val.
Qed.

Lemma length_pattern_of n i : 2 <= n -> i < 2 ^ (n - 1) -> length (pattern_of n i) = n - 1.
Proof.
  intros Hn Hi. unfold pattern_of. rewrite length_map, length_app, repeat_length.
  pose proof (length_bin_format (n - 1) i ltac:(lia) Hi). lia.
Qed.

Lemma decode_lt s : decode s < 2 ^ length s.
Proof. unfold decode. rewrite <- (length_map (fun c => bool_decide (c = D)) s). apply bits_val_lt. Qed.

Lemma decode_inj s1 s2 : length s1 = length s2 -> decode s1 = decode s2 -> s1 = s2.
Proof.
  intros Hlen Hv. apply bits_val_inj in Hv; [|by rewrite !length_map].
  revert s2 Hlen Hv. induction s1 as [|c1 s1 IH]; intros [|c2 s2] Hlen Hv; try done.
  simpl in Hv. injection Hv as Hc Hs. f_equal; [|apply IH; [simpl in Hlen; lia|done]].
  destruct c1, c2; done.
Qed.

Lemma NoDup_map_linv {A B} (f : A -> B) (g : B -> A) (l : list A) :
  (forall a, a ∈ l -> g (f a) = a) -> NoDup l -> NoDup (map f l).
Proof.
  intros Hg Hnd. induction Hnd as [|a l Ha Hnd IH]; simpl; constructor.
  - intros Hin. apply list_elem_of_In, in_map_iff in Hin as (b & Hfb & Hb).
    apply list_elem_of_In in Hb. apply Ha.
    rewrite <- (Hg a), <- Hfb, (Hg b); [done|by right|by left].
  - apply IH. intros b Hb. apply Hg. by right.
Qed.

(** Every pattern of length [n - 1] is the pattern of the number it
    encodes. *)
Lemma pattern_of_decode n s : 2 <= n -> length s = n - 1 -> pattern_of n (decode s) = s.
Proof.
  intros Hn Hs. apply decode_inj; [|by rewrite decode_pattern_of].
  rewrite length_pattern_of; [done|lia|]. rewrite <- Hs. apply decode_lt.
Qed.

(** C24. The pattern lines 350-353 build from [i] ([{0:b}] padded with
    ['0'] to [n - 1] digits, ['0'] read as "U", ['1'] as "D") and the
    number a pattern encodes in binary ("D" as [1]) are inverse: for
    [i < 2^(n-1)] the pattern has [n - 1] characters and encodes [i],
    and every pattern of [n - 1] characters is the pattern of the
    number it encodes, a number below [2^(n-1)]. *)
Theorem pattern_of_roundtrip n :
  2 <= n ->
  (forall i, i < 2 ^ (n - 1) -> length (pattern_of n i) = n - 1 /\ decode (pattern_of n i) = i)
  /\ (forall s, length s = n - 1 -> decode s < 2 ^ (n - 1) /\ pattern_of n (decode s) = s).
Proof.
  intros Hn. split.
  - intros i Hi. split; [by apply length_pattern_of|apply decode_pattern_of].
  - intros s Hs. split; [rewrite <- Hs; apply decode_lt|by apply pattern_of_decode].
Qed.

Lemma pattern_of_roundtrip_witness :
  pattern_of 4 5 = [D; U; D] /\ decode [D; U; D] = 5 /\
  ((forall i, i < 2 ^ (4 - 1) -> length (pattern_of 4 i) = 4 - 1 /\ decode (pattern_of 4 i) = i)
   /\ (forall s, length s = 4 - 1 -> decode s < 2 ^ (4 - 1) /\ pattern_of 4 (decode s) = s)).
Proof. split_and!; [reflexivity|reflexivity|..]; apply pattern_of_roundtrip; lia. Defined.

(** ** The drivers *)

(** [pathStringDPWrapper(...)[string]]: [None[string]] raises
    [TypeError]; the memo returned by [pathStringDP] is indexed. *)
Definition subscript (r : dp_ret) (string : pstring) : St (gmap pstring (list path)) (list path) :=
  match r with
  | RetNone => st_raise TypeError
  | RetSolved => m <- st_get ;;
                 match m !! string with Some v => st_ret v | None => st_raise KeyError end
  end.

(** [range(int(math.pow(2, numPoints - 1)))]: [2^-1] truncates to [0]. *)
Definition pattern_range (numPoints : nat) : list nat :=
  seq 0 (if numPoints is 0 then 0 else 2 ^ (numPoints - 1)).

Section Drivers.
Context `{SegmentTest}.

(** The loop of both drivers: for every [i] in [range(2^(n-1))], solve
    the pattern of [i] and fold the solutions into the accumulator with
    [k]. *)
Definition batch_loop {B} (fuel n : nat) (points : list Pt) (acc : B)
    (k : B -> pstring -> list path -> B) : St (gmap pstring (list path)) B :=
  st_fold (pattern_range n) acc (fun out i =>
    let string := pattern_of n i in
    rp <- pathStringDPWrapper fuel points string true ;;
    sols <- subscript (fst rp) string ;;
    st_ret (k out string sols)).

(** [generateAllPathStrings(n, filename, points)]: the lines
    [string, len(solutions)] it writes.  The points are sorted in place
    and [solved = {}] is shared by the whole batch. *)
Definition generateAllPathStrings (fuel n : nat) (points : list Pt) : res (list (pstring * nat)) :=
  let points := sort_by_y points in
  r <-? batch_loop fuel n points [] (fun out string sols => out ++ [(string, length sols)]) ∅ ;;
  Ok (fst r).

(** [nonIntersectingPaths(n)] on the given points: the total number of
    solutions over all patterns. *)
Definition nonIntersectingPaths (fuel n : nat) (points : list Pt) : res nat :=
  let points := sort_by_y points in
  r <-? batch_loop fuel n points 0 (fun total string sols => total + length sols) ∅ ;;
  Ok (fst r).
End Drivers.

Lemma pattern_of_0 n : pattern_of n 0 = repeat U (n - 1 - 1) ++ [U].
Proof. unfold pattern_of. simpl. by rewrite map_app, map_repeat. Qed.

Lemma dp_result_no_D s : D ∉ s -> dp_result s = RetNone.
Proof.
  intros HD. unfold dp_result. destruct (length s =? 1); [done|].
  destruct (existsb (isUD s) (loop_range s)) eqn:E; [|done].
  apply existsb_exists in E as (i & _ & [_ Hi]%isUD_spec).
  destruct HD. by eapply list_elem_of_lookup_2.
Qed.

Lemma no_D_pattern_of_0 n : D ∉ pattern_of n 0.
Proof.
  rewrite pattern_of_0. intros [Hin|Hin]%elem_of_app.
  - by apply list_elem_of_In, repeat_spec in Hin.
  - by apply list_elem_of_singleton in Hin.
Qed.

Section Raise.
Context `{SegmentTest}.

(** The first pattern has no "UD": [pathStringDPWrapper] returns
    [None], and [None[string]] raises [TypeError] before anything is
    written. *)
Lemma batch_loop_TypeError {B} fuel n P (acc : B) k :
  2 <= n -> n - 1 <= fuel -> length P = n -> batch_loop fuel n P acc k ∅ = Raise TypeError.
Proof.
  intros Hn Hf HP. unfold batch_loop, pattern_range.
  replace (if n is 0 then 0 else 2 ^ (n - 1)) with (2 ^ (n - 1)) by (destruct n; [lia|done]).
  destruct (2 ^ (n - 1)) as [|c] eqn:E; [pose proof (Nat.pow_nonzero 2 (n - 1)); lia|].
  simpl seq. cbn [st_fold].
  assert (Hlen : length (pattern_of n 0) = n - 1) by (apply length_pattern_of; lia).
  destruct (wrapper_run fuel P (pattern_of n 0) true) as (m' & Hr & _); [lia|lia|].
  rewrite (dp_result_no_D _ (no_D_pattern_of_0 n)) in Hr.
  apply st_bind_Raise. cbv zeta. st_step Hr. reflexivity.
Qed.
End Raise.

(** C11. [generateAllPathStrings] on [n >= 2] points, with a recursion
    depth of at least [n - 1], raises [TypeError] on its first pattern
    "UU...U": [pathStringDP] returns [None] on a pattern without "UD",
    and the driver indexes the result with the pattern. *)
Theorem generateAllPathStrings_TypeError `{SegmentTest} fuel n P :
  2 <= n -> n - 1 <= fuel -> length P = n -> generateAllPathStrings fuel n P = Raise TypeError.
Proof.
  intros Hn Hf HP. unfold generateAllPathStrings.
  rewrite batch_loop_TypeError; [done|done|done|]. by rewrite length_sort_by_y.
Qed.

(** [nonIntersectingPaths] fails the same way. *)
Lemma nonIntersectingPaths_TypeError `{SegmentTest} fuel n P :
  2 <= n -> n - 1 <= fuel -> length P = n -> nonIntersectingPaths fuel n P = Raise TypeError.
Proof.
  intros Hn Hf HP. unfold nonIntersectingPaths.
  rewrite batch_loop_TypeError; [done|done|done|]. by rewrite length_sort_by_y.
Qed.

Lemma generateAllPathStrings_TypeError_witness :
  @generateAllPathStrings (python_segments 0) 3 4 [mkPt 5 0; mkPt 3 1; mkPt 5 2; mkPt 1 4]
  = Raise TypeError.
Proof. apply generateAllPathStrings_TypeError; simpl; lia. Defined.
