(* ===== verification/Findings.v ===== *)
(** * Concrete behaviours of the solvers

    The solvers evaluated on small point sets with the segment test of
    the source ([LineSegment.intersect]).  The points have integer
    coordinates, for which the tolerance [epsilon = 1e-2] of the source
    decides exactly as [0]: [abs(v) <= 1e-2] holds of an integer [v]
    only when [v = 0].

    - [early_return_loses_paths]: the [return solved] inside the Case
      III loop of [pathStringDP] loses paths that [pathString] finds.
    - [spec_example_two_paths]: the three points of the specification's
      example have two valid "UD" paths, and the solver finds both.
    - [dp_misses_valid_path]: even [pathString], which tries every "UD"
      position, does not find every valid path: a path whose top vertex
      cannot be removed without a crossing is never built.

    Each is one evaluation on fixed points, the evidence of a finding;
    [SharedMemo] states in general what two calls sharing the default
    [solved={}] compute, on the points [P3] and [R3] defined here. *)

From S2P Require Import Prelude Geometry PathString Memo DPSolver DPSpec DPRefine Drivers.
From stdpp Require Import base list gmap.
From Stdlib Require Import ZArith Lia.

Open Scope py_scope.

(** [LineSegment.intersect] on integer points. *)
#[local] Instance int_segments : SegmentTest := python_segments 0.

(** The vertices [vs] joined in order by directed segments. *)
Fixpoint path_of (vs : list Pt) : path :=
  match vs with
  | a :: ((b :: _) as vs') => mkSeg a b :: path_of vs'
  | _ => []
  end.

(** The example of the specification, sorted by height. *)
Definition P3 : list Pt := [mkPt 0 0; mkPt 2 1; mkPt 1 2].

(** The points of [P3] moved right by 10. *)
Definition R3 : list Pt := [mkPt 10 0; mkPt 12 1; mkPt 11 2].

Definition P5 : list Pt := [mkPt 5 0; mkPt 3 1; mkPt 5 2; mkPt 1 4; mkPt 3 6].

Definition Q5 : list Pt := [mkPt 3 0; mkPt 0 2; mkPt 8 3; mkPt 4 4; mkPt 7 7].

(** On the points (5,0), (3,1), (5,2), (1,4), (3,6) and the pattern
    "UDUD", [pathStringDP] of CleanSolution.py stores 2 paths and
    [pathString] of Solver.py stores 4: returning after the first "UD"
    position loses the paths built at the second one. *)
Example early_return_loses_paths :
  exists m1 m2 a b,
    pathStringDP 4 P5 [U; D; U; D] ∅ = Ok (RetSolved, m1) /\ m1 !! [U; D; U; D] = Some a
    /\ pathString 4 P5 [U; D; U; D] ∅ = Ok (tt, m2) /\ m2 !! [U; D; U; D] = Some b
    /\ length a = 2 /\ length b = 4 /\ Forall (fun p => p ∈ b) a.
Proof.
  do 4 eexists. split_and!; [vm_compute; reflexivity..|].
  apply (bool_decide_unpack _). vm_compute. reflexivity.
Qed.

(** For the points (0,0), (1,2), (2,1) of the specification and the
    pattern "UD", [pathStringDP] stores two distinct paths, both valid:
    (0,0) -> (1,2) -> (2,1) and (2,1) -> (1,2) -> (0,0). The
    specification says there is exactly one. *)
Example spec_example_two_paths :
  exists m sols,
    pathStringDP 2 P3 [U; D] ∅ = Ok (RetSolved, m) /\ m !! [U; D] = Some sols
    /\ sols = [path_of [mkPt 0 0; mkPt 1 2; mkPt 2 1]; path_of [mkPt 2 1; mkPt 1 2; mkPt 0 0]]
    /\ NoDup sols /\ Forall (valid_path P3 [U; D]) sols.
Proof.
  do 2 eexists. split_and!; [vm_compute; reflexivity..| |];
    apply (bool_decide_unpack _); vm_compute; reflexivity.
Qed.

(** The solvers do not find every valid path: on the points (3,0),
    (0,2), (8,3), (4,4), (7,7) and the pattern "UDUD", the path
    (3,0) -> (4,4) -> (8,3) -> (7,7) -> (0,2) is valid, but [pathString]
    does not store it.  Without its top vertex (7,7), the path would
    need the edge (8,3) -> (0,2), which crosses (3,0) -> (4,4), so no
    case of the recursion builds it. *)
Example dp_misses_valid_path :
  exists m sols,
    pathString 4 Q5 [U; D; U; D] ∅ = Ok (tt, m) /\ m !! [U; D; U; D] = Some sols
    /\ valid_path Q5 [U; D; U; D] (path_of [mkPt 3 0; mkPt 4 4; mkPt 8 3; mkPt 7 7; mkPt 0 2])
    /\ path_of [mkPt 3 0; mkPt 4 4; mkPt 8 3; mkPt 7 7; mkPt 0 2] ∉ sols.
Proof.
  do 2 eexists. split_and!; [vm_compute; reflexivity..| |];
    apply (bool_decide_unpack _); vm_compute; reflexivity.
Qed.

