(* ===== verification/SharedMemo.v ===== *)
(** * The default dictionary shared by two calls

    [pathStringDPWrapper(points, string, solved={}, inOrder=False)] and
    [pathStringDP(points, string, solved={})] (src/CleanSolution.py,
    lines 147 and 318) have a mutable default: Python evaluates [{}]
    once, so two calls that omit [solved] share one dictionary.  The
    second call resets only its own key [solved[string] = []]; every
    shorter key its cases look up is already there, left by the first
    call, so it never recurses and extends the first call's
    sub-solutions with the top point of its own points.

    - Every write of the solvers is an insertion, so a key once present
      stays present ([pathStringDP_keeps] for any property of the memo
      that insertions keep).
    - [pathStringDP_fills]: a call on a pattern of length at least two
      leaves in the memo every key its cases look up ([dp_hits]).
    - [pathStringDP_top_only]: when those keys are present, the call
      reads its points only through the top one, [points[-1]].
    - [default_memo_stale]: after a first call on [P], the second call
      on [Q] with the same pattern stores the solutions of the reference
      recursion on the [len(string)] lowest points of [P] and the
      highest point of [Q]. *)

From S2P Require Import Prelude Geometry PathString Memo DPSolver DPSpec DPRefine Drivers Findings.
From stdpp Require Import base list gmap.
From Stdlib Require Import ZArith Lia.

Open Scope py_scope.

Section Shared.
Context `{SegmentTest}.

Implicit Types (m : gmap pstring (list path)).

(** A property of the memo that every insertion keeps. *)
Definition insert_closed (I : gmap pstring (list path) -> Prop) : Prop :=
  forall m k v, I m -> I (<[k:=v]> m).

(** The key [k] is in the memo. *)
Definition has (k : pstring) m : Prop := is_Some (m !! k).

Lemma has_insert_closed k : insert_closed (has k).
Proof.
  intros m k' v [w Hw]. unfold has. destruct (decide (k' = k)) as [->|Hne];
    [rewrite lookup_insert_eq|rewrite lookup_insert_ne]; eauto.
Qed.

(** The keys the cases of [pathStringDP] look up: [string[1:]] when
    [string[0] == "D"], [string[:-1]] when [string[-1] == "U"], and the
    two collapses at the first "UD" position. *)
Definition dp_hits (s : pstring) m : Prop :=
  (py_get s 0 = Ok D -> has (drop_first s) m)
  /\ (py_get s (length s - 1) = Ok U -> has (drop_last s) m)
  /\ (forall i, i ∈ first_UD s -> has (collapse s i U) m /\ has (collapse s i D) m).

Lemma dp_hits_insert_closed s : insert_closed (dp_hits s).
Proof.
  intros m k v (H1 & H2 & H3). split_and!.
  - intros Hc. by apply has_insert_closed, H1.
  - intros Hc. by apply has_insert_closed, H2.
  - intros i Hi. destruct (H3 i Hi). split; by apply has_insert_closed.
Qed.

Lemma insert_closed_and (I J : gmap pstring (list path) -> Prop) :
  insert_closed I -> insert_closed J -> insert_closed (fun m => I m /\ J m).
Proof. intros HI HJ m k v [? ?]. split; [by apply HI|by apply HJ]. Qed.

Lemma insert_closed_impl (P : Prop) (J : gmap pstring (list path) -> Prop) :
  insert_closed J -> insert_closed (fun m => P -> J m).
Proof. intros HJ m k v Hm HP. by apply HJ, Hm. Qed.

Section Keep.
Context (I : gmap pstring (list path) -> Prop) (HI : insert_closed I).

Lemma hoare_ret_keep {A} (a : A) : hoare I (st_ret a) (fun _ => I).
Proof. eapply hoare_conseq; [apply hoare_ret|done|]. by intros ? ? [_ ?]. Qed.

Lemma append_solution_keep s sol : hoare I (append_solution s sol) (fun _ => I).
Proof.
  intros m a m' Hm. unfold append_solution, st_bind, st_get.
  destruct (m !! s); [intros [= _ <-]; by apply HI|done].
Qed.

Lemma extend_all_keep s ext sols : hoare I (extend_all s ext sols) (fun _ => I).
Proof.
  apply hoare_for. intros ps _.
  apply (hoare_bind _ _ _ (fun _ => I));
    [eapply hoare_conseq; [apply hoare_lift|done|]; by intros ? ? [_ ?]|].
  intros [p'|]; [apply append_solution_keep|apply hoare_ret_keep].
Qed.

(** A look-up keeps [I] when the solver does, and leaves its key in
    the memo. *)
Lemma get_or_solve_keep solve key :
  (forall k, hoare I (solve k) (fun _ => I)) ->
  hoare I (get_or_solve solve key) (fun _ m => I m /\ has key m).
Proof.
  intros Hs m v m' Hm. unfold get_or_solve, st_bind, st_get.
  destruct (m !! key) eqn:E; simpl.
  - rewrite E. intros [= _ <-]. split; [done|by eexists].
  - destruct (solve key m) as [[[] m1]|e] eqn:Es; [simpl|done].
    destruct (m1 !! key) eqn:E1; [|done]. intros [= _ <-]. split; [|by eexists].
    by apply (Hs key m tt m1).
Qed.
End Keep.

(** A computation that keeps every insertion-closed property. *)
Definition keeps_all {A} (c : St (gmap pstring (list path)) A) : Prop :=
  forall I, insert_closed I -> hoare I c (fun _ => I).

Section Blocks.
Context (recur : list Pt -> pstring -> St (gmap pstring (list path)) unit).
Hypothesis Hrecur : forall pts k, keeps_all (recur pts k).

Lemma lookup_extend_has I pts s key ext :
  insert_closed I ->
  hoare I (ps <- get_or_solve (recur pts) key ;; extend_all s ext ps) (fun _ m => I m /\ has key m).
Proof.
  intros HI. apply (hoare_bind _ _ _ (fun _ m => I m /\ has key m));
    [apply (get_or_solve_keep I); intros k; by apply Hrecur|].
  intros ps. apply extend_all_keep, insert_closed_and; [done|apply has_insert_closed].
Qed.

(** Each block keeps every insertion-closed property and leaves in the
    memo the keys it looked up. *)
Lemma case1_block_has I points s :
  insert_closed I ->
  hoare I (case1_block recur points s) (fun _ m => I m /\ (py_get s 0 = Ok D -> has (drop_first s) m)).
Proof.
  intros HI. unfold case1_block.
  apply (hoare_bind _ _ _ (fun c m => py_get s 0 = Ok c /\ I m)); [apply hoare_lift|].
  intros [] m a m' [Hc Hm] Hrun.
  - split; [by apply (hoare_ret_keep I tt m a m')|]. by rewrite Hc.
  - by destruct (lookup_extend_has I _ s (drop_first s) (case1_extend points) HI m a m' Hm Hrun).
Qed.

Lemma case2_block_has I points s :
  insert_closed I ->
  hoare I (case2_block recur points s)
    (fun _ m => I m /\ (py_get s (length s - 1) = Ok U -> has (drop_last s) m)).
Proof.
  intros HI. unfold case2_block.
  apply (hoare_bind _ _ _ (fun c m => py_get s (length s - 1) = Ok c /\ I m)); [apply hoare_lift|].
  intros [] m a m' [Hc Hm] Hrun.
  - by destruct (lookup_extend_has I _ s (drop_last s) (case2_extend points) HI m a m' Hm Hrun).
  - split; [by apply (hoare_ret_keep I tt m a m')|]. by rewrite Hc.
Qed.

Lemma case3_at_has I points s i :
  insert_closed I ->
  hoare I (case3_at recur points s i)
    (fun _ m => I m /\ has (collapse s i U) m /\ has (collapse s i D) m).
Proof.
  intros HI. unfold case3_at.
  set (J := fun m => I m /\ has (collapse s i U) m).
  assert (HJ : insert_closed J) by (apply insert_closed_and; [done|apply has_insert_closed]).
  apply (hoare_bind _ _ _ (fun _ => J)); [apply (get_or_solve_keep I); intros k; by apply Hrecur|].
  intros ps. apply (hoare_bind _ _ _ (fun _ => J)); [by apply extend_all_keep|intros _].
  eapply hoare_conseq; [by apply lookup_extend_has|done|]. intros _ m [[? ?] ?]. done.
Qed.

(** The Case III loop of [pathStringDP] on [range(len(string) - 1)]
    handles the first "UD" position only. *)
Lemma case3_first_has I points s :
  insert_closed I ->
  hoare I (case3_first recur points s (loop_range s))
    (fun _ m => I m /\ forall i, i ∈ first_UD s -> has (collapse s i U) m /\ has (collapse s i D) m).
Proof.
  intros HI m a m' Hm. rewrite case3_first_eq. unfold first_UD.
  destruct (List.filter (isUD s) (loop_range s)) as [|i l] eqn:E; simpl.
  - intros [= _ <-]. split; [done|]. intros i Hi. by apply not_elem_of_nil in Hi.
  - assert (Hud : isUD s i = true).
    { assert (Hi : In i (List.filter (isUD s) (loop_range s))) by (rewrite E; by left).
      by apply filter_In in Hi as [_ ?]. }
    rewrite Hud. unfold st_bind at 1 2.
    destruct (case3_at recur points s i m) as [[[] m1]|e] eqn:E3; [|done]. simpl.
    intros [= _ <-]. destruct (case3_at_has I points s i HI m tt m1 Hm E3) as (? & ? & ?).
    split; [done|]. intros j ->%list_elem_of_singleton. done.
Qed.
End Blocks.

(** Every write of [pathStringDP] is an insertion. *)
Lemma pathStringDP_keeps fuel points s : keeps_all (pathStringDP fuel points s).
Proof.
  revert points s. induction fuel as [|fuel IH]; intros points s I HI; simpl; [apply hoare_raise|].
  set (recur := fun pts p => r <- pathStringDP fuel pts p ;; st_ret tt).
  assert (Hrec : forall pts k, keeps_all (recur pts k)).
  { intros pts k J HJ. apply (hoare_bind _ _ _ (fun _ => J)); [by apply IH|intros _].
    by apply hoare_ret_keep. }
  apply (hoare_bind _ _ _ (fun _ => I));
    [eapply hoare_conseq; [apply hoare_modify|done|]; intros _ m' (m0 & ? & ->); by apply HI|intros _].
  destruct (length s =? 1).
  - apply (hoare_bind _ _ _ (fun _ => I)); [|intros _; by apply hoare_ret_keep]. unfold base_block.
    apply (hoare_bind _ _ _ (fun _ => I));
      [eapply hoare_conseq; [apply hoare_lift|done|]; by intros ? ? [_ ?]|intros c].
    apply (hoare_bind _ _ _ (fun _ => I));
      [eapply hoare_conseq; [apply hoare_lift|done|]; by intros ? ? [_ ?]|intros sol].
    by apply append_solution_keep.
  - apply (hoare_bind _ _ _ (fun _ => I));
      [eapply hoare_conseq; [by apply case1_block_has|done|]; by intros ? ? [? _]|intros _].
    apply (hoare_bind _ _ _ (fun _ => I));
      [eapply hoare_conseq; [by apply case2_block_has|done|]; by intros ? ? [? _]|intros _].
    eapply hoare_conseq; [by apply case3_first_has|done|]. by intros ? ? [? _].
Qed.
(** [pathStringDP] on a pattern of at least two characters leaves in
    the memo every key its cases look up. *)
Lemma pathStringDP_fills fuel points s :
  2 <= length s -> hoare (fun _ => True) (pathStringDP fuel points s) (fun _ => dp_hits s).
Proof.
  intros Hs. destruct fuel as [|fuel]; simpl; [apply hoare_raise|].
  set (recur := fun pts p => r <- pathStringDP fuel pts p ;; st_ret tt).
  assert (Hrec : forall pts k, keeps_all (recur pts k)).
  { intros pts k J HJ. apply (hoare_bind _ _ _ (fun _ => J)); [by apply pathStringDP_keeps|intros _].
    by apply hoare_ret_keep. }
  apply (hoare_bind _ _ _ (fun _ _ => True)); [by intros ? ? ?|intros _].
  rewrite (proj2 (Nat.eqb_neq _ _)) by lia.
  set (C1 := fun m => py_get s 0 = Ok D -> has (drop_first s) m).
  set (C2 := fun m => py_get s (length s - 1) = Ok U -> has (drop_last s) m).
  apply (hoare_bind _ _ _ (fun _ => C1));
    [eapply hoare_conseq; [apply (case1_block_has _ Hrec (fun _ => True)); by intros ? ? ? ?|done|intros ? ? [_ Hc]; exact Hc]|intros _].
  apply (hoare_bind _ _ _ (fun _ m => C1 m /\ C2 m)); [apply (case2_block_has _ Hrec), insert_closed_impl, has_insert_closed|intros _].
  eapply hoare_conseq; [apply (case3_first_has _ Hrec (fun m => C1 m /\ C2 m))|done|].
  - apply insert_closed_and; apply insert_closed_impl, has_insert_closed.
  - intros _ m [[? ?] ?]. done.
Qed.

(** ** Reading the points through the top one *)

Lemma get_or_solve_hit (solve : pstring -> St (gmap pstring (list path)) unit) key m v :
  m !! key = Some v -> get_or_solve solve key m = Ok (v, m).
Proof. intros Hv. unfold get_or_solve, st_bind, st_get. rewrite Hv. simpl. by rewrite Hv. Qed.

Lemma st_bind_cong {A B : Type} (c1 c2 : St (gmap pstring (list path)) A) (k1 k2 : A -> St (gmap pstring (list path)) B) m :
  c1 m = c2 m -> (forall a m', c2 m = Ok (a, m') -> k1 a m' = k2 a m') ->
  st_bind c1 k1 m = st_bind c2 k2 m.
Proof. intros Hc Hk. unfold st_bind. rewrite Hc. destruct (c2 m) as [[a m']|e]; [by apply Hk|done]. Qed.

(** The recursive call of [pathStringDP] only inserts. *)
Lemma dp_recur_keeps fuel pts k :
  keeps_all ((fun pts p => r <- pathStringDP fuel pts p ;; st_ret tt) pts k).
Proof.
  intros J HJ. apply (hoare_bind _ _ _ (fun _ => J)); [by apply pathStringDP_keeps|intros _].
  by apply hoare_ret_keep.
Qed.

(** The top point [points[len(points) - 1]]. *)
Definition top (points : list Pt) : res Pt := py_get points (length points - 1).

Section Top.
Context (X Y : list Pt) (Htop : top X = top Y).

Lemma case1_extend_top : case1_extend X = case1_extend Y.
Proof. unfold case1_extend. unfold top in Htop. by rewrite Htop. Qed.

Lemma case2_extend_top : case2_extend X = case2_extend Y.
Proof. unfold case2_extend. unfold top in Htop. by rewrite Htop. Qed.

Lemma case3_extend_top i : case3_extend X i = case3_extend Y i.
Proof. unfold case3_extend. unfold top in Htop. by rewrite Htop. Qed.

Section Recur.
Context (recur : list Pt -> pstring -> St (gmap pstring (list path)) unit).

(** A look-up that hits, then the extension of what it returns. *)
Lemma lookup_extend_top s key (ext : path -> res (option path)) m :
  has key m ->
  (ps <- get_or_solve (recur (take (length X - 1) X)) key ;; extend_all s ext ps) m
  = (ps <- get_or_solve (recur (take (length Y - 1) Y)) key ;; extend_all s ext ps) m.
Proof. intros [v Hv]. by rewrite !(st_bind_Ok _ _ _ _ _ (get_or_solve_hit _ _ _ _ Hv)). Qed.

Lemma case1_block_top s m :
  (py_get s 0 = Ok D -> has (drop_first s) m) ->
  case1_block recur X s m = case1_block recur Y s m.
Proof.
  intros Hh. unfold case1_block. rewrite case1_extend_top.
  destruct (py_get s 0) as [[]|e] eqn:Hc; [done| |done].
  st_run @st_lift_Ok. st_run @st_lift_Ok. by apply lookup_extend_top, Hh.
Qed.

Lemma case2_block_top s m :
  (py_get s (length s - 1) = Ok U -> has (drop_last s) m) ->
  case2_block recur X s m = case2_block recur Y s m.
Proof.
  intros Hh. unfold case2_block. rewrite case2_extend_top.
  destruct (py_get s (length s - 1)) as [[]|e] eqn:Hc; [|done|done].
  st_run @st_lift_Ok. st_run @st_lift_Ok. by apply lookup_extend_top, Hh.
Qed.

Lemma case3_at_top s i m :
  has (collapse s i U) m -> has (collapse s i D) m ->
  case3_at recur X s i m = case3_at recur Y s i m.
Proof.
  intros [v Hv] H2. unfold case3_at. rewrite case3_extend_top.
  rewrite !(st_bind_Ok _ _ _ _ _ (get_or_solve_hit _ _ _ _ Hv)).
  destruct (extend_all s (case3_extend Y i) v m) as [[[] m']|e] eqn:E.
  - rewrite !(st_bind_Ok _ _ _ _ _ E). apply lookup_extend_top.
    apply (extend_all_keep (has _) (has_insert_closed _) s _ v m tt m' H2 E).
  - by rewrite !(st_bind_Raise _ _ _ _ E).
Qed.

Lemma case3_first_top s m :
  (forall i, i ∈ first_UD s -> has (collapse s i U) m /\ has (collapse s i D) m) ->
  case3_first recur X s (loop_range s) m = case3_first recur Y s (loop_range s) m.
Proof.
  intros Hh. rewrite !case3_first_eq. unfold first_UD in *.
  destruct (List.filter (isUD s) (loop_range s)) as [|i l] eqn:E; [done|]. simpl.
  destruct (Hh i) as [H1 H2]; [by left|].
  destruct (isUD s i); [|done]. unfold st_bind. by rewrite (case3_at_top s i m H1 H2).
Qed.
End Recur.

(** When the keys its cases look up are in the memo, [pathStringDP]
    reads its points only through the top one. *)
Lemma pathStringDP_top_only fuel s m :
  2 <= length s -> dp_hits s m -> pathStringDP (S fuel) X s m = pathStringDP (S fuel) Y s m.
Proof.
  intros Hs Hh. cbn [pathStringDP]. st_run @st_modify_Ok. st_run @st_modify_Ok.
  rewrite (proj2 (Nat.eqb_neq _ _)) by lia.
  destruct (dp_hits_insert_closed s m s [] Hh) as (H1 & H2 & H3).
  set (recur := fun pts p => r <- pathStringDP fuel pts p ;; st_ret tt).
  set (C2 := fun m => py_get s (length s - 1) = Ok U -> has (drop_last s) m).
  set (C3 := fun m => forall i, i ∈ first_UD s -> has (collapse s i U) m /\ has (collapse s i D) m).
  assert (HC2 : insert_closed C2) by apply insert_closed_impl, has_insert_closed.
  assert (HC3 : insert_closed C3).
  { intros m' k v HI i Hi. destruct (HI i Hi). split; by apply has_insert_closed. }
  apply st_bind_cong; [by apply case1_block_top|]. intros [] m1 E1.
  destruct (case1_block_has recur (dp_recur_keeps fuel) (fun m => C2 m /\ C3 m) Y s
              (insert_closed_and _ _ HC2 HC3) _ tt m1 (conj H2 H3) E1) as [[H2' H3'] _].
  apply st_bind_cong; [by apply case2_block_top|]. intros [] m2 E2.
  destruct (case2_block_has recur (dp_recur_keeps fuel) C3 Y s HC3 _ tt m2 H3' E2) as [H3'' _].
  by apply case3_first_top.
Qed.
End Top.
(** The [len(string) + 1] points of a call made of the [len(string)]
    lowest points of [P] and the top of [Q]. *)
Lemma stale_points_length n (PS QS : list Pt) :
  length PS = S n -> length QS = S n -> length (take n PS ++ drop n QS) = S n.
Proof. intros HP HQ. rewrite length_app, length_take, length_drop. lia. Qed.

Lemma stale_points_top n (PS QS : list Pt) :
  length PS = S n -> length QS = S n -> top QS = top (take n PS ++ drop n QS).
Proof.
  intros HP HQ. unfold top. rewrite (stale_points_length n PS QS HP HQ), HQ. unfold py_get.
  rewrite lookup_app_r by (rewrite length_take; lia). rewrite lookup_drop, length_take.
  replace (n + (S n - 1 - n `min` length PS)) with (S n - 1) by lia. done.
Qed.

(** The shorter entries the first call leaves are those of the mixed
    points, whose lowest [len(string)] points are [P]'s. *)
Lemma stale_memo_below n (PS QS : list Pt) m :
  length PS = S n -> memo_below (dspec PS first_UD) n m ->
  memo_below (dspec (take n PS ++ drop n QS) first_UD) n m.
Proof.
  intros HP Hb k v Hk Hlt. rewrite (Hb k v Hk Hlt). unfold dspec.
  rewrite take_app_le, take_take by (rewrite length_take; lia). do 2 f_equal. lia.
Qed.

(** C10. The default [solved={}] of [pathStringDPWrapper] and
    [pathStringDP] is one dictionary shared by the calls that omit it.
    After a first call on the points [P], a second call on other points
    [Q] with the same pattern of length at least two, with a recursion
    depth of at least [len(string)], returns as the first did, and
    stores under the pattern the paths of the reference recursion on
    the [len(string)] lowest points of [P] and the highest point of
    [Q]: its shorter keys are the first call's, and only the top point
    of [Q] is read. *)
Theorem default_memo_stale fuel P Q s :
  2 <= length s <= fuel -> length P = S (length s) -> length Q = S (length s) ->
  exists m1 m2,
    pathStringDPWrapper fuel P s false ∅ = Ok ((dp_result s, sort_by_y P), m1)
    /\ pathStringDPWrapper fuel Q s false m1 = Ok ((dp_result s, sort_by_y Q), m2)
    /\ m2 !! s = Some (solutions first_UD (take (length s) (sort_by_y P) ++ drop (length s) (sort_by_y Q)) s).
Proof.
  intros Hf HP HQ. set (n := length s). set (PS := sort_by_y P). set (QS := sort_by_y Q).
  assert (HPS : length PS = S n) by (unfold PS; by rewrite length_sort_by_y).
  assert (HQS : length QS = S n) by (unfold QS; by rewrite length_sort_by_y).
  set (P0 := take n PS ++ drop n QS).
  pose proof (stale_points_length n PS QS HPS HQS) as HP0. fold P0 in HP0.
  destruct (pathStringDP_contract PS fuel s ∅) as (m1 & Hr1 & Hb1 & _); [lia|lia|apply memo_below_empty|].
  rewrite take_ge in Hr1 by lia.
  pose proof (pathStringDP_fills fuel PS s ltac:(lia) ∅ _ m1 I Hr1) as Hh.
  destruct (pathStringDP_contract P0 fuel s m1) as (m2 & Hr2 & _ & Hk2 & _);
    [lia|lia|by apply stale_memo_below|].
  rewrite take_ge in Hr2 by lia. rewrite (dspec_full P0) in Hk2 by done.
  destruct fuel as [|fuel]; [lia|].
  rewrite <- (pathStringDP_top_only QS P0 (stale_points_top n PS QS HPS HQS)) in Hr2 by (done || lia).
  exists m1, m2. unfold pathStringDPWrapper. split_and!; [st_step Hr1; done|st_step Hr2; done|done].
Qed.
End Shared.

(** The specification's example (0,0), (2,1), (1,2), then the same
    points moved right by 10, with "UD": the second call stores paths,
    and none of them is a path of its points. *)
Lemma default_memo_stale_witness :
  (exists m1 m2,
    @pathStringDPWrapper (python_segments 0) 2 P3 [U; D] false ∅
      = Ok ((dp_result [U; D], sort_by_y P3), m1)
    /\ @pathStringDPWrapper (python_segments 0) 2 R3 [U; D] false m1
      = Ok ((dp_result [U; D], sort_by_y R3), m2)
    /\ m2 !! [U; D] = Some (@solutions (python_segments 0) first_UD
                              (take 2 (sort_by_y P3) ++ drop 2 (sort_by_y R3)) [U; D]))
  /\ length (@solutions (python_segments 0) first_UD (take 2 (sort_by_y P3) ++ drop 2 (sort_by_y R3)) [U; D]) = 2
  /\ Forall (fun p => ~ @valid_path (python_segments 0) R3 [U; D] p)
       (@solutions (python_segments 0) first_UD (take 2 (sort_by_y P3) ++ drop 2 (sort_by_y R3)) [U; D]).
Proof.
  split_and!.
  - apply (@default_memo_stale (python_segments 0) 2 P3 R3 [U; D]); simpl; lia.
  - vm_compute. reflexivity.
  - apply (bool_decide_unpack _). vm_compute. reflexivity.
Defined.
