(* ===== verification/Hull.v ===== *)
(** * Graham scan and the Jarvis step

    [convexHull] and [jarvisMarchSinglePass] of src/CleanSolution.py
    (lines 425-469).

    [convexHull] mutates the caller's list: it removes the lowest point
    [bottom], sorts the rest by the key [-(p.x - bottom.x) / (p.y -
    bottom.y)] and appends [bottom]; the model returns that list with
    the hull.  The Python stack is a list whose top is its last element;
    here [stack] is the same list with its top first, so that the inner
    [while] loop, which pops until the last three points turn left, is
    structural recursion on it.  The division by [p.y - bottom.y] raises
    [ZeroDivisionError] when another point has the height of [bottom];
    the keys are rationals ([Q]), the values of the float division
    without rounding.

    [jarvisMarchSinglePass] keeps the two running extremes; its
    segments [nextSegment], [prevSegment] always end at the running
    extreme, so the model keeps the extremes only.  [Pt]
    defines no [__eq__], so [==] and [remove] compare objects; every
    caller passes as [point] one of the objects of [points], and
    distinct objects there have distinct coordinates (the generator
    never repeats a point), so the model compares coordinates.

    Theorems: [convexHull_correct] (under general position the scan
    returns a strictly convex counterclockwise polygon through the
    lowest point, whose vertices are distinct points of the input),
    [convexHull_ZeroDivisionError] (two lowest points make the sort key
    divide by zero) and [jarvisMarchSinglePass_tangents] (from a hull
    vertex, the two extremes are its tangent neighbours). *)

From S2P Require Import Prelude Geometry.
From stdpp Require Import base list sorting sets.
From Stdlib Require Import ZArith QArith Lia.

Open Scope nat_scope.
Open Scope py_scope.

(** ** The Graham scan *)

(** [(p2.x - p1.x)*(p3.y - p1.y) - (p2.y - p1.y)*(p3.x - p1.x)]. *)
Definition area (p1 p2 p3 : Pt) : Z := signedArea (mkSeg p1 p2) p3.

(** Lines 430-434: the index of the first point of least height. *)
Definition find_bottom (points : list Pt) : nat :=
  fold_left (fun b i =>
    match points !! i, points !! b with
    | Some p, Some q => if (y p <? y q)%Z then i else b
    | _, _ => b
    end) (seq 1 (length points - 1)) 0.

(** Line 436: the sort key [-1 * (p.x - bottom.x)/(p.y - bottom.y)]. *)
Definition slope_key (bottom p : Pt) : Q :=
  (- (inject_Z (x p - x bottom) / inject_Z (y p - y bottom)))%Q.

Definition key_le (bottom : Pt) (p q : Pt) : Prop := (slope_key bottom p <= slope_key bottom q)%Q.

#[export] Instance key_le_dec bottom : RelDecision (key_le bottom).
Proof.
  intros p q. unfold key_le.
  destruct (Qlt_le_dec (slope_key bottom q) (slope_key bottom p)) as [Hlt|Hle];
    [right; by apply Qlt_not_le|by left].
Defined.

(** Lines 445-448: [while signedArea <= 0: p2 = p1; p1 = stack.pop()],
    on the stack below [p1]. *)
Fixpoint pop_while (stack : list Pt) (p1 p2 p3 : Pt) : res (list Pt * Pt * Pt) :=
  if (0 <? area p1 p2 p3)%Z then Ok (stack, p1, p2)
  else match stack with
       | [] => Raise IndexError
       | p1' :: stack' => pop_while stack' p1' p1 p3
       end.

(** Lines 440-451: one iteration of [for cur in range(1, len(points))]:
    push [points[cur]], pop [p3], [p2], [p1], pop while the turn is not
    strictly left, push [p1], [p2], [p3]. *)
Definition scan_step (stack : list Pt) (p3 : Pt) : res (list Pt) :=
  match stack with
  | p2 :: p1 :: rest =>
      r <-? pop_while rest p1 p2 p3 ;;
      let '(rest', p1', p2') := r in
      Ok (p3 :: p2' :: p1' :: rest')
  | _ => Raise IndexError
  end.

(** Lines 439-451: the [for] loop over [points[1:]]. *)
Fixpoint scan (stack : list Pt) (pts : list Pt) : res (list Pt) :=
  match pts with
  | [] => Ok stack
  | p :: pts' => stack' <-? scan_step stack p ;; scan stack' pts'
  end.

(** [convexHull(points, sortedByY)]: the hull, and the caller's list as
    the function leaves it. *)
Definition convexHull (points : list Pt) (sortedByY : bool) : res (list Pt * list Pt) :=
  if length points <? 4 then Ok (points, points)
  else
    let bi := if sortedByY then 0 else find_bottom points in
    bottom <-? py_get points bi ;;
    let rest := delete bi points in
    if existsb (fun p => (y p =? y bottom)%Z) rest then Raise ZeroDivisionError
    else
      let pts := merge_sort (key_le bottom) rest ++ [bottom] in
      p0 <-? py_get pts 0 ;;
      stack <-? scan [p0; bottom] (drop 1 pts) ;;
      match stack with
      | [] => Raise IndexError
      | _ :: stack' => Ok (rev stack', pts)
      end.

(** ** The Jarvis step *)

(** Lines 458-469: one pass over [points] keeping the point [next] with
    every later point to its right, seen from [point], and [prev] with
    every later point to its left. *)
Definition jarvis_update (point : Pt) (acc : Pt * Pt) (p : Pt) : Pt * Pt :=
  let '(nextPoint, prevPoint) := acc in
  let nextPoint' :=
    if bool_decide (nextPoint = point) || (0 <? signedArea (mkSeg point nextPoint) p)%Z
    then p else nextPoint in
  let prevPoint' :=
    if bool_decide (prevPoint = point) || (signedArea (mkSeg point prevPoint) p <? 0)%Z
    then p else prevPoint in
  (nextPoint', prevPoint').

Definition jarvisMarchSinglePass (points : list Pt) (point : Pt) : list Pt :=
  let '(nextPoint, prevPoint) := fold_left (jarvis_update point) points (point, point) in
  [nextPoint; prevPoint].

(** ** Correctness of the Graham scan *)

(** Every three consecutive points make a strict left turn. *)
Definition left_turns (l : list Pt) : Prop :=
  forall i p1 p2 p3, l !! i = Some p1 -> l !! S i = Some p2 -> l !! S (S i) = Some p3 ->
    (0 < area p1 p2 p3)%Z.

(** The same on a stack with its top first. *)
Definition stack_turns (st : list Pt) : Prop :=
  forall i p1 p2 p3, st !! i = Some p3 -> st !! S i = Some p2 -> st !! S (S i) = Some p1 ->
    (0 < area p1 p2 p3)%Z.

(** [q] comes after [p] around [b], counterclockwise. *)
Definition after (b p q : Pt) : Prop := (0 < area b p q)%Z.

Lemma area_cycle p q r : area p q r = area q r p.
Proof. apply signedArea_cycle. Qed.

Lemma slope_key_eq b p :
  (y b < y p)%Z -> (slope_key b p == (- (x p - x b)) # Z.to_pos (y p - y b))%Q.
Proof.
  intros Hy. unfold slope_key, Qeq, Qdiv, Qmult, Qinv, inject_Z; simpl.
  destruct (y p - y b)%Z eqn:E; try lia. simpl. lia.
Qed.

(** Above [b], a smaller key means a later angle: [b], [p], [q] turn left. *)
Lemma key_lt_area b p q :
  (y b < y p)%Z -> (y b < y q)%Z ->
  (slope_key b p < slope_key b q)%Q <-> (0 < area b p q)%Z.
Proof.
  intros Hp Hq. rewrite (slope_key_eq b p Hp), (slope_key_eq b q Hq).
  unfold Qlt, area, signedArea; simpl. rewrite !Z2Pos.id by lia. nia.
Qed.

(** [pop_while] stops at a strict left turn, on a suffix of its stack. *)
Lemma pop_while_Ok stack p1 p2 p3 rest' p1' p2' :
  pop_while stack p1 p2 p3 = Ok (rest', p1', p2') ->
  (0 < area p1' p2' p3)%Z /\ exists k, p2' :: p1' :: rest' = drop k (p2 :: p1 :: stack).
Proof.
  revert p1 p2. induction stack as [|q stack IH]; intros p1 p2; simpl;
    destruct (Z.ltb_spec 0 (area p1 p2 p3)); try discriminate.
  - intros [= <- <- <-]. split; [done|]. by exists 0.
  - intros [= <- <- <-]. split; [done|]. by exists 0.
  - intros (Ha & k & Hk)%IH. split; [done|]. exists (S k). done.
Qed.

Lemma pop_while_stop stack p1 p2 p3 :
  (0 < area p1 p2 p3)%Z -> pop_while stack p1 p2 p3 = Ok (stack, p1, p2).
Proof. intros Ha. destruct stack; simpl; by rewrite (proj2 (Z.ltb_lt _ _) Ha). Qed.

(** It does not run out of stack when the two lowest points [b], [s1]
    of the stack turn left towards [p3]. *)
Lemma pop_while_total mid s1 b stack p1 p2 p3 :
  p2 :: p1 :: stack = mid ++ [s1; b] -> (0 < area b s1 p3)%Z ->
  exists r, pop_while stack p1 p2 p3 = Ok r.
Proof.
  revert mid p1 p2. induction stack as [|q stack IH]; intros mid p1 p2 Hst Hb; simpl.
  - destruct mid as [|a [|a' mid]]; simpl in Hst; try discriminate; try (destruct mid; discriminate).
    injection Hst as -> ->. destruct (Z.ltb_spec 0 (area b s1 p3)); [by eexists|lia].
  - destruct (Z.ltb_spec 0 (area p1 p2 p3)); [by eexists|].
    destruct mid as [|a mid]; [simpl in Hst; destruct stack; discriminate|].
    simpl in Hst. injection Hst as _ Hst. by apply (IH mid).
Qed.

Lemma stack_turns_drop k st : stack_turns st -> stack_turns (drop k st).
Proof.
  intros Hst i p1 p2 p3. rewrite !lookup_drop.
  replace (k + S i) with (S (k + i)) by lia. replace (k + S (S i)) with (S (S (k + i))) by lia.
  apply Hst.
Qed.

Lemma stack_turns_push st p1 p2 p3 :
  stack_turns (p2 :: p1 :: st) -> (0 < area p1 p2 p3)%Z -> stack_turns (p3 :: p2 :: p1 :: st).
Proof.
  intros Hst Ha [|i] q1 q2 q3; simpl; [by intros [= <-] [= <-] [= <-]|].
  apply (Hst i).
Qed.

Lemma stack_turns_rev st : stack_turns st -> left_turns (rev st).
Proof.
  intros Hst i p1 p2 p3 H1 H2 H3.
  assert (S (S i) < length st) by (apply lookup_lt_Some in H3; by rewrite length_rev in H3).
  rewrite lookup_rev in H1, H2, H3 by lia.
  apply (Hst (length st - 1 - S (S i))).
  - rewrite <- H3. f_equal. lia.
  - rewrite <- H2. f_equal. lia.
  - rewrite <- H1. f_equal. lia.
Qed.

Lemma left_turns_snoc l a c q :
  left_turns (l ++ [a; c]) -> (0 < area a c q)%Z -> left_turns (l ++ [a; c; q]).
Proof.
  intros Hl Ha i p1 p2 p3 H1 H2 H3.
  replace (l ++ [a; c; q]) with ((l ++ [a; c]) ++ [q]) in * by (by rewrite <- app_assoc).
  assert (Hlen : S (S i) < length l + 3).
  { apply lookup_lt_Some in H3. rewrite !length_app in H3. simpl in H3. lia. }
  destruct (decide (S (S i) = length l + 2)) as [Hi|Hi].
  - rewrite <- app_assoc in H1, H2, H3. rewrite lookup_app_r in H1, H2, H3 by lia.
    replace (i - length l) with 0 in H1 by lia. replace (S i - length l) with 1 in H2 by lia.
    replace (S (S i) - length l) with 2 in H3 by lia. simpl in *. congruence.
  - rewrite lookup_app_l in H1, H2, H3 by (rewrite length_app; simpl; lia).
    by apply (Hl i).
Qed.

Lemma drop_app_two {A} k (mid : list A) a b :
  2 <= length (drop k (mid ++ [a; b])) -> drop k (mid ++ [a; b]) = drop k mid ++ [a; b].
Proof.
  intros Hk. rewrite length_drop, length_app in Hk. simpl in Hk.
  rewrite drop_app_le by lia. done.
Qed.

Lemma StronglySorted_sublist {A} (R : A -> A -> Prop) l1 l2 :
  l1 `sublist_of` l2 -> StronglySorted R l2 -> StronglySorted R l1.
Proof.
  induction 1 as [|x l1 l2 Hs IH|x l1 l2 Hs IH]; intros H2; [constructor| |].
  - apply StronglySorted_inv in H2 as [H2 Hall]. constructor; [by apply IH|].
    rewrite Forall_forall in Hall |- *. intros y Hy. apply Hall. by eapply elem_of_sublist.
  - apply StronglySorted_inv in H2 as [H2 _]. by apply IH.
Qed.

Lemma rev_drop_sublist {A} k (l : list A) : rev (drop k l) `sublist_of` rev l.
Proof.
  rewrite <- (take_drop k l) at 2. rewrite rev_app_distr. by apply sublist_inserts_r.
Qed.

(** One iteration of the scan keeps the stack [T ++ [s1; b]] with its
    turns strictly left, pushing [p3] on a suffix of [T]. *)
Lemma scan_step_inv b s1 T p3 :
  stack_turns (T ++ [s1; b]) -> after b s1 p3 ->
  exists k, scan_step (T ++ [s1; b]) p3 = Ok ((p3 :: drop k T) ++ [s1; b])
            /\ stack_turns ((p3 :: drop k T) ++ [s1; b]).
Proof.
  intros Hst Hb. destruct (T ++ [s1; b]) as [|p2 [|p1 rest]] eqn:E;
    [destruct T; discriminate|destruct T as [|? [|]]; discriminate|].
  destruct (pop_while_total T s1 b rest p1 p2 p3) as [[[rest' p1'] p2'] Hr]; [done|done|].
  destruct (pop_while_Ok _ _ _ _ _ _ _ Hr) as [Ha [k Hk0]].
  assert (Hts : stack_turns (p2' :: p1' :: rest')) by (rewrite Hk0; by apply stack_turns_drop).
  rewrite <- E in Hk0. pose proof Hk0 as Hk.
  rewrite drop_app_two in Hk by (rewrite <- Hk0; simpl; lia).
  exists k. simpl. rewrite Hr. simpl. rewrite <- Hk. split; [done|].
  by apply stack_turns_push.
Qed.

(** The loop over the sorted points after [s1]: the stack stays
    [T ++ [s1; b]] with strict left turns, the points of [T] in the
    order of the input, and the last point processed on top. *)
Lemma scan_inv b s1 ps T :
  (forall p, p ∈ ps -> after b s1 p) -> stack_turns (T ++ [s1; b]) ->
  exists T', scan (T ++ [s1; b]) ps = Ok (T' ++ [s1; b]) /\ stack_turns (T' ++ [s1; b])
    /\ rev T' `sublist_of` rev T ++ ps
    /\ (ps <> [] -> exists t T'', T' = t :: T'').
Proof.
  revert T. induction ps as [|p ps IH]; intros T Hps Hst.
  - exists T. split_and!; [done|done|by rewrite app_nil_r|done].
  - destruct (scan_step_inv b s1 T p Hst) as (k & Hs & Hst1); [apply Hps; by left|].
    destruct (IH (p :: drop k T)) as (T' & Hr & Hst' & Hsub & Htop);
      [intros q Hq; apply Hps; by right|done|].
    exists T'. simpl. rewrite Hs. simpl. split_and!; [done|done| |].
    + etransitivity; [exact Hsub|]. simpl. rewrite <- app_assoc.
      apply sublist_app; [apply rev_drop_sublist|done].
    + intros _. destruct ps as [|q ps]; [|by apply Htop].
      simpl in Hr. injection Hr as Hr. change ((p :: drop k T) ++ [s1; b] = T' ++ [s1; b]) in Hr.
      apply app_inv_tail in Hr. subst T'. by eexists _, _.
Qed.

(** The last iteration pushes [b] again without popping: the two top
    points come in that order around [b]. *)
Lemma scan_final b s1 t T :
  StronglySorted (after b) (s1 :: rev T ++ [t]) ->
  scan_step ((t :: T) ++ [s1; b]) b = Ok (b :: (t :: T) ++ [s1; b]).
Proof.
  intros Hs. destruct T as [|t' T]; simpl.
  - assert (Ha : after b s1 t) by (apply StronglySorted_inv in Hs as [_ Hall]; by inversion Hall).
    unfold after in Ha. rewrite (area_cycle s1 t b), (area_cycle t b s1).
    destruct (Z.ltb_spec 0 (area b s1 t)); [done|lia].
  - assert (Ha : after b t' t).
    { apply (StronglySorted_sublist _ [t'; t]) in Hs.
      - apply StronglySorted_inv in Hs as [_ Hall]. by inversion Hall.
      - simpl. rewrite <- app_assoc. apply sublist_cons, sublist_inserts_l. done. }
    rewrite pop_while_stop; [done|]. by rewrite (area_cycle t' t b), (area_cycle t b t').
Qed.

Lemma scan_app st l1 l2 : scan st (l1 ++ l2) = (st' <-? scan st l1 ;; scan st' l2).
Proof.
  revert st. induction l1 as [|p l1 IH]; intros st; simpl; [done|].
  destruct (scan_step st p); simpl; [apply IH|done].
Qed.

(** The Graham scan on points sorted counterclockwise around [b], with
    [s1] first: it returns normally, and the hull [b :: s1 :: rev T'] is
    a convex polygon, every three consecutive vertices (cyclically)
    turning strictly left. *)
Lemma graham_core b s1 R' :
  R' <> [] -> StronglySorted (after b) (s1 :: R') ->
  exists T', scan [s1; b] (R' ++ [b]) = Ok (b :: T' ++ [s1; b])
    /\ rev T' `sublist_of` R' /\ T' <> []
    /\ left_turns ((b :: s1 :: rev T') ++ [b; s1]).
Proof.
  intros HR Hs. pose proof Hs as Hs'. apply StronglySorted_inv in Hs' as [_ Hall].
  rewrite Forall_forall in Hall.
  destruct (scan_inv b s1 R' []) as (T' & Hr & Hst & Hsub & Htop);
    [done|by intros [|[|[|i]]]|].
  destruct (Htop HR) as (t & T'' & ->). simpl in Hsub.
  assert (Hso : StronglySorted (after b) (s1 :: rev T'' ++ [t])).
  { eapply StronglySorted_sublist; [|exact Hs]. apply sublist_skip. by rewrite <- (app_nil_l R'). }
  exists (t :: T''). rewrite scan_app. simpl in Hr. rewrite Hr. cbn [res_bind scan].
  change (t :: T'' ++ [s1; b]) with ((t :: T'') ++ [s1; b]). rewrite (scan_final b s1 t T'' Hso).
  split_and!; [done|done|done|].
  assert (Hlt : left_turns (b :: s1 :: rev T'' ++ [t])).
  { replace (b :: s1 :: rev T'' ++ [t]) with (rev ((t :: T'') ++ [s1; b])) by (by rewrite rev_app_distr).
    by apply stack_turns_rev. }
  destruct (exists_last (l:=s1 :: rev T'')) as (l0 & a & Hl0); [done|].
  assert (Ha : after b a t).
  { apply (StronglySorted_sublist _ [a; t]) in Hso.
    - apply StronglySorted_inv in Hso as [_ Hf]. by inversion Hf.
    - change (s1 :: rev T'' ++ [t]) with ((s1 :: rev T'') ++ [t]). rewrite Hl0, <- app_assoc.
      apply sublist_inserts_l. done. }
  assert (Hst1 : after b s1 t) by (apply Hall; eapply elem_of_sublist; [|exact Hsub]; simpl; apply elem_of_app; right; by left).
  replace ((b :: s1 :: rev (t :: T'')) ++ [b; s1]) with ((b :: l0) ++ [a; t; b; s1]).
  2: { simpl. rewrite <- app_assoc. change (s1 :: rev T'' ++ [t] ++ [b; s1]) with ((s1 :: rev T'') ++ [t] ++ [b; s1]).
       rewrite Hl0, <- app_assoc. done. }
  replace ((b :: l0) ++ [a; t; b; s1]) with (((b :: l0) ++ [a]) ++ [t; b; s1]) by (by rewrite <- app_assoc).
  apply left_turns_snoc.
  - replace (((b :: l0) ++ [a]) ++ [t; b]) with ((b :: l0) ++ [a; t; b]) by (by rewrite <- app_assoc).
    apply left_turns_snoc.
    + replace ((b :: l0) ++ [a; t]) with (b :: s1 :: rev T'' ++ [t]); [done|].
      change (b :: s1 :: rev T'' ++ [t]) with (b :: (s1 :: rev T'') ++ [t]). rewrite Hl0.
      by rewrite <- app_assoc.
    + unfold after in Ha. by rewrite (area_cycle a t b), (area_cycle t b a).
  - unfold after in Hst1. by rewrite (area_cycle t b s1).
Qed.

(** ** From the input to the sorted points *)

Lemma find_bottom_fold (P : list Pt) (l : list nat) (acc : nat) (qa : Pt) :
  P !! acc = Some qa ->
  exists qb, P !! fold_left (fun b i =>
      match P !! i, P !! b with
      | Some p, Some q => if (y p <? y q)%Z then i else b
      | _, _ => b
      end) l acc = Some qb
    /\ (y qb <= y qa)%Z /\ forall i p, i ∈ l -> P !! i = Some p -> (y qb <= y p)%Z.
Proof.
  revert acc qa. induction l as [|i l IH]; intros acc qa Ha; simpl.
  - exists qa. split_and!; [done|lia|intros i p Hi; by apply not_elem_of_nil in Hi].
  - rewrite Ha. destruct (P !! i) as [p|] eqn:Hi.
    + destruct (Z.ltb_spec (y p) (y qa)).
      * destruct (IH i p Hi) as (qb & Hb & Hle & Hall). exists qb. split_and!; [done|lia|].
        intros j q [->|Hj]%elem_of_cons Hq; [congruence|by apply (Hall j)].
      * destruct (IH acc qa Ha) as (qb & Hb & Hle & Hall). exists qb. split_and!; [done|lia|].
        intros j q [->|Hj]%elem_of_cons Hq; [rewrite Hi in Hq; injection Hq as <-; lia|by apply (Hall j)].
    + destruct (IH acc qa Ha) as (qb & Hb & Hle & Hall). exists qb. split_and!; [done|lia|].
      intros j q [->|Hj]%elem_of_cons Hq; [congruence|by apply (Hall j)].
Qed.

(** [find_bottom] finds a point of least height. *)
Lemma find_bottom_spec P :
  P <> [] -> exists b, P !! find_bottom P = Some b /\ forall q, q ∈ P -> (y b <= y q)%Z.
Proof.
  intros HP. destruct P as [|p0 P']; [done|].
  destruct (find_bottom_fold (p0 :: P') (seq 1 (length (p0 :: P') - 1)) 0 p0) as (b & Hb & H0 & Hall);
    [done|].
  exists b. split; [exact Hb|]. intros q [j Hj]%list_elem_of_lookup.
  destruct j as [|j]; [simpl in Hj; injection Hj as <-; lia|].
  apply (Hall (S j)); [|done]. apply elem_of_seq. apply lookup_lt_Some in Hj. simpl in *. lia.
Qed.

#[export] Instance key_le_trans b : Transitive (key_le b).
Proof. intros p q r. unfold key_le. apply Qle_trans. Qed.

#[export] Instance key_le_total b : Total (key_le b).
Proof.
  intros p q. unfold key_le. destruct (Qlt_le_dec (slope_key b p) (slope_key b q)); [left|by right].
  by apply Qlt_le_weak.
Qed.

Lemma singleton_sublist {A} (a : A) l : a ∈ l -> [a] `sublist_of` l.
Proof. intros (l1 & l2 & ->)%list_elem_of_split. apply sublist_inserts_l, sublist_skip, sublist_nil_l. Qed.

Lemma area_swap b p q : area b p q = (- area b q p)%Z.
Proof. unfold area, signedArea; simpl. ring. Qed.

(** Sorted by key, distinct points above [b], no two collinear with
    [b]: sorted counterclockwise around [b]. *)
Lemma sorted_after b l :
  StronglySorted (key_le b) l -> (forall p, p ∈ l -> (y b < y p)%Z) ->
  (forall p q, [p; q] `sublist_of` l -> area b p q <> 0%Z) ->
  StronglySorted (after b) l.
Proof.
  induction 1 as [|p l Hs IH Hall]; intros Hy Hc; constructor.
  - apply IH; [intros q Hq; apply Hy; by right|].
    intros q r Hqr. apply Hc. by apply sublist_cons.
  - rewrite Forall_forall in Hall |- *. intros q Hq. unfold after.
    pose proof (Hc p q ltac:(by apply sublist_skip, singleton_sublist)) as Hne.
    destruct (Z.ltb_spec 0 (area b p q)) as [|Hle]; [done|]. exfalso.
    assert (Hlt : (slope_key b q < slope_key b p)%Q).
    { apply key_lt_area; [apply Hy; by right|apply Hy; by left|]. rewrite area_swap. lia. }
    by apply (Qlt_not_le _ _ Hlt), Hall.
Qed.

(** General position: no three distinct points of [P] are collinear. *)
Definition no_three_collinear (P : list Pt) : Prop :=
  Forall (fun p => Forall (fun q => Forall (fun r =>
    p <> q -> q <> r -> p <> r -> area p q r <> 0%Z) P) P) P.

Lemma no_three_collinear_elem P p q r :
  no_three_collinear P -> p ∈ P -> q ∈ P -> r ∈ P -> p <> q -> q <> r -> p <> r ->
  area p q r <> 0%Z.
Proof.
  intros Hgp Hp Hq Hr. unfold no_three_collinear in Hgp. rewrite Forall_forall in Hgp.
  specialize (Hgp p Hp). rewrite Forall_forall in Hgp. specialize (Hgp q Hq).
  rewrite Forall_forall in Hgp. by apply Hgp.
Qed.

(** The lowest point, the other points sorted by the key, and what the
    scan needs of them. *)
Lemma hull_prepare P :
  4 <= length P -> NoDup (map y P) -> no_three_collinear P ->
  exists b s1 R', P !! find_bottom P = Some b /\ (forall q, q ∈ P -> (y b <= y q)%Z)
    /\ existsb (fun p => (y p =? y b)%Z) (delete (find_bottom P) P) = false
    /\ merge_sort (key_le b) (delete (find_bottom P) P) = s1 :: R' /\ R' <> []
    /\ StronglySorted (after b) (s1 :: R') /\ NoDup (b :: s1 :: R') /\ b :: s1 :: R' ≡ₚ P.
Proof.
  intros H4 Hy Hgp. assert (HnP : NoDup P) by (by apply NoDup_map_1 in Hy).
  destruct (find_bottom_spec P) as (b & Hb & Hmin); [intros ->; simpl in H4; lia|].
  set (rest := delete (find_bottom P) P).
  assert (Hperm : P ≡ₚ b :: rest) by (by apply delete_Permutation).
  assert (Hnd : NoDup (b :: rest)) by (by rewrite <- Hperm).
  assert (Hyr : forall p, p ∈ rest -> (y b < y p)%Z).
  { intros p Hp. assert (Hle := Hmin p ltac:(rewrite Hperm; by right)).
    assert (Hyn : NoDup (map y (b :: rest))) by (by rewrite <- Hperm).
    simpl in Hyn. apply NoDup_cons in Hyn as [Hyn _].
    destruct (Z.eq_dec (y p) (y b)) as [He|]; [|lia]. destruct Hyn.
    apply list_elem_of_In, in_map_iff. exists p. split; [done|by apply list_elem_of_In]. }
  assert (Hsp : merge_sort (key_le b) rest ≡ₚ rest) by apply merge_sort_Permutation.
  assert (Hlen : length (merge_sort (key_le b) rest) = length P - 1)
    by (rewrite Hsp, Hperm; simpl; lia).
  assert (HSS : StronglySorted (after b) (merge_sort (key_le b) rest)).
  { apply sorted_after; [apply (StronglySorted_merge_sort (key_le b))|intros p Hp; apply Hyr; by rewrite <- Hsp|].
    intros p q Hpq. assert (Hnd2 : NoDup [p; q]).
    { eapply sublist_NoDup; [|exact Hpq]. rewrite Hsp. by apply NoDup_cons in Hnd as [_ Hnd]. }
    assert (Hpr : p ∈ rest) by (rewrite <- Hsp; eapply elem_of_sublist; [|exact Hpq]; by left).
    assert (Hqr : q ∈ rest) by (rewrite <- Hsp; eapply elem_of_sublist; [|exact Hpq]; by right; left).
    apply NoDup_cons in Hnd as [Hbr _].
    apply (no_three_collinear_elem P); [done| | | | | |].
    - by rewrite Hperm; left.
    - by rewrite Hperm; right.
    - by rewrite Hperm; right.
    - intros ->. by apply Hbr.
    - intros ->. apply NoDup_cons in Hnd2 as [Hn _]. apply Hn. by left.
    - intros ->. by apply Hbr. }
  assert (HndS : NoDup (b :: merge_sort (key_le b) rest)) by (by rewrite Hsp).
  assert (HpS : b :: merge_sort (key_le b) rest ≡ₚ P) by (by rewrite Hsp, Hperm).
  destruct (merge_sort (key_le b) rest) as [|s1 [|s2 R']] eqn:Hms; simpl in Hlen; try lia.
  exists b, s1, (s2 :: R'). split_and!; [done|done| |done|done|done|done|done].
  destruct (existsb _ rest) eqn:E; [|done]. apply existsb_exists in E as (p & Hp & Hpy).
  apply list_elem_of_In, Hyr in Hp. apply Z.eqb_eq in Hpy. lia.
Qed.

(** C12. [convexHull(points)] on at least four points of distinct
    heights, no three collinear, returns normally (no [IndexError] from
    its stack, no [ZeroDivisionError] from its key) a hull that starts
    at the lowest point, lists distinct input points, and is a convex
    polygon in counterclockwise order: every three consecutive vertices,
    cyclically, turn strictly left.  The caller's list is left a
    permutation of the input. *)
Theorem convexHull_correct P :
  4 <= length P -> NoDup (map y P) -> no_three_collinear P ->
  exists hull pts b, convexHull P false = Ok (hull, pts) /\ pts ≡ₚ P
    /\ hull !! 0 = Some b /\ (forall q, q ∈ P -> (y b <= y q)%Z)
    /\ NoDup hull /\ (forall q, q ∈ hull -> q ∈ P) /\ 3 <= length hull
    /\ left_turns (hull ++ take 2 hull).
Proof.
  intros H4 Hy Hgp.
  destruct (hull_prepare P H4 Hy Hgp)
    as (b & s1 & R' & Hb & Hmin & Hex & Hms & HR & HSS & Hnd & Hperm).
  destruct (graham_core b s1 R' HR HSS) as (T' & Hscan & Hsub & HT & Hturns).
  assert (Hsub' : s1 :: rev T' `sublist_of` s1 :: R') by (by apply sublist_skip).
  exists (b :: s1 :: rev T'), ((s1 :: R') ++ [b]), b.
  unfold convexHull. rewrite (proj2 (Nat.ltb_ge _ _) H4). simpl py_get.
  rewrite (proj2 (py_get_Ok _ _ _) Hb). simpl. rewrite Hex, Hms. simpl.
  rewrite drop_0, Hscan. simpl. split_and!.
  - by rewrite rev_app_distr.
  - rewrite <- Hperm. change (s1 :: R' ++ [b]) with ((s1 :: R') ++ [b]).
    by rewrite Permutation_app_comm.
  - done.
  - done.
  - apply NoDup_cons in Hnd as [Hbn Hnd]. apply NoDup_cons. split.
    + intros Hin. apply Hbn. by eapply elem_of_sublist.
    + by eapply sublist_NoDup.
  - intros q Hq. rewrite <- Hperm. apply elem_of_cons in Hq as [->|Hq]; [by left|right].
    by eapply elem_of_sublist.
  - destruct T'; [done|]. rewrite length_rev. simpl. lia.
  - rewrite take_0. exact Hturns.
Qed.

(** Four corners of a quadrilateral and an interior point. *)
Lemma convexHull_correct_witness :
  exists hull pts b,
    convexHull [mkPt 0 0; mkPt 3 1; mkPt 2 4; mkPt (-1) 3; mkPt 2 2] false = Ok (hull, pts)
    /\ pts ≡ₚ [mkPt 0 0; mkPt 3 1; mkPt 2 4; mkPt (-1) 3; mkPt 2 2]
    /\ hull !! 0 = Some b
    /\ (forall q, q ∈ [mkPt 0 0; mkPt 3 1; mkPt 2 4; mkPt (-1) 3; mkPt 2 2] -> (y b <= y q)%Z)
    /\ NoDup hull /\ (forall q, q ∈ hull -> q ∈ [mkPt 0 0; mkPt 3 1; mkPt 2 4; mkPt (-1) 3; mkPt 2 2])
    /\ 3 <= length hull /\ left_turns (hull ++ take 2 hull).
Proof.
  apply convexHull_correct; [simpl; lia| |].
  - apply (bool_decide_unpack _). vm_compute. exact I.
  - apply (bool_decide_unpack _). vm_compute. exact I.
Defined.

Lemma elem_of_delete_ne (P : list Pt) bi j q :
  P !! j = Some q -> j <> bi -> q ∈ delete bi P.
Proof.
  intros Hj Hne. destruct (decide (j < bi)).
  - apply list_elem_of_lookup. exists j. by rewrite list_lookup_delete_lt.
  - apply list_elem_of_lookup. exists (j - 1). rewrite list_lookup_delete_ge by lia.
    by replace (S (j - 1)) with j by lia.
Qed.

(** C13. [convexHull(points)] on at least four points, two of which
    share the least height, raises [ZeroDivisionError]: the key
    [(p.x - bottom.x)/(p.y - bottom.y)] divides by zero for the one that
    is not [bottom].  The specification's example, the square
    (0,0), (2,0), (2,2), (0,2) with (1,1), is such a set. *)
Theorem convexHull_ZeroDivisionError P i j p q :
  4 <= length P -> P !! i = Some p -> P !! j = Some q -> i <> j -> y p = y q ->
  (forall r, r ∈ P -> (y p <= y r)%Z) ->
  convexHull P false = Raise ZeroDivisionError.
Proof.
  intros H4 Hi Hj Hij Hpq Hmin.
  destruct (find_bottom_spec P) as (b & Hb & Hbmin); [intros ->; simpl in H4; lia|].
  assert (Hyb : y b = y p).
  { pose proof (Hbmin p ltac:(by eapply list_elem_of_lookup_2)).
    pose proof (Hmin b ltac:(by eapply list_elem_of_lookup_2)). lia. }
  unfold convexHull. rewrite (proj2 (Nat.ltb_ge _ _) H4). simpl.
  rewrite (proj2 (py_get_Ok _ _ _) Hb). simpl.
  assert (Hex : existsb (fun r => (y r =? y b)%Z) (delete (find_bottom P) P) = true).
  { apply existsb_exists.
    destruct (decide (i = find_bottom P)) as [->|Hne].
    - exists q. split; [apply list_elem_of_In; by apply (elem_of_delete_ne P _ j)|].
      apply Z.eqb_eq. lia.
    - exists p. split; [apply list_elem_of_In; by apply (elem_of_delete_ne P _ i)|].
      apply Z.eqb_eq. lia. }
  by rewrite Hex.
Qed.

Lemma convexHull_ZeroDivisionError_witness :
  convexHull [mkPt 0 0; mkPt 2 0; mkPt 2 2; mkPt 0 2; mkPt 1 1] false = Raise ZeroDivisionError.
Proof.
  apply (convexHull_ZeroDivisionError _ 0 1 (mkPt 0 0) (mkPt 2 0)); [simpl; lia|reflexivity|reflexivity|lia|reflexivity|].
  intros r Hr. repeat (apply elem_of_cons in Hr as [->|Hr]; [simpl; lia|]). by apply not_elem_of_nil in Hr.
Defined.

(** ** The Jarvis step *)

(** Each running extreme of [jarvisMarchSinglePass] follows the same
    rule: take [p] when the extreme is still [point] or [p] beats it. *)
Section Extreme.
Context (point : Pt) (R : Pt -> Pt -> bool) (L : list Pt).
Hypothesis HR_point : forall a, R a point = false.
Hypothesis HR_irr : forall a, R a a = false.
Hypothesis HR_asym : forall a b, R a b = true -> R b a = false.
Hypothesis HR_total : forall a b, a ∈ L -> b ∈ L -> a <> point -> b <> point -> a <> b ->
  R a b = true \/ R b a = true.
Hypothesis HR_trans : forall a b c, a ∈ L -> b ∈ L -> c ∈ L -> a <> point -> b <> point ->
  c <> point -> R a b = true -> R b c = true -> R a c = true.

Definition ext_step (acc p : Pt) : Pt :=
  if bool_decide (acc = point) || R acc p then p else acc.

Lemma ext_fold_spec l :
  (forall q, q ∈ l -> q ∈ L) ->
  let r := fold_left ext_step l point in
  (r = point /\ forall q, q ∈ l -> q = point)
  \/ (r ∈ l /\ r <> point /\ forall q, q ∈ l -> q <> point -> R r q = false).
Proof.
  induction l as [|p l IH] using rev_ind; intros HL; simpl.
  { left. split; [done|]. intros q Hq. by apply not_elem_of_nil in Hq. }
  rewrite fold_left_app. simpl.
  assert (HL' : forall q, q ∈ l -> q ∈ L) by (intros q Hq; apply HL; set_solver).
  assert (HpL : p ∈ L) by (apply HL; set_solver).
  destruct (IH HL') as [[Hr Hall]|(Hr & Hne & Hmax)];
    set (r := fold_left ext_step l point) in *; unfold ext_step.
  - rewrite Hr, bool_decide_true by done. simpl.
    destruct (decide (p = point)) as [->|Hp].
    + left. split; [done|]. intros q [Hq|Hq]%elem_of_app; [by apply Hall|set_solver].
    + right. split_and!; [set_solver|done|]. intros q [Hq|Hq]%elem_of_app Hq'.
      * by apply Hall in Hq.
      * apply list_elem_of_singleton in Hq as ->. apply HR_irr.
  - rewrite bool_decide_false by done. simpl.
    destruct (R r p) eqn:Hrp.
    + assert (Hp : p <> point) by (intros ->; by rewrite HR_point in Hrp).
      right. split_and!; [set_solver|done|]. intros q [Hq|Hq]%elem_of_app Hq'.
      * destruct (decide (q = r)) as [->|Hqr]; [by apply HR_asym|].
        apply HR_asym. destruct (HR_total q r) as [Hqr'|Hrq]; try by auto.
        -- by apply (HR_trans q r p); auto.
        -- by rewrite Hmax in Hrq.
      * apply list_elem_of_singleton in Hq as ->. apply HR_irr.
    + right. split_and!; [set_solver|done|]. intros q [Hq|Hq]%elem_of_app Hq'.
      * by apply Hmax.
      * by apply list_elem_of_singleton in Hq as ->.
Qed.
Lemma ext_fold_max :
  (exists q, q ∈ L /\ q <> point) ->
  let r := fold_left ext_step L point in
  r ∈ L /\ r <> point /\ forall q, q ∈ L -> q <> point -> R r q = false.
Proof.
  intros (q0 & Hq0 & Hq0p).
  destruct (ext_fold_spec L) as [[_ Hall]|Hr]; [done| |done]. by apply Hall in Hq0.
Qed.
End Extreme.

Lemma jarvis_fold point l n p :
  fold_left (jarvis_update point) l (n, p)
  = (fold_left (ext_step point (fun a q => 0 <? area point a q)%Z) l n,
     fold_left (ext_step point (fun a q => area point a q <? 0)%Z) l p).
Proof. revert n p. induction l as [|q l IH]; intros n p; simpl; [done|]. apply IH. Qed.

Lemma area_self_l p a : area p a p = 0%Z.
Proof. unfold area, signedArea; simpl. ring. Qed.

Lemma area_self_r p a : area p a a = 0%Z.
Proof. unfold area, signedArea; simpl. ring. Qed.

(** The two-dimensional Grassmann-Pluecker relation. *)
Lemma area_pluecker o d u v w :
  (area o d u * area o v w - area o d v * area o u w + area o d w * area o u v = 0)%Z.
Proof. unfold area, signedArea; simpl. ring. Qed.

(** Around a point [point] with every other point strictly left of
    [point -> d], "[b] lies left of [point -> a]" is a strict order. *)
Lemma area_trans_pos point d a b c :
  (0 < area point d a)%Z -> (0 < area point d b)%Z -> (0 < area point d c)%Z ->
  (0 < area point a b)%Z -> (0 < area point b c)%Z -> (0 < area point a c)%Z.
Proof. intros. pose proof (area_pluecker point d a b c). nia. Qed.

Lemma area_trans_neg point d a b c :
  (0 < area point d a)%Z -> (0 < area point d b)%Z -> (0 < area point d c)%Z ->
  (area point a b < 0)%Z -> (area point b c < 0)%Z -> (area point a c < 0)%Z.
Proof. intros. pose proof (area_pluecker point d a b c). nia. Qed.

Section Tangents.
Context (points : list Pt) (point d : Pt).
Hypothesis Hgp : no_three_collinear points.
Hypothesis Hpt : point ∈ points.
Hypothesis Hd : forall q, q ∈ points -> q <> point -> (0 < area point d q)%Z.

Lemma area_general a b :
  a ∈ points -> b ∈ points -> a <> point -> b <> point -> a <> b -> area point a b <> 0%Z.
Proof. intros. apply (no_three_collinear_elem points); auto. Qed.

Lemma next_extreme :
  (exists q, q ∈ points /\ q <> point) ->
  let r := fold_left (ext_step point (fun a q => 0 <? area point a q)%Z) points point in
  r ∈ points /\ r <> point /\ forall q, q ∈ points -> q <> point -> (area point r q <= 0)%Z.
Proof.
  intros Hex. destruct (ext_fold_max point (fun a q => 0 <? area point a q)%Z points)
    as (Hin & Hne & Hmax); try done.
  - intros a. apply Z.ltb_ge. by rewrite area_self_l.
  - intros a. apply Z.ltb_ge. by rewrite area_self_r.
  - intros a b Hab%Z.ltb_lt. apply Z.ltb_ge. pose proof (area_swap point a b). lia.
  - intros a b Ha Hb Hap Hbp Hab. pose proof (area_general a b Ha Hb Hap Hbp Hab).
    pose proof (area_swap point a b). rewrite !Z.ltb_lt. lia.
  - intros a b c Ha Hb Hc Hap Hbp Hcp Hab%Z.ltb_lt Hbc%Z.ltb_lt. apply Z.ltb_lt.
    apply (area_trans_pos point d a b c); auto.
  - split_and!; [done..|]. intros q Hq Hqp. by apply Z.ltb_ge, Hmax.
Qed.

Lemma prev_extreme :
  (exists q, q ∈ points /\ q <> point) ->
  let r := fold_left (ext_step point (fun a q => area point a q <? 0)%Z) points point in
  r ∈ points /\ r <> point /\ forall q, q ∈ points -> q <> point -> (0 <= area point r q)%Z.
Proof.
  intros Hex. destruct (ext_fold_max point (fun a q => area point a q <? 0)%Z points)
    as (Hin & Hne & Hmax); try done.
  - intros a. apply Z.ltb_ge. by rewrite area_self_l.
  - intros a. apply Z.ltb_ge. by rewrite area_self_r.
  - intros a b Hab%Z.ltb_lt. apply Z.ltb_ge. pose proof (area_swap point a b). lia.
  - intros a b Ha Hb Hap Hbp Hab. pose proof (area_general a b Ha Hb Hap Hbp Hab).
    pose proof (area_swap point a b). rewrite !Z.ltb_lt. lia.
  - intros a b c Ha Hb Hc Hap Hbp Hcp Hab%Z.ltb_lt Hbc%Z.ltb_lt. apply Z.ltb_lt.
    apply (area_trans_neg point d a b c); auto.
  - split_and!; [done..|]. intros q Hq Hqp. by apply Z.ltb_ge, Hmax.
Qed.
End Tangents.

(** C14. [jarvisMarchSinglePass(points, point)], for a vertex [point] of
    the convex hull of [points] (a line through it leaves every other
    point strictly on its left) in general position, returns its two
    neighbours on the hull: [nextPoint] has no point to its left seen
    from [point], [prevPoint] none to its right. *)
Theorem jarvisMarchSinglePass_tangents points point d :
  point ∈ points -> no_three_collinear points ->
  (forall q, q ∈ points -> q <> point -> (0 < area point d q)%Z) ->
  (exists q, q ∈ points /\ q <> point) ->
  exists nxt prv, jarvisMarchSinglePass points point = [nxt; prv]
    /\ nxt ∈ points /\ nxt <> point /\ prv ∈ points /\ prv <> point
    /\ forall q, q ∈ points -> q <> point -> (area point nxt q <= 0 <= area point prv q)%Z.
Proof.
  intros Hpt Hgp Hd Hex. unfold jarvisMarchSinglePass. rewrite jarvis_fold.
  destruct (next_extreme points point d) as (Hn1 & Hn2 & Hn3); try done.
  destruct (prev_extreme points point d) as (Hp1 & Hp2 & Hp3); try done.
  eexists _, _. split; [reflexivity|]. split_and!; try done.
  intros q Hq Hqp. split; [by apply Hn3|by apply Hp3].
Qed.

Lemma jarvisMarchSinglePass_tangents_witness :
  jarvisMarchSinglePass [mkPt 0 0; mkPt 3 1; mkPt 2 4; mkPt (-1) 3; mkPt 2 2] (mkPt 0 0)
    = [mkPt (-1) 3; mkPt 3 1]
  /\ exists nxt prv,
    jarvisMarchSinglePass [mkPt 0 0; mkPt 3 1; mkPt 2 4; mkPt (-1) 3; mkPt 2 2] (mkPt 0 0) = [nxt; prv]
    /\ nxt ∈ [mkPt 0 0; mkPt 3 1; mkPt 2 4; mkPt (-1) 3; mkPt 2 2] /\ nxt <> mkPt 0 0
    /\ prv ∈ [mkPt 0 0; mkPt 3 1; mkPt 2 4; mkPt (-1) 3; mkPt 2 2] /\ prv <> mkPt 0 0
    /\ forall q, q ∈ [mkPt 0 0; mkPt 3 1; mkPt 2 4; mkPt (-1) 3; mkPt 2 2] -> q <> mkPt 0 0 ->
         (area (mkPt 0 0) nxt q <= 0 <= area (mkPt 0 0) prv q)%Z.
Proof.
  split; [reflexivity|].
  apply (jarvisMarchSinglePass_tangents _ _ (mkPt 1 0)).
  - by left.
  - apply (bool_decide_unpack _). vm_compute. exact I.
  - intros q Hq Hqp. repeat (apply elem_of_cons in Hq as [->|Hq]; [try done; simpl; lia|]).
    by apply not_elem_of_nil in Hq.
  - exists (mkPt 3 1). split; [by right; left|done].
Defined.
