(* ===== verification/HullJump.v ===== *)
(** * Hull jumping

    [hullJumping] and [hullJumpingRecursive] of src/CleanSolution.py
    (lines 471-545): from a point of the convex hull of the remaining
    points, find the points of the hull after its removal that lie
    between its two hull neighbours ([nextPoints], by Jarvis steps),
    and jump to those that go in the direction of the next character.

    The recursion consumes one character per call, so it is structural
    on the pattern.  The [while] loop that walks the new hull is not
    bounded in the source; the model's walk takes a bound [fuel] and
    stops with [OutOfFuel] when it is spent.  [copy.copy(points)] gives
    every recursive call its own list, so the lists are values here.
    [==] and [list.remove] compare the objects; the points the code
    passes are objects of the list, compared here by coordinates as in
    [Hull].

    A call returns the paths after [point], each as the list of its
    points from the last to the first ([arr.append(p)] as the recursion
    returns), and whether one was found.

    - [hullJumping_profile]: every path [hullJumping] returns, read in
      the order it visits its points, follows the pattern except at its
      last step, which goes the other way: the base case tests
      [points[0].y < point.y] for "U" where the recursive case tests
      [p.y > point.y].
    - [hull_walk_stops_on_shared_coordinate]: the walk [while p4.x !=
      p2.x and p4.y != p2.y] stops at the first point that shares one
      coordinate with [p2], which need not be [p2]. *)

From S2P Require Import Prelude Geometry PathString Hull.
From stdpp Require Import base list.
From Stdlib Require Import ZArith Lia.

Open Scope py_scope.

(** [p1, p2 = jarvisMarchSinglePass(points, point)]. *)
Definition jarvis_pair (points : list Pt) (point : Pt) : Pt * Pt :=
  match jarvisMarchSinglePass points point with
  | [nextPoint; prevPoint] => (nextPoint, prevPoint)
  | _ => (point, point)
  end.

(** [a.x == b.x and a.y == b.y]. *)
Definition same_xy (a b : Pt) : bool := (x a =? x b)%Z && (y a =? y b)%Z.

(** Lines 511-517: [while p4.x != p2.x and p4.y != p2.y], one Jarvis
    step from [p4] on the points without [point], avoiding the point it
    came from, appending to [nextPoints]. *)
Fixpoint hull_walk (fuel : nat) (points : list Pt) (p2 p3 p4 : Pt) (nextPoints : list Pt)
    : res (list Pt) :=
  if negb (x p4 =? x p2)%Z && negb (y p4 =? y p2)%Z then
    match fuel with
    | 0 => Raise OutOfFuel
    | S fuel' =>
        let '(p5, p6) := jarvis_pair points p4 in
        let p5 := if same_xy p5 p3 then p6 else p5 in
        hull_walk fuel' points p2 p4 p5 (nextPoints ++ [p5])
    end
  else Ok nextPoints.

(** Lines 501-517: the neighbours of [point], [points.remove(point)],
    and the walk from [p1] towards [p2]: the list without [point] and
    [nextPoints]. *)
Definition next_hull_points (fuel : nat) (points : list Pt) (point : Pt)
    : res (list Pt * list Pt) :=
  let '(p1, p2) := jarvis_pair points point in
  let '(p3, p4) := jarvis_pair points p1 in
  let p3 := if same_xy p3 point then p4 else p3 in
  let p4 := p1 in
  points' <-? py_remove point points ;;
  nextPoints <-? hull_walk fuel points' p2 p3 p4 [p1] ;;
  Ok (points', nextPoints).

(** The direction test of a jump from [point] to [p]: [p.y > point.y]
    for "U" (line 525), [p.y < point.y] otherwise (line 536). *)
Definition jump_ok (c : dir) (point p : Pt) : bool :=
  match c with
  | U => (y point <? y p)%Z
  | D => (y p <? y point)%Z
  end.

(** Lines 495-498, the base case: [points[0]] after the removal, kept
    when [points[0].y < point.y] for "U" and [points[0].y > point.y]
    for "D". *)
Definition base_ok (c : dir) (point q : Pt) : bool :=
  match c with
  | U => (y q <? y point)%Z
  | D => (y point <? y q)%Z
  end.

(** The loops of lines 524-545 for one candidate list: recurse from
    every candidate [p] that passes the test, append [p] to the paths
    found, and record the success. *)
Fixpoint jump_all (recur : Pt -> res (list (list Pt) * bool)) (c : dir) (point : Pt)
    (cands : list Pt) (out : list (list Pt)) (success : bool) : res (list (list Pt) * bool) :=
  match cands with
  | [] => Ok (out, success)
  | p :: cands' =>
      if jump_ok c point p then
        r <-? recur p ;;
        let '(output, successful) := r in
        if successful
        then jump_all recur c point cands' (out ++ map (fun arr => arr ++ [p]) output) true
        else jump_all recur c point cands' out success
      else jump_all recur c point cands' out success
  end.

(** [hullJumpingRecursive(points, point, string)]. *)
Fixpoint hullJumpingRecursive (fuel : nat) (points : list Pt) (point : Pt) (string : pstring)
    : res (list (list Pt) * bool) :=
  match string with
  | [] =>
      r <-? next_hull_points fuel points point ;;
      Raise IndexError
  | c :: rest =>
      match rest with
      | [] =>
          points' <-? py_remove point points ;;
          q <-? py_get points' 0 ;;
          if base_ok c point q then Ok ([[q]], true) else Ok ([[]], false)
      | _ =>
          r <-? next_hull_points fuel points point ;;
          let '(points', nextPoints) := r in
          jump_all (fun p => hullJumpingRecursive fuel points' p rest) c point nextPoints [] false
      end
  end.

(** [hullJumping(points, string, hull)]: from every point of the hull
    (computed by [convexHull] when not given, which reorders the
    caller's list), the paths found, each with its first point
    appended. *)
Definition hullJumping (fuel : nat) (points : list Pt) (string : pstring) (hull : option (list Pt))
    : res (list (list Pt)) :=
  hp <-? (match hull with Some h => Ok (h, points) | None => convexHull points false end) ;;
  let '(hull, points) := hp in
  fold_left (fun acc point =>
    output <-? acc ;;
    r <-? hullJumpingRecursive fuel points point string ;;
    let '(out, success) := r in
    Ok (if success then output ++ map (fun o => o ++ [point]) out else output))
    hull (Ok []).

(** ** The paths hull jumping returns *)

Definition flip (c : dir) : dir := match c with U => D | D => U end.

(** The step from [a] to [b] goes the way [c] says. *)
Definition step_dir (c : dir) (a b : Pt) : Prop :=
  match c with
  | U => (y a < y b)%Z
  | D => (y b < y a)%Z
  end.

(** The points [vs], in order, follow the pattern [s]. *)
Fixpoint follows (s : pstring) (vs : list Pt) : Prop :=
  match s, vs with
  | [], [_] => True
  | c :: s', a :: ((b :: _) as vs') => step_dir c a b /\ follows s' vs'
  | _, _ => False
  end.

(** The pattern with its last character flipped. *)
Fixpoint flip_last (s : pstring) : pstring :=
  match s with
  | [] => []
  | [c] => [flip c]
  | c :: s' => c :: flip_last s'
  end.

Lemma jump_ok_step c point p : jump_ok c point p = true -> step_dir c point p.
Proof. destruct c; simpl; lia. Qed.

Lemma base_ok_step c point q : base_ok c point q = true -> step_dir (flip c) point q.
Proof. destruct c; simpl; lia. Qed.

Lemma jump_all_spec recur c point cands out success out' success' :
  jump_all recur c point cands out success = Ok (out', success') ->
  success' = true -> forall arr', arr' ∈ out' ->
  arr' ∈ out \/ exists p output arr, jump_ok c point p = true
    /\ recur p = Ok (output, true) /\ arr ∈ output /\ arr' = arr ++ [p].
Proof.
  revert out success. induction cands as [|p cands IH]; intros out success Hj Hs arr' Harr;
    simpl in Hj; [injection Hj as -> ->; by left|].
  destruct (jump_ok c point p) eqn:Hok; [|by eapply IH].
  destruct (recur p) as [[output []]|e] eqn:Hr; simpl in Hj; [|by eapply IH|done].
  destruct (IH _ _ Hj Hs arr' Harr) as [[Hin|Hin]%elem_of_app|?]; [by left| |by right].
  apply list_elem_of_In, in_map_iff in Hin as (arr & <- & Hin). right.
  exists p, output, arr. split_and!; [done|done| |done]. by apply list_elem_of_In.
Qed.

Lemma follows_cons_flip_last c c' rest point p vs :
  step_dir c point p -> follows (flip_last (c' :: rest)) (p :: vs) ->
  follows (flip_last (c :: c' :: rest)) (point :: p :: vs).
Proof. intros Hs Hf. change (step_dir c point p /\ follows (flip_last (c' :: rest)) (p :: vs)). done. Qed.

(** Every path after [point] a successful call finds follows the
    pattern from [point], but for its last step, which is flipped. *)
Lemma hullJumpingRecursive_profile fuel string :
  forall points point out, hullJumpingRecursive fuel points point string = Ok (out, true) ->
  forall arr, arr ∈ out -> follows (flip_last string) (point :: rev arr).
Proof.
  induction string as [|c rest IH]; intros points point out Hr arr Harr; simpl in Hr.
  { destruct (next_hull_points fuel points point); discriminate. }
  destruct rest as [|c' rest'].
  - destruct (py_remove point points) as [points'|]; simpl in Hr; [|done].
    destruct (py_get points' 0) as [q|]; simpl in Hr; [|done].
    destruct (base_ok c point q) eqn:Hb; [|done]. injection Hr as <-.
    apply list_elem_of_singleton in Harr as ->. simpl. split; [by apply base_ok_step|done].
  - destruct (next_hull_points fuel points point) as [[points' nextPoints]|]; simpl in Hr; [|done].
    destruct (jump_all_spec _ _ _ _ _ _ _ _ Hr eq_refl arr Harr)
      as [Hin|(p & output & arr0 & Hok & Hrec & Hin & ->)]; [by apply not_elem_of_nil in Hin|].
    rewrite rev_app_distr. simpl.
    apply follows_cons_flip_last; [by apply jump_ok_step|]. by apply (IH points' p output).
Qed.

Lemma fold_res_Raise {A B} (F : list A -> B -> res (list A)) l e :
  fold_left (fun acc b => res_bind acc (fun output => F output b)) l (Raise e) = Raise e.
Proof. induction l as [|b l IH]; simpl; [done|]. apply IH. Qed.

(** Every path of the top loop is a path of one successful call with
    its start appended. *)
Lemma hullJumping_paths fuel points string hull output :
  hullJumping fuel points string hull = Ok output ->
  forall o, o ∈ output -> exists points' point out arr,
    hullJumpingRecursive fuel points' point string = Ok (out, true) /\ arr ∈ out /\ o = arr ++ [point].
Proof.
  unfold hullJumping. destruct (match hull with Some h => Ok (h, points) | None => _ end)
    as [[h pts]|e]; simpl; [|done].
  assert (Hacc : forall o, o ∈ @nil (list Pt) -> exists points' point out arr,
    hullJumpingRecursive fuel points' point string = Ok (out, true) /\ arr ∈ out /\ o = arr ++ [point])
    by (intros o Ho; by apply not_elem_of_nil in Ho).
  revert Hacc. generalize (@nil (list Pt)) as acc.
  induction h as [|point h IH]; intros acc Hacc Hf; simpl in Hf; [by injection Hf as <-|].
  destruct (hullJumpingRecursive fuel pts point string) as [[out []]|e] eqn:Hr; simpl in Hf;
    [| |by rewrite fold_res_Raise in Hf].
  - eapply IH; [|exact Hf]. intros o [Ho|Ho]%elem_of_app; [by apply Hacc|].
    apply list_elem_of_In, in_map_iff in Ho as (arr & <- & Harr).
    exists pts, point, out, arr. split_and!; [done| |done]. by apply list_elem_of_In.
  - by eapply IH; [|exact Hf].
Qed.

(** C19. Every path [hullJumping(points, string)] returns, read in the
    order it visits its points (the reverse of the returned list), has
    the profile of [string] with its last character flipped: the base
    case of [hullJumpingRecursive] accepts "U" when the last point is
    lower ([points[0].y < point.y]), the recursive case when the next
    point is higher ([p.y > point.y]). *)
Theorem hullJumping_profile fuel points string hull output :
  hullJumping fuel points string hull = Ok output ->
  forall o, o ∈ output -> follows (flip_last string) (rev o).
Proof.
  intros Hh o Ho. destruct (hullJumping_paths _ _ _ _ _ Hh o Ho)
    as (points' & point & out & arr & Hr & Harr & ->).
  rewrite rev_app_distr. simpl. by apply (hullJumpingRecursive_profile fuel string points' point out).
Qed.

Lemma hullJumping_profile_witness :
  hullJumping 10 [mkPt 5 0; mkPt 3 1; mkPt 5 2; mkPt 1 4; mkPt 3 6] [U; U; U; U] None
    = Ok [[mkPt 5 2; mkPt 3 6; mkPt 1 4; mkPt 3 1; mkPt 5 0];
          [mkPt 1 4; mkPt 3 6; mkPt 5 2; mkPt 3 1; mkPt 5 0]]
  /\ follows [U; U; U; D] (rev [mkPt 5 2; mkPt 3 6; mkPt 1 4; mkPt 3 1; mkPt 5 0]).
Proof.
  split; [vm_compute; reflexivity|].
  apply (hullJumping_profile 10 [mkPt 5 0; mkPt 3 1; mkPt 5 2; mkPt 1 4; mkPt 3 6] [U; U; U; U] None
           [[mkPt 5 2; mkPt 3 6; mkPt 1 4; mkPt 3 1; mkPt 5 0];
            [mkPt 1 4; mkPt 3 6; mkPt 5 2; mkPt 3 1; mkPt 5 0]]);
    [vm_compute; reflexivity|by left].
Defined.

Lemma follows_flip_last_contra s vs : follows (flip_last s) vs -> follows s vs -> s = [].
Proof.
  revert vs. induction s as [|c s IH]; intros vs Hf Hs; [done|exfalso].
  destruct vs as [|a [|b vs]]; [done|by destruct s|].
  destruct s as [|c' s].
  - destruct Hf as [Hf _], Hs as [Hs _]. destruct c; simpl in *; lia.
  - destruct Hf as [_ Hf], Hs as [_ Hs]. by specialize (IH _ Hf Hs).
Qed.

(** Every path [hullJumping] returns takes its last step against the
    last character of the pattern. *)
Lemma hullJumping_flipped fuel points string hull output :
  hullJumping fuel points string hull = Ok output ->
  forall o, o ∈ output -> ~ follows string (rev o).
Proof.
  intros Hh o Ho Hfol. destruct (hullJumping_paths _ _ _ _ _ Hh o Ho)
    as (points' & point & out & arr & Hr & Harr & ->).
  pose proof (hullJumpingRecursive_profile fuel string points' point out Hr arr Harr) as Hprof.
  rewrite rev_app_distr in Hfol. simpl in Hfol.
  pose proof (follows_flip_last_contra _ _ Hprof Hfol) as ->.
  simpl in Hr. by destruct (next_hull_points fuel points' point).
Qed.


(** ** The walk of the new hull *)

Definition H5 : list Pt := [mkPt 0 3; mkPt 2 0; mkPt 1 2; mkPt 5 4; mkPt 2 6].

(** C20. The walk [while p4.x != p2.x and p4.y != p2.y] of
    [hullJumpingRecursive] stops at the first point that shares one
    coordinate with [p2], not at [p2]: when it returns, it has appended
    to [nextPoints] the points [l] it stepped to, every point it left
    ([p4] and all of [l] but the last) differs from [p2] in both
    coordinates, and the point it stopped at shares [x] or [y] with
    [p2]. *)
Theorem hull_walk_stops_on_shared_coordinate fuel points p2 p3 p4 nextPoints out :
  hull_walk fuel points p2 p3 p4 nextPoints = Ok out ->
  exists l q, out = nextPoints ++ l /\ last (p4 :: l) = Some q
    /\ (x q = x p2 \/ y q = y p2)
    /\ Forall (fun r => x r <> x p2 /\ y r <> y p2) (removelast (p4 :: l)).
Proof.
  revert p3 p4 nextPoints. induction fuel as [|fuel IH]; intros p3 p4 nextPoints; simpl;
    destruct (negb (x p4 =? x p2)%Z && negb (y p4 =? y p2)%Z) eqn:Hc; try done.
  2: { destruct (jarvis_pair points p4) as [p5 p6]. intros (l & q & -> & Hq & Hs & Hf)%IH.
       apply andb_true_iff in Hc as [Hx Hy]. apply negb_true_iff, Z.eqb_neq in Hx, Hy.
       eexists (_ :: l), q. rewrite <- app_assoc. split_and!; [done..|]. by constructor. }
  all: intros [= <-]; exists [], p4; rewrite app_nil_r; split_and!; [done|done| |by constructor];
    apply andb_false_iff in Hc as [Hc|Hc]; apply negb_false_iff, Z.eqb_eq in Hc; tauto.
Qed.

(** Without (3,7), the walk from (6,5) towards (-2,4) takes one Jarvis
    step and stops at (-2,4); on the points (0,3), (2,0), (1,2), (5,4),
    (2,6), the hull neighbours of (0,3) are [p1] = (2,6) and [p2] =
    (2,0), and the walk stops at once, on the shared [x], before the
    next point (1,2) of the new hull. *)
Lemma hull_walk_stops_on_shared_coordinate_witness :
  (exists l q, [mkPt 6 5; mkPt (-2) 4] = [mkPt 6 5] ++ l /\ last (mkPt 6 5 :: l) = Some q
     /\ (x q = x (mkPt (-2) 4) \/ y q = y (mkPt (-2) 4))
     /\ Forall (fun r => x r <> x (mkPt (-2) 4) /\ y r <> y (mkPt (-2) 4)) (removelast (mkPt 6 5 :: l)))
  /\ jarvis_pair H5 (mkPt 0 3) = (mkPt 2 6, mkPt 2 0)
  /\ (exists l q, [mkPt 2 6] = [mkPt 2 6] ++ l /\ last (mkPt 2 6 :: l) = Some q
     /\ (x q = x (mkPt 2 0) \/ y q = y (mkPt 2 0))
     /\ Forall (fun r => x r <> x (mkPt 2 0) /\ y r <> y (mkPt 2 0)) (removelast (mkPt 2 6 :: l))).
Proof.
  split_and!.
  - apply (hull_walk_stops_on_shared_coordinate 10 [mkPt 0 0; mkPt 4 1; mkPt 6 5; mkPt (-2) 4]
             (mkPt (-2) 4) (mkPt 4 1) (mkPt 6 5) [mkPt 6 5]). vm_compute. reflexivity.
  - vm_compute. reflexivity.
  - apply (hull_walk_stops_on_shared_coordinate 10 [mkPt 2 0; mkPt 1 2; mkPt 5 4; mkPt 2 6]
             (mkPt 2 0) (mkPt 5 4) (mkPt 2 6) [mkPt 2 6]). vm_compute. reflexivity.
Defined.
