(* ===== verification/Generator.v ===== *)
(** * The point generators

    [generatePoints(x, y, n)] of src/CleanSolution.py (lines 114-136)
    and of src/Solver.py (lines 88-102) draw random candidates and keep
    those that pass a test, until [n] points are kept.  The test of
    CleanSolution.py rejects a candidate whose height is already taken
    or which one of the segments between two kept points contains
    ([LineSegment.contains]); the test of Solver.py only has the second
    part.

    The random draws [Pt(random.uniform(0,x), random.uniform(0,y))] are
    the input list [cands]; the model runs the [while] loop over it and
    stops when [n] points are kept or the list ends (Python draws
    again).  [lines] is the list of segments the loop keeps.

    - [generatePoints_invariant]: CleanSolution.py's generator keeps at
      most [n] points, of distinct heights, and no kept point lies on a
      segment between two points kept before it.
    - [generatePoints_collinear], [solver_generatePoints_same_height]:
      neither generator keeps its points in general position: a
      candidate collinear with two kept points but outside their
      x-range passes [contains], and Solver.py keeps two points of the
      same height.
    - [generators_agree]: on draws of distinct heights the two
      generators keep the same points.
    - [generatePoints_keeps_general]: on draws of distinct heights far
      from collinear, CleanSolution.py's generator rejects none and
      returns the first [n].

    [randomPathString(n)] of both files (CleanSolution.py lines 325-334,
    Solver.py lines 231-238) maps the draws of [random.uniform(0,1)] to "D"
    when at most 0.5 and "U" otherwise; Solver.py's loop runs [n - 1]
    times, CleanSolution.py's [n] times. *)

From S2P Require Import Prelude Geometry SolverGeometry PathString.
From stdpp Require Import base list sets.
From Stdlib Require Import ZArith QArith Lia.

Open Scope nat_scope.

(** ** The loop *)

(** Lines 133-134: the segments from every kept point to [point]. *)
Definition new_lines (points : list Pt) (point : Pt) : list LineSegment :=
  map (fun pt => mkSeg pt point) points.

(** Lines 119-136, for the test [ok points lines point] of the
    candidate: [while len(points) < n], draw, test, keep. *)
Fixpoint gen_loop (ok : list Pt -> list LineSegment -> Pt -> bool) (n : nat)
    (cands : list Pt) (points : list Pt) (lines : list LineSegment) : list Pt :=
  match cands with
  | [] => points
  | point :: cands' =>
      if length points <? n then
        if ok points lines point
        then gen_loop ok n cands' (points ++ [point]) (lines ++ new_lines points point)
        else gen_loop ok n cands' points lines
      else points
  end.

(** Lines 127-131: [for line in lines: if line.contains(point): valid =
    False; break]. *)
Definition on_no_line (epsilon : Z) (lines : list LineSegment) (point : Pt) : bool :=
  negb (existsb (fun line => contains epsilon line point) lines).

(** One character of a random pattern: ["U"] when the draw
    [random.uniform(0,1)] is greater than [.5], ["D"] otherwise. *)
Definition draw_dir (r : Q) : dir := if Qle_bool r (1 # 2) then D else U.

Module Clean.
(** Lines 121-131 of CleanSolution.py: [point.y in [p.y for p in
    points]] rejects, else the segments are tried. *)
Definition candidate_ok (epsilon : Z) (points : list Pt) (lines : list LineSegment) (point : Pt)
    : bool :=
  if bool_decide (y point ∈ map y points) then false else on_no_line epsilon lines point.

Definition generatePoints (epsilon : Z) (n : nat) (cands : list Pt) : list Pt :=
  gen_loop (candidate_ok epsilon) n cands [] [].

(** [randomPathString(n)], lines 325-334: [for i in range(n)], one
    character per draw. *)
Definition randomPathString (n : nat) (draws : list Q) : pstring := map draw_dir (take n draws).
End Clean.

Module Solver.
(** Lines 93-97 of Solver.py: only the segments are tried, with
    Solver.py's [LineSegment.contains]. *)
Definition candidate_ok (epsilon : Z) (points : list Pt) (lines : list LineSegment) (point : Pt)
    : bool :=
  negb (existsb (fun line => SolverPy.contains epsilon line point) lines).

Definition generatePoints (epsilon : Z) (n : nat) (cands : list Pt) : list Pt :=
  gen_loop (candidate_ok epsilon) n cands [] [].

(** [randomPathString(n)] of Solver.py, lines 231-238: [for i in
    range(n - 1)]. *)
Definition randomPathString (n : nat) (draws : list Q) : pstring :=
  map draw_dir (take (n - 1) draws).
End Solver.

(** Solver.py's test is the segment part of CleanSolution.py's. *)
Lemma solver_candidate_ok_on_no_line epsilon points lines point :
  Solver.candidate_ok epsilon points lines point = on_no_line epsilon lines point.
Proof. reflexivity. Qed.

(** ** What the loop keeps *)

(** Induction over the loop: a property of the kept points and
    segments that every kept candidate preserves holds at the end. *)
Lemma gen_loop_ind (Q : list Pt -> list LineSegment -> Prop) ok n cands points lines :
  Q points lines ->
  (forall ps ls p, length ps < n -> ok ps ls p = true -> Q ps ls ->
     Q (ps ++ [p]) (ls ++ new_lines ps p)) ->
  exists ls, Q (gen_loop ok n cands points lines) ls.
Proof.
  intros HQ Hstep. revert points lines HQ.
  induction cands as [|p cands IH]; intros points lines HQ; simpl; [by exists lines|].
  destruct (Nat.ltb_spec (length points) n); [|by exists lines].
  destruct (ok points lines p) eqn:Hok; apply IH; [by apply Hstep|done].
Qed.

(** Every segment between two kept points, in the order kept, is in
    [lines]. *)
Definition pairs_in (points : list Pt) (lines : list LineSegment) : Prop :=
  forall i j a b, i < j -> points !! i = Some a -> points !! j = Some b -> mkSeg a b ∈ lines.

(** No kept point lies on a segment between two points kept before it. *)
Definition off_earlier_lines (epsilon : Z) (points : list Pt) : Prop :=
  forall i j k a b c, i < j -> j < k ->
    points !! i = Some a -> points !! j = Some b -> points !! k = Some c ->
    contains epsilon (mkSeg a b) c = false.

Lemma pairs_in_snoc ps ls p :
  pairs_in ps ls -> pairs_in (ps ++ [p]) (ls ++ new_lines ps p).
Proof.
  intros Hpairs i j a b Hij Ha Hb.
  apply lookup_snoc_Some in Hb as [[Hj Hb]|[-> <-]].
  - apply elem_of_app. left. apply (Hpairs i j); [done| |done].
    by rewrite lookup_app_l in Ha by lia.
  - rewrite lookup_app_l in Ha by lia. apply elem_of_app. right.
    apply list_elem_of_In, in_map_iff. exists a. split; [done|].
    apply list_elem_of_In. by eapply list_elem_of_lookup_2.
Qed.

Lemma off_earlier_lines_snoc epsilon ps ls p :
  pairs_in ps ls -> off_earlier_lines epsilon ps -> on_no_line epsilon ls p = true ->
  off_earlier_lines epsilon (ps ++ [p]).
Proof.
  intros Hpairs Hoff Hp i j k a b c Hij Hjk Ha Hb Hc.
  apply lookup_snoc_Some in Hc as [[Hk Hc]|[-> <-]].
  - rewrite lookup_app_l in Ha, Hb by lia. by apply (Hoff i j k).
  - rewrite lookup_app_l in Ha, Hb by lia.
    unfold on_no_line in Hp. apply negb_true_iff in Hp.
    destruct (contains epsilon (mkSeg a b) p) eqn:E; [|done].
    rewrite <- Hp. symmetry. apply existsb_exists. exists (mkSeg a b). split; [|done].
    apply list_elem_of_In. by apply (Hpairs i j).
Qed.

(** The invariant of CleanSolution.py's generator. *)
Lemma clean_generatePoints_inv epsilon n cands :
  let P := Clean.generatePoints epsilon n cands in
  length P <= n /\ NoDup (map y P) /\ off_earlier_lines epsilon P.
Proof.
  destruct (gen_loop_ind (fun ps ls => length ps <= n /\ NoDup (map y ps) /\ pairs_in ps ls
                                       /\ off_earlier_lines epsilon ps)
              (Clean.candidate_ok epsilon) n cands [] []) as (ls & Hlen & Hnd & _ & Hoff).
  - split_and!; [simpl; lia|constructor|intros i j a b _ Ha; by rewrite lookup_nil in Ha|].
    intros i j k a b c _ _ Ha. by rewrite lookup_nil in Ha.
  - intros ps ls p Hn Hok (Hlen & Hnd & Hpairs & Hoff). unfold Clean.candidate_ok in Hok.
    case_bool_decide as Hy; [done|].
    split_and!; [rewrite length_app; simpl; lia| |by apply pairs_in_snoc|].
    + rewrite map_app. apply NoDup_app. split_and!; [done| |apply NoDup_singleton].
      intros z Hz ->%list_elem_of_singleton. by apply Hy.
    + by apply (off_earlier_lines_snoc epsilon ps ls).
  - by split_and!.
Qed.

(** C16. [generatePoints(x, y, n)] of CleanSolution.py, for any
    sequence of random draws: it keeps at most [n] points, their
    heights are distinct, and no kept point lies on a segment (as
    [LineSegment.contains] decides) between two points kept before it. *)
Theorem generatePoints_invariant epsilon n cands :
  let P := Clean.generatePoints epsilon n cands in
  length P <= n /\ NoDup (map y P) /\ off_earlier_lines epsilon P.
Proof. apply clean_generatePoints_inv. Qed.

(** The loop only appends to the points it is given. *)
Lemma gen_loop_prefix ok n cands points lines :
  exists rest, gen_loop ok n cands points lines = points ++ rest.
Proof.
  revert points lines. induction cands as [|p cands IH]; intros points lines; simpl.
  - exists []. by rewrite app_nil_r.
  - destruct (length points <? n); [|exists []; by rewrite app_nil_r].
    destruct (ok points lines p).
    + destruct (IH (points ++ [p]) (lines ++ new_lines points p)) as [rest ->].
      exists (p :: rest). by rewrite <- app_assoc.
    + apply IH.
Qed.

(** C17. CleanSolution.py's generator keeps a third draw [c] whose
    height is new and which lies outside the x-range of the first two:
    the only segment tried, from [a] to [b], does not contain it, even
    when [a], [b], [c] are collinear. *)
Theorem generatePoints_keeps_outside epsilon a b c :
  y a <> y b -> y c <> y a -> y c <> y b ->
  (x c < Z.min (x a) (x b) \/ Z.max (x a) (x b) < x c)%Z ->
  Clean.generatePoints epsilon 3 [a; b; c] = [a; b; c].
Proof.
  intros Hab Hca Hcb Hx. unfold Clean.generatePoints. simpl. unfold Clean.candidate_ok.
  rewrite !bool_decide_false by (simpl; set_solver). unfold on_no_line. simpl.
  unfold contains. simpl.
  destruct Hx as [Hx|Hx]; [rewrite (proj2 (Z.leb_gt _ _) Hx)|rewrite (proj2 (Z.leb_gt _ _) Hx), andb_false_r];
  reflexivity.
Qed.

Lemma generatePoints_keeps_outside_witness :
  Clean.generatePoints 0 3 [mkPt 0 0; mkPt 1 1; mkPt 2 2] = [mkPt 0 0; mkPt 1 1; mkPt 2 2]
  /\ signedArea (mkSeg (mkPt 0 0) (mkPt 1 1)) (mkPt 2 2) = 0%Z.
Proof.
  split; [|reflexivity].
  apply generatePoints_keeps_outside; simpl; lia.
Defined.

(** C18. Solver.py's generator keeps its first two draws, whatever they
    are: with no height test, two points of the same height (even the
    same point twice) start its output. *)
Theorem solver_generatePoints_first_two epsilon n a b rest :
  2 <= n -> take 2 (Solver.generatePoints epsilon n (a :: b :: rest)) = [a; b].
Proof.
  intros Hn. unfold Solver.generatePoints. cbn [gen_loop length].
  rewrite (proj2 (Nat.ltb_lt 0 n)) by lia. cbn [Solver.candidate_ok on_no_line existsb negb app].
  cbn [gen_loop length new_lines map app].
  rewrite (proj2 (Nat.ltb_lt 1 n)) by lia. cbn [Solver.candidate_ok on_no_line existsb negb app].
  destruct (gen_loop_prefix (Solver.candidate_ok epsilon) n rest [a; b] [mkSeg a b]) as [r Hr].
  simpl in Hr |- *. by rewrite Hr.
Qed.

Lemma solver_generatePoints_first_two_witness :
  Solver.generatePoints 0 3 [mkPt 0 0; mkPt 5 0; mkPt 2 3] = [mkPt 0 0; mkPt 5 0; mkPt 2 3]
  /\ take 2 (Solver.generatePoints 0 3 [mkPt 0 0; mkPt 5 0; mkPt 2 3]) = [mkPt 0 0; mkPt 5 0].
Proof. split; [reflexivity|]. apply solver_generatePoints_first_two. lia. Defined.

(** ** The two generators on draws of distinct heights *)

Lemma gen_loop_agree epsilon n cands points lines :
  NoDup (map y cands) -> (forall c, c ∈ cands -> y c ∉ map y points) ->
  gen_loop (Solver.candidate_ok epsilon) n cands points lines
  = gen_loop (Clean.candidate_ok epsilon) n cands points lines.
Proof.
  revert points lines. induction cands as [|c cands IH]; intros points lines Hnd Hfresh; [done|].
  simpl. apply NoDup_cons in Hnd as [Hc Hnd].
  unfold Clean.candidate_ok at 1. rewrite bool_decide_false by (apply Hfresh; by left).
  rewrite solver_candidate_ok_on_no_line.
  destruct (length points <? n); [|done]. destruct (on_no_line epsilon lines c); apply IH; try done.
  - intros c' Hc'. rewrite map_app. intros [Hin|Hin%list_elem_of_singleton]%elem_of_app.
    + by apply (Hfresh c'); [right|].
    + apply Hc. rewrite <- Hin. apply list_elem_of_In, in_map, list_elem_of_In, Hc'.
  - intros c' Hc'. apply Hfresh. by right.
Qed.

(** C25. On random draws of distinct heights, the generator of Solver.py
    (no height test) and that of CleanSolution.py keep the same points:
    the height test only matters when two draws share a height. *)
Theorem generators_agree epsilon n cands :
  NoDup (map y cands) -> Solver.generatePoints epsilon n cands = Clean.generatePoints epsilon n cands.
Proof.
  intros Hnd. apply gen_loop_agree; [done|]. intros c _ Hin. by apply not_elem_of_nil in Hin.
Qed.

Lemma generators_agree_witness :
  NoDup (map y [mkPt 0 0; mkPt 1 1; mkPt 2 2; mkPt 3 5])
  /\ Solver.generatePoints 0 3 [mkPt 0 0; mkPt 1 1; mkPt 2 2; mkPt 3 5]
     = Clean.generatePoints 0 3 [mkPt 0 0; mkPt 1 1; mkPt 2 2; mkPt 3 5].
Proof.
  assert (Hnd : NoDup (map y [mkPt 0 0; mkPt 1 1; mkPt 2 2; mkPt 3 5]))
    by (apply (bool_decide_unpack _); vm_compute; exact I).
  split; [exact Hnd|]. by apply generators_agree.
Defined.

(** ** Draws in general position are all kept *)

(** A point farther than the tolerance from the line of a segment is
    not on it. *)
Lemma contains_far epsilon s c : (epsilon < Z.abs (signedArea s c))%Z -> contains epsilon s c = false.
Proof.
  intros Hfar. unfold contains. destruct (_ && _); [|done]. apply Z.leb_gt. lia.
Qed.

(** The draws are far from collinear: no draw is within the tolerance
    of the line through two others. *)
Definition far_from_collinear (epsilon : Z) (P : list Pt) : Prop :=
  forall a b c, a ∈ P -> b ∈ P -> c ∈ P -> a <> b -> b <> c -> a <> c ->
    (epsilon < Z.abs (signedArea (mkSeg a b) c))%Z.

Lemma y_neq_of_NoDup l1 l2 a c :
  NoDup (map y (l1 ++ c :: l2)) -> a ∈ l1 -> a <> c.
Proof.
  intros Hnd Ha ->. rewrite map_app in Hnd. apply NoDup_app in Hnd as (_ & Hdis & _).
  apply (Hdis (y c)); [apply list_elem_of_In, in_map, list_elem_of_In, Ha|by left].
Qed.

Lemma gen_loop_keeps_all epsilon n cands points lines :
  NoDup (map y (points ++ cands)) -> far_from_collinear epsilon (points ++ cands) ->
  (forall l, l ∈ lines -> exists a b, a ∈ points /\ b ∈ points /\ a <> b /\ l = mkSeg a b) ->
  gen_loop (Clean.candidate_ok epsilon) n cands points lines
  = points ++ take (n - length points) cands.
Proof.
  revert points lines. induction cands as [|c cands IH]; intros points lines Hnd Hfar Hlines;
    simpl; [by rewrite take_nil, app_nil_r|].
  destruct (Nat.ltb_spec (length points) n) as [Hlt|Hge];
    [|by replace (n - length points) with 0 by lia; rewrite app_nil_r].
  assert (Hok : Clean.candidate_ok epsilon points lines c = true).
  { unfold Clean.candidate_ok. rewrite bool_decide_false.
    - unfold on_no_line. apply negb_true_iff, not_true_iff_false. intros (l & Hl & Hc)%existsb_exists.
      apply list_elem_of_In in Hl. destruct (Hlines l Hl) as (a & b & Ha & Hb & Hab & ->).
      rewrite contains_far in Hc; [done|]. apply Hfar; [set_solver..|done| |].
      + intros ->. by apply (y_neq_of_NoDup _ _ _ _ Hnd Hb).
      + intros ->. by apply (y_neq_of_NoDup _ _ _ _ Hnd Ha).
    - rewrite map_app in Hnd. apply NoDup_app in Hnd as (_ & Hdis & _). intros Hin.
      apply (Hdis (y c)); [done|by left]. }
  rewrite Hok, IH.
  - rewrite <- app_assoc, length_app. simpl.
    by replace (n - length points) with (S (n - (length points + 1))) by lia.
  - by rewrite <- app_assoc.
  - by rewrite <- app_assoc.
  - intros l [Hl|Hl]%elem_of_app.
    + destruct (Hlines l Hl) as (a & b & Ha & Hb & Hab & ->). exists a, b. set_solver.
    + apply list_elem_of_In, in_map_iff in Hl as (a & <- & Ha). apply list_elem_of_In in Ha.
      exists a, c. split_and!; [set_solver|set_solver| |done].
      by apply (y_neq_of_NoDup _ _ _ _ Hnd Ha).
Qed.

(** C26. [generatePoints(x, y, n)] of CleanSolution.py on draws of
    distinct heights that are far from collinear (no draw within the
    tolerance of the line through two others) keeps every draw: it
    returns the first [n] draws, so the [while] loop ends after [n]
    draws. *)
Theorem generatePoints_keeps_general epsilon n cands :
  NoDup (map y cands) -> far_from_collinear epsilon cands ->
  Clean.generatePoints epsilon n cands = take n cands.
Proof.
  intros Hnd Hfar. unfold Clean.generatePoints. rewrite gen_loop_keeps_all; [by rewrite Nat.sub_0_r|done|done|].
  intros l Hl. by apply not_elem_of_nil in Hl.
Qed.

Lemma generatePoints_keeps_general_witness :
  Clean.generatePoints 0 3 [mkPt 0 0; mkPt 3 1; mkPt 1 3; mkPt 4 4] = [mkPt 0 0; mkPt 3 1; mkPt 1 3].
Proof.
  apply generatePoints_keeps_general.
  - apply (bool_decide_unpack _). vm_compute. exact I.
  - intros a b c Ha Hb Hc.
    repeat (apply elem_of_cons in Ha as [->|Ha]; [|]); [..|by apply not_elem_of_nil in Ha];
    repeat (apply elem_of_cons in Hb as [->|Hb]; [|]); try (by apply not_elem_of_nil in Hb);
    repeat (apply elem_of_cons in Hc as [->|Hc]; [|]); try (by apply not_elem_of_nil in Hc);
    intros; try congruence; vm_compute; reflexivity.
Defined.

(** [randomPathString(n)] of Solver.py has [n - 1] characters. *)
Lemma length_solver_randomPathString n draws :
  n - 1 <= length draws -> length (Solver.randomPathString n draws) = n - 1.
Proof. intros Hd. unfold Solver.randomPathString. rewrite length_map, length_take. lia. Qed.
