(* ===== verification/Run.v ===== *)
(** * Solver.py's [randomRun]

    [randomRun(winX, winY, n)] (src/Solver.py, lines 240-247) draws a
    pattern with [randomPathString(n - 1)], [n] points with
    [generatePoints], and asks [pathStringWrapper] for a path; the window
    code after it is commented out.  [randomPathString(n)] of Solver.py
    draws [n - 1] characters, so the pattern has [n - 2] characters, one
    fewer than [n] points need.  [pathString] then runs on [n] points
    with a pattern for [n - 1]: the memo invariant of [MemoInv] still
    says every stored path has one edge per character, so the path
    [randomRun] gets visits [n - 1] of its [n] points
    ([randomRun_short_path]).

    The random draws are inputs: [rdraws] for the pattern, [pdraws] for
    the candidate points. *)

From S2P Require Import Prelude Geometry SolverGeometry PathString Memo DPSolver DPSpec MemoInv Screen Generator.
From stdpp Require Import base list gmap.
From Stdlib Require Import ZArith QArith Lia.

Open Scope nat_scope.
Open Scope py_scope.

Section Run.
Context (epsilon : Z).

(** [LineSegment.intersect] and [contains] with tolerance [epsilon]. *)
#[local] Instance run_segments : SegmentTest := solver_segments epsilon.

(** [randomRun(winX, winY, n)]: the path [lines] and the points as the
    sort leaves them. *)
Definition randomRun (fuel n : nat) (rdraws : list Q) (pdraws : list Pt) : res (path * list Pt) :=
  let s := Solver.randomPathString (n - 1) rdraws in
  let points := Solver.generatePoints epsilon n pdraws in
  pathStringWrapper fuel points s.

(** The path [pathStringWrapper] returns has one edge per character of
    the pattern, whatever the points. *)
Lemma wrapper_length fuel points s p pts :
  pathStringWrapper fuel points s = Ok (p, pts) -> length p = length s.
Proof.
  unfold pathStringWrapper.
  destruct (pathString fuel (sort_by_neg_y points) s ∅) as [[[] m']|] eqn:Hr; simpl; [|done].
  destruct (m' !! s) as [sols|] eqn:Hs; simpl; [|done].
  destruct (py_get sols 0) as [p0|] eqn:Hp; simpl; [|done]. intros [= <- _].
  apply (pathString_wf _ _ _ ∅ tt m' memo_wf_empty Hr s sols); [done|].
  apply py_get_Ok in Hp. by eapply list_elem_of_lookup_2.
Qed.

(** C23. [randomRun(winX, winY, n)] for [n >= 3]: when it gets a path,
    the path has [n - 2] edges, so it visits [n - 1] points, while
    [generatePoints] was asked for [n]: [randomPathString(n - 1)] of
    Solver.py draws [n - 2] characters. *)
Theorem randomRun_short_path fuel n rdraws pdraws lines pts :
  3 <= n -> n - 2 <= length rdraws ->
  randomRun fuel n rdraws pdraws = Ok (lines, pts) ->
  length lines = n - 2 /\ length (vertices lines) = n - 1.
Proof.
  intros Hn Hd Hr. unfold randomRun in Hr. apply wrapper_length in Hr.
  rewrite length_solver_randomPathString in Hr by lia.
  split; [lia|]. destruct lines as [|e lines]; simpl in *; [lia|]. rewrite length_map. lia.
Qed.
End Run.

Lemma randomRun_short_path_witness :
  randomRun 0 4 4 [1%Q; 0%Q] [mkPt 5 0; mkPt 3 1; mkPt 5 2; mkPt 1 4]
    = Ok ([mkSeg (mkPt 1 4) (mkPt 5 0); mkSeg (mkPt 5 0) (mkPt 5 2)],
          [mkPt 1 4; mkPt 5 2; mkPt 3 1; mkPt 5 0])
  /\ length [mkSeg (mkPt 1 4) (mkPt 5 0); mkSeg (mkPt 5 0) (mkPt 5 2)] = 4 - 2
  /\ length (vertices [mkSeg (mkPt 1 4) (mkPt 5 0); mkSeg (mkPt 5 0) (mkPt 5 2)]) = 4 - 1.
Proof.
  assert (Hr : randomRun 0 4 4 [1%Q; 0%Q] [mkPt 5 0; mkPt 3 1; mkPt 5 2; mkPt 1 4]
    = Ok ([mkSeg (mkPt 1 4) (mkPt 5 0); mkSeg (mkPt 5 0) (mkPt 5 2)],
          [mkPt 1 4; mkPt 5 2; mkPt 3 1; mkPt 5 0])) by (vm_compute; reflexivity).
  split; [exact Hr|]. apply (randomRun_short_path 0 4 4 [1%Q; 0%Q] _ _ _ ltac:(lia) ltac:(simpl; lia) Hr).
Defined.
