(* ===== verification/Trials.v ===== *)
(** * Solver.py's [bunchOfTrials]

    [bunchOfTrials(n, numPoints)] (src/Solver.py, lines 266-290) draws
    [n] point sets of [numPoints] points ([generatePoints], each sorted
    highest first) and gives each its own memo [solvedSets[i] = {}].
    For every pattern of [numPoints - 1] characters it runs
    [pathStringBulkNoWrite] on every point set with that set's memo,
    which [pathString] fills in place, so that [solvedSets[i]] carries
    the entries of the earlier patterns into the later ones.  It
    collects the numbers of solutions in [arr] and writes the line
    [string, min(arr)] to the global file [f].  When a point set has no
    solution it opens a window and reaches [display(pointSet[i], ...)],
    a name the function never binds: [NameError].

    The model keeps the memos as a list updated at index [i] (the
    dictionary [solved] that [pathStringBulkNoWrite] returns is the
    object [solvedSets[i]]), the file as the list of lines written, and
    the random draws as an input, one list of candidates per set.

    - [bunchOfTrials_refines]: on sets of [numPoints] points, with a
      recursion depth of at least [numPoints - 1], [bunchOfTrials]
      computes [trials_spec], the same lines from the reference
      [solutions] without any memo: the memo shared across patterns
      never serves a stale entry, and the run raises [NameError] at the
      first pattern a point set has no path for.  The lines written
      before an exception are not kept by the model. *)

From S2P Require Import Prelude Geometry SolverGeometry PathString Memo DPSolver DPSpec DPRefine Drivers Screen Batch Generator.
From stdpp Require Import base list gmap.
From Stdlib Require Import ZArith Lia.

Open Scope nat_scope.
Open Scope py_scope.

(** [min(arr)]: [ValueError] on an empty list. *)
Definition py_min (l : list nat) : res nat :=
  match l with
  | [] => Raise ValueError
  | c :: l' => Ok (foldl Nat.min c l')
  end.

Abbreviation memo := (gmap pstring (list path)).

Section Trials.
Context (epsilon : Z).

(** [LineSegment.intersect] and [contains] with tolerance [epsilon]. *)
#[local] Instance trials_segments : SegmentTest := solver_segments epsilon.

(** [for i in range(n): points = generatePoints(1000, 1000, numPoints);
    points.sort(key=lambda p: -1*p.y)], one list of draws per set. *)
Definition trial_sets (n numPoints : nat) (draws : list (list Pt)) : list (list Pt) :=
  map (fun d => sort_by_neg_y (Solver.generatePoints epsilon numPoints d)) (take n draws).

(** The body of the inner loop [for i in range(len(pointSets))], on
    the memos [solvedSets] and the counts [arr]. *)
Definition trials_body (fuel : nat) (pointSets : list (list Pt)) (string : pstring) (i : nat)
    : St (list memo * list nat) unit :=
  st <- st_get ;;
  points <- st_lift (py_get pointSets i) ;;
  m <- st_lift (py_get st.1 i) ;;
  r <- st_lift (pathStringBulkNoWrite fuel points string m) ;;
  sols <- st_lift (match r.1 !! string with Some v => Ok v | None => Raise KeyError end) ;;
  u <- st_put (<[i := r.2]> st.1, st.2 ++ [length sols]) ;;
  if length sols =? 0 then st_raise NameError else st_ret tt.

(** One pattern of the outer loop: [arr = []], the inner loop, and the
    line [string, min(arr)]. *)
Definition trials_step (fuel numPoints : nat) (pointSets : list (list Pt))
    (out : list (pstring * nat)) (i : nat) : St (list memo * list nat) (list (pstring * nat)) :=
  let string := pattern_of numPoints i in
  u <- st_modify (fun st => (st.1, [])) ;;
  u <- st_for (seq 0 (length pointSets)) (trials_body fuel pointSets string) ;;
  st <- st_get ;;
  c <- st_lift (py_min st.2) ;;
  st_ret (out ++ [(string, c)]).

(** [bunchOfTrials(n, numPoints)]: the lines written to [f]. *)
Definition bunchOfTrials (fuel n numPoints : nat) (draws : list (list Pt))
    : res (list (pstring * nat)) :=
  let pointSets := trial_sets n numPoints draws in
  r <-? st_fold (pattern_range numPoints) [] (trials_step fuel numPoints pointSets)
          (replicate (length pointSets) ∅, []) ;;
  Ok r.1.

(** ** The reference: the same lines from [solutions] *)

(** The line for one pattern: [NameError] if a set has no path,
    otherwise the least number of paths. *)
Definition trial_line (pointSets : list (list Pt)) (string : pstring) : res nat :=
  let counts := map (fun P => length (solutions loop_range P string)) pointSets in
  if existsb (fun c => c =? 0) counts then Raise NameError else py_min counts.

Fixpoint trials_ref (pointSets : list (list Pt)) (numPoints : nat) (indices : list nat)
    : res (list (pstring * nat)) :=
  match indices with
  | [] => Ok []
  | i :: indices' =>
    let string := pattern_of numPoints i in
    c <-? trial_line pointSets string ;;
    rest <-? trials_ref pointSets numPoints indices' ;;
    Ok ((string, c) :: rest)
  end.

Definition trials_spec (n numPoints : nat) (draws : list (list Pt)) : res (list (pstring * nat)) :=
  trials_ref (trial_sets n numPoints draws) numPoints (pattern_range numPoints).

(** ** The shared memos stay final *)

(** Every memo [solvedSets[i]] holds only final entries for its set. *)
Definition memos_final (pointSets : list (list Pt)) (ms : list memo) : Prop :=
  length ms = length pointSets /\
  forall i P m, pointSets !! i = Some P -> ms !! i = Some m -> memo_all (dspec P loop_range) m.

Lemma memos_final_init pointSets : memos_final pointSets (replicate (length pointSets) ∅).
Proof.
  split; [apply length_replicate|]. intros i P m _ Hm k v Hk.
  apply lookup_replicate in Hm as [-> _]. by rewrite lookup_empty in Hk.
Qed.

Lemma memos_final_insert pointSets ms i P m :
  memos_final pointSets ms -> pointSets !! i = Some P -> memo_all (dspec P loop_range) m ->
  memos_final pointSets (<[i:=m]> ms).
Proof.
  intros [Hlen Hall] HP Hm. split; [by rewrite length_insert|]. intros j P' m' HP' Hm'.
  destruct (decide (i = j)) as [<-|Hne].
  - rewrite list_lookup_insert_eq in Hm' by (apply lookup_lt_Some in HP; lia). simplify_eq. exact Hm.
  - rewrite list_lookup_insert_ne in Hm' by done. by apply (Hall j P' m').
Qed.

(** [pathStringBulkNoWrite(points, string, solved)] on a memo of final
    entries: the memo it returns is the one it filled, still final, with
    the reference solutions under [string]. *)
Lemma bulk_all fuel P s m :
  1 <= length s <= fuel -> length P = S (length s) -> memo_all (dspec P loop_range) m ->
  exists m', pathStringBulkNoWrite fuel P s m = Ok (m', m')
             /\ memo_all (dspec P loop_range) m' /\ m' !! s = Some (solutions loop_range P s).
Proof.
  intros Hf HP Hm.
  destruct (pathString_contract P fuel s m) as (m' & Hr & Hpost);
    [done|lia|by apply memo_all_below|].
  rewrite take_ge in Hr by lia. exists m'. split_and!.
  - unfold pathStringBulkNoWrite. st_step Hr. apply st_get_Ok.
  - by apply (memo_post_all _ s m).
  - destruct Hpost as (_ & Hk & _). rewrite Hk, dspec_full by done. done.
Qed.

(** The numbers of solutions of the sets at [indices]. *)
Definition counts_at (pointSets : list (list Pt)) (string : pstring) (indices : list nat) : list nat :=
  map (fun i => length (solutions loop_range (pointSets !!! i) string)) indices.

Lemma counts_at_all pointSets string :
  counts_at pointSets string (seq 0 (length pointSets))
  = map (fun P => length (solutions loop_range P string)) pointSets.
Proof.
  apply list_eq. intros j. unfold counts_at. rewrite !list_lookup_fmap.
  destruct (decide (j < length pointSets)) as [Hj|Hj].
  - rewrite lookup_seq_lt by done. simpl.
    destruct (lookup_lt_is_Some_2 pointSets j Hj) as [P HP].
    by rewrite HP, (list_lookup_total_correct pointSets j P HP).
  - rewrite lookup_seq_ge, lookup_ge_None_2 by lia. done.
Qed.

Lemma res_map_app_nil {A} (r : res (list A)) : res_map (app []) r = r.
Proof. by destruct r. Qed.

(** One iteration of the inner loop on a memo of final entries. *)
Lemma trials_body_run fuel pointSets s i ms arr P :
  1 <= length s <= fuel -> pointSets !! i = Some P -> length P = S (length s) ->
  memos_final pointSets ms ->
  exists ms', memos_final pointSets ms' /\
    trials_body fuel pointSets s i (ms, arr)
    = let c := length (solutions loop_range P s) in
      if c =? 0 then Raise NameError else Ok (tt, (ms', arr ++ [c])).
Proof.
  intros Hf HP HlenP Hms. pose proof Hms as [Hlen Hall].
  destruct (lookup_lt_is_Some_2 ms i) as [m Hm]; [rewrite Hlen; by eapply lookup_lt_Some|].
  destruct (bulk_all fuel P s m) as (m' & Hb & Hm' & Hk); [done|done|by apply (Hall i)|].
  exists (<[i:=m']> ms). split; [by apply (memos_final_insert _ _ _ P)|].
  unfold trials_body. st_run @st_get_Ok. rewrite (proj2 (py_get_Ok _ _ _) HP). st_run @st_lift_Ok.
  simpl fst. rewrite (proj2 (py_get_Ok _ _ _) Hm). st_run @st_lift_Ok.
  rewrite Hb. st_run @st_lift_Ok. simpl. rewrite Hk. st_run @st_lift_Ok. st_run @st_put_Ok.
  by destruct (length _ =? 0).
Qed.

(** The inner loop raises [NameError] at the first set without a path,
    and otherwise appends every count to [arr], keeping the memos final. *)
Lemma trials_inner_run fuel pointSets s indices ms arr :
  1 <= length s <= fuel -> Forall (fun P => length P = S (length s)) pointSets ->
  (forall i, i ∈ indices -> i < length pointSets) -> memos_final pointSets ms ->
  match st_for indices (trials_body fuel pointSets s) (ms, arr) with
  | Ok (_, (ms', arr')) => memos_final pointSets ms' /\ arr' = arr ++ counts_at pointSets s indices
                           /\ existsb (fun c => c =? 0) (counts_at pointSets s indices) = false
  | Raise e => e = NameError /\ existsb (fun c => c =? 0) (counts_at pointSets s indices) = true
  end.
Proof.
  intros Hf HP. revert ms arr. induction indices as [|i indices IH]; intros ms arr Hi Hms.
  { simpl. by rewrite app_nil_r. }
  destruct (lookup_lt_is_Some_2 pointSets i) as [P HPi]; [apply Hi; by left|].
  destruct (trials_body_run fuel pointSets s i ms arr P) as (ms' & Hms' & Hb);
    [done|done|exact (Forall_lookup_1 _ _ _ _ HP HPi)|done|].
  cbn [st_for]. unfold st_bind at 1. rewrite Hb. unfold counts_at. cbn [map existsb].
  rewrite (list_lookup_total_correct _ _ _ HPi).
  destruct (length (solutions loop_range P s) =? 0) eqn:E; [done|]. cbn zeta iota.
  specialize (IH ms' (arr ++ [length (solutions loop_range P s)])
                (fun j Hj => Hi j (proj2 (elem_of_cons _ _ _) (or_intror Hj))) Hms').
  unfold counts_at in IH.
  destruct (st_for indices _ _) as [[u [ms'' arr'']]|e]; [|done].
  destruct IH as (? & -> & ?). by rewrite <- app_assoc.
Qed.

(** One pattern of the outer loop writes the reference line, or raises
    what the reference raises. *)
Lemma trials_step_run fuel numPoints pointSets out i ms arr :
  2 <= numPoints -> numPoints - 1 <= fuel -> Forall (fun P => length P = numPoints) pointSets ->
  i < 2 ^ (numPoints - 1) -> memos_final pointSets ms ->
  match trials_step fuel numPoints pointSets out i (ms, arr) with
  | Ok (out', (ms', _)) => memos_final pointSets ms' /\
      exists c, trial_line pointSets (pattern_of numPoints i) = Ok c
                /\ out' = out ++ [(pattern_of numPoints i, c)]
  | Raise e => trial_line pointSets (pattern_of numPoints i) = Raise e
  end.
Proof.
  intros Hn Hf HP Hi Hms. pose proof (length_pattern_of numPoints i Hn Hi) as Hs.
  unfold trials_step. st_run @st_modify_Ok. simpl fst.
  pose proof (trials_inner_run fuel pointSets (pattern_of numPoints i) (seq 0 (length pointSets)) ms [])
    as Hin.
  unfold trial_line. rewrite <- counts_at_all.
  unfold st_bind at 1. destruct (st_for _ _ _) as [[u [ms' arr']]|e].
  - destruct Hin as (Hms' & -> & ->); [lia|by eapply Forall_impl; [exact HP|]; simpl; lia
                                       |intros j Hj%elem_of_seq; lia|done|].
    st_run @st_get_Ok. simpl snd. destruct (py_min _) as [c|e]; [|done].
    split; [done|]. by exists c.
  - destruct Hin as [-> ->]; [lia|by eapply Forall_impl; [exact HP|]; simpl; lia
                              |intros j Hj%elem_of_seq; lia|done|done].
Qed.

Lemma trials_fold_run fuel numPoints pointSets indices out ms arr :
  2 <= numPoints -> numPoints - 1 <= fuel -> Forall (fun P => length P = numPoints) pointSets ->
  (forall i, i ∈ indices -> i < 2 ^ (numPoints - 1)) -> memos_final pointSets ms ->
  res_map fst (st_fold indices out (trials_step fuel numPoints pointSets) (ms, arr))
  = res_map (app out) (trials_ref pointSets numPoints indices).
Proof.
  intros Hn Hf HP. revert out ms arr. induction indices as [|i indices IH]; intros out ms arr Hi Hms.
  { simpl. by rewrite app_nil_r. }
  cbn [st_fold trials_ref]. unfold st_bind at 1.
  pose proof (trials_step_run fuel numPoints pointSets out i ms arr Hn Hf HP
                (Hi i (list_elem_of_here _ _)) Hms) as Hstep.
  destruct (trials_step _ _ _ _ _ _) as [[out' [ms' arr']]|e].
  - destruct Hstep as (Hms' & c & -> & ->). simpl.
    rewrite (IH _ ms' arr'); [|intros j Hj; apply Hi; by right|done].
    destruct (trials_ref _ _ _); simpl; [by rewrite <- app_assoc|done].
  - by rewrite Hstep.
Qed.

(** C28. [bunchOfTrials(n, numPoints)] of Solver.py, on sets of
    [numPoints >= 2] points and with a recursion depth of at least
    [numPoints - 1], writes for every pattern the least number of
    reference solutions over the point sets, and raises [NameError] at
    the first pattern some set has no path for: each set's memo, shared
    by all the patterns and filled in place, never serves a stale
    entry. *)
Theorem bunchOfTrials_refines fuel n numPoints draws :
  2 <= numPoints -> numPoints - 1 <= fuel ->
  Forall (fun P => length P = numPoints) (trial_sets n numPoints draws) ->
  bunchOfTrials fuel n numPoints draws = trials_spec n numPoints draws.
Proof.
  intros Hn Hf HP. unfold bunchOfTrials, trials_spec.
  set (Ps := trial_sets n numPoints draws) in *.
  pose proof (trials_fold_run fuel numPoints Ps (pattern_range numPoints) []
                (replicate (length Ps) ∅) [] Hn Hf HP) as Hrun.
  unfold pattern_range in *. destruct numPoints as [|numPoints]; [lia|].
  rewrite <- (res_map_app_nil (trials_ref _ _ _)), <- Hrun; [|intros j Hj%elem_of_seq; lia|apply memos_final_init].
  by destruct (st_fold _ _ _ _).
Qed.
End Trials.

(** The draws (3,5), (6,7), (4,4), (2,6), (5,3) all pass Solver.py's
    [generatePoints]: four of them lie on the line [x + y = 8], each
    outside the x-range of the segments before it.  The pattern "UUDD"
    has no path through them, so [bunchOfTrials] reaches
    [display(pointSet[i], ...)] and raises [NameError]. *)
Lemma bunchOfTrials_refines_witness :
  bunchOfTrials 0 4 1 5 [[mkPt 3 5; mkPt 6 7; mkPt 4 4; mkPt 2 6; mkPt 5 3]] = Raise NameError.
Proof.
  rewrite (bunchOfTrials_refines 0 4 1 5 [[mkPt 3 5; mkPt 6 7; mkPt 4 4; mkPt 2 6; mkPt 5 3]]
             ltac:(lia) ltac:(lia) ltac:(vm_compute; repeat constructor)).
  vm_compute. reflexivity.
Defined.
