(* ===== verification/Convex.v ===== *)
(** * Points on a circle: [generateConvexPoints]

    [generateConvexPoints(n, r)] of src/CleanSolution.py (lines 411-423)
    draws angles [theta = random.uniform(-math.pi, math.pi)] and keeps
    the point [(r cos theta, r sin theta)] when neither [theta] nor
    [-theta] is among the angles kept so far, until [n] points are kept.
    Its comment says the test makes sure that "two points don't have the
    same y coordinate".

    The coordinates are the reals of the Standard Library, with its
    [sin], [cos] and [PI]; the floats of the source round them, which is
    not modelled.  The draws are the input list [draws]; the loop stops
    when [n] points are kept or the list ends (Python draws again).

    - [generateConvexPoints_invariant]: the kept angles are draws, any
      two of them differ and are not opposite, and the points are those
      of the kept angles, on the circle of radius [r].
    - [generateConvexPoints_same_height]: the test does not do what its
      comment says: [theta] and [PI - theta] pass it and give two points
      of the same height.

    Both hold of the exact reals only: in floating point, [PI - theta]
    is rounded and [r * math.sin] of the two angles may differ in the
    last bit, and a point need not lie exactly on the circle.  They are
    statements about the idealised computation, not about the float
    results of line 421. *)

From S2P Require Import Prelude.
From stdpp Require Import base list.
From Stdlib Require Import Reals Rtrigo_facts Lra.

Open Scope R_scope.

(** A point of [Pt(r*math.cos(theta), r*math.sin(theta))]. *)
Record CPt := mkCPt { cx : R; cy : R }.

(** [theta in thetas], with the equality of reals. *)
Definition R_mem (theta : R) (thetas : list R) : bool :=
  existsb (fun t => if Req_dec_T theta t then true else false) thetas.

(** The [while len(points) < n] loop over the draws, with the kept
    angles [thetas] and points [points]. *)
Fixpoint convex_loop (n : nat) (r : R) (draws : list R) (thetas : list R) (points : list CPt)
    : list CPt :=
  match draws with
  | [] => points
  | theta :: draws' =>
      if (length points <? n)%nat then
        if negb (R_mem theta thetas) && negb (R_mem (- theta) thetas)
        then convex_loop n r draws' (thetas ++ [theta])
               (points ++ [mkCPt (r * cos theta) (r * sin theta)])
        else convex_loop n r draws' thetas points
      else points
  end.

(** [generateConvexPoints(n, r)]. *)
Definition generateConvexPoints (n : nat) (r : R) (draws : list R) : list CPt :=
  convex_loop n r draws [] [].

(** The point of an angle. *)
Definition on_circle (r theta : R) : CPt := mkCPt (r * cos theta) (r * sin theta).

Lemma R_mem_spec theta thetas : R_mem theta thetas = true <-> theta ∈ thetas.
Proof.
  unfold R_mem. rewrite existsb_exists, list_elem_of_In. split.
  - intros (t & Ht & E). by destruct (Req_dec_T theta t) as [->|].
  - intros H. exists theta. split; [done|]. by destruct (Req_dec_T theta theta).
Qed.

(** Any two kept angles differ and are not opposite. *)
Definition angles_apart (thetas : list R) : Prop :=
  forall i j a b, i <> j -> thetas !! i = Some a -> thetas !! j = Some b -> a <> b /\ a <> - b.

Lemma angles_apart_snoc thetas theta :
  angles_apart thetas -> theta ∉ thetas -> - theta ∉ thetas -> angles_apart (thetas ++ [theta]).
Proof.
  intros Hap Hn Hm i j a b Hij Ha Hb.
  apply lookup_snoc_Some in Ha as [[_ Ha]|[-> <-]];
    apply lookup_snoc_Some in Hb as [[_ Hb]|[-> <-]].
  - by apply (Hap i j).
  - apply list_elem_of_lookup_2 in Ha.
    split; intros ->; [by apply Hn|by apply Hm].
  - apply list_elem_of_lookup_2 in Hb.
    split; intros E; [subst; by apply Hn|apply Hm; by rewrite E, Ropp_involutive].
  - lia.
Qed.

(** The loop keeps its invariant: the points are those of the kept
    angles, which are a sublist of the draws, apart, and at most [n]. *)
Lemma convex_loop_inv n r draws thetas points :
  points = map (on_circle r) thetas -> angles_apart thetas -> (length thetas <= n)%nat ->
  exists kept, convex_loop n r draws thetas points = map (on_circle r) (thetas ++ kept)
    /\ kept `sublist_of` draws /\ angles_apart (thetas ++ kept) /\ (length (thetas ++ kept) <= n)%nat.
Proof.
  revert thetas points. induction draws as [|theta draws IH]; intros thetas points -> Hap Hn.
  { exists []. rewrite app_nil_r. split_and!; [done|constructor|done|done]. }
  cbn [convex_loop]. rewrite length_map.
  destruct (Nat.ltb_spec (length thetas) n) as [Hlt|Hge].
  2:{ exists []. rewrite app_nil_r. split_and!; [done|apply sublist_nil_l|done|done]. }
  destruct (R_mem theta thetas) eqn:E1, (R_mem (- theta) thetas) eqn:E2; simpl;
    try (destruct (IH thetas (map (on_circle r) thetas)) as (kept & Hr & Hs & Ha & Hl);
         [done|done|lia|]; exists kept; split_and!; [done|by apply sublist_cons|done|done]).
  destruct (IH (thetas ++ [theta]) (map (on_circle r) thetas ++ [on_circle r theta]))
    as (kept & Hr & Hs & Ha & Hl).
  - by rewrite map_app.
  - apply angles_apart_snoc; [done|intros H%R_mem_spec; congruence|intros H%R_mem_spec; congruence].
  - rewrite length_app. simpl. lia.
  - exists (theta :: kept). rewrite <- (app_assoc thetas [theta] kept) in *.
    split_and!; [done|by apply sublist_skip|done|done].
Qed.

Lemma on_circle_radius r theta : cx (on_circle r theta) ^ 2 + cy (on_circle r theta) ^ 2 = r ^ 2.
Proof.
  cbn [cx cy on_circle]. pose proof (sin2_cos2 theta) as H. unfold Rsqr in H.
  replace ((r * cos theta) ^ 2 + (r * sin theta) ^ 2)
    with (r ^ 2 * (sin theta * sin theta + cos theta * cos theta)) by ring.
  rewrite H. ring.
Qed.

(** In exact real arithmetic, [generateConvexPoints(n, r)] returns at
    most [n] points on the circle of radius [r] around the origin, those of angles it drew in
    the order drawn, any two of which differ and are not opposite. *)
Theorem generateConvexPoints_invariant n r draws :
  exists thetas, generateConvexPoints n r draws = map (on_circle r) thetas
    /\ thetas `sublist_of` draws /\ angles_apart thetas /\ (length thetas <= n)%nat
    /\ forall p, p ∈ generateConvexPoints n r draws -> cx p ^ 2 + cy p ^ 2 = r ^ 2.
Proof.
  destruct (convex_loop_inv n r draws [] []) as (kept & Hr & Hs & Ha & Hl);
    [done|intros i j a b _ Hi; by rewrite lookup_nil in Hi|simpl; lia|].
  exists kept. unfold generateConvexPoints. rewrite Hr. simpl in *. split_and!; [done..|].
  intros p (theta & -> & _)%list_elem_of_fmap. apply on_circle_radius.
Qed.

(** In exact real arithmetic, the test of [generateConvexPoints] does
    not keep the heights apart, against its comment: for [0 < theta < PI/2], the draws
    [theta] and [PI - theta] are both kept, and give two different
    points of the same height [r sin theta]. *)
Theorem generateConvexPoints_same_height r theta :
  0 < theta < PI / 2 -> r <> 0 ->
  generateConvexPoints 2 r [theta; PI - theta] = [on_circle r theta; on_circle r (PI - theta)]
  /\ cy (on_circle r theta) = cy (on_circle r (PI - theta))
  /\ on_circle r theta <> on_circle r (PI - theta).
Proof.
  intros Ht Hr. pose proof PI_RGT_0.
  split_and!.
  - unfold generateConvexPoints. cbn.
    destruct (Req_dec_T (PI - theta) theta); [lra|].
    destruct (Req_dec_T (- (PI - theta)) theta); [lra|]. done.
  - simpl. by rewrite sin_PI_x.
  - intros [= Hx _]. rewrite cos_pi_minus in Hx.
    assert (0 < cos theta) by (apply cos_gt_0; lra). nra.
Qed.

Lemma generateConvexPoints_same_height_witness :
  generateConvexPoints 2 100 [PI / 6; PI - PI / 6] = [on_circle 100 (PI / 6); on_circle 100 (PI - PI / 6)]
  /\ cy (on_circle 100 (PI / 6)) = cy (on_circle 100 (PI - PI / 6))
  /\ on_circle 100 (PI / 6) <> on_circle 100 (PI - PI / 6).
Proof.
  pose proof PI_RGT_0. apply generateConvexPoints_same_height; [split; lra|lra].
Defined.
