(* ===== verification/ScreenSaver.v ===== *)
(** * Solver.py's [screenSaver]

    [screenSaver()] (src/Solver.py, lines 292-334) repeats, 100000
    times: draw 10 points ([generatePoints(1770, 950, 10)]), sort them
    highest first, draw a pattern ([randomPathString(10)], 9
    characters), solve it on a fresh memo ([pathStringBulkNoWrite]),
    and replace what the window shows: a red circle at every point, a
    blue arrow for every edge of every solution, the pattern as a
    caption.  An [except IndexError] around the drawing opens another
    window with the bare points and waits for input.

    The window is the [scene] the loop leaves; the graphics calls, the
    colours and [time.sleep] are not modelled.  The random draws are
    inputs, one pair of candidate points and pattern draws per
    iteration.  The loop is a function ([screenSaver]) and the
    window's scenes form a transition system ([screen_step]), whose
    steps are the iterations on the draws Python would make: enough
    candidates for 10 points and 9 pattern draws.

    - [screen_reachable]: every scene the window can show is blank or
      shows 10 points, a pattern of 9 characters and exactly the edges
      of the solver's paths, each valid for the pattern in screen
      coordinates when the heights are distinct.
    - [screenSaver_runs]: with a recursion depth of at least 9, the loop
      runs through all its draws and every scene it shows is reachable.
      The [try] block as modelled, [x[string]] and the new scene, can
      only raise [KeyError], which the memo rules out, so the model never
      takes the [except IndexError] branch; that the graphics calls of
      lines 305-329 raise no [IndexError] either is an assumption of the
      model, not a theorem.  A pattern without a path shows the points
      with no arrow. *)

From S2P Require Import Prelude Geometry SolverGeometry PathString Memo DPSolver DPSpec DPRefine Depth Drivers Screen Generator.
From stdpp Require Import base list gmap relations sorting.
From Stdlib Require Import ZArith QArith Lia.

Open Scope nat_scope.
Open Scope py_scope.

(** What the window shows after an iteration of the [try] block:
    [graphPoints], [graphLines] and [text]. *)
Record scene := mkScene {
  circles : list Pt;         (** [Circle(Point(p.x,p.y), 7)] for [p in points] *)
  arrows : list (Pt * Pt);   (** [Line(l.pt1, l.pt2)] for every edge [l] *)
  caption : pstring          (** [Text(Point(1770,20), string)] *)
}.

(** [graphPoints = []], [graphLines = []], [text = Text(Point(0,0), "")]. *)
Definition blank_scene : scene := mkScene [] [] [].

(** [for lines in linesSet: for l in lines: graphLines.append(Line(l.pt1, l.pt2))]. *)
Definition edges (linesSet : list path) : list (Pt * Pt) :=
  concat (map (map (fun l => (pt1 l, pt2 l))) linesSet).

(** [display(points, lines, win)] of Solver.py (lines 104-108): a
    circle at every point and an arrow for every segment. *)
Definition display (points : list Pt) (lines : list LineSegment) : scene :=
  mkScene points (map (fun l => (pt1 l, pt2 l)) lines) [].

(** An iteration either shows a scene, or runs the [except IndexError]
    branch, which shows [display(points, [], win)] in a new window and
    waits for input. *)
Inductive frame :=
| Shown (sc : scene)
| Stalled (win : scene).

Section ScreenSaver.
Context (epsilon : Z).

(** [LineSegment.intersect] and [contains] with tolerance [epsilon]. *)
#[local] Instance saver_segments : SegmentTest := solver_segments epsilon.

(** The [try] block: [linesSet = x[string]] and the new scene. *)
Definition try_block (points : list Pt) (string : pstring) (x : gmap pstring (list path)) : res scene :=
  linesSet <-? (match x !! string with Some v => Ok v | None => Raise KeyError end) ;;
  Ok (mkScene points (edges linesSet) string).

(** One iteration of [for i in range(100000)]. *)
Definition screen_frame (fuel : nat) (pdraws : list Pt) (rdraws : list Q) : res frame :=
  let points := sort_by_neg_y (Solver.generatePoints epsilon 10 pdraws) in
  let string := Solver.randomPathString 10 rdraws in
  r <-? pathStringBulkNoWrite fuel points string ∅ ;;
  match try_block points string r.1 with
  | Ok sc => Ok (Shown sc)
  | Raise IndexError => Ok (Stalled (display points []))
  | Raise e => Raise e
  end.

Fixpoint screen_loop (fuel : nat) (draws : list (list Pt * list Q)) : res (list frame) :=
  match draws with
  | [] => Ok []
  | (pd, rd) :: draws' =>
    f <-? screen_frame fuel pd rd ;;
    fs <-? screen_loop fuel draws' ;;
    Ok (f :: fs)
  end.

(** [screenSaver()]: the frames of its 100000 iterations. *)
Definition screenSaver (fuel : nat) (draws : list (list Pt * list Q)) : res (list frame) :=
  screen_loop fuel (take 100000 draws).

(** The draws of an iteration as Python makes them: [generatePoints]
    keeps 10 points and [randomPathString(10)] has its 9 draws. *)
Definition full_draws (d : list Pt * list Q) : Prop :=
  length (Solver.generatePoints epsilon 10 d.1) = 10 /\ 9 <= length d.2.

(** The window's transitions: an iteration on full draws replaces the
    scene, whatever it was, by the one it shows. *)
Inductive screen_step (fuel : nat) : scene -> scene -> Prop :=
| screen_show sc d sc' :
    full_draws d -> screen_frame fuel d.1 d.2 = Ok (Shown sc') -> screen_step fuel sc sc'.

(** ** What an iteration shows *)

(** The [try] block only raises [KeyError]. *)
Lemma try_block_no_IndexError points string x : try_block points string x <> Raise IndexError.
Proof. unfold try_block. by destruct (x !! string). Qed.

(** An iteration never runs the [except IndexError] branch. *)
Lemma screen_frame_not_stalled fuel pd rd win : screen_frame fuel pd rd <> Ok (Stalled win).
Proof.
  unfold screen_frame. destruct (pathStringBulkNoWrite _ _ _ _) as [r|]; [simpl|done].
  pose proof (try_block_no_IndexError (sort_by_neg_y (Solver.generatePoints epsilon 10 pd))
                (Solver.randomPathString 10 rd) r.1).
  destruct (try_block _ _ _) as [sc|[]]; done.
Qed.

(** The scene of the solver's paths on [points] and [string]. *)
Definition solved_scene (points : list Pt) (string : pstring) : scene :=
  mkScene points (edges (solutions loop_range points string)) string.

(** On full draws an iteration shows the scene of the solver's paths
    when the depth is at least 9, and raises [RecursionError] otherwise. *)
Lemma screen_frame_run fuel pd rd :
  full_draws (pd, rd) ->
  screen_frame fuel pd rd
  = if decide (9 <= fuel)
    then Ok (Shown (solved_scene (sort_by_neg_y (Solver.generatePoints epsilon 10 pd))
                                 (Solver.randomPathString 10 rd)))
    else Raise RecursionError.
Proof.
  intros [Hp Hr]. simpl in Hp, Hr. set (P := sort_by_neg_y (Solver.generatePoints epsilon 10 pd)).
  set (s := Solver.randomPathString 10 rd).
  assert (Hs : length s = 9) by (apply length_solver_randomPathString; simpl; lia).
  assert (HP : length P = S (length s)).
  { rewrite Hs. subst P. unfold sort_by_neg_y. by rewrite merge_sort_Permutation. }
  unfold screen_frame. fold P s. case_decide as Hf.
  - destruct (bulk_run fuel P s) as (m' & Hb & Hk); [lia|done|].
    rewrite Hb. simpl. unfold try_block. by rewrite Hk.
  - unfold pathStringBulkNoWrite. rewrite (st_bind_Raise _ _ _ RecursionError); [done|].
    apply pathString_deep; [lia|lia|]. intros k _. apply lookup_empty.
Qed.

Lemma screen_step_scene fuel sc sc' :
  screen_step fuel sc sc' ->
  exists pd rd, full_draws (pd, rd) /\
    sc' = solved_scene (sort_by_neg_y (Solver.generatePoints epsilon 10 pd)) (Solver.randomPathString 10 rd).
Proof.
  intros [? [pd rd] ? Hd Hf]. exists pd, rd. split; [done|].
  simpl in Hf. rewrite screen_frame_run in Hf by done. case_decide; congruence.
Qed.

(** The iterations of a run, in order, are transitions of the window. *)
Fixpoint trace_from (R : scene -> scene -> Prop) (sc : scene) (l : list scene) : Prop :=
  match l with
  | [] => True
  | sc' :: l' => R sc sc' /\ trace_from R sc' l'
  end.

Lemma screen_loop_shown fuel draws fs :
  screen_loop fuel draws = Ok fs -> Forall (fun f => exists sc, f = Shown sc) fs.
Proof.
  revert fs. induction draws as [|[pd rd] draws IH]; intros fs Hr; simpl in Hr; [by injection Hr as <-|].
  destruct (screen_frame fuel pd rd) as [f|] eqn:Hf; [simpl in Hr|done].
  destruct (screen_loop fuel draws) as [fs'|]; [simpl in Hr|done]. injection Hr as <-.
  constructor; [|by apply IH]. destruct f as [sc|pts]; [by exists sc|].
  by apply screen_frame_not_stalled in Hf.
Qed.

Lemma screen_loop_run fuel draws sc0 :
  9 <= fuel -> Forall full_draws draws ->
  exists scs, screen_loop fuel draws = Ok (map Shown scs) /\ length scs = length draws
              /\ trace_from (screen_step fuel) sc0 scs.
Proof.
  intros Hf. revert sc0. induction draws as [|[pd rd] draws IH]; intros sc0 Hd; [by exists []|].
  apply Forall_cons in Hd as [Hd Hds].
  pose proof (screen_frame_run fuel pd rd Hd) as Hr. rewrite decide_True in Hr by done.
  set (sc := solved_scene _ _) in Hr.
  destruct (IH sc Hds) as (scs & Hl & Hlen & Htr).
  exists (sc :: scs). simpl. rewrite Hr, Hl.
  split_and!; [done|by rewrite Hlen|by apply (screen_show _ _ (pd, rd))|done].
Qed.

(** C30. Every scene the window of [screenSaver()] can reach from the
    blank window is blank, or shows 10 points sorted highest first, a
    pattern of 9 characters as caption, and as arrows exactly the edges
    of the solver's paths; when the 10 heights are distinct each of those
    paths is valid for the pattern in screen coordinates. *)
Theorem screen_reachable fuel sc :
  (0 <= epsilon)%Z -> rtc (screen_step fuel) blank_scene sc ->
  sc = blank_scene
  \/ (length (circles sc) = 10 /\ length (caption sc) = 9
      /\ arrows sc = edges (solutions loop_range (circles sc) (caption sc))
      /\ (NoDup (map y (circles sc)) ->
          forall p, p ∈ solutions loop_range (circles sc) (caption sc) ->
          valid_path (map mirror (circles sc)) (caption sc) (map (smap mirror) p))).
Proof.
  intros Heps Hr. apply rtc_inv_r in Hr as [<-|(sc0 & _ & Hstep)]; [by left|right].
  apply screen_step_scene in Hstep as (pd & rd & [Hp Hd] & ->). simpl in *.
  set (G := Solver.generatePoints epsilon 10 pd) in *.
  assert (Hperm : sort_by_neg_y G ≡ₚ G) by apply merge_sort_Permutation.
  assert (Hs : length (Solver.randomPathString 10 rd) = 9) by (apply length_solver_randomPathString; lia).
  split_and!; [by rewrite Hperm|done|done|]. intros Hnd p Hin.
  apply (valid_path_perm (map mirror G)); [by apply Permutation_map|].
  apply (solutions_screen_valid epsilon G); [done|by rewrite Hs|by rewrite <- Hperm|done].
Qed.

(** C31. With a recursion depth of at least 9, [screenSaver()] on the
    draws Python makes runs its [min(100000, len(draws))] iterations
    without error, each one a transition of the window from the scene
    before it, starting from the blank window. *)
Theorem screenSaver_runs fuel draws :
  9 <= fuel -> Forall full_draws draws ->
  exists scs, screenSaver fuel draws = Ok (map Shown scs)
              /\ length scs = Nat.min 100000 (length draws)
              /\ trace_from (screen_step fuel) blank_scene scs.
Proof.
  intros Hf Hd. destruct (screen_loop_run fuel (take 100000 draws) blank_scene) as (scs & Hr & Hl & Ht);
    [done|by apply Forall_take|].
  exists scs. split_and!; [done|by rewrite Hl, length_take|done].
Qed.
End ScreenSaver.

(** Ten points on a parabola, no three collinear, and the pattern
    "UDUDUDUUD". *)
Definition parabola_draws : list Pt := map (fun k => mkPt (Z.of_nat k) (Z.of_nat (k * k))) (seq 0 10).
Definition pattern_draws : list Q := [1; 0; 1; 0; 1; 0; 1; 1; 0]%Q.

Lemma screen_reachable_witness :
  exists sc, rtc (screen_step 0 9) blank_scene sc /\ arrows sc <> []
    /\ (sc = blank_scene
        \/ (length (circles sc) = 10 /\ length (caption sc) = 9
            /\ arrows sc = edges (@solutions (solver_segments 0) loop_range (circles sc) (caption sc))
            /\ (NoDup (map y (circles sc)) ->
                forall p, p ∈ @solutions (solver_segments 0) loop_range (circles sc) (caption sc) ->
                @valid_path (solver_segments 0) (map mirror (circles sc)) (caption sc) (map (smap mirror) p)))).
Proof.
  destruct (screen_frame 0 9 parabola_draws pattern_draws) as [[sc|pts]|e] eqn:E; try (vm_compute in E; discriminate).
  assert (Hstep : screen_step 0 9 blank_scene sc).
  { apply (screen_show _ _ _ (parabola_draws, pattern_draws)); [vm_compute; split; [done|lia]|exact E]. }
  exists sc. split_and!; [by apply rtc_once| |apply (screen_reachable 0 9 sc); [lia|by apply rtc_once]].
  vm_compute in E. injection E as <-. discriminate.
Defined.

Lemma screenSaver_runs_witness :
  exists scs, screenSaver 0 9 [(parabola_draws, pattern_draws); (parabola_draws, [0; 0; 0; 0; 0; 0; 0; 0; 0]%Q)]
                = Ok (map Shown scs)
    /\ length scs = 2 /\ trace_from (screen_step 0 9) blank_scene scs.
Proof.
  destruct (screenSaver_runs 0 9 [(parabola_draws, pattern_draws); (parabola_draws, [0; 0; 0; 0; 0; 0; 0; 0; 0]%Q)])
    as (scs & Hr & Hl & Ht); [lia|repeat constructor; vm_compute; lia|].
  exists scs. split_and!; [done|by rewrite Hl|done].
Defined.
