(* ===== verification/Script.v ===== *)
(** * The script of CleanSolution.py: the cross-check

    The last two lines of src/CleanSolution.py (547-548) run when the
    module is loaded: they print [hullJumping(generatePoints(1000,1000,5),
    "UDUU")], the hull-based enumerator, and
    [pathStringDPWrapper(generatePoints(1000,1000,5), "UDUU")], the DP
    solver with its default [solved={}], still empty at this first call.
    The specification calls hull jumping the cross-check of the DP
    solver.

    [script] computes the two printed values (their text is in [Output]),
    and the two point sets are drawn from two lists of candidates, as
    the script draws twice.

    - [script_cross_check]: the two printed answers never share a path:
      no path of the DP solver visits its points in the order of a path
      of hull jumping, whatever the draws, since the DP paths follow the
      pattern and the hull-jumping paths take their last step against
      it. *)

From S2P Require Import Prelude Geometry PathString Memo DPSolver DPSpec DPRefine Drivers HullJump Generator.
From stdpp Require Import base list gmap.
From Stdlib Require Import ZArith Lia.

Open Scope nat_scope.
Open Scope py_scope.

(** The points of a path, in visiting order, follow its pattern. *)
Lemma profile_follows s p :
  s <> [] -> chained p -> Forall2 step_ok s p -> follows s (vertices p).
Proof.
  revert p. induction s as [|c s IH]; intros p Hs Hc Hp; [done|].
  destruct p as [|e p']; [by apply Forall2_nil_inv_r in Hp|]. apply Forall2_cons in Hp as [He Hp'].
  destruct s as [|c' s].
  { apply Forall2_nil_inv_l in Hp' as ->. simpl. split; [by destruct c|done]. }
  destruct p' as [|e' p'']; [by apply Forall2_nil_inv_r in Hp'|].
  change (step_dir c (pt1 e) (pt2 e) /\ follows (c' :: s) (pt2 e :: map pt2 (e' :: p''))).
  split; [by destruct c|].
  rewrite (Hc 0 e e') by done.
  apply (IH (e' :: p'')); [done| |done].
  intros k a b Ha Hb. by apply (Hc (S k)).
Qed.

Section Script.
Context (epsilon : Z).

(** [LineSegment.intersect] and [contains] with tolerance [epsilon]. *)
#[local] Instance script_segments : SegmentTest := python_segments epsilon.

(** Lines 547-548: what the two [print] calls print. *)
Definition script (walk fuel : nat) (draws1 draws2 : list Pt)
    : res (list (list Pt)) * res ((dp_ret * list Pt) * gmap pstring (list path)) :=
  (hullJumping walk (Clean.generatePoints epsilon 5 draws1) [U; D; U; U] None,
   pathStringDPWrapper fuel (Clean.generatePoints epsilon 5 draws2) [U; D; U; U] false ∅).

(** C32. The cross-check of CleanSolution.py's script never confirms a
    path: when the second draw gives 5 points and the recursion depth is
    at least 4, no path the DP solver stores for "UDUU" visits its points
    in the order of a path [hullJumping] returns for "UDUU". *)
Theorem script_cross_check walk fuel draws1 draws2 out r m' sols :
  4 <= fuel -> length (Clean.generatePoints epsilon 5 draws2) = 5 ->
  script walk fuel draws1 draws2 = (Ok out, Ok (r, m')) -> m' !! [U; D; U; U] = Some sols ->
  forall o p, o ∈ out -> p ∈ sols -> vertices p <> rev o.
Proof.
  intros Hf Hlen Hs Hk o p Ho Hp Heq. injection Hs as Hh Hw.
  set (P := Clean.generatePoints epsilon 5 draws2) in *.
  destruct (clean_generatePoints_inv epsilon 5 draws2) as (_ & Hnd & _). fold P in Hnd.
  destruct (wrapper_run fuel P [U; D; U; U] false) as (m0 & Hr & Hk0); [simpl; lia|done|].
  simpl in Hr, Hk0. rewrite Hw in Hr. injection Hr as _ <-. rewrite Hk in Hk0. injection Hk0 as ->.
  destruct (sort_by_y_spec P Hnd) as [Hinc Hperm].
  destruct (solutions_valid first_UD (sort_by_y P) [U; D; U; U] p) as [Hc _ Hprof _];
    [done|by rewrite Hperm|done|].
  apply (hullJumping_flipped walk _ _ _ out Hh o Ho). rewrite <- Heq.
  by apply profile_follows.
Qed.
End Script.

(** The points (5,0), (3,1), (5,2), (1,4), (3,6), drawn twice: hull
    jumping prints four paths and the DP solver three, and none of the
    DP paths visits its points in the order of a hull-jumping path. *)
Definition script_draws : list Pt := [mkPt 5 0; mkPt 3 1; mkPt 5 2; mkPt 1 4; mkPt 3 6].

Lemma script_cross_check_witness :
  exists out r m' sols, script 0 10 4 script_draws script_draws = (Ok out, Ok (r, m'))
    /\ m' !! [U; D; U; U] = Some sols /\ length out = 4 /\ length sols = 3
    /\ forall o p, o ∈ out -> p ∈ sols -> vertices p <> rev o.
Proof.
  destruct (script 0 10 4 script_draws script_draws) as [[out|e1] [[r m']|e2]] eqn:E;
    try (vm_compute in E; discriminate).
  pose proof E as E0. vm_compute in E0. injection E0 as Hout Hr Hm.
  destruct (m' !! [U; D; U; U]) as [sols|] eqn:Hk; [|rewrite <- Hm in Hk; vm_compute in Hk; discriminate].
  exists out, r, m', sols. split_and!; [done|done|by rewrite <- Hout| |].
  - rewrite <- Hm in Hk. vm_compute in Hk. injection Hk as <-. reflexivity.
  - apply (script_cross_check 0 10 4 script_draws script_draws out r m' sols); [lia|vm_compute; reflexivity|done|done].
Defined.
