(* ===== verification/Crashes.v ===== *)
(** * Two drivers that stop before their work

    - Solver.py's [generateAllPathStrings(start, stop)] (lines 249-264)
      calls [display(points, [], win)] at line 251, but [points] is a
      local variable of the function, first assigned at line 253:
      Python raises [UnboundLocalError], a [NameError].  The loop after
      it would, for every [j] in [range(start, stop + 1)], draw [j]
      points, sort them highest first and write, with one memo per
      point set, the line of [pathStringBulk] for every pattern
      ([bulk_lines_run]: the number of reference solutions).
    - CleanSolution.py's [bunchOfTrials(n, numPoints, filename)] (lines
      358-394) opens the file and raises [NameError] at line 365, which
      calls [hullJumpingRecursive(tempPoints, p, tempString)] on names
      the function never binds.  The loop after it would stop anyway at
      its first pattern "UU...U" with [TypeError]: [pathStringDPWrapper]
      returns [None] for a pattern without "UD", and the loop indexes the
      result ([clean_trials_TypeError]).

    Each driver is translated whole: the failing statement, then the
    statements it cuts off. *)

From S2P Require Import Prelude Geometry SolverGeometry PathString Memo Counting DPSolver DPSpec DPRefine Drivers Screen Batch Generator Trials.
From stdpp Require Import base list gmap sorting.
From Stdlib Require Import ZArith Lia.

Open Scope nat_scope.
Open Scope py_scope.

(** [max(arr)]: [ValueError] on an empty list. *)
Definition py_max (l : list nat) : res nat :=
  match l with
  | [] => Raise ValueError
  | c :: l' => Ok (foldl Nat.max c l')
  end.

Module SolverDriver.
Section Batch.
Context (epsilon : Z).
#[local] Instance batch_segments : SegmentTest := solver_segments epsilon.

(** Lines 255-263 for one point set: [solved = {}] is shared by the
    patterns, and every pattern writes the line of [pathStringBulk]. *)
Definition bulk_lines (fuel j : nat) (points : list Pt) : St memo (list (pstring * nat)) :=
  st_fold (pattern_range j) [] (fun out i =>
    line <- pathStringBulk fuel points (pattern_of j i) ;;
    st_ret (out ++ [line])).

(** [for j in range(start, stop + 1)], one list of draws per [j]. *)
Fixpoint all_sets (fuel : nat) (js : list nat) (draws : list (list Pt)) : res (list (pstring * nat)) :=
  match js, draws with
  | j :: js', d :: draws' =>
    let points := sort_by_neg_y (Solver.generatePoints epsilon j d) in
    r <-? bulk_lines fuel j points ∅ ;;
    rest <-? all_sets fuel js' draws' ;;
    Ok (r.1 ++ rest)
  | _, _ => Ok []
  end.

(** [generateAllPathStrings(start, stop)]: line 251 reads [points]
    before line 253 assigns it. *)
Definition generateAllPathStrings (fuel start stop : nat) (draws : list (list Pt))
    : res (list (pstring * nat)) :=
  u <-? (Raise NameError : res unit) ;;
  all_sets fuel (seq start (S stop - start)) draws.

(** One pattern on a memo of final entries writes the number of
    reference solutions and keeps the memo final. *)
Lemma bulk_line fuel P s m :
  1 <= length s <= fuel -> length P = S (length s) -> memo_all (dspec P loop_range) m ->
  exists m', pathStringBulk fuel P s m = Ok ((s, length (solutions loop_range P s)), m')
             /\ memo_all (dspec P loop_range) m'.
Proof.
  intros Hf HP Hm.
  destruct (pathString_contract P fuel s m) as (m' & Hr & Hpost); [done|lia|by apply memo_all_below|].
  rewrite take_ge in Hr by lia. exists m'. split; [|by apply (memo_post_all _ s m)].
  destruct Hpost as (_ & Hk & _). rewrite dspec_full in Hk by done.
  unfold pathStringBulk. st_step Hr. st_run @st_get_Ok. rewrite Hk. st_run @st_lift_Ok. done.
Qed.

Lemma bulk_fold_run fuel j P indices out m :
  2 <= j -> j - 1 <= fuel -> length P = j -> (forall i, i ∈ indices -> i < 2 ^ (j - 1)) ->
  memo_all (dspec P loop_range) m ->
  exists m', st_fold indices out (fun out i =>
                line <- pathStringBulk fuel P (pattern_of j i) ;; st_ret (out ++ [line])) m
    = Ok (out ++ map (fun i => (pattern_of j i, length (solutions loop_range P (pattern_of j i)))) indices, m').
Proof.
  intros Hj Hf HP. revert out m. induction indices as [|i indices IH]; intros out m Hi Hm.
  { exists m. simpl. by rewrite app_nil_r. }
  pose proof (length_pattern_of j i Hj (Hi i (list_elem_of_here _ _))) as Hs.
  destruct (bulk_line fuel P (pattern_of j i) m) as (m1 & Hb & Hm1); [lia|lia|done|].
  cbn [st_fold]. rewrite st_bind_assoc. st_step Hb. st_run @st_ret_Ok.
  destruct (IH (out ++ [(pattern_of j i, length (solutions loop_range P (pattern_of j i)))]) m1)
    as (m2 & Hr); [intros i' Hi'; apply Hi; by right|done|].
  exists m2. rewrite Hr. by rewrite <- app_assoc.
Qed.

End Batch.
End SolverDriver.

Module CleanDriver.
Section Trials.
Context (epsilon : Z).
#[local] Instance clean_segments : SegmentTest := python_segments epsilon.

(** The body of the inner loop of lines 382-391: [solved =
    pathStringDPWrapper(pointSets[i], string, solvedSets[i], True)],
    then [len(solved[string])], where [solved] is [None] or the memo
    [solvedSets[i]] itself. *)
Definition clean_trials_body (fuel : nat) (pointSets : list (list Pt)) (string : pstring) (i : nat)
    : St (list memo * list nat) unit :=
  st <- st_get ;;
  points <- st_lift (py_get pointSets i) ;;
  m <- st_lift (py_get st.1 i) ;;
  r <- st_lift (pathStringDPWrapper fuel points string true m) ;;
  sols <- st_lift (match r.1.1 with
                   | RetNone => Raise TypeError
                   | RetSolved => match r.2 !! string with Some v => Ok v | None => Raise KeyError end
                   end) ;;
  u <- st_put (<[i := r.2]> st.1, st.2 ++ [length sols]) ;;
  if length sols =? 0 then st_raise NameError else st_ret tt.

(** One pattern of lines 375-393: [arr = []], the inner loop, and the
    line [string, max(arr), partialOrderings(string, {})]. *)
Definition clean_trials_step (fuel numPoints : nat) (pointSets : list (list Pt))
    (out : list (pstring * nat * option nat)) (i : nat)
    : St (list memo * list nat) (list (pstring * nat * option nat)) :=
  let string := pattern_of numPoints i in
  u <- st_modify (fun st => (st.1, [])) ;;
  u <- st_for (seq 0 (length pointSets)) (clean_trials_body fuel pointSets string) ;;
  st <- st_get ;;
  c <- st_lift (py_max st.2) ;;
  po <- st_lift (res_map fst (partialOrderings fuel string ∅)) ;;
  st_ret (out ++ [(string, c, po)]).

(** [bunchOfTrials(n, numPoints, filename)]: line 365 calls
    [hullJumpingRecursive] on [tempPoints], which is unbound; lines
    368-372 would draw the point sets, sorted lowest first. *)
Definition bunchOfTrials (fuel n numPoints : nat) (draws : list (list Pt))
    : res (list (pstring * nat * option nat)) :=
  u <-? (Raise NameError : res unit) ;;
  let pointSets := map (fun d => sort_by_y (Clean.generatePoints epsilon numPoints d)) (take n draws) in
  r <-? st_fold (pattern_range numPoints) [] (clean_trials_step fuel numPoints pointSets)
          (replicate (length pointSets) ∅, []) ;;
  Ok r.1.

End Trials.
End CleanDriver.


