(* ===== verification/Output.v ===== *)
(** * Printing and drawing

    - [__repr__] of [Pt] (both files, lines 32-33 of CleanSolution.py)
      prints ["(" + str(self.x) + ", " + str(self.y) + ")"], with the
      coordinates as floats: for the integer coordinates of the model,
      [str] prints the decimal digits and [".0"] ([py_str_float], exact
      below [10^16]).  [parse_pt_repr]: the text gives the point back,
      so two points print alike only when they are equal.
    - [LineSegment.__repr__] of CleanSolution.py (lines 109-110) prints
      the two endpoints joined by [" to "]; Solver.py's (lines 84-85)
      reads the names [p1] and [pt2], which Solver.py does not define:
      printing a segment there raises [NameError].
    - [print(hullJumping(...))] at line 547 of CleanSolution.py prints
      the list of paths with Python's list [repr] ([script_line547]).
      The dictionary line 548 prints lists its keys in insertion order,
      which the model's maps do not keep; it is not modelled.
    - [display(points, lines, win)] of CleanSolution.py (lines 138-145)
      draws the points and the segments with [y] flipped by the window
      height; [Pt.display] (lines 17-25) calls [Circle(point)] without
      the radius [graphics.Circle(center, radius)] requires, so drawing
      a point raises [TypeError] ([clean_display]). *)

From S2P Require Import Prelude Geometry ScreenSaver Script.
From stdpp Require Import base list.
From Stdlib Require Import ZArith String Ascii Decimal DecimalZ.

Local Open Scope string_scope.

(** Let [simpl] compute [++] on strings, which stdpp leaves folded. *)
#[local] Arguments String.append : simpl nomatch.

(** ** [str] of an integer-valued float *)

Fixpoint uint_to_string (u : uint) : string :=
  match u with
  | Nil => ""
  | D0 u => String "0" (uint_to_string u)
  | D1 u => String "1" (uint_to_string u)
  | D2 u => String "2" (uint_to_string u)
  | D3 u => String "3" (uint_to_string u)
  | D4 u => String "4" (uint_to_string u)
  | D5 u => String "5" (uint_to_string u)
  | D6 u => String "6" (uint_to_string u)
  | D7 u => String "7" (uint_to_string u)
  | D8 u => String "8" (uint_to_string u)
  | D9 u => String "9" (uint_to_string u)
  end.

Definition int_to_string (i : signed_int) : string :=
  match i with
  | Pos u => uint_to_string u
  | Neg u => String "-" (uint_to_string u)
  end.

(** [str(float(z))] for an integer [z] of less than 17 digits. *)
Definition py_str_float (z : Z) : string := int_to_string (Z.to_int z) ++ ".0".

(** ** [__repr__] *)

(** [Pt.__repr__]. *)
Definition Pt_repr (p : Pt) : string :=
  "(" ++ py_str_float (x p) ++ ", " ++ py_str_float (y p) ++ ")".

(** [LineSegment.__repr__] of CleanSolution.py. *)
Definition LineSegment_repr (s : LineSegment) : string :=
  Pt_repr (pt1 s) ++ " to " ++ Pt_repr (pt2 s).

(** [LineSegment.__repr__] of Solver.py: [p1] is not defined. *)
Definition solver_LineSegment_repr (s : LineSegment) : res string := Raise NameError.

(** Python's [repr] of a list. *)
Definition py_list_repr {A} (f : A -> string) (l : list A) : string :=
  "[" ++ String.concat ", " (map f l) ++ "]".

(** Line 547: [print(hullJumping(generatePoints(1000,1000,5), "UDUU"))]. *)
Definition script_line547 (epsilon : Z) (walk fuel : nat) (draws1 draws2 : list Pt) : res string :=
  res_map (fun out => py_list_repr (py_list_repr Pt_repr) out ++ String (ascii_of_nat 10) "")
          (fst (script epsilon walk fuel draws1 draws2)).

(** ** [display] of CleanSolution.py *)

(** [Point(self.x, win.height - self.y)], as [LineSegment.display] (lines 78-79) and [Pt.display] (line 21) place a point. *)
Definition flip_y (height : Z) (p : Pt) : Pt := mkPt (x p) (height - y p).

(** [display(points, lines, win)] on a window of height [height]:
    [Circle(point)] lacks its radius, so the first point raises
    [TypeError]; with no point, the segments are drawn flipped. *)
Definition clean_display (height : Z) (points : list Pt) (lines : list LineSegment) : res scene :=
  match points with
  | [] => Ok (mkScene [] (map (fun l => (flip_y height (pt1 l), flip_y height (pt2 l))) lines) [])
  | _ :: _ => Raise TypeError
  end.

(** ** Reading a point back *)

Definition char_digit (c : ascii) : option (uint -> uint) :=
  match c with
  | "0"%char => Some D0 | "1"%char => Some D1 | "2"%char => Some D2 | "3"%char => Some D3
  | "4"%char => Some D4 | "5"%char => Some D5 | "6"%char => Some D6 | "7"%char => Some D7
  | "8"%char => Some D8 | "9"%char => Some D9 | _ => None
  end.

Fixpoint parse_uint (s : string) : uint * string :=
  match s with
  | String c s' =>
    match char_digit c with
    | Some d => let '(u, r) := parse_uint s' in (d u, r)
    | None => (Nil, s)
    end
  | EmptyString => (Nil, EmptyString)
  end.

Definition parse_int (s : string) : signed_int * string :=
  match s with
  | String "-" s' => let '(u, r) := parse_uint s' in (Neg u, r)
  | _ => let '(u, r) := parse_uint s in (Pos u, r)
  end.

Definition parse_pt (s : string) : option Pt :=
  match s with
  | String "(" s1 =>
    let '(i1, s2) := parse_int s1 in
    match s2 with
    | String "." (String "0" (String "," (String " " s3))) =>
      let '(i2, s4) := parse_int s3 in
      if string_dec s4 ".0)" then Some (mkPt (Z.of_int i1) (Z.of_int i2)) else None
    | _ => None
    end
  | _ => None
  end.

(** Digits stop at a character that is not a digit. *)
Lemma parse_uint_app u c rest :
  char_digit c = None -> parse_uint (uint_to_string u ++ String c rest) = (u, String c rest).
Proof. intros Hc. induction u; simpl; rewrite ?IHu; [by rewrite Hc|done..]. Qed.

Lemma parse_int_app i rest :
  parse_int (int_to_string i ++ String "." rest) = (i, String "." rest).
Proof.
  destruct i as [u|u]; simpl.
  - destruct u; simpl; by rewrite ?parse_uint_app.
  - by rewrite parse_uint_app.
Qed.

Lemma string_app_assoc (a b c : string) :
  String.append (String.append a b) c = String.append a (String.append b c).
Proof. induction a as [|ch a IH]; simpl; [done|by rewrite IH]. Qed.

(** C35. The text [Pt.__repr__] prints, ["(" + str(x) + ", " + str(y) +
    ")"] with the coordinates as floats, reads back to the point: the
    printed form loses nothing, so two points print alike only when they
    are equal. *)
Theorem parse_pt_repr p : parse_pt (Pt_repr p) = Some p.
Proof.
  destruct p as [px py]. unfold Pt_repr, py_str_float. rewrite !string_app_assoc. simpl.
  rewrite parse_int_app. simpl. rewrite parse_int_app. simpl.
  by rewrite !DecimalZ.of_to.
Qed.
